(** * Betweenness centrality on distributed Galois (bc/gen.cpp)

    A shallow embedding of the functors of
    [exp/apps/compiler_outputs/bc/gen.cpp] (InitializeGraph,
    InitializeIteration, FirstIterationSSSP, SSSP, PredAndSucc,
    NumShortestPaths(Changes), DependencyPropogation / DependencyPropChanges
    and BC) together with the properties of the specification that talk
    about them.

    Scope of the model.
    - One host.  The partitioned graph ([hGraph]) and its [sync] collective
      live in headers that are not part of the sources; on one host every
      node is owned, there are no mirrors, and a [sync] call exchanges
      nothing.  The model therefore records every [sync] call (roles,
      reduction, field, whether a dirty bitset is named) in a log and leaves
      node data unchanged.
    - The dirty bitsets are only written by the functors; they are read and
      cleared by the [sync] machinery alone, so the model keeps the name of
      the bitset in the logged call and not its bits.
    - [Galois::do_all] is modelled by its serial schedule: the operator is
      applied to the nodes in the order of the iteration range.
    - [assert] is modelled with assertions enabled: a failed assertion
      aborts the run ([AssertFail]).
    - [uint32_t] is [Z] with explicit wrap-around, [float] is IEEE-754
      binary32 through [SpecFloat] (precision 24, emax 128). *)

From Stdlib Require Import ZArith List Bool Lia Arith PeanoNat String.
From Stdlib Require Import Permutation.
From Stdlib Require Import SpecFloat.
Import ListNotations.
Local Open Scope Z_scope.

(* ------------------------------------------------------------------ *)
(** ** Machine arithmetic *)

Definition wrap32 (z : Z) : Z := z mod 2 ^ 32.

Definition wrap64 (z : Z) : Z := z mod 2 ^ 64.

Definition UINT32_MAX : Z := 2 ^ 32 - 1.

(** [const uint32_t infinity = std::numeric_limits<uint32_t>::max() / 4;] *)
Definition infinity : Z := UINT32_MAX / 4.

Definition is_u32 (z : Z) : Prop := 0 <= z <= UINT32_MAX.

(** binary32 and binary64 arithmetic, round to nearest even *)
Module F32.
Definition prec : Z := 24.
Definition emax : Z := 128.
Definition t := spec_float.
Definition zero : t := S754_zero false.
Definition add (x y : t) : t := SFadd prec emax x y.
Definition mul (x y : t) : t := SFmul prec emax x y.
Definition div (x y : t) : t := SFdiv prec emax x y.
(** [(float) n] for an unsigned integer [n] *)
Definition of_u32 (n : Z) : t := binary_normalize prec emax n 0 false.
End F32.

Module F64.
Definition prec : Z := 53.
Definition emax : Z := 1024.
Definition t := spec_float.
Definition zero : t := S754_zero false.
Definition one : t := binary_normalize prec emax 1 0 false.
Definition add (x y : t) : t := SFadd prec emax x y.
Definition ltb (x y : t) : bool := SFltb x y.
(** the implicit promotion [float -> double]; exact *)
Definition of_f32 (x : F32.t) : t :=
    match x with
    | S754_finite s m e => binary_normalize prec emax (cond_Zopp s (Zpos m)) e s
    | _ => x
    end.
(** the conversion [(float) d] of a double, rounding to nearest even *)
Definition to_f32 (x : t) : F32.t :=
    match x with
    | S754_finite s m e =>
        binary_normalize F32.prec F32.emax (cond_Zopp s (Zpos m)) e s
    | _ => x
    end.
End F64.

(** [x > 0.0] for a [float] [x]: the literal is a double, [x] is promoted *)
Definition f32_gt_zero (x : F32.t) : bool := F64.ltb F64.zero (F64.of_f32 x).

(* ------------------------------------------------------------------ *)
(** ** Node data and the graph *)

Definition GNode := nat.

Record NodeData := mkNodeData {
  current_length : Z;
  old_length : Z;
  num_shortest_paths : Z;
  num_successors : Z;
  num_predecessors : Z;
  trim : Z;
  to_add : Z;
  to_add_float : F32.t;
  dependency : F32.t;
  betweeness_centrality : F32.t;
  propogation_flag : bool
}.

Definition set_current_length (v : Z) (d : NodeData) : NodeData :=
  mkNodeData v (old_length d) (num_shortest_paths d) (num_successors d)
    (num_predecessors d) (trim d) (to_add d) (to_add_float d) (dependency d)
    (betweeness_centrality d) (propogation_flag d).
Definition set_old_length (v : Z) (d : NodeData) : NodeData :=
  mkNodeData (current_length d) v (num_shortest_paths d) (num_successors d)
    (num_predecessors d) (trim d) (to_add d) (to_add_float d) (dependency d)
    (betweeness_centrality d) (propogation_flag d).
Definition set_num_shortest_paths (v : Z) (d : NodeData) : NodeData :=
  mkNodeData (current_length d) (old_length d) v (num_successors d)
    (num_predecessors d) (trim d) (to_add d) (to_add_float d) (dependency d)
    (betweeness_centrality d) (propogation_flag d).
Definition set_num_successors (v : Z) (d : NodeData) : NodeData :=
  mkNodeData (current_length d) (old_length d) (num_shortest_paths d) v
    (num_predecessors d) (trim d) (to_add d) (to_add_float d) (dependency d)
    (betweeness_centrality d) (propogation_flag d).
Definition set_num_predecessors (v : Z) (d : NodeData) : NodeData :=
  mkNodeData (current_length d) (old_length d) (num_shortest_paths d)
    (num_successors d) v (trim d) (to_add d) (to_add_float d) (dependency d)
    (betweeness_centrality d) (propogation_flag d).
Definition set_trim (v : Z) (d : NodeData) : NodeData :=
  mkNodeData (current_length d) (old_length d) (num_shortest_paths d)
    (num_successors d) (num_predecessors d) v (to_add d) (to_add_float d)
    (dependency d) (betweeness_centrality d) (propogation_flag d).
Definition set_to_add (v : Z) (d : NodeData) : NodeData :=
  mkNodeData (current_length d) (old_length d) (num_shortest_paths d)
    (num_successors d) (num_predecessors d) (trim d) v (to_add_float d)
    (dependency d) (betweeness_centrality d) (propogation_flag d).
Definition set_to_add_float (v : F32.t) (d : NodeData) : NodeData :=
  mkNodeData (current_length d) (old_length d) (num_shortest_paths d)
    (num_successors d) (num_predecessors d) (trim d) (to_add d) v
    (dependency d) (betweeness_centrality d) (propogation_flag d).
Definition set_dependency (v : F32.t) (d : NodeData) : NodeData :=
  mkNodeData (current_length d) (old_length d) (num_shortest_paths d)
    (num_successors d) (num_predecessors d) (trim d) (to_add d)
    (to_add_float d) v (betweeness_centrality d) (propogation_flag d).
Definition set_betweeness_centrality (v : F32.t) (d : NodeData) : NodeData :=
  mkNodeData (current_length d) (old_length d) (num_shortest_paths d)
    (num_successors d) (num_predecessors d) (trim d) (to_add d)
    (to_add_float d) (dependency d) v (propogation_flag d).
Definition set_propogation_flag (v : bool) (d : NodeData) : NodeData :=
  mkNodeData (current_length d) (old_length d) (num_shortest_paths d)
    (num_successors d) (num_predecessors d) (trim d) (to_add d)
    (to_add_float d) (dependency d) (betweeness_centrality d) v.

(** Node storage: [graph->getData(n)] for a local id [n]. *)
Definition NodeMap := GNode -> NodeData.

Definition upd (nd : NodeMap) (n : GNode) (d : NodeData) : NodeMap :=
  fun m => if Nat.eqb m n then d else nd m.

(** [modify nd n f]: the effect of [auto& x = graph->getData(n); x = f(x)] *)
Definition modify (nd : NodeMap) (n : GNode) (f : NodeData -> NodeData)
  : NodeMap := upd nd n (f (nd n)).

(** The local part of the partitioned graph, as the functors see it. *)
Record Graph := mkGraph {
  numNodes : nat;                   (* local ids are 0 .. numNodes-1 *)
  edge_dsts : GNode -> list GNode;  (* edge_begin .. edge_end, getEdgeDst *)
  getGID : GNode -> Z;
  isLocal : Z -> bool;
  getLID : Z -> GNode;
  is_vertex_cut : bool;
  totalNodes : Z
}.

(** [_graph.begin() .. _graph.end()] *)
Definition all_nodes (g : Graph) : list GNode := seq 0 (numNodes g).

(** A graph held by one host: local and global ids coincide. *)
Definition one_host (n : nat) (es : GNode -> list GNode) (vcut : bool)
  : Graph :=
  mkGraph n es Z.of_nat (fun z => (0 <=? z) && (z <? Z.of_nat n))
    Z.to_nat vcut (Z.of_nat n).

(* ------------------------------------------------------------------ *)
(** ** The sync collective, as a log of calls *)

Inductive Role := Source | Destination | Any.
Inductive ReduceOp := Reduce_min | Reduce_add | Reduce_set.
Inductive Field :=
| F_current_length | F_num_shortest_paths | F_num_successors
| F_num_predecessors | F_trim | F_to_add | F_to_add_float | F_dependency
| F_propogation_flag.

Record SyncCall := mkSync {
  write_role : Role;
  read_role : Role;
  reduce_op : ReduceOp;
  field : Field;
  with_bitset : bool;
  loop_name : string
}.

Record World := mkWorld {
  nodes : NodeMap;
  syncs : list SyncCall
}.

Definition sync (c : SyncCall) (w : World) : World :=
  mkWorld (nodes w) (syncs w ++ [c]).

Definition with_nodes (w : World) (nd : NodeMap) : World :=
  mkWorld nd (syncs w).

(* ------------------------------------------------------------------ *)
(** ** Outcomes: normal completion, a failed [assert], or no more fuel *)

Inductive Res (A : Type) :=
| Ok (a : A)
| AssertFail (msg : string)
| OutOfFuel.
Arguments Ok {A} a.
Arguments AssertFail {A} msg.
Arguments OutOfFuel {A}.

Definition bind {A B} (r : Res A) (k : A -> Res B) : Res B :=
  match r with
  | Ok a => k a
  | AssertFail m => AssertFail m
  | OutOfFuel => OutOfFuel
  end.

Notation "x <- c ;; k" := (bind c (fun x => k))
  (at level 61, c at next level, right associativity).

Definition assert (b : bool) (msg : string) : Res unit :=
  if b then Ok tt else AssertFail msg.

(** [Galois::do_all(range, op)] in its serial schedule *)
Definition do_all {S} (range : list GNode) (op : GNode -> S -> S) (s : S)
  : S := fold_left (fun s n => op n s) range s.

Fixpoint do_all_res {S} (range : list GNode) (op : GNode -> S -> Res S)
  (s : S) : Res S :=
  match range with
  | [] => Ok s
  | n :: rest => s' <- op n s ;; do_all_res rest op s'
  end.

(** Modelled from the spec: [Galois::atomicMin], [Galois::atomicAdd] and
    [Galois::add] come from Galois/Runtime/CompilerHelperFunctions.h, which
    is not among the sources.  [atomicMin(a, b)] stores [min(a, b)] and
    returns the previous value (line 635 compares the result with the
    candidate); [atomicAdd] and [add] are [a += b] on the field's type. *)
Definition atomicMin (a b : Z) : Z * Z := (Z.min a b, a).
Definition atomicAdd (a b : Z) : Z := wrap32 (a + b).

(* ------------------------------------------------------------------ *)
(** ** Sync calls issued by the functors (names as in the source) *)

Definition sync_InitializeGraph : list SyncCall :=
  [ mkSync Source Destination Reduce_set F_num_shortest_paths false
      "InitializeGraph_num_paths";
    mkSync Source Destination Reduce_set F_num_successors false
      "InitializeIteration_num_succ";
    mkSync Source Destination Reduce_set F_num_predecessors false
      "InitializeGraph_num_pred";
    mkSync Source Destination Reduce_set F_trim false "InitializeGraph_trim";
    mkSync Source Destination Reduce_set F_to_add false
      "InitializeGraph_to_add";
    mkSync Source Destination Reduce_set F_to_add_float false
      "InitializeGraph_to_add_float";
    mkSync Source Destination Reduce_set F_propogation_flag false
      "InitializeIteration_prop_flag" ].

Definition sync_InitializeIteration_dep : SyncCall :=
  mkSync Source Destination Reduce_set F_dependency false
    "InitializeIteration_dep".
Definition sync_InitializeIteration_cur_len : SyncCall :=
  mkSync Source Destination Reduce_set F_current_length false
    "InitializeIteration_cur_len".

Definition sync_FirstIterationSSSP_cur_len : SyncCall :=
  mkSync Destination Source Reduce_min F_current_length true
    "FirstIterationSSSP_cur_len".
Definition sync_SSSP_cur_len : SyncCall :=
  mkSync Destination Source Reduce_min F_current_length true "SSSP_cur_len".
Definition sync_SSSP_cur_len_any_v : SyncCall :=
  mkSync Destination Any Reduce_min F_current_length false
    "SSSP_cur_len_any_v".
Definition sync_SSSP_cur_len_any : SyncCall :=
  mkSync Destination Any Reduce_min F_current_length true "SSSP_cur_len_any".

Definition sync_PredAndSucc_pred : SyncCall :=
  mkSync Destination Source Reduce_add F_num_predecessors true
    "PredAndSucc_pred".
Definition sync_PredAndSucc_succ : SyncCall :=
  mkSync Source Any Reduce_add F_num_successors true "PredAndSucc_succ".

Definition sync_NumShortestPaths_trim : SyncCall :=
  mkSync Destination Source Reduce_add F_trim true "NumShortestPaths_trim".
Definition sync_NumShortestPaths_to_add : SyncCall :=
  mkSync Destination Source Reduce_add F_to_add true
    "NumShortestPaths_to_add".
Definition sync_NumShortestPaths_num_paths : SyncCall :=
  mkSync Source Destination Reduce_set F_num_shortest_paths true
    "NumShortestPaths_num_paths".
Definition sync_NumShortestPaths_prop_flag : SyncCall :=
  mkSync Source Destination Reduce_set F_propogation_flag true
    "NumShortestPaths_prop_flag".

Definition sync_DependencyPropChanges_prop_flag : SyncCall :=
  mkSync Source Destination Reduce_set F_propogation_flag true
    "DependencyPropChanges_prop_flag".
Definition sync_DependencyPropogation_trim : SyncCall :=
  mkSync Source Source Reduce_add F_trim true "DependencyPropogation_trim".
Definition sync_DependencyPropogation_to_add_float : SyncCall :=
  mkSync Source Source Reduce_add F_to_add_float true
    "DependencyPropogation_to_add_float".
Definition sync_DependencyPropogation_dep : SyncCall :=
  mkSync Source Destination Reduce_set F_dependency true
    "DependencyPropogation_dep".

(* ------------------------------------------------------------------ *)
(** ** InitializeGraph *)

Definition InitializeGraph_op (src : GNode) (nd : NodeMap) : NodeMap :=
  modify nd src (fun d =>
    set_propogation_flag false
      (set_dependency F32.zero
        (set_to_add_float F32.zero
          (set_to_add 0
            (set_trim 0
              (set_num_predecessors 0
                (set_num_successors 0
                  (set_num_shortest_paths 0
                    (set_betweeness_centrality F32.zero d))))))))).

Definition InitializeGraph_go (g : Graph) (w : World) : World :=
  let nd := do_all (all_nodes g) InitializeGraph_op (nodes w) in
  fold_left (fun w c => sync c w) sync_InitializeGraph (with_nodes w nd).

(* ------------------------------------------------------------------ *)
(** ** InitializeIteration *)

Definition InitializeIteration_op (local_infinity local_current_src_node : Z)
  (g : Graph) (src : GNode) (nd : NodeMap) : Res NodeMap :=
  let is_source := getGID g src =? local_current_src_node in
  let nd1 :=
    if negb is_source then
      modify (modify nd src (set_current_length local_infinity))
        src (set_old_length local_infinity)
    else
      modify nd src (fun d =>
        set_propogation_flag true
          (set_num_shortest_paths 1
            (set_old_length 0 (set_current_length 0 d)))) in
  if negb is_source then
    _ <- assert (negb (propogation_flag (nd1 src)))
           "!src_data.propogation_flag" ;;
    Ok nd1
  else Ok nd1.

Definition InitializeIteration_go (g : Graph) (current_src_node : Z)
  (w : World) : Res World :=
  nd <- do_all_res (all_nodes g)
          (InitializeIteration_op infinity current_src_node g) (nodes w) ;;
  Ok (sync sync_InitializeIteration_cur_len
        (sync sync_InitializeIteration_dep (with_nodes w nd))).

(* ------------------------------------------------------------------ *)
(** ** FirstIterationSSSP and SSSP (breadth-first distances) *)

Definition FirstIterationSSSP_relax (src : GNode) (nd : NodeMap)
  (dst : GNode) : NodeMap :=
  let new_dist := wrap32 (1 + current_length (nd src)) in
  modify nd dst (fun d =>
    set_current_length (fst (atomicMin (current_length d) new_dist)) d).

Definition FirstIterationSSSP_op (g : Graph) (src : GNode) (nd : NodeMap)
  : NodeMap :=
  fold_left (FirstIterationSSSP_relax src) (edge_dsts g src) nd.

Definition FirstIterationSSSP_go (g : Graph) (current_src_node : Z)
  (w : World) : World :=
  let range :=
    if isLocal g current_src_node then [getLID g current_src_node] else [] in
  sync sync_FirstIterationSSSP_cur_len
    (with_nodes w (do_all range (FirstIterationSSSP_op g) (nodes w))).

(** The operator of [SSSP]; the second component is the host's share of
    [DGAccumulator_accum]. *)
Definition SSSP_relax (src : GNode) (s : NodeMap * Z) (dst : GNode)
  : NodeMap * Z :=
  let '(nd, acc) := s in
  let new_dist := wrap32 (1 + current_length (nd src)) in
  let '(m, old) := atomicMin (current_length (nd dst)) new_dist in
  let nd' := modify nd dst (set_current_length m) in
  if old >? new_dist then (nd', wrap32 (acc + 1)) else (nd', acc).

Definition SSSP_op (g : Graph) (src : GNode) (s : NodeMap * Z)
  : NodeMap * Z :=
  let '(nd, acc) := s in
  if old_length (nd src) >? current_length (nd src) then
    let nd1 := modify nd src (fun d => set_old_length (current_length d) d) in
    fold_left (SSSP_relax src) (edge_dsts g src) (nd1, acc)
  else (nd, acc).

(** One pass of the [do ... while] body up to [DGAccumulator_accum.reduce()]:
    the accumulator is reset, the operator runs over all nodes, and on one
    host the reduction is the local value. *)
Definition SSSP_round (g : Graph) (w : World) : World * Z :=
  let '(nd, acc) := do_all (all_nodes g) (SSSP_op g) (nodes w, 0) in
  (with_nodes w nd, acc).

Definition SSSP_final_sync (g : Graph) (w : World) : World :=
  if is_vertex_cut g then sync sync_SSSP_cur_len_any_v w
  else sync sync_SSSP_cur_len_any w.

Fixpoint SSSP_loop (fuel : nat) (g : Graph) (w : World) : Res World :=
  match fuel with
  | O => OutOfFuel
  | S fuel' =>
      let '(w1, accum_result) := SSSP_round g w in
      if accum_result =? 0 then Ok (SSSP_final_sync g w1)
      else SSSP_loop fuel' g (sync sync_SSSP_cur_len w1)
  end.

Definition SSSP_go (fuel : nat) (g : Graph) (current_src_node : Z)
  (w : World) : Res World :=
  SSSP_loop fuel g (FirstIterationSSSP_go g current_src_node w).

(* ------------------------------------------------------------------ *)
(** ** PredAndSucc *)

Definition PredAndSucc_edge (src : GNode) (nd : NodeMap) (dst : GNode)
  : NodeMap :=
  let edge_weight := 1 in
  if wrap32 (current_length (nd src) + edge_weight)
       =? current_length (nd dst) then
    let nd1 := modify nd src (fun d =>
                 set_num_successors (wrap32 (num_successors d + 1)) d) in
    modify nd1 dst (fun d =>
      set_num_predecessors (atomicAdd (num_predecessors d) 1) d)
  else nd.

Definition PredAndSucc_op (local_infinity : Z) (g : Graph) (src : GNode)
  (nd : NodeMap) : NodeMap :=
  if negb (current_length (nd src) =? local_infinity) then
    fold_left (PredAndSucc_edge src) (edge_dsts g src) nd
  else nd.

Definition PredAndSucc_go (g : Graph) (w : World) : World :=
  let nd := do_all (all_nodes g) (PredAndSucc_op infinity g) (nodes w) in
  sync sync_PredAndSucc_succ (sync sync_PredAndSucc_pred (with_nodes w nd)).

(* ------------------------------------------------------------------ *)
(** ** NumShortestPathsChanges and NumShortestPaths *)

Definition NumShortestPathsChanges_op (g : Graph) (src : GNode)
  (nd : NodeMap) : Res NodeMap :=
  nd1 <- (if trim (nd src) >? 0 then
            _ <- assert (trim (nd src) <=? num_predecessors (nd src))
                   "src_data.trim <= src_data.num_predecessors" ;;
            let nd1 := modify nd src (fun d =>
                         set_num_predecessors
                           (wrap32 (num_predecessors d - trim d)) d) in
            let nd2 := modify nd1 src (set_trim 0) in
            if num_predecessors (nd2 src) =? 0 then
              _ <- assert (negb (propogation_flag (nd2 src)))
                     "!src_data.propogation_flag" ;;
              Ok (modify nd2 src (set_propogation_flag true))
            else Ok nd2
          else Ok nd) ;;
  if to_add (nd1 src) >? 0 then
    let nd2 := modify nd1 src (fun d =>
                 set_num_shortest_paths
                   (wrap32 (num_shortest_paths d + to_add d)) d) in
    Ok (modify nd2 src (set_to_add 0))
  else Ok nd1.

Definition NumShortestPathsChanges_go (g : Graph) (w : World) : Res World :=
  nd <- do_all_res (all_nodes g) (NumShortestPathsChanges_op g) (nodes w) ;;
  Ok (with_nodes w nd).

Definition NumShortestPaths_edge (src : GNode) (s : NodeMap * Z)
  (dst : GNode) : NodeMap * Z :=
  let '(nd, acc) := s in
  let edge_weight := 1 in
  let paths_to_add := num_shortest_paths (nd src) in
  if wrap32 (current_length (nd src) + edge_weight)
       =? current_length (nd dst) then
    let nd1 := modify nd dst (fun d =>
                 set_to_add (atomicAdd (to_add d) paths_to_add) d) in
    let nd2 := modify nd1 dst (fun d => set_trim (atomicAdd (trim d) 1) d) in
    (nd2, wrap32 (acc + 1))
  else (nd, acc).

Definition NumShortestPaths_op (local_infinity : Z) (g : Graph)
  (src : GNode) (s : NodeMap * Z) : NodeMap * Z :=
  let '(nd, acc) := s in
  if negb (current_length (nd src) =? local_infinity) then
    if propogation_flag (nd src) && (num_successors (nd src) >? 0) then
      let '(nd1, acc1) :=
        fold_left (NumShortestPaths_edge src) (edge_dsts g src) (nd, acc) in
      (modify nd1 src (set_propogation_flag false), acc1)
    else (nd, acc)
  else (nd, acc).

(** The propagation pass of one round, with the two syncs that follow it. *)
Definition NumShortestPaths_round (g : Graph) (w : World) : World * Z :=
  let '(nd, acc) :=
    do_all (all_nodes g) (NumShortestPaths_op infinity g) (nodes w, 0) in
  (sync sync_NumShortestPaths_to_add
     (sync sync_NumShortestPaths_trim (with_nodes w nd)), acc).

Fixpoint NumShortestPaths_loop (fuel : nat) (g : Graph) (w : World)
  : Res World :=
  match fuel with
  | O => OutOfFuel
  | S fuel' =>
      let '(w1, accum_result) := NumShortestPaths_round g w in
      w2 <- NumShortestPathsChanges_go g w1 ;;
      if accum_result =? 0 then
        Ok (sync sync_NumShortestPaths_prop_flag
              (sync sync_NumShortestPaths_num_paths w2))
      else NumShortestPaths_loop fuel' g w2
  end.

Definition NumShortestPaths_go (fuel : nat) (g : Graph) (w : World)
  : Res World := NumShortestPaths_loop fuel g w.

(* ------------------------------------------------------------------ *)
(** ** DependencyPropChanges and DependencyPropogation *)

Definition DependencyPropChanges_op (local_infinity : Z) (g : Graph)
  (src : GNode) (nd : NodeMap) : Res NodeMap :=
  if negb (current_length (nd src) =? local_infinity) then
    let nd1 :=
      if f32_gt_zero (to_add_float (nd src)) then
        modify
          (modify nd src (fun d =>
             set_dependency (F32.add (dependency d) (to_add_float d)) d))
          src (set_to_add_float F32.zero)
      else nd in
    if (num_successors (nd1 src) =? 0) && propogation_flag (nd1 src) then
      _ <- assert (trim (nd1 src) =? 0) "src_data.trim == 0" ;;
      let nd2 := modify nd1 src (set_propogation_flag false) in
      Ok (modify nd2 src (set_num_shortest_paths 0))
    else if trim (nd1 src) >? 0 then
      _ <- assert (trim (nd1 src) <=? num_successors (nd1 src))
             "src_data.trim <= src_data.num_successors" ;;
      let nd2 := modify nd1 src (fun d =>
                   set_num_successors (wrap32 (num_successors d - trim d)) d) in
      let nd3 := modify nd2 src (set_trim 0) in
      if num_successors (nd3 src) =? 0 then
        _ <- assert (negb (propogation_flag (nd3 src)))
               "!src_data.propogation_flag" ;;
        Ok (modify nd3 src (set_propogation_flag true))
      else Ok nd3
    else Ok nd1
  else Ok nd.

Definition DependencyPropChanges_go (g : Graph) (w : World) : Res World :=
  nd <- do_all_res (all_nodes g) (DependencyPropChanges_op infinity g)
          (nodes w) ;;
  Ok (sync sync_DependencyPropChanges_prop_flag (with_nodes w nd)).

(** [((float)paths(src) / (float)paths(dst)) * (float)(1.0 + dep(dst))] *)
Definition dependency_delta (src_paths dst_paths : Z) (dst_dependency : F32.t)
  : F32.t :=
  F32.mul (F32.div (F32.of_u32 src_paths) (F32.of_u32 dst_paths))
    (F64.to_f32 (F64.add F64.one (F64.of_f32 dst_dependency))).

Definition DependencyPropogation_edge (src : GNode) (s : NodeMap * Z)
  (dst : GNode) : NodeMap * Z :=
  let '(nd, acc) := s in
  let edge_weight := 1 in
  if propogation_flag (nd dst) then
    if wrap32 (current_length (nd src) + edge_weight)
         =? current_length (nd dst) then
      let nd1 := modify nd src (fun d => set_trim (atomicAdd (trim d) 1) d) in
      let delta := dependency_delta (num_shortest_paths (nd1 src))
                     (num_shortest_paths (nd1 dst)) (dependency (nd1 dst)) in
      let nd2 := modify nd1 src (fun d =>
                   set_to_add_float (F32.add (to_add_float d) delta) d) in
      (nd2, wrap32 (acc + 1))
    else (nd, acc)
  else (nd, acc).

Definition DependencyPropogation_op (local_infinity local_current_src_node : Z)
  (g : Graph) (src : GNode) (s : NodeMap * Z) : NodeMap * Z :=
  let '(nd, acc) := s in
  if negb (current_length (nd src) =? local_infinity) then
    if num_successors (nd src) >? 0 then
      if negb (getGID g src =? local_current_src_node) then
        fold_left (DependencyPropogation_edge src) (edge_dsts g src) (nd, acc)
      else (modify nd src (set_num_successors 0), acc)
    else (nd, acc)
  else (nd, acc).

Definition DependencyPropogation_round (g : Graph) (current_src_node : Z)
  (w : World) : World * Z :=
  let '(nd, acc) :=
    do_all (all_nodes g)
      (DependencyPropogation_op infinity current_src_node g) (nodes w, 0) in
  (sync sync_DependencyPropogation_to_add_float
     (sync sync_DependencyPropogation_trim (with_nodes w nd)), acc).

Fixpoint DependencyPropogation_loop (fuel : nat) (g : Graph)
  (current_src_node : Z) (w : World) : Res World :=
  match fuel with
  | O => OutOfFuel
  | S fuel' =>
      let '(w1, accum_result) :=
        DependencyPropogation_round g current_src_node w in
      w2 <- DependencyPropChanges_go g w1 ;;
      if accum_result =? 0 then Ok w2
      else DependencyPropogation_loop fuel' g current_src_node
             (sync sync_DependencyPropogation_dep w2)
  end.

Definition DependencyPropogation_go (fuel : nat) (g : Graph)
  (current_src_node : Z) (w : World) : Res World :=
  DependencyPropogation_loop fuel g current_src_node w.

(* ------------------------------------------------------------------ *)
(** ** BC: the driver over the sources *)

Definition BC_op (src : GNode) (nd : NodeMap) : NodeMap :=
  let nd1 := modify nd src (fun d =>
               set_betweeness_centrality
                 (F32.add (betweeness_centrality d) (dependency d)) d) in
  modify nd1 src (set_dependency F32.zero).

(** The body of the loop over the sources, cut after each phase; [fuel]
    bounds the rounds of each of the three round loops. *)
Definition BC_upto_SSSP (fuel : nat) (g : Graph) (i : Z) (w : World)
  : Res World :=
  w1 <- InitializeIteration_go g i w ;;
  SSSP_go fuel g i w1.

Definition BC_upto_NumShortestPaths (fuel : nat) (g : Graph) (i : Z)
  (w : World) : Res World :=
  w2 <- BC_upto_SSSP fuel g i w ;;
  NumShortestPaths_go fuel g (PredAndSucc_go g w2).

Definition BC_phases (fuel : nat) (g : Graph) (i : Z) (w : World)
  : Res World :=
  w4 <- BC_upto_NumShortestPaths fuel g i w ;;
  DependencyPropogation_go fuel g i w4.

Definition BC_iteration (fuel : nat) (g : Graph) (i : Z) (w : World)
  : Res World :=
  w5 <- BC_phases fuel g i w ;;
  Ok (with_nodes w5 (do_all (all_nodes g) BC_op (nodes w5))).

(** Command line options that select the sources.  [startSource] and
    [numberOfSources] are [cll::opt<unsigned int>]. *)
Record Options := mkOptions {
  singleSourceBC : bool;
  startSource : Z;
  numberOfSources : Z
}.

(** [start_i] and [end_i] are [uint64_t].  [startSource + 1] is computed
    in [unsigned int], so it wraps at 2^32 before it is widened;
    [start_i + numberOfSources] is computed in [uint64_t]. *)
Definition source_range (o : Options) (g : Graph) : Z * Z :=
  let start_i := startSource o in
  let end_i :=
    if singleSourceBC o then wrap32 (startSource o + 1)
    else if negb (numberOfSources o =? 0)
         then wrap64 (start_i + numberOfSources o)
    else totalNodes g in
  (start_i, end_i).

(** [for (uint64_t i = start_i; i < end_i; i++)] *)
Definition sources (o : Options) (g : Graph) : list Z :=
  let '(start_i, end_i) := source_range o g in
  map (fun k => start_i + Z.of_nat k) (seq 0 (Z.to_nat (end_i - start_i))).

Fixpoint BC_sources (fuel : nat) (g : Graph) (srcs : list Z) (w : World)
  : Res World :=
  match srcs with
  | [] => Ok w
  | i :: rest => w' <- BC_iteration fuel g i w ;; BC_sources fuel g rest w'
  end.

Definition BC_go (fuel : nat) (o : Options) (g : Graph) (w : World)
  : Res World := BC_sources fuel g (sources o g) w.

(** [main] for one run: [InitializeGraph::go] then [BC::go]. *)
Definition main_run (fuel : nat) (o : Options) (g : Graph) (w : World)
  : Res World := BC_go fuel o g (InitializeGraph_go g w).

(** Node data at graph construction. *)
Definition zero_data : NodeData :=
  mkNodeData 0 0 0 0 0 0 0 F32.zero F32.zero F32.zero false.

Definition fresh_world : World := mkWorld (fun _ => zero_data) [].

(* ------------------------------------------------------------------ *)
(** ** The graphs of the worked examples *)

(** The path s -> a -> b -> c, with s = 0, a = 1, b = 2, c = 3. *)
Definition path_edges (n : GNode) : list GNode :=
  match n with
  | 0%nat => [1%nat]
  | 1%nat => [2%nat]
  | 2%nat => [3%nat]
  | _ => []
  end.
Definition path_graph : Graph := one_host 4 path_edges false.

(** The diamond s -> a, s -> b, a -> t, b -> t on five nodes, with s = 0,
    a = 1, b = 2, t = 3; node 4 has no edge. *)
Definition diamond_edges (n : GNode) : list GNode :=
  match n with
  | 0%nat => [1%nat; 2%nat]
  | 1%nat => [3%nat]
  | 2%nat => [3%nat]
  | _ => []
  end.
Definition diamond_graph : Graph := one_host 5 diamond_edges false.

(** The directed cycle 0 -> 1 -> 2 -> 0. *)
Definition cycle_edges (n : GNode) : list GNode :=
  match n with
  | 0%nat => [1%nat]
  | 1%nat => [2%nat]
  | 2%nat => [0%nat]
  | _ => []
  end.
Definition cycle_graph : Graph := one_host 3 cycle_edges false.

(** The path graph again, held by a vertex-cut partition. *)
Definition path_graph_vcut : Graph := one_host 4 path_edges true.

Definition all_sources : Options := mkOptions false 0 0.

(** [returns r P]: the run [r] completes and its result satisfies [P]. *)
Definition returns {A} (r : Res A) (P : A -> Prop) : Prop :=
  match r with
  | Ok a => P a
  | _ => False
  end.

(** Membership test on node lists. *)
Definition mem (v : GNode) (l : list GNode) : bool := existsb (Nat.eqb v) l.

(** What InitializeIteration's operator does to the data of node [v]. *)
Definition InitializeIteration_node (g : Graph) (s : Z) (v : GNode)
  (d : NodeData) : NodeData :=
  if getGID g v =? s then
    set_propogation_flag true
      (set_num_shortest_paths 1 (set_old_length 0 (set_current_length 0 d)))
  else set_old_length infinity (set_current_length infinity d).

(** The state in which round [k] of the SSSP loop starts (rounds counted
    from 0 after FirstIterationSSSP), when none of the earlier rounds ended
    the loop. *)
Fixpoint SSSP_state_after (k : nat) (g : Graph) (w : World) : World :=
  match k with
  | O => w
  | S k' =>
      SSSP_state_after k' g (sync sync_SSSP_cur_len (fst (SSSP_round g w)))
  end.

(** A state in which node 1 has just been reached at distance 1. *)
Definition reached_1 : NodeMap :=
  fun v =>
    mkNodeData (match v with 1%nat => 1 | _ => infinity end) infinity
      0 0 0 0 0 F32.zero F32.zero F32.zero false.

(* ------------------------------------------------------------------ *)
(** ** Vocabulary of the invariants *)

Definition edges_of (g : Graph) (l : list GNode) : nat :=
  list_sum (map (fun u => List.length (edge_dsts g u)) l).

Definition num_edges (g : Graph) : nat := edges_of g (all_nodes g).

(** The local graphs the theorems range over: edges stay inside the local
    ids, the id translation is a bijection between local ids and the global
    ids the host holds, the number of nodes is below [infinity] and the
    number of edges fits [uint32_t]. *)
Record wf_graph (g : Graph) : Prop := mk_wf_graph {
  wf_edges : forall u v,
    (u < numNodes g)%nat -> In v (edge_dsts g u) -> (v < numNodes g)%nat;
  wf_gid : forall u,
    (u < numNodes g)%nat ->
    isLocal g (getGID g u) = true /\ getLID g (getGID g u) = u;
  wf_lid : forall s,
    isLocal g s = true ->
    (getLID g s < numNodes g)%nat /\ getGID g (getLID g s) = s;
  wf_nodes : Z.of_nat (numNodes g) < infinity;
  wf_num_edges : Z.of_nat (num_edges g) < 2 ^ 32
}.

Fixpoint Zsum (f : GNode -> Z) (l : list GNode) : Z :=
  match l with
  | [] => 0
  | v :: l' => f v + Zsum f l'
  end.

(** The fields that steer the phases after the breadth-first search. *)
Definition ctl (d : NodeData) : Z * Z * Z * bool :=
  (num_successors d, num_predecessors d, trim d, propogation_flag d).

Definition total_length (g : Graph) (nd : NodeMap) : Z :=
  Zsum (fun v => current_length (nd v)) (all_nodes g).

(** Invariant of the SSSP rounds for the source with global id [s]. *)
Record SSSP_inv (g : Graph) (s : Z) (nd : NodeMap) : Prop := mk_SSSP_inv {
  sssp_range : forall v, (v < numNodes g)%nat ->
    0 <= current_length (nd v) <= old_length (nd v) /\
    old_length (nd v) <= infinity;
  sssp_witness : forall v, (v < numNodes g)%nat ->
    current_length (nd v) <> infinity ->
    getGID g v = s \/
    exists u, (u < numNodes g)%nat /\ In v (edge_dsts g u) /\
              current_length (nd u) + 1 <= current_length (nd v);
  sssp_relaxed : forall u, (u < numNodes g)%nat ->
    old_length (nd u) = current_length (nd u) ->
    forall v, In v (edge_dsts g u) ->
              current_length (nd v) <= current_length (nd u) + 1;
  sssp_source : forall v, (v < numNodes g)%nat ->
    getGID g v = s -> current_length (nd v) = 0
}.

(** Every local node has recorded its distance in old_length: together
    with the invariant, every edge is relaxed. *)
Definition SSSP_done (g : Graph) (nd : NodeMap) : Prop :=
  forall u, (u < numNodes g)%nat -> old_length (nd u) = current_length (nd u).

(** What the later phases use from the breadth-first phase, for the source
    with global id [s]: distances are in range, the source is at 0, every
    other visited node has an incoming edge from a node one step closer,
    and a visited node is more than one step below [infinity]. *)
Record BFS_post (g : Graph) (s : Z) (nd : NodeMap) : Prop := mk_BFS_post {
  bfs_range : forall v, (v < numNodes g)%nat ->
    0 <= current_length (nd v) <= infinity;
  bfs_source : forall v, (v < numNodes g)%nat ->
    getGID g v = s -> current_length (nd v) = 0;
  bfs_pred : forall v, (v < numNodes g)%nat ->
    current_length (nd v) <> infinity -> getGID g v <> s ->
    exists u, (u < numNodes g)%nat /\ In v (edge_dsts g u) /\
              current_length (nd u) + 1 = current_length (nd v);
  bfs_bound : forall v, (v < numNodes g)%nat ->
    current_length (nd v) <> infinity -> current_length (nd v) + 1 < infinity
}.

(** [k] increments of a [uint32_t]. *)
Definition incr_n (k : nat) (a : Z) : Z :=
  Nat.iter k (fun x => wrap32 (x + 1)) a.

(** The DAG of shortest paths for a distance function [D]: the test the
    operators apply to an edge [u -> v], under their guard that [u] is
    visited. *)
Definition edge_ok (D : GNode -> Z) (u v : GNode) : bool :=
  wrap32 (D u + 1) =? D v.

Definition visited (D : GNode -> Z) (u : GNode) : bool :=
  negb (D u =? infinity).

Definition dag (D : GNode -> Z) (u v : GNode) : bool :=
  visited D u && edge_ok D u v.

(** Number of DAG edges from [u] to [v]. *)
Definition dag_to (g : Graph) (D : GNode -> Z) (u v : GNode) : nat :=
  List.length (filter (fun x => Nat.eqb x v && dag D u x) (edge_dsts g u)).

(** Number of DAG edges leaving [u] towards nodes that satisfy [Q]. *)
Definition dag_out (g : Graph) (D : GNode -> Z) (Q : GNode -> bool)
  (u : GNode) : nat :=
  List.length (filter (fun x => dag D u x && Q x) (edge_dsts g u)).

(** Number of DAG edges entering [v] from the nodes of [l] that satisfy
    [Q]. *)
Definition dag_in (g : Graph) (D : GNode -> Z) (Q : GNode -> bool)
  (l : list GNode) (v : GNode) : nat :=
  list_sum (map (fun u => if Q u then dag_to g D u v else 0%nat) l).

Definition everyone (_ : GNode) : bool := true.

(** [k] additions of [p] to a [uint32_t]. *)
Definition add_n (k : nat) (p a : Z) : Z :=
  Nat.iter k (fun x => wrap32 (x + p)) a.

(** The nodes that push in a round of the shortest-path counter: the guard
    of NumShortestPaths's operator. *)
Definition pusher (D : GNode -> Z) (nd : NodeMap) (u : GNode) : bool :=
  visited D u && (propogation_flag (nd u) && (num_successors (nd u) >? 0)).

(** Number of DAG edges leaving the nodes of [l] that satisfy [Q]. *)
Definition out_sum (g : Graph) (D : GNode -> Z) (Q : GNode -> bool)
  (l : list GNode) : nat :=
  list_sum (map (fun u => if Q u then dag_out g D everyone u else 0%nat) l).

(** What NumShortestPathsChanges's operator does to the data of a node
    when its assertions hold. *)
Definition NumShortestPathsChanges_node (d : NodeData) : NodeData :=
  let d1 :=
    if trim d >? 0 then
      let d2 := set_trim 0
                  (set_num_predecessors
                     (wrap32 (num_predecessors d - trim d)) d) in
      if num_predecessors d2 =? 0 then set_propogation_flag true d2 else d2
    else d in
  if to_add d1 >? 0 then
    set_to_add 0
      (set_num_shortest_paths (wrap32 (num_shortest_paths d1 + to_add d1)) d1)
  else d1.

(** The assertions of NumShortestPathsChanges's operator. *)
Definition NumShortestPathsChanges_pre (d : NodeData) : Prop :=
  trim d > 0 ->
  trim d <= num_predecessors d /\
  (wrap32 (num_predecessors d - trim d) = 0 -> propogation_flag d = false).

(** The distances are in range and a visited node is more than one step
    below [infinity]. *)
Record dist_ok (g : Graph) (D : GNode -> Z) : Prop := mk_dist_ok {
  dist_range : forall v, (v < numNodes g)%nat -> 0 <= D v <= infinity;
  dist_bound : forall v, (v < numNodes g)%nat ->
    visited D v = true -> D v + 1 < infinity
}.

(** A node that has not pushed yet in the shortest-path counter: it is
    flagged, or it still waits for predecessors. *)
Definition unpushed (nd : NodeMap) (u : GNode) : bool :=
  propogation_flag (nd u) || (0 <? num_predecessors (nd u)).

(** Invariant of the rounds of the shortest-path counter, at the start of
    a round, for the distances [D]. *)
Record NSP_inv (g : Graph) (D : GNode -> Z) (nd : NodeMap) : Prop :=
  mk_NSP_inv {
  nsp_dist : forall v, current_length (nd v) = D v;
  nsp_trim : forall v, (v < numNodes g)%nat -> trim (nd v) = 0;
  nsp_pred : forall v, (v < numNodes g)%nat ->
    num_predecessors (nd v)
    = Z.of_nat (dag_in g D (unpushed nd) (all_nodes g) v);
  nsp_succ : forall u, (u < numNodes g)%nat ->
    num_successors (nd u) = Z.of_nat (dag_out g D everyone u);
  nsp_flag : forall v, (v < numNodes g)%nat ->
    propogation_flag (nd v) = true ->
    num_predecessors (nd v) = 0 /\ visited D v = true;
  nsp_ready : forall v, (v < numNodes g)%nat ->
    visited D v = true -> num_successors (nd v) = 0 ->
    num_predecessors (nd v) = 0 -> propogation_flag (nd v) = true
}.

Definition total_predecessors (g : Graph) (nd : NodeMap) : Z :=
  Zsum (fun v => num_predecessors (nd v)) (all_nodes g).

(** The control fields after a round of the shortest-path counter
    (propagation pass, then Changes pass), in terms of the state [nd] in
    which the round started: every node loses as many predecessors as it
    has DAG edges from the nodes that pushed, a node whose count reaches 0
    is flagged, and a node that pushed is no longer flagged. *)
Definition NSP_next (g : Graph) (D : GNode -> Z) (nd nd2 : NodeMap) : Prop :=
  (forall v, current_length (nd2 v) = D v) /\
  forall v, (v < numNodes g)%nat ->
    let t := Z.of_nat (dag_in g D (pusher D nd) (all_nodes g) v) in
    trim (nd2 v) = 0 /\
    num_successors (nd2 v) = num_successors (nd v) /\
    num_predecessors (nd2 v) = num_predecessors (nd v) - t /\
    propogation_flag (nd2 v)
    = (if (0 <? t) && (num_predecessors (nd v) - t =? 0) then true
       else propogation_flag (nd v) && negb (pusher D nd v)).

(** The state in which the shortest-path counter ends: every predecessor
    count is back to 0, and the flagged nodes are exactly the visited nodes
    without DAG successor. *)
Record NSP_post (g : Graph) (D : GNode -> Z) (nd : NodeMap) : Prop :=
  mk_NSP_post {
  nspp_dist : forall v, current_length (nd v) = D v;
  nspp_zero : forall v, (v < numNodes g)%nat ->
    trim (nd v) = 0 /\ num_predecessors (nd v) = 0;
  nspp_succ : forall u, (u < numNodes g)%nat ->
    num_successors (nd u) = Z.of_nat (dag_out g D everyone u);
  nspp_flag : forall v, (v < numNodes g)%nat ->
    (propogation_flag (nd v) = true <->
     visited D v = true /\ num_successors (nd v) = 0)
}.

(** The state in which a source iteration starts: the control fields of
    every local node are clear. *)
Definition Iter_start (g : Graph) (nd : NodeMap) : Prop :=
  forall v, (v < numNodes g)%nat ->
    num_predecessors (nd v) = 0 /\ num_successors (nd v) = 0 /\
    trim (nd v) = 0 /\ propogation_flag (nd v) = false.

(** The state in which PredAndSucc starts, for the source with global id
    [s]: the breadth-first phase has reached its fixed point and only the
    source is flagged. *)
Record DAG_start (g : Graph) (s : Z) (nd : NodeMap) : Prop := mk_DAG_start {
  ds_bfs : BFS_post g s nd;
  ds_ctl : forall v, (v < numNodes g)%nat ->
    num_predecessors (nd v) = 0 /\ num_successors (nd v) = 0 /\
    trim (nd v) = 0 /\ propogation_flag (nd v) = (getGID g v =? s)
}.

(** The distances of a state. *)
Definition dist_of (nd : NodeMap) : GNode -> Z :=
  fun v => current_length (nd v).

Definition flagged (nd : NodeMap) (x : GNode) : bool :=
  propogation_flag (nd x).

(** In the dependency propagation, a node whose dependency is not yet
    consumed: it is flagged (final, being read this round) or still has
    successors to hear from. *)
Definition pending (nd : NodeMap) (x : GNode) : bool :=
  propogation_flag (nd x) || (0 <? num_successors (nd x)).

(** The guards of DependencyPropogation's operator: the nodes that scan
    their successors, and the source whose successor count is reset. *)
Definition scanner (g : Graph) (D : GNode -> Z) (s : Z) (nd : NodeMap)
  (u : GNode) : bool :=
  visited D u && ((num_successors (nd u) >? 0) && negb (getGID g u =? s)).

Definition resets (g : Graph) (D : GNode -> Z) (s : Z) (nd : NodeMap)
  (u : GNode) : bool :=
  visited D u && ((num_successors (nd u) >? 0) && (getGID g u =? s)).

(** Number of flagged DAG successors a node finds when it scans. *)
Definition scan_count (g : Graph) (D : GNode -> Z) (s : Z) (nd : NodeMap)
  (u : GNode) : nat :=
  if scanner g D s nd u then dag_out g D (flagged nd) u else 0%nat.

Definition scan_sum (g : Graph) (D : GNode -> Z) (s : Z) (nd : NodeMap)
  (l : list GNode) : nat :=
  list_sum (map (scan_count g D s nd) l).

(** What DependencyPropChanges's operator does to the data of a node when
    its assertions hold. *)
Definition DependencyPropChanges_node (d : NodeData) : NodeData :=
  if negb (current_length d =? infinity) then
    let d1 :=
      if f32_gt_zero (to_add_float d) then
        set_to_add_float F32.zero
          (set_dependency (F32.add (dependency d) (to_add_float d)) d)
      else d in
    if (num_successors d1 =? 0) && propogation_flag d1 then
      set_num_shortest_paths 0 (set_propogation_flag false d1)
    else if trim d1 >? 0 then
      let d3 := set_trim 0
                  (set_num_successors
                     (wrap32 (num_successors d1 - trim d1)) d1) in
      if num_successors d3 =? 0 then set_propogation_flag true d3 else d3
    else d1
  else d.

(** The assertions of DependencyPropChanges's operator. *)
Definition DependencyPropChanges_pre (d : NodeData) : Prop :=
  current_length d <> infinity ->
  if (num_successors d =? 0) && propogation_flag d then trim d = 0
  else trim d > 0 ->
       trim d <= num_successors d /\
       (wrap32 (num_successors d - trim d) = 0 -> propogation_flag d = false).

(** Invariant of the rounds of the dependency propagation, at the start of
    a round, for the distances [D] and the source with global id [s]. *)
Record Dep_inv (g : Graph) (D : GNode -> Z) (s : Z) (nd : NodeMap) : Prop :=
  mk_Dep_inv {
  dep_dist : forall v, current_length (nd v) = D v;
  dep_zero : forall v, (v < numNodes g)%nat ->
    trim (nd v) = 0 /\ num_predecessors (nd v) = 0;
  dep_succ : forall u, (u < numNodes g)%nat -> getGID g u <> s ->
    num_successors (nd u) = Z.of_nat (dag_out g D (pending nd) u);
  dep_src : forall u, (u < numNodes g)%nat -> getGID g u = s ->
    0 <= num_successors (nd u) < 2 ^ 32 /\ D u = 0;
  dep_flag : forall v, (v < numNodes g)%nat ->
    propogation_flag (nd v) = true ->
    num_successors (nd v) = 0 /\ visited D v = true
}.

(** The control fields after a round of the dependency propagation
    (propagation pass, then Changes pass), in terms of the state [nd] in
    which the round started. *)
Definition Dep_next (g : Graph) (D : GNode -> Z) (s : Z) (nd nd2 : NodeMap)
  : Prop :=
  (forall v, current_length (nd2 v) = D v) /\
  forall v, (v < numNodes g)%nat ->
    let k := Z.of_nat (scan_count g D s nd v) in
    let s1 := if resets g D s nd v then 0 else num_successors (nd v) in
    trim (nd2 v) = 0 /\
    num_predecessors (nd2 v) = num_predecessors (nd v) /\
    num_successors (nd2 v) = s1 - k /\
    propogation_flag (nd2 v)
    = negb (propogation_flag (nd v)) && ((0 <? k) && (s1 - k =? 0)).

Definition total_successors (g : Graph) (nd : NodeMap) : Z :=
  Zsum (fun v => num_successors (nd v)) (all_nodes g).

(** A run that did not stop for lack of fuel. *)
Definition settled {A} (r : Res A) : Prop := r <> OutOfFuel.

(** One round of the shortest-path counter: the propagation pass with its
    syncs, then the Changes pass; the result carries the accumulator. *)
Definition NumShortestPaths_body (g : Graph) (w : World) : Res (World * Z) :=
  let '(w1, accum_result) := NumShortestPaths_round g w in
  w2 <- NumShortestPathsChanges_go g w1 ;;
  Ok (w2, accum_result).

(** The state in which round [k] of the shortest-path counter starts. *)
Fixpoint NumShortestPaths_rounds (k : nat) (g : Graph) (w : World)
  : Res World :=
  match k with
  | O => Ok w
  | S k' =>
      r <- NumShortestPaths_body g w ;; NumShortestPaths_rounds k' g (fst r)
  end.

(** The states from which a source iteration starts in some run: the state
    left by InitializeGraph, and every state left by a completed
    iteration. *)
Inductive iteration_start (g : Graph) : World -> Prop :=
| start_first : forall w0, iteration_start g (InitializeGraph_go g w0)
| start_next : forall w i fuel w',
    iteration_start g w -> BC_iteration fuel g i w = Ok w' ->
    iteration_start g w'.

(** One round of the dependency propagation: the propagation pass with its
    syncs, then the Changes pass; the result carries the accumulator. *)
Definition DependencyPropogation_body (g : Graph) (current_src_node : Z)
  (w : World) : Res (World * Z) :=
  let '(w1, accum_result) :=
    DependencyPropogation_round g current_src_node w in
  w2 <- DependencyPropChanges_go g w1 ;;
  Ok (w2, accum_result).

(** The state in which round [k] of the dependency propagation starts. *)
Fixpoint DependencyPropogation_rounds (k : nat) (g : Graph)
  (current_src_node : Z) (w : World) : Res World :=
  match k with
  | O => Ok w
  | S k' =>
      r <- DependencyPropogation_body g current_src_node w ;;
      DependencyPropogation_rounds k' g current_src_node
        (sync sync_DependencyPropogation_dep (fst r))
  end.

(** The result of a completed run ([d] if it did not complete). *)
Definition final {A} (d : A) (r : Res A) : A :=
  match r with
  | Ok a => a
  | _ => d
  end.

(** Decidable well-formedness of a graph held by one host. *)
Definition check_one_host (n : nat) (es : GNode -> list GNode) : bool :=
  forallb (fun u => forallb (fun v => (v <? n)%nat) (es u)) (seq 0 n)
  && (Z.of_nat n <? infinity)
  && (Z.of_nat (list_sum (map (fun u => List.length (es u)) (seq 0 n)))
      <? 2 ^ 32).

(** States of the run on the diamond with source 0: after InitializeGraph,
    after the SSSP rounds, at the start of round [k] of the shortest-path
    counter, after the shortest-path counter, and at the start of round
    [k] of the dependency propagation. *)
Definition diamond_start : World :=
  InitializeGraph_go diamond_graph fresh_world.

Definition diamond_after_SSSP : World :=
  final fresh_world (BC_upto_SSSP 3 diamond_graph 0 diamond_start).

Definition diamond_NumShortestPaths_round (k : nat) : World :=
  final fresh_world
    (NumShortestPaths_rounds k diamond_graph
       (PredAndSucc_go diamond_graph diamond_after_SSSP)).

Definition diamond_after_NumShortestPaths : World :=
  final fresh_world
    (BC_upto_NumShortestPaths 3 diamond_graph 0 diamond_start).

Definition diamond_DependencyPropogation_round (k : nat) : World :=
  final fresh_world
    (DependencyPropogation_rounds k diamond_graph 0
       diamond_after_NumShortestPaths).

(** A state that no run reaches: every node is visited, has one
    predecessor and no successor, and a pending trim of 2. *)
Definition overdrawn_world : World :=
  mkWorld
    (fun _ => mkNodeData 0 0 0 0 1 2 0 F32.zero F32.zero F32.zero false) [].

(** [walk g k u v]: [k] edges of the local graph lead from [u] to [v]. *)
Inductive walk (g : Graph) : nat -> GNode -> GNode -> Prop :=
| walk_nil : forall u, walk g 0 u u
| walk_step : forall k u x v,
    walk g k u x -> In v (edge_dsts g x) -> walk g (S k) u v.

(** The data of a node without its two lengths. *)
Definition without_lengths (d : NodeData) : NodeData :=
  set_old_length 0 (set_current_length 0 d).

(** A node that has nothing left to push in the shortest-path counter: it
    is not flagged and waits for no predecessor. *)
Definition pushed (nd : NodeMap) (u : GNode) : bool := negb (unpushed nd u).

(** The path counts [F] of the nodes of [l] that satisfy [Q], each counted
    once per DAG edge into [v]. *)
Definition pushed_paths (g : Graph) (D : GNode -> Z) (Q : GNode -> bool)
  (F : GNode -> Z) (l : list GNode) (v : GNode) : Z :=
  Zsum (fun u => if Q u then Z.of_nat (dag_to g D u v) * F u else 0) l.

Definition paths_of (nd : NodeMap) : GNode -> Z :=
  fun u => num_shortest_paths (nd u).

(** Invariant of the rounds of the shortest-path counter on the path
    counts, at the start of a round: nothing is pending in to_add, and
    the count of a node is the count [N0] it started the phase with plus
    what the nodes that have pushed gave it, modulo 2^32. *)
Record Paths_inv (g : Graph) (D : GNode -> Z) (N0 : GNode -> Z)
  (nd : NodeMap) : Prop := mk_Paths_inv {
  pi_to_add : forall v, (v < numNodes g)%nat -> to_add (nd v) = 0;
  pi_range : forall v, (v < numNodes g)%nat ->
    0 <= num_shortest_paths (nd v) < 2 ^ 32;
  pi_paths : forall v, (v < numNodes g)%nat ->
    num_shortest_paths (nd v)
    = wrap32 (N0 v + pushed_paths g D (pushed nd) (paths_of nd)
                       (all_nodes g) v)
}.

(** Nothing is pending in to_add and the path count is a [uint32_t]. *)
Definition paths_clear (d : NodeData) : Prop :=
  to_add d = 0 /\ 0 <= num_shortest_paths d < 2 ^ 32.

(** Number of edges from [x] to [v]. *)
Definition edge_count (g : Graph) (x v : GNode) : nat :=
  count_occ Nat.eq_dec (edge_dsts g x) v.

(** Number of walks of [k] edges from [s] to [v] through local nodes,
    parallel edges counted apart. *)
Fixpoint count_walks (g : Graph) (k : nat) (s v : GNode) : Z :=
  match k with
  | O => if Nat.eqb s v then 1 else 0
  | S k' =>
      Zsum (fun x => count_walks g k' s x * Z.of_nat (edge_count g x v))
        (all_nodes g)
  end.

(** States of the run on the cycle with source 0: after InitializeGraph,
    after the SSSP rounds and after the whole iteration. *)
Definition cycle_start : World := InitializeGraph_go cycle_graph fresh_world.

Definition cycle_after_SSSP : World :=
  final fresh_world (BC_upto_SSSP 4 cycle_graph 0 cycle_start).

Definition cycle_after_iteration : World :=
  final fresh_world (BC_iteration 4 cycle_graph 0 cycle_start).

(** The [for] loop of [main] over the runs, with [runs] runs still to do:
    BC::go, then InitializeGraph::go again unless this was the last run.
    (The barrier, the statistics and the resets of the dirty bitsets
    between two runs do not touch the node data.) *)
Fixpoint main_runs (fuel : nat) (o : Options) (g : Graph) (runs : nat)
  (w : World) : Res World :=
  match runs with
  | O => Ok w
  | S r =>
      w1 <- BC_go fuel o g w ;;
      match r with
      | O => Ok w1
      | S _ => main_runs fuel o g r (InitializeGraph_go g w1)
      end
  end.

(** [main] from the first InitializeGraph::go on, for [numRuns] runs. *)
Definition main (fuel : nat) (o : Options) (g : Graph) (numRuns : Z)
  (w : World) : Res World :=
  main_runs fuel o g (Z.to_nat numRuns) (InitializeGraph_go g w).

(** Two node maps that agree on the local nodes. *)
Definition local_eq (g : Graph) (nd nd' : NodeMap) : Prop :=
  forall v, (v < numNodes g)%nat -> nd v = nd' v.

Definition pair_eq (g : Graph) (s s' : NodeMap * Z) : Prop :=
  local_eq g (fst s) (fst s') /\ snd s = snd s'.

(** Two node maps that agree on the local nodes up to the two lengths. *)
Definition local_eq_but_lengths (g : Graph) (nd nd' : NodeMap) : Prop :=
  forall v, (v < numNodes g)%nat ->
    without_lengths (nd v) = without_lengths (nd' v).

(* ------------------------------------------------------------------ *)
(** ** The dirty bitsets *)

(** Modelled from the spec: [Galois::DynamicBitSet] is not among the
    sources; a dirty bitset is the set of local node indices touched, and
    [set(i)] adds index [i]. *)
Definition Bitset := GNode -> bool.

Definition bitset_set (b : Bitset) (i : GNode) : Bitset :=
  fun j => if Nat.eqb j i then true else b j.

(** The nine bitsets of the program (names as in the source). *)
Record Bitsets := mkBitsets {
  bitset_to_add : Bitset;
  bitset_to_add_float : Bitset;
  bitset_num_shortest_paths : Bitset;
  bitset_num_successors : Bitset;
  bitset_num_predecessors : Bitset;
  bitset_trim : Bitset;
  bitset_current_length : Bitset;
  bitset_propogation_flag : Bitset;
  bitset_dependency : Bitset
}.

(** [bitset_X.set(i)] *)
Definition mark_to_add (i : GNode) (bs : Bitsets) : Bitsets :=
  mkBitsets (bitset_set (bitset_to_add bs) i) (bitset_to_add_float bs)
    (bitset_num_shortest_paths bs) (bitset_num_successors bs)
    (bitset_num_predecessors bs) (bitset_trim bs) (bitset_current_length bs)
    (bitset_propogation_flag bs) (bitset_dependency bs).
Definition mark_to_add_float (i : GNode) (bs : Bitsets) : Bitsets :=
  mkBitsets (bitset_to_add bs) (bitset_set (bitset_to_add_float bs) i)
    (bitset_num_shortest_paths bs) (bitset_num_successors bs)
    (bitset_num_predecessors bs) (bitset_trim bs) (bitset_current_length bs)
    (bitset_propogation_flag bs) (bitset_dependency bs).
Definition mark_num_shortest_paths (i : GNode) (bs : Bitsets) : Bitsets :=
  mkBitsets (bitset_to_add bs) (bitset_to_add_float bs)
    (bitset_set (bitset_num_shortest_paths bs) i) (bitset_num_successors bs)
    (bitset_num_predecessors bs) (bitset_trim bs) (bitset_current_length bs)
    (bitset_propogation_flag bs) (bitset_dependency bs).
Definition mark_num_successors (i : GNode) (bs : Bitsets) : Bitsets :=
  mkBitsets (bitset_to_add bs) (bitset_to_add_float bs)
    (bitset_num_shortest_paths bs) (bitset_set (bitset_num_successors bs) i)
    (bitset_num_predecessors bs) (bitset_trim bs) (bitset_current_length bs)
    (bitset_propogation_flag bs) (bitset_dependency bs).
Definition mark_num_predecessors (i : GNode) (bs : Bitsets) : Bitsets :=
  mkBitsets (bitset_to_add bs) (bitset_to_add_float bs)
    (bitset_num_shortest_paths bs) (bitset_num_successors bs)
    (bitset_set (bitset_num_predecessors bs) i) (bitset_trim bs)
    (bitset_current_length bs) (bitset_propogation_flag bs)
    (bitset_dependency bs).
Definition mark_trim (i : GNode) (bs : Bitsets) : Bitsets :=
  mkBitsets (bitset_to_add bs) (bitset_to_add_float bs)
    (bitset_num_shortest_paths bs) (bitset_num_successors bs)
    (bitset_num_predecessors bs) (bitset_set (bitset_trim bs) i)
    (bitset_current_length bs) (bitset_propogation_flag bs)
    (bitset_dependency bs).
Definition mark_current_length (i : GNode) (bs : Bitsets) : Bitsets :=
  mkBitsets (bitset_to_add bs) (bitset_to_add_float bs)
    (bitset_num_shortest_paths bs) (bitset_num_successors bs)
    (bitset_num_predecessors bs) (bitset_trim bs)
    (bitset_set (bitset_current_length bs) i) (bitset_propogation_flag bs)
    (bitset_dependency bs).
Definition mark_propogation_flag (i : GNode) (bs : Bitsets) : Bitsets :=
  mkBitsets (bitset_to_add bs) (bitset_to_add_float bs)
    (bitset_num_shortest_paths bs) (bitset_num_successors bs)
    (bitset_num_predecessors bs) (bitset_trim bs) (bitset_current_length bs)
    (bitset_set (bitset_propogation_flag bs) i) (bitset_dependency bs).
Definition mark_dependency (i : GNode) (bs : Bitsets) : Bitsets :=
  mkBitsets (bitset_to_add bs) (bitset_to_add_float bs)
    (bitset_num_shortest_paths bs) (bitset_num_successors bs)
    (bitset_num_predecessors bs) (bitset_trim bs) (bitset_current_length bs)
    (bitset_propogation_flag bs) (bitset_set (bitset_dependency bs) i).

(** The operators with their bitsets.  The node data and the accumulator
    are computed as in the definitions above; the state also carries the
    bitsets, set where the source sets them. *)
Definition FirstIterationSSSP_relax_bits (src : GNode)
  (s : NodeMap * Bitsets) (dst : GNode) : NodeMap * Bitsets :=
  let '(nd, bs) := s in
  let new_dist := wrap32 (1 + current_length (nd src)) in
  let nd' := modify nd dst (fun d =>
    set_current_length (fst (atomicMin (current_length d) new_dist)) d) in
  (nd', mark_current_length dst bs).

Definition FirstIterationSSSP_op_bits (g : Graph) (src : GNode)
  (s : NodeMap * Bitsets) : NodeMap * Bitsets :=
  fold_left (FirstIterationSSSP_relax_bits src) (edge_dsts g src) s.

Definition SSSP_relax_bits (src : GNode) (s : NodeMap * Z * Bitsets)
  (dst : GNode) : NodeMap * Z * Bitsets :=
  let '(nd, acc, bs) := s in
  let new_dist := wrap32 (1 + current_length (nd src)) in
  let '(m, old) := atomicMin (current_length (nd dst)) new_dist in
  let nd' := modify nd dst (set_current_length m) in
  if old >? new_dist then
    (nd', wrap32 (acc + 1), mark_current_length dst bs)
  else (nd', acc, bs).

Definition SSSP_op_bits (g : Graph) (src : GNode)
  (s : NodeMap * Z * Bitsets) : NodeMap * Z * Bitsets :=
  let '(nd, acc, bs) := s in
  if old_length (nd src) >? current_length (nd src) then
    let nd1 := modify nd src (fun d => set_old_length (current_length d) d) in
    fold_left (SSSP_relax_bits src) (edge_dsts g src) (nd1, acc, bs)
  else (nd, acc, bs).

Definition PredAndSucc_edge_bits (src : GNode) (s : NodeMap * Bitsets)
  (dst : GNode) : NodeMap * Bitsets :=
  let '(nd, bs) := s in
  let edge_weight := 1 in
  if wrap32 (current_length (nd src) + edge_weight)
       =? current_length (nd dst) then
    let nd1 := modify nd src (fun d =>
                 set_num_successors (wrap32 (num_successors d + 1)) d) in
    let nd2 := modify nd1 dst (fun d =>
                 set_num_predecessors (atomicAdd (num_predecessors d) 1) d) in
    (nd2, mark_num_predecessors dst (mark_num_successors src bs))
  else (nd, bs).

Definition PredAndSucc_op_bits (local_infinity : Z) (g : Graph)
  (src : GNode) (s : NodeMap * Bitsets) : NodeMap * Bitsets :=
  if negb (current_length (fst s src) =? local_infinity) then
    fold_left (PredAndSucc_edge_bits src) (edge_dsts g src) s
  else s.

Definition NumShortestPaths_edge_bits (src : GNode)
  (s : NodeMap * Z * Bitsets) (dst : GNode) : NodeMap * Z * Bitsets :=
  let '(nd, acc, bs) := s in
  let edge_weight := 1 in
  let paths_to_add := num_shortest_paths (nd src) in
  if wrap32 (current_length (nd src) + edge_weight)
       =? current_length (nd dst) then
    let nd1 := modify nd dst (fun d =>
                 set_to_add (atomicAdd (to_add d) paths_to_add) d) in
    let nd2 := modify nd1 dst (fun d => set_trim (atomicAdd (trim d) 1) d) in
    (nd2, wrap32 (acc + 1), mark_trim dst (mark_to_add dst bs))
  else (nd, acc, bs).

Definition NumShortestPaths_op_bits (local_infinity : Z) (g : Graph)
  (src : GNode) (s : NodeMap * Z * Bitsets) : NodeMap * Z * Bitsets :=
  let '(nd, acc, bs) := s in
  if negb (current_length (nd src) =? local_infinity) then
    if propogation_flag (nd src) && (num_successors (nd src) >? 0) then
      let '(nd1, acc1, bs1) :=
        fold_left (NumShortestPaths_edge_bits src) (edge_dsts g src)
          (nd, acc, bs) in
      (modify nd1 src (set_propogation_flag false), acc1, bs1)
    else (nd, acc, bs)
  else (nd, acc, bs).

Definition DependencyPropogation_edge_bits (src : GNode)
  (s : NodeMap * Z * Bitsets) (dst : GNode) : NodeMap * Z * Bitsets :=
  let '(nd, acc, bs) := s in
  let edge_weight := 1 in
  if propogation_flag (nd dst) then
    if wrap32 (current_length (nd src) + edge_weight)
         =? current_length (nd dst) then
      let nd1 := modify nd src (fun d => set_trim (atomicAdd (trim d) 1) d) in
      let delta := dependency_delta (num_shortest_paths (nd1 src))
                     (num_shortest_paths (nd1 dst)) (dependency (nd1 dst)) in
      let nd2 := modify nd1 src (fun d =>
                   set_to_add_float (F32.add (to_add_float d) delta) d) in
      (nd2, wrap32 (acc + 1), mark_to_add_float src (mark_trim src bs))
    else (nd, acc, bs)
  else (nd, acc, bs).

Definition DependencyPropogation_op_bits
  (local_infinity local_current_src_node : Z) (g : Graph) (src : GNode)
  (s : NodeMap * Z * Bitsets) : NodeMap * Z * Bitsets :=
  let '(nd, acc, bs) := s in
  if negb (current_length (nd src) =? local_infinity) then
    if num_successors (nd src) >? 0 then
      if negb (getGID g src =? local_current_src_node) then
        fold_left (DependencyPropogation_edge_bits src) (edge_dsts g src)
          (nd, acc, bs)
      else (modify nd src (set_num_successors 0), acc, bs)
    else (nd, acc, bs)
  else (nd, acc, bs).

Definition NumShortestPathsChanges_op_bits (g : Graph) (src : GNode)
  (s : NodeMap * Bitsets) : Res (NodeMap * Bitsets) :=
  let '(nd, bs) := s in
  s1 <- (if trim (nd src) >? 0 then
           _ <- assert (trim (nd src) <=? num_predecessors (nd src))
                  "src_data.trim <= src_data.num_predecessors" ;;
           let nd1 := modify nd src (fun d =>
                        set_num_predecessors
                          (wrap32 (num_predecessors d - trim d)) d) in
           let nd2 := modify nd1 src (set_trim 0) in
           if num_predecessors (nd2 src) =? 0 then
             _ <- assert (negb (propogation_flag (nd2 src)))
                    "!src_data.propogation_flag" ;;
             let nd3 := modify nd2 src (set_propogation_flag true) in
             if num_successors (nd3 src) =? 0 then
               Ok (nd3, mark_propogation_flag src bs)
             else Ok (nd3, bs)
           else Ok (nd2, bs)
         else Ok (nd, bs)) ;;
  let '(nd1, bs1) := s1 in
  if to_add (nd1 src) >? 0 then
    let nd2 := modify nd1 src (fun d =>
                 set_num_shortest_paths
                   (wrap32 (num_shortest_paths d + to_add d)) d) in
    Ok (modify nd2 src (set_to_add 0), mark_num_shortest_paths src bs1)
  else Ok (nd1, bs1).

Definition DependencyPropChanges_op_bits (local_infinity : Z) (g : Graph)
  (src : GNode) (s : NodeMap * Bitsets) : Res (NodeMap * Bitsets) :=
  let '(nd, bs) := s in
  if negb (current_length (nd src) =? local_infinity) then
    let '(nd1, bs1) :=
      if f32_gt_zero (to_add_float (nd src)) then
        (modify
           (modify nd src (fun d =>
              set_dependency (F32.add (dependency d) (to_add_float d)) d))
           src (set_to_add_float F32.zero),
         mark_dependency src bs)
      else (nd, bs) in
    if (num_successors (nd1 src) =? 0) && propogation_flag (nd1 src) then
      _ <- assert (trim (nd1 src) =? 0) "src_data.trim == 0" ;;
      let nd2 := modify nd1 src (set_propogation_flag false) in
      Ok (modify nd2 src (set_num_shortest_paths 0),
          mark_propogation_flag src bs1)
    else if trim (nd1 src) >? 0 then
      _ <- assert (trim (nd1 src) <=? num_successors (nd1 src))
             "src_data.trim <= src_data.num_successors" ;;
      let nd2 := modify nd1 src (fun d =>
                   set_num_successors (wrap32 (num_successors d - trim d)) d) in
      let nd3 := modify nd2 src (set_trim 0) in
      if num_successors (nd3 src) =? 0 then
        _ <- assert (negb (propogation_flag (nd3 src)))
               "!src_data.propogation_flag" ;;
        Ok (modify nd3 src (set_propogation_flag true),
            mark_propogation_flag src bs1)
      else Ok (nd3, bs1)
    else Ok (nd1, bs1)
  else Ok (nd, bs).

(** The result of a run, seen through [f]. *)
Definition res_map {A B} (f : A -> B) (r : Res A) : Res B :=
  match r with
  | Ok a => Ok (f a)
  | AssertFail msg => AssertFail msg
  | OutOfFuel => OutOfFuel
  end.

(** From the state [(nd, bs)] to the state [(nd', bs')], every node whose
    field [p] has changed is marked in the bitset [b], and no mark is
    lost. *)
Definition marks_changes {X} (p : NodeData -> X) (b : Bitsets -> Bitset)
  (nd : NodeMap) (bs : Bitsets) (nd' : NodeMap) (bs' : Bitsets) : Prop :=
  (forall v, p (nd' v) <> p (nd v) -> b bs' v = true) /\
  (forall v, b bs v = true -> b bs' v = true).

(** From [(nd, bs)] to [(nd', bs')] no current_length has grown, and every
    node newly marked in bitset_current_length has a lower
    current_length. *)
Definition marks_lowered (nd : NodeMap) (bs : Bitsets) (nd' : NodeMap)
  (bs' : Bitsets) : Prop :=
  (forall v, current_length (nd' v) <= current_length (nd v)) /\
  (forall v, bitset_current_length bs' v = true ->
     bitset_current_length bs v = true \/
     current_length (nd' v) < current_length (nd v)).

(** The bitsets after [resize] or [reset]: no bit is set. *)
Definition no_bits : Bitsets :=
  mkBitsets (fun _ => false) (fun _ => false) (fun _ => false)
    (fun _ => false) (fun _ => false) (fun _ => false) (fun _ => false)
    (fun _ => false) (fun _ => false).

(** States of the run on the diamond with source 0 inside the
    breadth-first phase: after InitializeIteration and after
    FirstIterationSSSP. *)
Definition diamond_after_InitializeIteration : World :=
  final fresh_world (InitializeIteration_go diamond_graph 0 diamond_start).

Definition diamond_after_FirstIterationSSSP : World :=
  FirstIterationSSSP_go diamond_graph 0 diamond_after_InitializeIteration.

(** States of the run on the diamond with source 0 just before a pass of
    NumShortestPathsChanges (second round) and of DependencyPropChanges
    (first round), and the results of these passes run with their
    bitsets, all empty at the start. *)
Definition diamond_before_NumShortestPathsChanges : NodeMap :=
  nodes (fst (NumShortestPaths_round diamond_graph
                (diamond_NumShortestPaths_round 1))).

Definition diamond_NumShortestPathsChanges_bits : NodeMap * Bitsets :=
  final (nodes fresh_world, no_bits)
    (do_all_res (all_nodes diamond_graph)
       (NumShortestPathsChanges_op_bits diamond_graph)
       (diamond_before_NumShortestPathsChanges, no_bits)).

Definition diamond_before_DependencyPropChanges : NodeMap :=
  nodes (fst (DependencyPropogation_round diamond_graph 0
                diamond_after_NumShortestPaths)).

Definition diamond_DependencyPropChanges_bits : NodeMap * Bitsets :=
  final (nodes fresh_world, no_bits)
    (do_all_res (all_nodes diamond_graph)
       (DependencyPropChanges_op_bits infinity diamond_graph)
       (diamond_before_DependencyPropChanges, no_bits)).

(** The run on the path graph under a vertex cut with source 0: the state
    after InitializeIteration, and after the breadth-first phase. *)
Definition path_vcut_start : World :=
  final fresh_world
    (InitializeIteration_go path_graph_vcut 0
       (InitializeGraph_go path_graph_vcut fresh_world)).

Definition path_vcut_after_SSSP : World :=
  final fresh_world (SSSP_go 3 path_graph_vcut 0 path_vcut_start).

(* ================================================================== *)
(** * Properties *)

(* ------------------------------------------------------------------ *)
(** ** Basic facts: node maps, outcomes, fuel *)

Lemma upd_same (nd : NodeMap) n d : upd nd n d n = d.
Proof. unfold upd. now rewrite Nat.eqb_refl. Qed.

Lemma upd_other (nd : NodeMap) n d m : m <> n -> upd nd n d m = nd m.
Proof.
  intros H. unfold upd. destruct (Nat.eqb_spec m n); [contradiction | easy].
Qed.

Lemma modify_same (nd : NodeMap) n f : modify nd n f n = f (nd n).
Proof. apply upd_same. Qed.

Lemma modify_other (nd : NodeMap) n f m : m <> n -> modify nd n f m = nd m.
Proof. apply upd_other. Qed.

Lemma bind_Ok_inv {A B} (r : Res A) (k : A -> Res B) (b : B) :
  bind r k = Ok b -> exists a, r = Ok a /\ k a = Ok b.
Proof. destruct r; simpl; intros H; try discriminate. now exists a. Qed.

Lemma wrap32_small z : 0 <= z < 2 ^ 32 -> wrap32 z = z.
Proof. intros H. unfold wrap32. now apply Z.mod_small. Qed.

Lemma wrap32_range z : 0 <= wrap32 z < 2 ^ 32.
Proof. unfold wrap32. apply Z.mod_pos_bound. reflexivity. Qed.

Lemma infinity_value : infinity = 1073741823.
Proof. reflexivity. Qed.

(** More fuel never changes a result that was reached. *)
Lemma SSSP_loop_mono fuel g : forall w w',
  SSSP_loop fuel g w = Ok w' ->
  forall k, SSSP_loop (fuel + k) g w = Ok w'.
Proof.
  induction fuel as [|fuel IH]; intros w w' H k; [discriminate|].
  simpl in *. destruct (SSSP_round g w) as [w1 acc].
  destruct (acc =? 0); [assumption | now apply IH].
Qed.

Lemma NumShortestPaths_loop_mono fuel g : forall w w',
  NumShortestPaths_loop fuel g w = Ok w' ->
  forall k, NumShortestPaths_loop (fuel + k) g w = Ok w'.
Proof.
  induction fuel as [|fuel IH]; intros w w' H k; [discriminate|].
  simpl in *. destruct (NumShortestPaths_round g w) as [w1 acc].
  destruct (NumShortestPathsChanges_go g w1) as [w2| |]; simpl in *;
    try discriminate.
  destruct (acc =? 0); [assumption | now apply IH].
Qed.

Lemma DependencyPropogation_loop_mono fuel g i : forall w w',
  DependencyPropogation_loop fuel g i w = Ok w' ->
  forall k, DependencyPropogation_loop (fuel + k) g i w = Ok w'.
Proof.
  induction fuel as [|fuel IH]; intros w w' H k; [discriminate|].
  simpl in *. destruct (DependencyPropogation_round g i w) as [w1 acc].
  destruct (DependencyPropChanges_go g w1) as [w2| |]; simpl in *;
    try discriminate.
  destruct (acc =? 0); [assumption | now apply IH].
Qed.

Lemma BC_upto_SSSP_mono fuel g i w w' k :
  BC_upto_SSSP fuel g i w = Ok w' -> BC_upto_SSSP (fuel + k) g i w = Ok w'.
Proof.
  unfold BC_upto_SSSP. intros H.
  apply bind_Ok_inv in H as (w1 & -> & H). simpl.
  now apply SSSP_loop_mono.
Qed.

Lemma BC_upto_NumShortestPaths_mono fuel g i w w' k :
  BC_upto_NumShortestPaths fuel g i w = Ok w' ->
  BC_upto_NumShortestPaths (fuel + k) g i w = Ok w'.
Proof.
  unfold BC_upto_NumShortestPaths. intros H.
  apply bind_Ok_inv in H as (w2 & H2 & H).
  rewrite (BC_upto_SSSP_mono _ _ _ _ _ k H2). simpl.
  now apply NumShortestPaths_loop_mono.
Qed.

Lemma BC_phases_mono fuel g i w w' k :
  BC_phases fuel g i w = Ok w' -> BC_phases (fuel + k) g i w = Ok w'.
Proof.
  unfold BC_phases. intros H.
  apply bind_Ok_inv in H as (w4 & H4 & H).
  rewrite (BC_upto_NumShortestPaths_mono _ _ _ _ _ k H4). simpl.
  now apply DependencyPropogation_loop_mono.
Qed.


Lemma final_Ok {A} (d : A) (r : Res A) :
  returns r (fun _ => True) -> r = Ok (final d r).
Proof. destruct r; simpl; intros H; [reflexivity | contradiction..]. Qed.

Lemma returns_inv {A} (r : Res A) (P : A -> Prop) :
  returns r P -> exists a, r = Ok a /\ P a.
Proof. destruct r; simpl; intros H; try contradiction. now exists a. Qed.

(* ------------------------------------------------------------------ *)
(** ** The worked examples *)

(** C1. On the path graph s -> a -> b -> c held by one host, with source s,
    the five phases complete as soon as four rounds are allowed per loop,
    and when the dependency-propagation loop has terminated
    dependency(a) = 2, dependency(b) = 1 and dependency(c) = 0. *)
Theorem C1_path_graph_dependency : forall fuel, (4 <= fuel)%nat ->
  exists w,
    BC_phases fuel path_graph 0 (InitializeGraph_go path_graph fresh_world)
      = Ok w /\
    dependency (nodes w 1%nat) = F32.of_u32 2 /\
    dependency (nodes w 2%nat) = F32.of_u32 1 /\
    dependency (nodes w 3%nat) = F32.zero.
Proof.
  intros fuel Hf. replace fuel with (4 + (fuel - 4))%nat by lia.
  assert (H : returns
                (BC_phases 4 path_graph 0
                   (InitializeGraph_go path_graph fresh_world))
                (fun w => dependency (nodes w 1%nat) = F32.of_u32 2 /\
                          dependency (nodes w 2%nat) = F32.of_u32 1 /\
                          dependency (nodes w 3%nat) = F32.zero)).
  { vm_compute. split; [reflexivity | split; reflexivity]. }
  apply returns_inv in H as (w & E & H).
  exists w. split; [now apply BC_phases_mono | exact H].
Qed.

Lemma C1_path_graph_dependency_witness :
  exists w,
    BC_phases 4 path_graph 0 (InitializeGraph_go path_graph fresh_world)
      = Ok w /\
    dependency (nodes w 1%nat) = F32.of_u32 2 /\
    dependency (nodes w 2%nat) = F32.of_u32 1 /\
    dependency (nodes w 3%nat) = F32.zero.
Proof. apply (C1_path_graph_dependency 4). apply le_n. Defined.

(** C2. On the five-node diamond s -> a, s -> b, a -> t, b -> t held by
    one host, with source s, when the loop of the shortest-path counter has
    terminated num_shortest_paths(t) = 2. *)
Theorem C2_diamond_num_shortest_paths : forall fuel, (3 <= fuel)%nat ->
  exists w,
    BC_upto_NumShortestPaths fuel diamond_graph 0
      (InitializeGraph_go diamond_graph fresh_world) = Ok w /\
    num_shortest_paths (nodes w 3%nat) = 2.
Proof.
  intros fuel Hf. replace fuel with (3 + (fuel - 3))%nat by lia.
  assert (H : returns
                (BC_upto_NumShortestPaths 3 diamond_graph 0
                   (InitializeGraph_go diamond_graph fresh_world))
                (fun w => num_shortest_paths (nodes w 3%nat) = 2)).
  { vm_compute. reflexivity. }
  apply returns_inv in H as (w & E & H).
  exists w. split; [now apply BC_upto_NumShortestPaths_mono | exact H].
Qed.

Lemma C2_diamond_num_shortest_paths_witness :
  exists w,
    BC_upto_NumShortestPaths 3 diamond_graph 0
      (InitializeGraph_go diamond_graph fresh_world) = Ok w /\
    num_shortest_paths (nodes w 3%nat) = 2.
Proof. apply (C2_diamond_num_shortest_paths 3). apply le_n. Defined.

(** C3 (the code departs from the claim).  On the cycle 0 -> 1 -> 2 -> 0
    with sources 0 then 1: when the iteration for source 1 starts, after
    InitializeIteration, node 0 is not the source and still holds
    num_shortest_paths = 1, the seed it received as the previous source.
    The stale count is then added to: the path-count phase for source 1
    ends with num_shortest_paths(0) = 2 although 1 -> 2 -> 0 is the only
    shortest path, and the run over all three sources ends with
    betweeness_centrality(2) = 1/2 instead of 1. *)
Theorem C3_stale_num_shortest_paths :
  exists w1 w2 w3 w4,
    BC_iteration 4 cycle_graph 0 (InitializeGraph_go cycle_graph fresh_world)
      = Ok w1 /\
    InitializeIteration_go cycle_graph 1 w1 = Ok w2 /\
    getGID cycle_graph 0%nat <> 1 /\
    num_shortest_paths (nodes w2 0%nat) = 1 /\
    BC_upto_NumShortestPaths 4 cycle_graph 1 w1 = Ok w3 /\
    num_shortest_paths (nodes w3 0%nat) = 2 /\
    main_run 4 all_sources cycle_graph fresh_world = Ok w4 /\
    betweeness_centrality (nodes w4 2%nat)
      = F32.div (F32.of_u32 1) (F32.of_u32 2).
Proof.
  assert (H : returns
                (BC_iteration 4 cycle_graph 0
                   (InitializeGraph_go cycle_graph fresh_world))
                (fun w1 =>
                   returns (InitializeIteration_go cycle_graph 1 w1)
                     (fun w2 => num_shortest_paths (nodes w2 0%nat) = 1) /\
                   returns (BC_upto_NumShortestPaths 4 cycle_graph 1 w1)
                     (fun w3 => num_shortest_paths (nodes w3 0%nat) = 2))).
  { vm_compute. split; reflexivity. }
  assert (H4 : returns (main_run 4 all_sources cycle_graph fresh_world)
                 (fun w4 => betweeness_centrality (nodes w4 2%nat)
                            = F32.div (F32.of_u32 1) (F32.of_u32 2))).
  { vm_compute. reflexivity. }
  apply returns_inv in H as (w1 & E1 & H2 & H3).
  apply returns_inv in H2 as (w2 & E2 & H2).
  apply returns_inv in H3 as (w3 & E3 & H3).
  apply returns_inv in H4 as (w4 & E4 & H4).
  exists w1, w2, w3, w4.
  split; [exact E1|]. split; [exact E2|].
  split; [discriminate|]. split; [exact H2|].
  split; [exact E3|]. split; [exact H3|].
  split; [exact E4 | exact H4].
Qed.

(* ------------------------------------------------------------------ *)
(** ** Sync calls of PredAndSucc and of the breadth-first phase *)

(** C5 as stated fails: no sync of num_predecessors issued by PredAndSucc
    has write-role Source and read-role Destination. *)
Lemma C5_counterexample :
  ~ (exists c,
       In c (syncs (PredAndSucc_go path_graph fresh_world)) /\
       field c = F_num_predecessors /\
       write_role c = Source /\ read_role c = Destination).
Proof.
  intros (c & Hin & Hf & Hw & Hr). simpl in Hin.
  destruct Hin as [<- | [<- | []]]; discriminate.
Qed.

(** C5, amended.  After the local pass, PredAndSucc::go issues exactly two
    syncs, both filtered by the field's dirty bitset: num_predecessors with
    an add-reduce, write-role Destination and read-role Source, then
    num_successors with an add-reduce, write-role Source and read-role
    Any. *)
Theorem C5_PredAndSucc_syncs : forall g w,
  syncs (PredAndSucc_go g w) =
  syncs w ++
  [ mkSync Destination Source Reduce_add F_num_predecessors true
      "PredAndSucc_pred";
    mkSync Source Any Reduce_add F_num_successors true "PredAndSucc_succ" ].
Proof.
  intros g w. unfold PredAndSucc_go, sync. simpl.
  now rewrite <- app_assoc.
Qed.

Lemma SSSP_round_syncs g w : syncs (fst (SSSP_round g w)) = syncs w.
Proof.
  unfold SSSP_round.
  destruct (do_all (all_nodes g) (SSSP_op g) (nodes w, 0)) as [nd acc].
  reflexivity.
Qed.

Lemma SSSP_loop_syncs fuel g : forall w w',
  SSSP_loop fuel g w = Ok w' ->
  exists k,
    syncs w' =
    syncs w ++ repeat sync_SSSP_cur_len k ++
    [if is_vertex_cut g then sync_SSSP_cur_len_any_v
     else sync_SSSP_cur_len_any].
Proof.
  induction fuel as [|fuel IH]; intros w w' H; [discriminate|].
  simpl in H. pose proof (SSSP_round_syncs g w) as Hs.
  destruct (SSSP_round g w) as [w1 acc]. simpl in Hs.
  destruct (acc =? 0).
  - injection H as <-. exists 0%nat. unfold SSSP_final_sync.
    destruct (is_vertex_cut g); simpl; now rewrite Hs.
  - apply IH in H as (k & ->). exists (S k). simpl.
    rewrite Hs, <- app_assoc. reflexivity.
Qed.

(** C7 as stated fails: under a vertex cut the breadth-first phase still
    issues bitset-filtered syncs of current_length (the one after round 0
    and the one after every round that improved a distance). *)
Lemma C7_counterexample :
  is_vertex_cut path_graph_vcut = true /\
  exists w1 w',
    InitializeIteration_go path_graph_vcut 0
      (InitializeGraph_go path_graph_vcut fresh_world) = Ok w1 /\
    SSSP_go 3 path_graph_vcut 0 w1 = Ok w' /\
    ~ (forall c, In c (skipn (List.length (syncs w1)) (syncs w')) ->
                 field c = F_current_length ->
                 with_bitset c = false /\ read_role c = Any).
Proof.
  split; [reflexivity|].
  assert (H : returns
                (InitializeIteration_go path_graph_vcut 0
                   (InitializeGraph_go path_graph_vcut fresh_world))
                (fun w1 =>
                   returns (SSSP_go 3 path_graph_vcut 0 w1)
                     (fun w' =>
                        skipn (List.length (syncs w1)) (syncs w') =
                        [sync_FirstIterationSSSP_cur_len; sync_SSSP_cur_len;
                         sync_SSSP_cur_len_any_v]))).
  { vm_compute. reflexivity. }
  apply returns_inv in H as (w1 & E1 & H).
  apply returns_inv in H as (w' & E' & H).
  exists w1, w'. split; [exact E1|]. split; [exact E'|].
  intros Hall. rewrite H in Hall.
  destruct (Hall sync_FirstIterationSSSP_cur_len) as [Hb _];
    [now left | reflexivity | discriminate].
Qed.

Lemma SSSP_loop_round_syncs fuel g : forall w w',
  SSSP_loop fuel g w = Ok w' ->
  exists k,
    (k < fuel)%nat /\
    (forall j, (j < k)%nat ->
               snd (SSSP_round g (SSSP_state_after j g w)) <> 0) /\
    snd (SSSP_round g (SSSP_state_after k g w)) = 0 /\
    (forall j, (j <= k)%nat ->
               syncs (SSSP_state_after j g w)
               = syncs w ++ repeat sync_SSSP_cur_len j) /\
    syncs w' =
    syncs w ++ repeat sync_SSSP_cur_len k ++
    [if is_vertex_cut g then sync_SSSP_cur_len_any_v
     else sync_SSSP_cur_len_any].
Proof.
  induction fuel as [|fuel IH]; intros w w' H; [discriminate|].
  cbn [SSSP_loop] in H. pose proof (SSSP_round_syncs g w) as Hs.
  destruct (SSSP_round g w) as [w1 acc] eqn:E. cbn [fst] in Hs.
  destruct (Z.eqb_spec acc 0) as [->|Hne].
  - injection H as <-. exists 0%nat.
    split; [lia|]. split; [intros j Hj; lia|].
    split; [cbn [SSSP_state_after]; now rewrite E|].
    split.
    + intros j Hj. replace j with 0%nat by lia.
      cbn [SSSP_state_after repeat]. now rewrite app_nil_r.
    + unfold SSSP_final_sync.
      destruct (is_vertex_cut g); cbn [sync syncs repeat app];
        now rewrite Hs.
  - apply IH in H as (k & Hk & Hj & H0 & Hl & ->). exists (S k).
    split; [lia|]. split; [|split; [|split]].
    + intros [|j] Hlt; cbn [SSSP_state_after]; rewrite ?E; cbn [fst snd];
        [exact Hne | apply Hj; lia].
    + cbn [SSSP_state_after]. rewrite E. exact H0.
    + intros [|j] Hle; cbn [SSSP_state_after repeat].
      * now rewrite app_nil_r.
      * rewrite E. cbn [fst]. rewrite (Hl j) by lia.
        cbn [sync syncs]. rewrite Hs, <- app_assoc. reflexivity.
    + cbn [sync syncs repeat]. rewrite Hs, <- app_assoc. reflexivity.
Qed.

(** C7, amended.  Whatever the partitioning style, the breadth-first phase
    syncs current_length with a min-reduce, write-role Destination,
    read-role Source and the dirty bitset after round 0 and after every
    round whose accumulator is not zero.  Only the last sync, issued by the
    round whose accumulator is zero, depends on the style: under a vertex
    cut it is unfiltered (write-role Destination, read-role Any, no
    bitset); otherwise it has the same roles and is filtered by the
    bitset.  Here k is the number of rounds of SSSP whose accumulator is
    not zero: rounds 0 .. k-1 have a non-zero accumulator, round k has
    accumulator zero, and when round j starts the log holds the sync of
    FirstIterationSSSP followed by j syncs named SSSP_cur_len, one for
    each earlier round. *)
Theorem C7_SSSP_syncs : forall fuel g s w w',
  SSSP_go fuel g s w = Ok w' ->
  exists k,
    (k < fuel)%nat /\
    (forall j, (j < k)%nat ->
       snd (SSSP_round g
              (SSSP_state_after j g (FirstIterationSSSP_go g s w))) <> 0) /\
    snd (SSSP_round g
           (SSSP_state_after k g (FirstIterationSSSP_go g s w))) = 0 /\
    (forall j, (j <= k)%nat ->
       syncs (SSSP_state_after j g (FirstIterationSSSP_go g s w)) =
       syncs w ++
       [mkSync Destination Source Reduce_min F_current_length true
          "FirstIterationSSSP_cur_len"] ++
       repeat (mkSync Destination Source Reduce_min F_current_length true
                 "SSSP_cur_len") j) /\
    syncs w' =
    syncs w ++
    [mkSync Destination Source Reduce_min F_current_length true
       "FirstIterationSSSP_cur_len"] ++
    repeat (mkSync Destination Source Reduce_min F_current_length true
              "SSSP_cur_len") k ++
    [if is_vertex_cut g
     then mkSync Destination Any Reduce_min F_current_length false
            "SSSP_cur_len_any_v"
     else mkSync Destination Any Reduce_min F_current_length true
            "SSSP_cur_len_any"].
Proof.
  intros fuel g s w w' H. unfold SSSP_go in H.
  apply SSSP_loop_round_syncs in H as (k & Hk & Hj & H0 & Hl & ->).
  exists k. split; [exact Hk|]. split; [exact Hj|]. split; [exact H0|].
  assert (Hf : syncs (FirstIterationSSSP_go g s w)
               = syncs w ++ [sync_FirstIterationSSSP_cur_len])
    by reflexivity.
  split.
  - intros j Hle. rewrite (Hl j Hle), Hf, <- app_assoc. reflexivity.
  - rewrite Hf, <- app_assoc. reflexivity.
Qed.

Lemma C7_SSSP_syncs_witness :
  SSSP_go 3 path_graph_vcut 0 path_vcut_start = Ok path_vcut_after_SSSP /\
  syncs path_vcut_after_SSSP =
  syncs path_vcut_start ++
  [mkSync Destination Source Reduce_min F_current_length true
     "FirstIterationSSSP_cur_len";
   mkSync Destination Source Reduce_min F_current_length true
     "SSSP_cur_len";
   mkSync Destination Any Reduce_min F_current_length false
     "SSSP_cur_len_any_v"].
Proof.
  assert (E : SSSP_go 3 path_graph_vcut 0 path_vcut_start
              = Ok path_vcut_after_SSSP).
  { apply final_Ok. vm_compute. exact I. }
  split; [exact E|].
  destruct (C7_SSSP_syncs 3 path_graph_vcut 0 path_vcut_start
              path_vcut_after_SSSP E) as (k & Hk & Hj & H0 & _ & Hs).
  destruct k as [|[|k]].
  - vm_compute in H0. discriminate.
  - rewrite Hs. reflexivity.
  - exfalso. apply (Hj 1%nat); [lia|]. vm_compute. reflexivity.
Defined.

(* ------------------------------------------------------------------ *)
(** ** InitializeIteration *)

Lemma mem_In v l : mem v l = true <-> In v l.
Proof.
  unfold mem. rewrite existsb_exists. split.
  - intros (x & Hx & E). apply Nat.eqb_eq in E. now subst.
  - intros H. exists v. split; [assumption | apply Nat.eqb_refl].
Qed.

Lemma mem_cons v x l : mem v (x :: l) = Nat.eqb v x || mem v l.
Proof. reflexivity. Qed.

Lemma InitializeIteration_op_Ok g s src nd :
  (getGID g src <> s -> propogation_flag (nd src) = false) ->
  exists nd',
    InitializeIteration_op infinity s g src nd = Ok nd' /\
    nd' src = InitializeIteration_node g s src (nd src) /\
    forall v, v <> src -> nd' v = nd v.
Proof.
  intros Hflag. unfold InitializeIteration_op, InitializeIteration_node.
  destruct (Z.eqb_spec (getGID g src) s) as [E|E]; simpl.
  - eexists. split; [reflexivity|]. split.
    + now rewrite modify_same.
    + intros v Hv. now rewrite modify_other.
  - rewrite !modify_same. simpl. rewrite (Hflag E). simpl.
    eexists. split; [reflexivity|]. split.
    + now rewrite !modify_same.
    + intros v Hv. now rewrite !modify_other.
Qed.

Lemma InitializeIteration_do_all g s : forall l nd,
  NoDup l ->
  (forall v, In v l -> getGID g v <> s -> propogation_flag (nd v) = false) ->
  exists nd',
    do_all_res l (InitializeIteration_op infinity s g) nd = Ok nd' /\
    forall v, nd' v = if mem v l then InitializeIteration_node g s v (nd v)
                      else nd v.
Proof.
  induction l as [|x l IH]; intros nd Hnd Hflag.
  - exists nd. split; reflexivity.
  - inversion Hnd as [|? ? Hx Hl]; subst.
    destruct (InitializeIteration_op_Ok g s x nd) as (nd1 & E1 & Hx1 & Ho1).
    { apply Hflag. now left. }
    destruct (IH nd1 Hl) as (nd' & E' & H').
    { intros v Hv Hs. rewrite Ho1.
      - apply Hflag; [now right | assumption].
      - intros ->. contradiction. }
    exists nd'. split.
    + simpl. rewrite E1. simpl. exact E'.
    + intros v. rewrite H', mem_cons.
      destruct (Nat.eqb_spec v x) as [->|Hne]; simpl.
      * destruct (mem x l) eqn:Em.
        -- apply mem_In in Em. contradiction.
        -- exact Hx1.
      * now rewrite Ho1.
Qed.

Lemma mem_all_nodes g v : mem v (all_nodes g) = (v <? numNodes g)%nat.
Proof.
  unfold all_nodes. destruct (Nat.ltb_spec v (numNodes g)) as [H|H].
  - apply mem_In, in_seq. lia.
  - destruct (mem v (seq 0 (numNodes g))) eqn:E; [|reflexivity].
    apply mem_In, in_seq in E. lia.
Qed.

Lemma InitializeIteration_go_Ok g s w :
  (forall v, (v < numNodes g)%nat -> getGID g v <> s ->
             propogation_flag (nodes w v) = false) ->
  exists w',
    InitializeIteration_go g s w = Ok w' /\
    forall v, nodes w' v =
              if (v <? numNodes g)%nat
              then InitializeIteration_node g s v (nodes w v)
              else nodes w v.
Proof.
  intros Hflag.
  destruct (InitializeIteration_do_all g s (all_nodes g) (nodes w))
    as (nd' & E & H).
  - apply seq_NoDup.
  - intros v Hv. apply Hflag. apply in_seq in Hv. lia.
  - unfold InitializeIteration_go. rewrite E. simpl.
    eexists. split; [reflexivity|]. simpl.
    intros v. now rewrite H, mem_all_nodes.
Qed.

(** C9. If no local node other than the source carries a set
    propogation_flag (the assertion of the operator), InitializeIteration
    for source [s] completes; afterwards the local node whose global id is
    [s] has current_length = 0, old_length = 0, num_shortest_paths = 1 and
    propogation_flag = true, and every other local node has
    current_length = old_length = infinity. *)
Theorem C9_InitializeIteration : forall g s w,
  (forall v, (v < numNodes g)%nat -> getGID g v <> s ->
             propogation_flag (nodes w v) = false) ->
  exists w',
    InitializeIteration_go g s w = Ok w' /\
    forall v, (v < numNodes g)%nat ->
      (getGID g v = s ->
         current_length (nodes w' v) = 0 /\
         old_length (nodes w' v) = 0 /\
         num_shortest_paths (nodes w' v) = 1 /\
         propogation_flag (nodes w' v) = true) /\
      (getGID g v <> s ->
         current_length (nodes w' v) = infinity /\
         old_length (nodes w' v) = infinity).
Proof.
  intros g s w Hflag.
  destruct (InitializeIteration_go_Ok g s w Hflag) as (w' & E & H).
  exists w'. split; [exact E|].
  intros v Hv. rewrite H.
  destruct (Nat.ltb_spec v (numNodes g)); [|lia].
  unfold InitializeIteration_node.
  destruct (Z.eqb_spec (getGID g v) s); split; intros; try contradiction;
    simpl; repeat split.
Qed.

Lemma C9_InitializeIteration_witness :
  exists w',
    InitializeIteration_go path_graph 0 fresh_world = Ok w' /\
    forall v, (v < numNodes path_graph)%nat ->
      (getGID path_graph v = 0 ->
         current_length (nodes w' v) = 0 /\
         old_length (nodes w' v) = 0 /\
         num_shortest_paths (nodes w' v) = 1 /\
         propogation_flag (nodes w' v) = true) /\
      (getGID path_graph v <> 0 ->
         current_length (nodes w' v) = infinity /\
         old_length (nodes w' v) = infinity).
Proof.
  apply (C9_InitializeIteration path_graph 0 fresh_world).
  intros v _ _. reflexivity.
Defined.

(* ------------------------------------------------------------------ *)
(** ** The operators of the breadth-first phase *)

Lemma set_current_length_id d : set_current_length (current_length d) d = d.
Proof. now destruct d. Qed.

Lemma set_current_length_twice x y d :
  set_current_length x (set_current_length y d) = set_current_length x d.
Proof. reflexivity. Qed.

Lemma wrap32_add_l a b : wrap32 (wrap32 a + b) = wrap32 (a + b).
Proof. unfold wrap32. now rewrite Zplus_mod_idemp_l. Qed.

Lemma filter_length_remove (f : GNode -> bool) v0 l :
  NoDup l ->
  List.length (filter f l) =
  (List.length (filter (fun v => f v && negb (Nat.eqb v v0)) l)
   + (if f v0 && mem v0 l then 1 else 0))%nat.
Proof.
  induction l as [|x l IH]; intros Hnd.
  - simpl. now rewrite andb_false_r.
  - inversion Hnd as [|? ? Hx Hl]; subst. specialize (IH Hl).
    rewrite mem_cons. simpl.
    destruct (Nat.eqb_spec x v0) as [->|Hne].
    + rewrite Nat.eqb_refl. simpl. rewrite andb_false_r, andb_true_r.
      assert (Em : mem v0 l = false).
      { destruct (mem v0 l) eqn:E; [|reflexivity].
        apply mem_In in E. contradiction. }
      rewrite Em, andb_false_r, Nat.add_0_r in IH.
      destruct (f v0); simpl; lia.
    + destruct (Nat.eqb_spec v0 x) as [->|_]; [contradiction|].
      simpl. rewrite andb_true_r.
      destruct (f x); simpl; lia.
Qed.

Lemma mem_nodup v l : mem v (nodup Nat.eq_dec l) = mem v l.
Proof.
  destruct (mem v l) eqn:E.
  - apply mem_In. apply nodup_In. now apply mem_In.
  - destruct (mem v (nodup Nat.eq_dec l)) eqn:E'; [|reflexivity].
    apply mem_In, nodup_In, mem_In in E'. congruence.
Qed.

Lemma SSSP_relax_eq src nd acc dst :
  SSSP_relax src (nd, acc) dst =
  (modify nd dst
     (set_current_length
        (Z.min (current_length (nd dst))
               (wrap32 (1 + current_length (nd src))))),
   if current_length (nd dst) >? wrap32 (1 + current_length (nd src))
   then wrap32 (acc + 1) else acc).
Proof.
  unfold SSSP_relax, atomicMin.
  now destruct (current_length (nd dst)
                >? wrap32 (1 + current_length (nd src))).
Qed.

(** The edge loop of the SSSP operator, for a node whose distance [c] is
    below the largest [uint32_t]: every destination receives the minimum of
    its distance and [c + 1], and the accumulator grows by the number of
    destinations whose distance was above [c + 1]. *)
Lemma SSSP_relax_fold src : forall dsts nd acc nd' acc',
  0 <= current_length (nd src) < UINT32_MAX ->
  0 <= acc < 2 ^ 32 ->
  fold_left (SSSP_relax src) dsts (nd, acc) = (nd', acc') ->
  (forall v,
     nd' v = set_current_length
               (if mem v dsts
                then Z.min (current_length (nd v)) (current_length (nd src) + 1)
                else current_length (nd v)) (nd v)) /\
  acc' = wrap32 (acc + Z.of_nat (List.length
           (filter (fun v => current_length (nd src) + 1
                             <? current_length (nd v))
                   (nodup Nat.eq_dec dsts)))).
Proof.
  induction dsts as [|a dsts IH]; intros nd acc nd' acc' Hc Hacc H.
  - simpl in H. injection H as <- <-. split.
    + intros v. simpl. now rewrite set_current_length_id.
    + simpl. rewrite Z.add_0_r. symmetry. now apply wrap32_small.
  - cbn [fold_left] in H. rewrite SSSP_relax_eq in H.
    assert (Hw : wrap32 (1 + current_length (nd src))
                 = current_length (nd src) + 1).
    { rewrite wrap32_small; unfold UINT32_MAX in Hc; lia. }
    rewrite Hw in H.
    set (c := current_length (nd src)) in *.
    set (nd1 := modify nd a (set_current_length
                               (Z.min (current_length (nd a)) (c + 1)))) in *.
    assert (Hc1 : current_length (nd1 src) = c).
    { unfold nd1. destruct (Nat.eq_dec src a) as [->|Hne].
      - rewrite modify_same. simpl. fold c. lia.
      - now rewrite modify_other. }
    assert (Hf1 : forall v, (c + 1 <? current_length (nd1 v))
                   = (c + 1 <? current_length (nd v)) && negb (Nat.eqb v a)).
    { intros v. unfold nd1. destruct (Nat.eqb_spec v a) as [->|Hne].
      - rewrite modify_same. simpl. rewrite andb_false_r.
        apply Z.ltb_ge. lia.
      - rewrite modify_other by assumption. now rewrite andb_true_r. }
    set (acc1 := if current_length (nd a) >? c + 1 then wrap32 (acc + 1)
                 else acc) in *.
    assert (Hacc1 : 0 <= acc1 < 2 ^ 32).
    { unfold acc1. destruct (current_length (nd a) >? c + 1);
        [apply wrap32_range | assumption]. }
    apply IH in H; [|rewrite Hc1; exact Hc | exact Hacc1].
    destruct H as [Hnd' Hacc']. rewrite Hc1 in Hnd', Hacc'. split.
    + intros v. rewrite Hnd', mem_cons. unfold nd1.
      destruct (Nat.eqb_spec v a) as [->|Hne]; simpl.
      * rewrite modify_same. unfold set_current_length. simpl.
        f_equal. destruct (mem a dsts); lia.
      * now rewrite modify_other.
    + rewrite Hacc'.
      rewrite (filter_ext _ _ Hf1).
      pose proof (filter_length_remove
                    (fun v => c + 1 <? current_length (nd v)) a
                    (nodup Nat.eq_dec dsts) (NoDup_nodup _ _)) as Hrem.
      rewrite mem_nodup in Hrem. simpl.
      assert (Eg : (current_length (nd a) >? c + 1)
                   = (c + 1 <? current_length (nd a)))
        by apply Z.gtb_ltb.
      unfold acc1. rewrite Eg.
      destruct (in_dec Nat.eq_dec a dsts) as [Hin|Hnin].
      * apply mem_In in Hin. rewrite Hin in Hrem. rewrite Hrem.
        destruct (c + 1 <? current_length (nd a)); simpl.
        -- rewrite wrap32_add_l. f_equal. lia.
        -- f_equal. lia.
      * assert (Em : mem a dsts = false).
        { destruct (mem a dsts) eqn:E; [|reflexivity].
          apply mem_In in E. contradiction. }
        rewrite Em, andb_false_r, Nat.add_0_r in Hrem. simpl.
        destruct (c + 1 <? current_length (nd a)); simpl.
        -- rewrite wrap32_add_l, <- Hrem. f_equal. lia.
        -- now rewrite <- Hrem.
Qed.

Lemma FirstIterationSSSP_relax_fold src : forall dsts nd,
  0 <= current_length (nd src) < UINT32_MAX ->
  forall v,
    fold_left (FirstIterationSSSP_relax src) dsts nd v =
    set_current_length
      (if mem v dsts
       then Z.min (current_length (nd v)) (current_length (nd src) + 1)
       else current_length (nd v)) (nd v).
Proof.
  induction dsts as [|a dsts IH]; intros nd Hc v.
  - simpl. now rewrite set_current_length_id.
  - cbn [fold_left]. unfold FirstIterationSSSP_relax at 2, atomicMin.
    cbn [fst].
    assert (Hw : wrap32 (1 + current_length (nd src))
                 = current_length (nd src) + 1).
    { rewrite wrap32_small; unfold UINT32_MAX in Hc; lia. }
    rewrite Hw.
    set (c := current_length (nd src)) in *.
    set (nd1 := modify nd a _).
    assert (Hc1 : current_length (nd1 src) = c).
    { unfold nd1. destruct (Nat.eq_dec src a) as [->|Hne].
      - rewrite modify_same. simpl. fold c. lia.
      - now rewrite modify_other. }
    rewrite IH by (rewrite Hc1; exact Hc).
    rewrite Hc1, mem_cons. unfold nd1.
    destruct (Nat.eqb_spec v a) as [->|Hne]; simpl.
    + rewrite modify_same. unfold set_current_length. simpl.
      f_equal. destruct (mem a dsts); lia.
    + now rewrite modify_other.
Qed.

Lemma SSSP_op_inactive g src nd acc :
  old_length (nd src) <= current_length (nd src) ->
  SSSP_op g src (nd, acc) = (nd, acc).
Proof.
  intros H. unfold SSSP_op.
  destruct (Z.gtb_spec (old_length (nd src)) (current_length (nd src)));
    [lia | reflexivity].
Qed.

Lemma SSSP_op_active g src nd acc nd' acc' :
  0 <= current_length (nd src) ->
  old_length (nd src) <= UINT32_MAX ->
  0 <= acc < 2 ^ 32 ->
  old_length (nd src) > current_length (nd src) ->
  SSSP_op g src (nd, acc) = (nd', acc') ->
  (forall v,
     nd' v = set_current_length
               (if mem v (edge_dsts g src)
                then Z.min (current_length (nd v)) (current_length (nd src) + 1)
                else current_length (nd v))
               (if Nat.eqb v src
                then set_old_length (current_length (nd src)) (nd v)
                else nd v)) /\
  acc' = wrap32 (acc + Z.of_nat (List.length
           (filter (fun v => current_length (nd src) + 1
                             <? current_length (nd v))
                   (nodup Nat.eq_dec (edge_dsts g src))))).
Proof.
  intros Hc Ho Hacc Hgt H. unfold SSSP_op in H.
  destruct (Z.gtb_spec (old_length (nd src)) (current_length (nd src)));
    [|lia].
  set (nd1 := modify nd src (fun d => set_old_length (current_length d) d))
    in *.
  assert (Hcl : forall v, current_length (nd1 v) = current_length (nd v)).
  { intros v. unfold nd1. destruct (Nat.eq_dec v src) as [->|Hne].
    - now rewrite modify_same.
    - now rewrite modify_other. }
  apply SSSP_relax_fold in H; [|rewrite Hcl; lia | assumption].
  destruct H as [Hnd' Hacc']. split.
  - intros v. rewrite Hnd', !Hcl. f_equal. unfold nd1.
    destruct (Nat.eqb_spec v src) as [->|Hne].
    + now rewrite modify_same.
    + now rewrite modify_other.
  - rewrite Hacc', Hcl.
    erewrite filter_ext; [reflexivity|].
    intros v. cbv beta. now rewrite Hcl.
Qed.

Lemma SSSP_loop_exit g : forall fuel w w',
  SSSP_loop fuel g w = Ok w' <->
  exists k,
    (k < fuel)%nat /\
    (forall j, (j < k)%nat ->
               snd (SSSP_round g (SSSP_state_after j g w)) <> 0) /\
    snd (SSSP_round g (SSSP_state_after k g w)) = 0 /\
    w' = SSSP_final_sync g (fst (SSSP_round g (SSSP_state_after k g w))).
Proof.
  induction fuel as [|fuel IH]; intros w w'.
  - split; [discriminate | intros (k & Hk & _); lia].
  - cbn [SSSP_loop]. destruct (SSSP_round g w) as [w1 acc] eqn:E.
    destruct (Z.eqb_spec acc 0) as [->|Hne]; split.
    + intros H. injection H as <-. exists 0%nat. simpl. rewrite E. simpl.
      repeat split; [lia | intros j Hj; lia].
    + intros (k & Hk & Hj & H0 & ->). destruct k as [|k].
      * simpl. now rewrite E.
      * exfalso. apply (Hj 0%nat); [lia|]. simpl. now rewrite E.
    + intros H. apply IH in H as (k & Hk & Hj & H0 & ->).
      exists (S k). simpl. rewrite E. simpl. repeat split; try assumption.
      * lia.
      * intros [|j] Hlt; simpl; rewrite E; simpl; [assumption|].
        apply Hj. lia.
    + intros (k & Hk & Hj & H0 & ->). destruct k as [|k].
      * simpl in H0. rewrite E in H0. simpl in H0. contradiction.
      * apply IH. exists k. simpl in *. rewrite E in *. simpl in *.
        repeat split; try assumption; [lia|].
        intros j Hlt. specialize (Hj (S j)). simpl in Hj. rewrite E in Hj.
        apply Hj. lia.
Qed.

Lemma filter_none {A} (f : A -> bool) l :
  (forall x, In x l -> f x = false) -> filter f l = [].
Proof.
  induction l as [|x l IH]; intros H; [reflexivity|].
  simpl. rewrite (H x) by now left. apply IH.
  intros y Hy. apply H. now right.
Qed.

Lemma SSSP_pass_spec g : forall l nd0 nd acc,
  NoDup l ->
  (forall v, 0 <= current_length (nd0 v)) ->
  (forall v, old_length (nd0 v) <= UINT32_MAX) ->
  do_all l (SSSP_op g) (nd0, 0) = (nd, acc) ->
  (forall v, 0 <= current_length (nd v) <= current_length (nd0 v)) /\
  (forall v, old_length (nd v) <= old_length (nd0 v)) /\
  (forall v, ~ In v l -> old_length (nd v) = old_length (nd0 v)) /\
  (forall u, In u l -> old_length (nd0 u) > current_length (nd0 u) ->
     current_length (nd u) <= old_length (nd u) <= current_length (nd0 u) /\
     forall d, In d (edge_dsts g u) ->
               current_length (nd d) <= old_length (nd u) + 1) /\
  (forall d, current_length (nd d) < current_length (nd0 d) ->
     exists u, In u l /\ In d (edge_dsts g u) /\
               old_length (nd u) < old_length (nd0 u) /\
               current_length (nd d) = old_length (nd u) + 1) /\
  (exists c : nat,
     acc = wrap32 (Z.of_nat c) /\ (c <= edges_of g l)%nat /\
     (c = 0%nat ->
      forall v, current_length (nd v) = current_length (nd0 v)) /\
     (c <> 0%nat ->
      exists d, current_length (nd d) < current_length (nd0 d))).
Proof.
  induction l as [|x l IH] using rev_ind; intros nd0 nd acc Hnd Hc0 Ho0 E.
  - injection E as <- <-.
    split; [intros v; specialize (Hc0 v); lia|].
    split; [intros v; lia|]. split; [reflexivity|].
    split; [intros u []|]. split; [intros d Hd; lia|].
    exists 0%nat. split; [reflexivity|]. split; [apply Nat.le_0_l|].
    split; [reflexivity | intros H; now contradiction H].
  - unfold do_all in E. rewrite fold_left_app in E. cbn [fold_left] in E.
    destruct (fold_left (fun s n => SSSP_op g n s) l (nd0, 0))
      as [nd1 acc1] eqn:E1.
    assert (Hx : ~ In x l).
    { apply NoDup_remove_2 in Hnd. now rewrite app_nil_r in Hnd. }
    apply NoDup_remove_1 in Hnd. rewrite app_nil_r in Hnd.
    destruct (IH nd0 nd1 acc1 Hnd Hc0 Ho0 E1)
      as (I1 & I2 & I2' & I3 & I4 & c & Hacc & Hcle & Hc0' & Hcn).
    assert (He : edges_of g (l ++ [x])
                 = (edges_of g l + List.length (edge_dsts g x))%nat).
    { unfold edges_of. rewrite map_app, list_sum_app. simpl. lia. }
    destruct (Z_le_gt_dec (old_length (nd1 x)) (current_length (nd1 x)))
      as [Hin|Hact].
    + pose proof (SSSP_op_inactive g x nd1 acc1 Hin) as Hi.
      assert (Heq : (nd, acc) = (nd1, acc1)) by (rewrite <- E; exact Hi).
      injection Heq as -> ->. clear E Hi.
      split; [exact I1|]. split; [exact I2|].
      split; [intros v Hv; apply I2'; intros Hl; apply Hv, in_or_app;
              now left|].
      split.
      * intros u Hu Hgt. apply in_app_or in Hu as [Hu|[<-|[]]];
          [now apply I3|].
        exfalso. rewrite (I2' x Hx) in Hin. specialize (I1 x). lia.
      * split.
        -- intros d Hd. destruct (I4 d Hd) as (u & Hu & H).
           exists u. split; [apply in_or_app; now left | exact H].
        -- exists c. split; [exact Hacc|]. split; [lia|].
           split; assumption.
    + assert (Hr : 0 <= acc1 < 2 ^ 32)
        by (rewrite Hacc; apply wrap32_range).
      assert (Hox : old_length (nd1 x) <= UINT32_MAX)
        by (specialize (I2 x); specialize (Ho0 x); lia).
      destruct (SSSP_op_active g x nd1 acc1 nd acc (proj1 (I1 x)) Hox Hr
                  Hact E) as [Hnd' Hacc'].
      set (c1 := current_length (nd1 x)) in *.
      assert (Hcl : forall v,
                current_length (nd v)
                = if mem v (edge_dsts g x)
                  then Z.min (current_length (nd1 v)) (c1 + 1)
                  else current_length (nd1 v)).
      { intros v. now rewrite Hnd'. }
      assert (Hol : forall v,
                old_length (nd v)
                = if Nat.eqb v x then c1 else old_length (nd1 v)).
      { intros v. rewrite Hnd'. now destruct (Nat.eqb v x). }
      assert (Hmono : forall v,
                current_length (nd v) <= current_length (nd1 v)).
      { intros v. rewrite Hcl. destruct (mem v (edge_dsts g x)); lia. }
      assert (Hc1 : 0 <= c1) by apply I1.
      set (k := List.length
                  (filter (fun v => c1 + 1 <? current_length (nd1 v))
                     (nodup Nat.eq_dec (edge_dsts g x)))) in *.
      assert (Hk : (k <= List.length (edge_dsts g x))%nat).
      { unfold k.
        etransitivity; [apply filter_length_le|].
        apply NoDup_incl_length; [apply NoDup_nodup|].
        intros y Hy. now apply nodup_In in Hy. }
      assert (Hk0 : k = 0%nat ->
                    forall v, current_length (nd v) = current_length (nd1 v)).
      { unfold k. intros H0 v. rewrite Hcl.
        destruct (mem v (edge_dsts g x)) eqn:Em; [|reflexivity].
        apply mem_In in Em.
        destruct (Z.ltb_spec (c1 + 1) (current_length (nd1 v)))
          as [Hlt|Hge]; [|lia].
        exfalso. apply length_zero_iff_nil in H0.
        assert (Hf : In v (filter
                             (fun v => c1 + 1 <? current_length (nd1 v))
                             (nodup Nat.eq_dec (edge_dsts g x)))).
        { apply filter_In. split; [now apply nodup_In|].
          now apply Z.ltb_lt. }
        rewrite H0 in Hf. contradiction. }
      assert (Hkn : k <> 0%nat ->
                    exists d, current_length (nd d) < current_length (nd1 d)).
      { unfold k. intros Hk1.
        destruct (filter (fun v => c1 + 1 <? current_length (nd1 v))
                    (nodup Nat.eq_dec (edge_dsts g x))) as [|d rest] eqn:Ef;
          [now contradiction Hk1|].
        assert (Hd : In d (filter
                             (fun v => c1 + 1 <? current_length (nd1 v))
                             (nodup Nat.eq_dec (edge_dsts g x))))
          by (rewrite Ef; now left).
        apply filter_In in Hd as [Hd Hlt]. apply nodup_In in Hd.
        apply Z.ltb_lt in Hlt. exists d. rewrite Hcl.
        apply mem_In in Hd. rewrite Hd. lia. }
      split.
      { intros v. specialize (I1 v). specialize (Hmono v).
        split; [|lia]. rewrite Hcl. destruct (mem v (edge_dsts g x)); lia. }
      split.
      { intros v. rewrite Hol. destruct (Nat.eqb_spec v x) as [->|Hne];
          [|apply I2]. specialize (I2 x). lia. }
      split.
      { intros v Hv. rewrite Hol.
        destruct (Nat.eqb_spec v x) as [->|Hne].
        - exfalso. apply Hv, in_or_app. right. now left.
        - apply I2'. intros Hl. apply Hv, in_or_app. now left. }
      split.
      { intros u Hu Hgt. apply in_app_or in Hu as [Hu|[<-|[]]].
        - destruct (I3 u Hu Hgt) as [Ha Hb].
          assert (Hne : u <> x) by (intros ->; contradiction).
          rewrite Hol. apply Nat.eqb_neq in Hne. rewrite Hne.
          split; [specialize (Hmono u); lia|].
          intros d Hd. specialize (Hb d Hd). specialize (Hmono d). lia.
        - rewrite Hol, Nat.eqb_refl.
          split; [specialize (Hmono x); specialize (I1 x); fold c1 in I1;
                  fold c1 in Hmono; lia|].
          intros d Hd. rewrite Hcl. apply mem_In in Hd. rewrite Hd. lia. }
      split.
      { intros d Hd.
        destruct (Z.eq_dec (current_length (nd d)) (current_length (nd1 d)))
          as [Eq|Neq].
        - rewrite Eq in Hd. destruct (I4 d Hd) as (u & Hu & Hdu & Hlo & Hv).
          assert (Hne : u <> x) by (intros ->; contradiction).
          exists u. split; [apply in_or_app; now left|].
          split; [exact Hdu|]. rewrite Hol, Eq.
          apply Nat.eqb_neq in Hne. rewrite Hne. split; assumption.
        - exists x. split; [apply in_or_app; right; now left|].
          rewrite Hcl in Neq |- *. rewrite Hol, Nat.eqb_refl.
          destruct (mem d (edge_dsts g x)) eqn:Em; [|contradiction].
          split; [now apply mem_In|].
          split; [rewrite <- (I2' x Hx); lia | lia]. }
      exists (c + k)%nat. split.
      { rewrite Hacc', Hacc, wrap32_add_l. f_equal. lia. }
      split; [lia|]. split.
      * intros H0 v. rewrite Hk0 by lia. apply Hc0'. lia.
      * intros Hne. destruct (Nat.eq_dec c 0) as [->|Hc].
        -- destruct Hkn as (d & Hd); [lia|]. exists d.
           specialize (I1 d). lia.
        -- destruct (Hcn Hc) as (d & Hd). exists d.
           specialize (Hmono d). lia.
Qed.

(** C6. In every round after round 0 the operator leaves a node with
    old_length <= current_length alone; for a node with
    old_length > current_length it records the distance in old_length and
    relaxes every outgoing edge with the candidate current_length + 1,
    stored as a minimum at the destination, and the accumulator grows by
    one for each destination whose distance strictly improved.  A round
    applies the operator to every local node: no distance grows; every
    local node that enters the round with old_length > current_length has
    its outgoing edges relaxed (each destination ends at most one above
    the distance recorded in the node's old_length); a distance improves
    only through an edge from a local node whose old_length the round
    lowered, and ends one above it; the accumulator is not zero only if
    some distance improved, and with fewer than 2^32 edges it is zero
    exactly when no distance changed.  The round loop returns exactly at
    the first round whose accumulator is zero. *)
Theorem C6_SSSP_round_loop :
  (forall g src nd acc,
     old_length (nd src) <= current_length (nd src) ->
     SSSP_op g src (nd, acc) = (nd, acc)) /\
  (forall g src nd acc nd' acc',
     0 <= current_length (nd src) ->
     old_length (nd src) <= UINT32_MAX ->
     0 <= acc < 2 ^ 32 ->
     old_length (nd src) > current_length (nd src) ->
     SSSP_op g src (nd, acc) = (nd', acc') ->
     (forall v,
        current_length (nd' v) =
        if mem v (edge_dsts g src)
        then Z.min (current_length (nd v)) (current_length (nd src) + 1)
        else current_length (nd v)) /\
     old_length (nd' src) = current_length (nd src) /\
     acc' = wrap32 (acc + Z.of_nat (List.length
              (filter (fun v => current_length (nd src) + 1
                                <? current_length (nd v))
                      (nodup Nat.eq_dec (edge_dsts g src)))))) /\
  (forall g w w1 acc,
     (forall v, 0 <= current_length (nodes w v)) ->
     (forall v, old_length (nodes w v) <= UINT32_MAX) ->
     SSSP_round g w = (w1, acc) ->
     syncs w1 = syncs w /\
     (forall v, 0 <= current_length (nodes w1 v)
                <= current_length (nodes w v)) /\
     (forall v, old_length (nodes w1 v) <= old_length (nodes w v)) /\
     (forall v, ~ (v < numNodes g)%nat ->
                old_length (nodes w1 v) = old_length (nodes w v)) /\
     (forall u, (u < numNodes g)%nat ->
        old_length (nodes w u) > current_length (nodes w u) ->
        current_length (nodes w1 u) <= old_length (nodes w1 u)
        <= current_length (nodes w u) /\
        forall d, In d (edge_dsts g u) ->
                  current_length (nodes w1 d)
                  <= old_length (nodes w1 u) + 1) /\
     (forall d, current_length (nodes w1 d) < current_length (nodes w d) ->
        exists u, (u < numNodes g)%nat /\ In d (edge_dsts g u) /\
                  old_length (nodes w1 u) < old_length (nodes w u) /\
                  current_length (nodes w1 d)
                  = old_length (nodes w1 u) + 1) /\
     (acc <> 0 ->
      exists d, current_length (nodes w1 d) < current_length (nodes w d)) /\
     (Z.of_nat (num_edges g) < 2 ^ 32 ->
      (acc = 0 <->
       forall v, current_length (nodes w1 v) = current_length (nodes w v))))
  /\
  (forall fuel g w w',
     SSSP_loop fuel g w = Ok w' <->
     exists k,
       (k < fuel)%nat /\
       (forall j, (j < k)%nat ->
                  snd (SSSP_round g (SSSP_state_after j g w)) <> 0) /\
       snd (SSSP_round g (SSSP_state_after k g w)) = 0 /\
       w' = SSSP_final_sync g (fst (SSSP_round g (SSSP_state_after k g w)))).
Proof.
  split; [exact SSSP_op_inactive|]. split; [|split].
  - intros g src nd acc nd' acc' Hc Ho Hacc Hgt H.
    destruct (SSSP_op_active g src nd acc nd' acc' Hc Ho Hacc Hgt H)
      as [Hnd' Hacc'].
    split; [|split; [|exact Hacc']].
    + intros v. now rewrite Hnd'.
    + rewrite Hnd', Nat.eqb_refl. reflexivity.
  - intros g w w1 acc Hc Ho E. unfold SSSP_round in E.
    destruct (do_all (all_nodes g) (SSSP_op g) (nodes w, 0))
      as [nd acc0] eqn:Ed.
    injection E as <- <-. cbn [with_nodes nodes syncs].
    destruct (SSSP_pass_spec g (all_nodes g) (nodes w) nd acc0
                (seq_NoDup _ _) Hc Ho Ed)
      as (I1 & I2 & I2' & I3 & I4 & c & Hacc & Hcle & Hc0 & Hcn).
    fold (num_edges g) in Hcle.
    assert (Hloc : forall v, In v (all_nodes g) <-> (v < numNodes g)%nat).
    { intros v. unfold all_nodes. rewrite in_seq. lia. }
    split; [reflexivity|]. split; [exact I1|]. split; [exact I2|].
    split; [intros v Hv; apply I2'; now rewrite Hloc|].
    split; [intros u Hu; apply I3; now rewrite Hloc|].
    split.
    { intros d Hd. destruct (I4 d Hd) as (u & Hu & H).
      exists u. split; [now apply Hloc | exact H]. }
    split.
    { intros Hne. apply Hcn. intros ->. now apply Hne. }
    intros Hb. rewrite wrap32_small in Hacc by lia. split.
    + intros H0. apply Hc0. lia.
    + intros Hsame. destruct (Nat.eq_dec c 0) as [->|Hne]; [exact Hacc|].
      destruct (Hcn Hne) as (d & Hd). rewrite Hsame in Hd. lia.
  - intros fuel g w w'. apply SSSP_loop_exit.
Qed.

Lemma C6_SSSP_round_loop_witness :
  (exists nd' acc',
     SSSP_op path_graph 1%nat (reached_1, 0) = (nd', acc') /\
     current_length (nd' 2%nat) = 2 /\ acc' = 1) /\
  current_length
    (nodes (fst (SSSP_round path_graph (mkWorld reached_1 []))) 2%nat)
  <= old_length
       (nodes (fst (SSSP_round path_graph (mkWorld reached_1 []))) 1%nat)
     + 1 /\
  exists d,
    current_length
      (nodes (fst (SSSP_round path_graph (mkWorld reached_1 []))) d)
    < current_length (reached_1 d).
Proof.
  destruct C6_SSSP_round_loop as (_ & Hop & Hround & _). split.
  - destruct (SSSP_op path_graph 1%nat (reached_1, 0)) as [nd' acc'] eqn:E.
    exists nd', acc'. split; [reflexivity|].
    destruct (Hop path_graph 1%nat reached_1 0 nd' acc')
      as (Hcl & _ & Hacc).
    + simpl. lia.
    + vm_compute. discriminate.
    + lia.
    + reflexivity.
    + exact E.
    + split; [now rewrite Hcl | now rewrite Hacc].
  - destruct (Hround path_graph (mkWorld reached_1 [])
                (fst (SSSP_round path_graph (mkWorld reached_1 [])))
                (snd (SSSP_round path_graph (mkWorld reached_1 []))))
      as (_ & _ & _ & _ & Hrel & _ & Hacc & _).
    + intros [|[|v]]; vm_compute; discriminate.
    + intros v. vm_compute. discriminate.
    + symmetry. apply surjective_pairing.
    + split.
      * destruct (Hrel 1%nat) as [_ Hd];
          [simpl; lia | reflexivity | apply Hd; simpl; now left].
      * apply Hacc. vm_compute. discriminate.
Defined.

(** C10. infinity is (2^32 - 1) / 4 = 1073741823.  For a distance of at
    most infinity the candidate 1 + current_length does not wrap.  When
    every distance is at most infinity, the operator applied to a node at
    distance infinity changes no distance (in particular a node at
    infinity stays at infinity) and does not touch the accumulator; the
    same holds for the operator of round 0. *)
Theorem C10_infinity_no_overflow :
  infinity = (2 ^ 32 - 1) / 4 /\
  infinity = 1073741823 /\
  (forall c, 0 <= c <= infinity ->
             wrap32 (1 + c) = 1 + c /\ 1 + c <= UINT32_MAX) /\
  (forall g src nd acc,
     (forall v, 0 <= current_length (nd v) <= infinity) ->
     0 <= acc < 2 ^ 32 ->
     current_length (nd src) = infinity ->
     (forall v, current_length (fst (SSSP_op g src (nd, acc)) v)
                = current_length (nd v)) /\
     snd (SSSP_op g src (nd, acc)) = acc /\
     (forall v, current_length (FirstIterationSSSP_op g src nd v)
                = current_length (nd v))).
Proof.
  split; [reflexivity|]. split; [reflexivity|]. split.
  - intros c Hc. rewrite infinity_value in Hc. unfold UINT32_MAX.
    rewrite wrap32_small; lia.
  - intros g src nd acc Hall Hacc Hsrc.
    assert (Hinf : 0 <= infinity < UINT32_MAX)
      by (rewrite infinity_value; unfold UINT32_MAX; lia).
    split; [|split].
    + destruct (Z_le_gt_dec (old_length (nd src)) (current_length (nd src)))
        as [Hle|Hgt].
      * now rewrite SSSP_op_inactive.
      * unfold SSSP_op.
        destruct (Z.gtb_spec (old_length (nd src)) (current_length (nd src)));
          [|lia].
        set (nd1 := modify nd src _).
        assert (Hcl : forall v, current_length (nd1 v)
                                = current_length (nd v)).
        { intros v. unfold nd1. destruct (Nat.eq_dec v src) as [->|Hne].
          - now rewrite modify_same.
          - now rewrite modify_other. }
        destruct (fold_left (SSSP_relax src) (edge_dsts g src) (nd1, acc))
          as [nd' acc'] eqn:E.
        apply SSSP_relax_fold in E; [|rewrite Hcl; lia | assumption].
        destruct E as [Hnd' _]. intros v. simpl. rewrite Hnd', !Hcl. simpl.
        specialize (Hall v). destruct (mem v (edge_dsts g src)); lia.
    + destruct (Z_le_gt_dec (old_length (nd src)) (current_length (nd src)))
        as [Hle|Hgt].
      * now rewrite SSSP_op_inactive.
      * unfold SSSP_op.
        destruct (Z.gtb_spec (old_length (nd src)) (current_length (nd src)));
          [|lia].
        set (nd1 := modify nd src _).
        assert (Hcl : forall v, current_length (nd1 v)
                                = current_length (nd v)).
        { intros v. unfold nd1. destruct (Nat.eq_dec v src) as [->|Hne].
          - now rewrite modify_same.
          - now rewrite modify_other. }
        destruct (fold_left (SSSP_relax src) (edge_dsts g src) (nd1, acc))
          as [nd' acc'] eqn:E.
        apply SSSP_relax_fold in E; [|rewrite Hcl; lia | assumption].
        destruct E as [_ Hacc']. simpl. rewrite Hacc'.
        rewrite filter_none.
        -- simpl. rewrite Z.add_0_r. now apply wrap32_small.
        -- intros v _. rewrite !Hcl. apply Z.ltb_ge.
           specialize (Hall v). lia.
    + intros v. unfold FirstIterationSSSP_op.
      rewrite FirstIterationSSSP_relax_fold by lia. simpl.
      specialize (Hall v). destruct (mem v (edge_dsts g src)); lia.
Qed.

Lemma C10_infinity_no_overflow_witness :
  wrap32 (1 + infinity) = 1 + infinity /\
  snd (SSSP_op path_graph 2%nat (reached_1, 0)) = 0.
Proof.
  destruct C10_infinity_no_overflow as (_ & _ & Hc & Hop).
  split.
  - apply (Hc infinity). vm_compute. split; discriminate.
  - apply (Hop path_graph 2%nat reached_1 0).
    + intros v. unfold reached_1. simpl.
      destruct v as [|[|v]]; vm_compute; split; discriminate.
    + lia.
    + reflexivity.
Defined.

(* ------------------------------------------------------------------ *)
(** ** The breadth-first phase computes a fixed point *)

Lemma Zsum_le f f' l :
  (forall v, In v l -> f' v <= f v) -> Zsum f' l <= Zsum f l.
Proof.
  induction l as [|x l IH]; intros H; simpl; [lia|].
  pose proof (H x (or_introl eq_refl)).
  assert (Zsum f' l <= Zsum f l) by (apply IH; intros; apply H; now right).
  lia.
Qed.

Lemma Zsum_lt f f' l x :
  (forall v, In v l -> f' v <= f v) -> In x l -> f' x < f x ->
  Zsum f' l < Zsum f l.
Proof.
  induction l as [|y l IH]; intros H Hin Hlt; [contradiction|].
  simpl. pose proof (H y (or_introl eq_refl)).
  assert (Hl : forall v, In v l -> f' v <= f v) by (intros; apply H; now right).
  destruct Hin as [->|Hin].
  - pose proof (Zsum_le f f' l Hl). lia.
  - pose proof (IH Hl Hin Hlt). lia.
Qed.

Lemma Zsum_nonneg f l : (forall v, In v l -> 0 <= f v) -> 0 <= Zsum f l.
Proof.
  induction l as [|x l IH]; intros H; simpl; [lia|].
  pose proof (H x (or_introl eq_refl)).
  assert (0 <= Zsum f l) by (apply IH; intros; apply H; now right). lia.
Qed.

Lemma in_all_nodes g v : In v (all_nodes g) <-> (v < numNodes g)%nat.
Proof. unfold all_nodes. rewrite in_seq. lia. Qed.

(** One application of the SSSP operator keeps the invariant, touches only
    the two length fields, never raises a distance, and either leaves the
    accumulator and every distance as they were or lowers the sum of the
    distances. *)
Lemma SSSP_op_step g s u nd acc nd' acc' :
  wf_graph g -> (u < numNodes g)%nat ->
  SSSP_inv g s nd -> 0 <= acc < 2 ^ 32 ->
  SSSP_op g u (nd, acc) = (nd', acc') ->
  SSSP_inv g s nd' /\
  0 <= acc' < 2 ^ 32 /\
  (forall v, ctl (nd' v) = ctl (nd v) /\
             current_length (nd' v) <= current_length (nd v)) /\
  old_length (nd' u) = current_length (nd' u) /\
  exists k : nat,
    acc' = wrap32 (acc + Z.of_nat k) /\
    (k <= List.length (edge_dsts g u))%nat /\
    ((k = 0%nat /\
      forall v, current_length (nd' v) = current_length (nd v) /\
                (v <> u -> old_length (nd' v) = old_length (nd v))) \/
     ((0 < k)%nat /\ total_length g nd' < total_length g nd)).
Proof.
  intros Hwf Hu Hinv Hacc H.
  destruct (Z_le_gt_dec (old_length (nd u)) (current_length (nd u)))
    as [Hle|Hgt].
  - rewrite SSSP_op_inactive in H by assumption. injection H as <- <-.
    split; [exact Hinv|]. split; [exact Hacc|].
    split; [intros v; split; [reflexivity | lia]|]. split.
    + destruct (sssp_range g s nd Hinv u Hu). lia.
    + exists 0%nat. split; [|split; [lia|]].
      * simpl. rewrite Z.add_0_r. symmetry. now apply wrap32_small.
      * left. split; [reflexivity|]. intros v. split; reflexivity.
  - destruct (sssp_range g s nd Hinv u Hu) as [Hcu Hou].
    assert (Hinfv : infinity = 1073741823) by reflexivity.
    apply SSSP_op_active in H;
      [|lia | unfold UINT32_MAX; lia | assumption | assumption].
    destruct H as [Hnd' Hacc'].
    set (c := current_length (nd u)) in *.
    assert (Hcl : forall v, current_length (nd' v) =
                    if mem v (edge_dsts g u)
                    then Z.min (current_length (nd v)) (c + 1)
                    else current_length (nd v)).
    { intros v. now rewrite Hnd'. }
    assert (Hold : forall v, old_length (nd' v) =
                     if Nat.eqb v u then c else old_length (nd v)).
    { intros v. rewrite Hnd'. simpl. now destruct (Nat.eqb v u). }
    assert (Hle' : forall v, current_length (nd' v) <= current_length (nd v)).
    { intros v. rewrite Hcl. destruct (mem v (edge_dsts g u)); lia. }
    assert (Hcu' : current_length (nd' u) = c).
    { rewrite Hcl. fold c. destruct (mem u (edge_dsts g u)); lia. }
    split; [|split; [|split; [|split]]].
    + constructor.
      * intros v Hv. destruct (sssp_range g s nd Hinv v Hv) as [Hcv Hov].
        rewrite Hold. destruct (Nat.eqb_spec v u) as [->|Hne].
        -- rewrite Hcu'. lia.
        -- specialize (Hle' v). rewrite Hcl in *.
           destruct (mem v (edge_dsts g u)); lia.
      * intros v Hv Hfin.
        destruct (Z_lt_ge_dec (current_length (nd' v)) (current_length (nd v)))
          as [Hlow|Hsame].
        -- right. exists u. split; [assumption|].
           pose proof (Hcl v) as Hv'.
           destruct (mem v (edge_dsts g u)) eqn:Em; [|lia].
           apply mem_In in Em. split; [assumption|]. rewrite Hcu'. lia.
        -- assert (Heq : current_length (nd' v) = current_length (nd v))
             by (specialize (Hle' v); lia).
           rewrite Heq in Hfin |- *.
           destruct (sssp_witness g s nd Hinv v Hv Hfin)
             as [Hs|(u' & Hu' & Hin & Hw)]; [now left|].
           right. exists u'. repeat split; try assumption.
           specialize (Hle' u'). lia.
      * intros u' Hu' Heq v Hin.
        rewrite Hold in Heq. destruct (Nat.eqb_spec u' u) as [->|Hne].
        -- rewrite Hcu', Hcl. apply mem_In in Hin. rewrite Hin. lia.
        -- destruct (sssp_range g s nd Hinv u' Hu') as [Hcu'' _].
           pose proof (Hle' u') as Hl1. pose proof (Hle' v) as Hl2.
           assert (E : old_length (nd u') = current_length (nd u')) by lia.
           pose proof (sssp_relaxed g s nd Hinv u' Hu' E v Hin). lia.
      * intros v Hv Hs. pose proof (sssp_source g s nd Hinv v Hv Hs) as H0.
        rewrite Hcl, H0. destruct (mem v (edge_dsts g u)); lia.
    + rewrite Hacc'. apply wrap32_range.
    + intros v. split; [|apply Hle'].
      rewrite Hnd'. unfold ctl. simpl. now destruct (Nat.eqb v u).
    + rewrite Hold, Nat.eqb_refl. now rewrite Hcu'.
    + exists (List.length (filter (fun v => c + 1 <? current_length (nd v))
                             (nodup Nat.eq_dec (edge_dsts g u)))).
      split; [exact Hacc'|]. split.
      { etransitivity; [apply filter_length_le|].
        apply NoDup_incl_length; [apply NoDup_nodup|].
        intros x Hx. now apply nodup_In in Hx. }
      destruct (filter (fun v => c + 1 <? current_length (nd v))
                  (nodup Nat.eq_dec (edge_dsts g u))) as [|x l] eqn:Ef.
      * left. split.
        -- reflexivity.
        -- intros v. split.
           ++ rewrite Hcl. destruct (mem v (edge_dsts g u)) eqn:Em; [|easy].
              apply mem_In in Em.
              assert (Hn : ~ In v (filter (fun v => c + 1 <? current_length (nd v))
                                     (nodup Nat.eq_dec (edge_dsts g u))))
                by (rewrite Ef; intros []).
              rewrite filter_In, nodup_In in Hn.
              destruct (Z.ltb_spec (c + 1) (current_length (nd v))); [|lia].
              exfalso. apply Hn. now split.
           ++ intros Hne. rewrite Hold.
              destruct (Nat.eqb_spec v u); [contradiction | reflexivity].
      * right. split; [simpl; lia|].
        assert (Hx : In x (filter (fun v => c + 1 <? current_length (nd v))
                            (nodup Nat.eq_dec (edge_dsts g u))))
          by (rewrite Ef; now left).
        apply filter_In in Hx as [Hx1 Hx2]. apply nodup_In in Hx1.
        apply Z.ltb_lt in Hx2.
        unfold total_length. apply Zsum_lt with (x := x).
        -- intros v _. apply Hle'.
        -- apply in_all_nodes. eapply wf_edges; eassumption.
        -- rewrite Hcl. apply mem_In in Hx1. rewrite Hx1. lia.
Qed.

Lemma do_all_cons {S} a l (op : GNode -> S -> S) s :
  do_all (a :: l) op s = do_all l op (op a s).
Proof. reflexivity. Qed.

(** A whole pass of the SSSP operator. *)
Lemma SSSP_pass g s : wf_graph g -> forall l nd acc nd' acc',
  (forall u, In u l -> (u < numNodes g)%nat) ->
  SSSP_inv g s nd -> 0 <= acc < 2 ^ 32 ->
  do_all l (SSSP_op g) (nd, acc) = (nd', acc') ->
  SSSP_inv g s nd' /\
  (forall v, ctl (nd' v) = ctl (nd v) /\
             current_length (nd' v) <= current_length (nd v)) /\
  exists k : nat,
    acc' = wrap32 (acc + Z.of_nat k) /\
    (k <= edges_of g l)%nat /\
    ((k = 0%nat /\
      (forall v, current_length (nd' v) = current_length (nd v)) /\
      (forall u, In u l -> old_length (nd' u) = current_length (nd' u)) /\
      (forall v, ~ In v l -> old_length (nd' v) = old_length (nd v))) \/
     ((0 < k)%nat /\ total_length g nd' < total_length g nd)).
Proof.
  intros Hwf. induction l as [|a l IH]; intros nd acc nd' acc' Hl Hinv Hacc H.
  - injection H as <- <-. split; [exact Hinv|].
    split; [intros v; split; [reflexivity | lia]|].
    exists 0%nat. split; [|split; [simpl; lia|]].
    + simpl. rewrite Z.add_0_r. symmetry. now apply wrap32_small.
    + left. repeat split. intros u [].
  - rewrite do_all_cons in H.
    destruct (SSSP_op g a (nd, acc)) as [nd1 acc1] eqn:E1.
    apply (SSSP_op_step g s) in E1; try assumption; [|apply Hl; now left].
    destruct E1 as (Hinv1 & Hacc1 & Hfr1 & Hold1 & k1 & Hk1 & Hb1 & Hd1).
    apply IH in H; try assumption; [|intros u Hu; apply Hl; now right].
    destruct H as (Hinv' & Hfr' & k2 & Hk2 & Hb2 & Hd2).
    split; [exact Hinv'|]. split.
    { intros v. destruct (Hfr1 v) as [Ha Hb]. destruct (Hfr' v) as [Hc Hd].
      split; [congruence | lia]. }
    exists (k1 + k2)%nat. split; [|split].
    + rewrite Hk2, Hk1, wrap32_add_l. f_equal. lia.
    + unfold edges_of in *. simpl. lia.
    + assert (Hle' : total_length g nd' <= total_length g nd1).
      { apply Zsum_le. intros v _. apply Hfr'. }
      assert (Hle1 : total_length g nd1 <= total_length g nd).
      { apply Zsum_le. intros v _. apply Hfr1. }
      destruct Hd1 as [(-> & Hs1)|(Hp1 & Hlt1)];
        [destruct Hd2 as [(-> & Hc2 & Ho2 & Hn2)|(Hp2 & Hlt2)]|].
      * left. split; [reflexivity|]. split; [|split].
        -- intros v. rewrite Hc2. apply Hs1.
        -- intros u [<-|Hu]; [|now apply Ho2].
           destruct (in_dec Nat.eq_dec a l) as [Hin|Hnin]; [now apply Ho2|].
           rewrite Hn2, Hc2 by assumption. exact Hold1.
        -- intros v Hv. rewrite Hn2 by (intros Hin; apply Hv; now right).
           apply Hs1. intros ->. apply Hv. now left.
      * right. split; lia.
      * right. split; lia.
Qed.

Lemma total_length_nonneg g s nd :
  SSSP_inv g s nd -> 0 <= total_length g nd.
Proof.
  intros Hinv. apply Zsum_nonneg. intros v Hv. apply in_all_nodes in Hv.
  destruct (sssp_range g s nd Hinv v Hv). lia.
Qed.

(** The SSSP loop terminates, keeps the invariant and ends in a state
    where every local node has recorded its distance. *)
Lemma SSSP_loop_total g s : wf_graph g -> forall (m : nat) w,
  SSSP_inv g s (nodes w) -> total_length g (nodes w) <= Z.of_nat m ->
  exists fuel w',
    SSSP_loop fuel g w = Ok w' /\
    SSSP_inv g s (nodes w') /\ SSSP_done g (nodes w') /\
    forall v, ctl (nodes w' v) = ctl (nodes w v).
Proof.
  intros Hwf. induction m as [|m IH]; intros w Hinv Hm.
  - destruct (do_all (all_nodes g) (SSSP_op g) (nodes w, 0)) as [nd' acc']
      eqn:E.
    pose proof E as E'.
    apply (SSSP_pass g s Hwf) in E; try assumption; try lia;
      [|intros u Hu; now apply in_all_nodes].
    destruct E as (Hinv' & Hfr & k & Hk & Hb & [(-> & Hc & Ho & _)|(Hp & Hlt)]).
    + exists 1%nat. eexists. simpl. unfold SSSP_round. rewrite E'.
      rewrite Hk. simpl. split; [reflexivity|].
      unfold SSSP_final_sync. destruct (is_vertex_cut g); simpl;
        (split; [exact Hinv'|]; split;
         [intros u Hu; apply Ho; now apply in_all_nodes
         |intros v; apply Hfr]).
    + pose proof (total_length_nonneg g s nd' Hinv'). lia.
  - destruct (do_all (all_nodes g) (SSSP_op g) (nodes w, 0)) as [nd' acc']
      eqn:E.
    pose proof E as E'.
    apply (SSSP_pass g s Hwf) in E; try assumption; try lia;
      [|intros u Hu; now apply in_all_nodes].
    destruct E as (Hinv' & Hfr & k & Hk & Hb & [(-> & Hc & Ho & _)|(Hp & Hlt)]).
    + exists 1%nat. eexists. simpl. unfold SSSP_round. rewrite E'.
      rewrite Hk. simpl. split; [reflexivity|].
      unfold SSSP_final_sync. destruct (is_vertex_cut g); simpl;
        (split; [exact Hinv'|]; split;
         [intros u Hu; apply Ho; now apply in_all_nodes
         |intros v; apply Hfr]).
    + destruct (IH (sync sync_SSSP_cur_len (with_nodes w nd')))
        as (fuel & w' & Hrun & Hinv'' & Hdone & Hfr'').
      { exact Hinv'. }
      { simpl. lia. }
      exists (S fuel), w'. split; [|split; [exact Hinv''|split; [exact Hdone|]]].
      * simpl. unfold SSSP_round. rewrite E'.
        assert (Hne : (acc' =? 0) = false).
        { apply Z.eqb_neq. rewrite Hk. simpl.
          pose proof (wf_num_edges g Hwf). unfold num_edges in *.
          rewrite wrap32_small; lia. }
        rewrite Hne. exact Hrun.
      * intros v. rewrite Hfr''. simpl. apply Hfr.
Qed.

Lemma filter_length_lt {A} (f f' : A -> bool) l x :
  (forall y, f y = true -> f' y = true) ->
  In x l -> f x = false -> f' x = true ->
  (List.length (filter f l) < List.length (filter f' l))%nat.
Proof.
  intros Himp. induction l as [|y l IH]; intros Hin Hf Hf'; [contradiction|].
  assert (Hle : (List.length (filter f l) <= List.length (filter f' l))%nat).
  { clear IH Hin. induction l as [|z l IHl]; simpl; [lia|].
    destruct (f z) eqn:E.
    - rewrite (Himp z E). simpl. lia.
    - destruct (f' z); simpl; lia. }
  simpl. destruct Hin as [->|Hin].
  - rewrite Hf, Hf'. simpl. lia.
  - specialize (IH Hin Hf Hf'). destruct (f y) eqn:E.
    + rewrite (Himp y E). simpl. lia.
    + destruct (f' y); simpl; lia.
Qed.

(** In a fixed point, a node at distance [d] comes with [d + 1] nodes at
    distance at most [d]. *)
Lemma levels_populated g s nd :
  SSSP_inv g s nd -> SSSP_done g nd ->
  forall (d : nat) v, (v < numNodes g)%nat ->
    current_length (nd v) = Z.of_nat d -> current_length (nd v) <> infinity ->
    (d < List.length (filter (fun w => Z.leb (current_length (nd w)) (Z.of_nat d))
                        (all_nodes g)))%nat.
Proof.
  intros Hinv Hdone. induction d as [|d IH]; intros v Hv Hd Hfin.
  - assert (Hin : In v (filter (fun w => Z.leb (current_length (nd w)) (Z.of_nat 0))
                          (all_nodes g))).
    { apply filter_In. split; [now apply in_all_nodes|].
      apply Z.leb_le. lia. }
    destruct (filter _ (all_nodes g)); [contradiction | simpl; lia].
  - destruct (sssp_witness g s nd Hinv v Hv Hfin)
      as [Hs|(u & Hu & Hin & Hw)].
    + pose proof (sssp_source g s nd Hinv v Hv Hs). lia.
    + pose proof (sssp_relaxed g s nd Hinv u Hu (Hdone u Hu) v Hin) as Hr.
      destruct (sssp_range g s nd Hinv u Hu) as [Hcu Hou].
      destruct (sssp_range g s nd Hinv v Hv) as [Hcv Hov].
      assert (Hud : current_length (nd u) = Z.of_nat d) by lia.
      assert (Hufin : current_length (nd u) <> infinity) by lia.
      specialize (IH u Hu Hud Hufin).
      assert (Hlt : (List.length
                       (filter (fun w => Z.leb (current_length (nd w)) (Z.of_nat d))
                          (all_nodes g))
                     < List.length
                       (filter (fun w => Z.leb (current_length (nd w))
                                               (Z.of_nat (S d)))
                          (all_nodes g)))%nat).
      { apply filter_length_lt with (x := v).
        - intros y Hy. apply Z.leb_le in Hy. apply Z.leb_le. lia.
        - now apply in_all_nodes.
        - apply Z.leb_gt. lia.
        - apply Z.leb_le. lia. }
      lia.
Qed.

Lemma SSSP_fixed_point g s nd :
  wf_graph g -> SSSP_inv g s nd -> SSSP_done g nd -> BFS_post g s nd.
Proof.
  intros Hwf Hinv Hdone. constructor.
  - intros v Hv. destruct (sssp_range g s nd Hinv v Hv). lia.
  - apply Hinv.
  - intros v Hv Hfin Hs.
    destruct (sssp_witness g s nd Hinv v Hv Hfin)
      as [Hs'|(u & Hu & Hin & Hw)]; [contradiction|].
    exists u. split; [assumption|]. split; [assumption|].
    pose proof (sssp_relaxed g s nd Hinv u Hu (Hdone u Hu) v Hin). lia.
  - intros v Hv Hfin.
    destruct (sssp_range g s nd Hinv v Hv) as [Hcv Hov].
    pose proof (levels_populated g s nd Hinv Hdone
                  (Z.to_nat (current_length (nd v))) v Hv) as Hlev.
    rewrite Z2Nat.id in Hlev by lia. specialize (Hlev eq_refl Hfin).
    pose proof (filter_length_le
                  (fun w => Z.leb (current_length (nd w)) (current_length (nd v)))
                  (all_nodes g)) as Hle.
    unfold all_nodes in Hle at 2. rewrite length_seq in Hle.
    pose proof (wf_nodes g Hwf). lia.
Qed.

(** InitializeIteration followed by round 0 establishes the invariant. *)
Lemma FirstIterationSSSP_go_inv g s w :
  wf_graph g ->
  (forall v, (v < numNodes g)%nat ->
     current_length (nodes w v) = (if getGID g v =? s then 0 else infinity) /\
     old_length (nodes w v) = (if getGID g v =? s then 0 else infinity)) ->
  SSSP_inv g s (nodes (FirstIterationSSSP_go g s w)) /\
  forall v, ctl (nodes (FirstIterationSSSP_go g s w) v) = ctl (nodes w v).
Proof.
  intros Hwf Hinit.
  assert (Hinfv : infinity = 1073741823) by reflexivity.
  unfold FirstIterationSSSP_go. simpl.
  destruct (isLocal g s) eqn:Eloc.
  - destruct (wf_lid g Hwf s Eloc) as [Hu0 Hg0].
    set (u0 := getLID g s) in *.
    unfold do_all. cbn [fold_left]. unfold FirstIterationSSSP_op.
    destruct (Hinit u0 Hu0) as [Hc0 Ho0].
    rewrite Hg0, Z.eqb_refl in Hc0, Ho0.
    assert (Hnd : forall v,
              fold_left (FirstIterationSSSP_relax u0) (edge_dsts g u0)
                (nodes w) v =
              set_current_length
                (if mem v (edge_dsts g u0)
                 then Z.min (current_length (nodes w v)) 1
                 else current_length (nodes w v)) (nodes w v)).
    { intros v. rewrite FirstIterationSSSP_relax_fold.
      - now rewrite Hc0.
      - rewrite Hc0. unfold UINT32_MAX. lia. }
    assert (Hsrc : forall v, (v < numNodes g)%nat -> getGID g v = s -> v = u0).
    { intros v Hv Hs. destruct (wf_gid g Hwf v Hv) as [_ Hl].
      rewrite Hs in Hl. now symmetry. }
    split.
    + constructor.
      * intros v Hv. rewrite Hnd. simpl.
        destruct (Hinit v Hv) as [Hc Ho]. rewrite Hc, Ho.
        destruct (getGID g v =? s), (mem v (edge_dsts g u0)); lia.
      * intros v Hv Hfin. rewrite Hnd in Hfin. simpl in Hfin.
        destruct (Hinit v Hv) as [Hc Ho].
        destruct (Z.eqb_spec (getGID g v) s) as [Hs|Hs]; [now left|].
        right. exists u0. split; [assumption|].
        rewrite !Hnd. simpl. rewrite Hc, Hc0 in *.
        destruct (mem v (edge_dsts g u0)) eqn:Em; [|contradiction].
        split; [now apply mem_In|].
        destruct (mem u0 (edge_dsts g u0)); lia.
      * intros u Hu Heq v Hin. rewrite !Hnd in *. simpl in *.
        destruct (Hinit u Hu) as [Hc Ho].
        assert (Hv : (v < numNodes g)%nat) by (eapply wf_edges; eassumption).
        destruct (Hinit v Hv) as [Hcv Hov]. rewrite Hc, Ho, Hcv in *.
        destruct (Z.eqb_spec (getGID g u) s) as [Hs|Hs].
        -- rewrite (Hsrc u Hu Hs) in Hin. apply mem_In in Hin. rewrite Hin.
           destruct (mem u (edge_dsts g u0)); lia.
        -- destruct (getGID g v =? s), (mem v (edge_dsts g u0)),
             (mem u (edge_dsts g u0)); lia.
      * intros v Hv Hs. rewrite Hnd. simpl.
        destruct (Hinit v Hv) as [Hc Ho]. rewrite Hc.
        apply Z.eqb_eq in Hs. rewrite Hs.
        destruct (mem v (edge_dsts g u0)); lia.
    + intros v. rewrite Hnd. reflexivity.
  - assert (Hns : forall v, (v < numNodes g)%nat -> getGID g v <> s).
    { intros v Hv Hs. destruct (wf_gid g Hwf v Hv) as [Hl _].
      rewrite Hs in Hl. congruence. }
    simpl. split; [|reflexivity]. constructor.
    + intros v Hv. destruct (Hinit v Hv) as [Hc Ho]. rewrite Hc, Ho.
      destruct (getGID g v =? s); lia.
    + intros v Hv Hfin. destruct (Hinit v Hv) as [Hc Ho].
      destruct (Z.eqb_spec (getGID g v) s) as [Hs|Hs]; [now left|].
      contradiction.
    + intros u Hu Heq v Hin.
      assert (Hv : (v < numNodes g)%nat) by (eapply wf_edges; eassumption).
      destruct (Hinit u Hu) as [Hc Ho]. destruct (Hinit v Hv) as [Hcv Hov].
      rewrite Hc, Hcv.
      destruct (Z.eqb_spec (getGID g u) s) as [Hs|_];
        [now apply Hns in Hs|].
      destruct (getGID g v =? s); lia.
    + intros v Hv Hs. now apply Hns in Hs.
Qed.

(* ------------------------------------------------------------------ *)
(** ** PredAndSucc counts the edges of the shortest-path DAG *)

Lemma incr_n_S_r k a : incr_n (S k) a = incr_n k (wrap32 (a + 1)).
Proof. unfold incr_n. now rewrite Nat.iter_succ_r. Qed.

Lemma incr_n_add j k a : incr_n (j + k) a = incr_n k (incr_n j a).
Proof.
  revert a. induction j as [|j IH]; intros a; [reflexivity|].
  change (S j + k)%nat with (S (j + k)). rewrite !incr_n_S_r. apply IH.
Qed.

Lemma incr_n_small k : forall a,
  0 <= a -> a + Z.of_nat k < 2 ^ 32 -> incr_n k a = a + Z.of_nat k.
Proof.
  induction k as [|k IH]; intros a Ha Hk.
  - simpl. lia.
  - rewrite incr_n_S_r, wrap32_small by lia. rewrite IH; lia.
Qed.

Lemma node_eta d :
  set_num_predecessors (num_predecessors d)
    (set_num_successors (num_successors d) d) = d.
Proof. now destruct d. Qed.

Ltac upd_cases :=
  unfold modify, upd;
  repeat match goal with
         | |- context [Nat.eqb ?a ?b] =>
             destruct (Nat.eqb_spec a b); subst; try contradiction
         end.

Lemma PredAndSucc_edge_fold D u : forall l nd,
  (forall v, current_length (nd v) = D v) ->
  forall v,
    fold_left (PredAndSucc_edge u) l nd v =
    set_num_predecessors
      (incr_n (List.length (filter (fun x => Nat.eqb x v && edge_ok D u x) l))
         (num_predecessors (nd v)))
      (set_num_successors
         (if Nat.eqb v u
          then incr_n (List.length (filter (edge_ok D u) l))
                 (num_successors (nd v))
          else num_successors (nd v))
         (nd v)).
Proof.
  induction l as [|a l IH]; intros nd Hcl v.
  - simpl. destruct (Nat.eqb v u); now rewrite node_eta.
  - cbn [fold_left].
    assert (Hcl1 : forall x, current_length (PredAndSucc_edge u nd a x) = D x).
    { intros x. unfold PredAndSucc_edge.
      destruct (_ =? _); [|apply Hcl].
      rewrite <- Hcl. upd_cases; reflexivity. }
    rewrite (IH _ Hcl1). cbn [filter].
    unfold PredAndSucc_edge at 1 2 3 4. rewrite !Hcl.
    change (wrap32 (D u + 1) =? D a) with (edge_ok D u a).
    destruct (edge_ok D u a) eqn:Ea.
    + unfold atomicAdd.
      destruct (Nat.eqb_spec a v) as [->|Hav];
        destruct (Nat.eqb_spec v u) as [->|Hvu]; cbn [andb List.length];
        rewrite ?incr_n_S_r; upd_cases; reflexivity.
    + rewrite andb_false_r. reflexivity.
Qed.

Lemma dag_visited D u x : visited D u = true -> dag D u x = edge_ok D u x.
Proof. unfold dag. now intros ->. Qed.

Lemma dag_unvisited D u x : visited D u = false -> dag D u x = false.
Proof. unfold dag. now intros ->. Qed.

Lemma PredAndSucc_op_spec g D u nd :
  (forall v, current_length (nd v) = D v) ->
  forall v,
    PredAndSucc_op infinity g u nd v =
    set_num_predecessors
      (incr_n (dag_to g D u v) (num_predecessors (nd v)))
      (set_num_successors
         (if Nat.eqb v u
          then incr_n (dag_out g D everyone u) (num_successors (nd v))
          else num_successors (nd v))
         (nd v)).
Proof.
  intros Hcl v. unfold PredAndSucc_op, dag_to, dag_out. rewrite Hcl.
  change (negb (D u =? infinity)) with (visited D u).
  destruct (visited D u) eqn:Ev.
  - rewrite (PredAndSucc_edge_fold D) by assumption.
    do 2 f_equal.
    + f_equal. apply filter_ext. intros x. now rewrite dag_visited.
    + destruct (Nat.eqb v u); [|reflexivity]. do 2 f_equal.
      apply filter_ext. intros x.
      rewrite dag_visited by assumption. unfold everyone.
      now rewrite andb_true_r.
  - rewrite !filter_none.
    + simpl. destruct (Nat.eqb v u); now rewrite node_eta.
    + intros x _. now rewrite dag_unvisited.
    + intros x _. rewrite dag_unvisited by assumption.
      now rewrite andb_false_r.
Qed.

Lemma mem_false v l : ~ In v l -> mem v l = false.
Proof.
  intros H. destruct (mem v l) eqn:E; [|reflexivity].
  apply mem_In in E. contradiction.
Qed.

Lemma dag_in_cons g D Q a l v :
  dag_in g D Q (a :: l) v =
  ((if Q a then dag_to g D a v else 0) + dag_in g D Q l v)%nat.
Proof. reflexivity. Qed.

Lemma PredAndSucc_pass g D : forall l nd,
  NoDup l -> (forall v, current_length (nd v) = D v) ->
  forall v,
    do_all l (PredAndSucc_op infinity g) nd v =
    set_num_predecessors
      (incr_n (dag_in g D everyone l v) (num_predecessors (nd v)))
      (set_num_successors
         (if mem v l
          then incr_n (dag_out g D everyone v) (num_successors (nd v))
          else num_successors (nd v))
         (nd v)).
Proof.
  induction l as [|a l IH]; intros nd Hnd Hcl v.
  - simpl. now rewrite node_eta.
  - inversion Hnd as [|? ? Ha Hl]; subst.
    rewrite do_all_cons.
    assert (Hcl1 : forall x,
              current_length (PredAndSucc_op infinity g a nd x) = D x).
    { intros x. rewrite (PredAndSucc_op_spec g D) by assumption. apply Hcl. }
    rewrite (IH _ Hl Hcl1). rewrite !(PredAndSucc_op_spec g D) by assumption.
    rewrite mem_cons, dag_in_cons. unfold everyone at 2.
    rewrite incr_n_add. cbn [num_predecessors num_successors
      set_num_predecessors set_num_successors].
    destruct (Nat.eqb_spec v a) as [->|Hne]; cbn [orb].
    + rewrite (mem_false a l Ha). reflexivity.
    + reflexivity.
Qed.

(* ------------------------------------------------------------------ *)
(** ** Operators that touch only their own node *)

Lemma do_all_res_local (op : GNode -> NodeMap -> Res NodeMap)
  (f : GNode -> NodeData -> NodeData) (pre : GNode -> NodeData -> Prop) :
  (forall v nd, pre v (nd v) ->
     exists nd', op v nd = Ok nd' /\ nd' v = f v (nd v) /\
                 forall u, u <> v -> nd' u = nd u) ->
  forall l nd, NoDup l -> (forall v, In v l -> pre v (nd v)) ->
  exists nd', do_all_res l op nd = Ok nd' /\
              forall v, nd' v = if mem v l then f v (nd v) else nd v.
Proof.
  intros Hop. induction l as [|x l IH]; intros nd Hnd Hpre.
  - exists nd. split; reflexivity.
  - inversion Hnd as [|? ? Hx Hl]; subst.
    destruct (Hop x nd) as (nd1 & E1 & Hx1 & Ho1); [apply Hpre; now left|].
    destruct (IH nd1 Hl) as (nd' & E' & H').
    { intros v Hv. rewrite Ho1; [apply Hpre; now right|].
      intros ->. contradiction. }
    exists nd'. split.
    + simpl. rewrite E1. exact E'.
    + intros v. rewrite H', mem_cons.
      destruct (Nat.eqb_spec v x) as [->|Hne]; simpl.
      * now rewrite (mem_false x l Hx).
      * now rewrite Ho1.
Qed.

Lemma do_all_local (op : GNode -> NodeMap -> NodeMap)
  (f : GNode -> NodeData -> NodeData) :
  (forall v nd, op v nd v = f v (nd v) /\
                forall u, u <> v -> op v nd u = nd u) ->
  forall l nd, NoDup l ->
  forall v, do_all l op nd v = if mem v l then f v (nd v) else nd v.
Proof.
  intros Hop. induction l as [|x l IH]; intros nd Hnd v; [reflexivity|].
  inversion Hnd as [|? ? Hx Hl]; subst.
  rewrite do_all_cons, (IH _ Hl), mem_cons.
  destruct (Hop x nd) as [H1 H2].
  destruct (Nat.eqb_spec v x) as [->|Hne]; simpl.
  - now rewrite (mem_false x l Hx).
  - now rewrite H2.
Qed.

(* ------------------------------------------------------------------ *)
(** ** The operators of the shortest-path counter *)

Lemma add_n_S_r k p a : add_n (S k) p a = add_n k p (wrap32 (a + p)).
Proof. unfold add_n. now rewrite Nat.iter_succ_r. Qed.

Lemma node_eta_trim d : set_trim (trim d) (set_to_add (to_add d) d) = d.
Proof. now destruct d. Qed.

Lemma NumShortestPaths_edge_eq D u (nd : NodeMap) acc a :
  (forall v, current_length (nd v) = D v) ->
  NumShortestPaths_edge u (nd, acc) a =
  if edge_ok D u a then
    (modify
       (modify nd a (fun d =>
          set_to_add (atomicAdd (to_add d) (num_shortest_paths (nd u))) d))
       a (fun d => set_trim (atomicAdd (trim d) 1) d),
     wrap32 (acc + 1))
  else (nd, acc).
Proof. intros Hcl. unfold NumShortestPaths_edge, edge_ok. now rewrite !Hcl. Qed.

Lemma NumShortestPaths_edge_fold D u : forall l (nd : NodeMap) acc,
  (forall v, current_length (nd v) = D v) ->
  (forall v,
     fst (fold_left (NumShortestPaths_edge u) l (nd, acc)) v =
     set_trim
       (incr_n (List.length (filter (fun x => Nat.eqb x v && edge_ok D u x) l))
          (trim (nd v)))
       (set_to_add
          (add_n (List.length
                    (filter (fun x => Nat.eqb x v && edge_ok D u x) l))
             (num_shortest_paths (nd u)) (to_add (nd v)))
          (nd v))) /\
  snd (fold_left (NumShortestPaths_edge u) l (nd, acc)) =
  incr_n (List.length (filter (edge_ok D u) l)) acc.
Proof.
  induction l as [|a l IH]; intros nd acc Hcl.
  - simpl. split; [|reflexivity]. intros v. now rewrite node_eta_trim.
  - cbn [fold_left]. rewrite (NumShortestPaths_edge_eq D) by assumption.
    destruct (edge_ok D u a) eqn:Ea.
    + set (nd1 := modify (modify nd a _) a _).
      assert (Hcl1 : forall x, current_length (nd1 x) = D x).
      { intros x. rewrite <- Hcl. unfold nd1. upd_cases; reflexivity. }
      assert (Hp1 : num_shortest_paths (nd1 u) = num_shortest_paths (nd u)).
      { unfold nd1. upd_cases; reflexivity. }
      destruct (IH nd1 (wrap32 (acc + 1)) Hcl1) as [Hn Ha].
      split.
      * intros v. etransitivity; [apply Hn|]. rewrite Hp1.
        cbn [filter]. rewrite Ea. unfold nd1, atomicAdd.
        destruct (Nat.eqb_spec a v) as [->|Hav]; cbn [andb List.length];
          rewrite ?incr_n_S_r, ?add_n_S_r; upd_cases; reflexivity.
      * etransitivity; [exact Ha|]. cbn [filter]. rewrite Ea.
        cbn [List.length]. now rewrite incr_n_S_r.
    + destruct (IH nd acc Hcl) as [Hn Ha]. split.
      * intros v. etransitivity; [apply Hn|]. cbn [filter].
        rewrite Ea, andb_false_r. reflexivity.
      * etransitivity; [exact Ha|]. cbn [filter]. now rewrite Ea.
Qed.

Lemma NumShortestPaths_op_spec g D u (nd : NodeMap) acc :
  (forall v, current_length (nd v) = D v) ->
  (forall v,
     fst (NumShortestPaths_op infinity g u (nd, acc)) v =
     set_propogation_flag
       (if Nat.eqb v u && pusher D nd u then false
        else propogation_flag (nd v))
       (set_trim
          (incr_n (if pusher D nd u then dag_to g D u v else 0%nat)
             (trim (nd v)))
          (set_to_add
             (add_n (if pusher D nd u then dag_to g D u v else 0%nat)
                (num_shortest_paths (nd u)) (to_add (nd v)))
             (nd v)))) /\
  snd (NumShortestPaths_op infinity g u (nd, acc)) =
  incr_n (if pusher D nd u then dag_out g D everyone u else 0%nat) acc.
Proof.
  intros Hcl. unfold NumShortestPaths_op, pusher. rewrite Hcl.
  change (negb (D u =? infinity)) with (visited D u).
  destruct (visited D u) eqn:Ev; cbn [andb].
  - destruct (propogation_flag (nd u) && (num_successors (nd u) >? 0)) eqn:Ep.
    + destruct (NumShortestPaths_edge_fold D u (edge_dsts g u) nd acc Hcl)
        as [Hn Ha].
      destruct (fold_left (NumShortestPaths_edge u) (edge_dsts g u) (nd, acc))
        as [nd1 acc1]. cbn [fst snd] in *. split.
      * intros v. unfold dag_to.
        rewrite (filter_ext (fun x => Nat.eqb x v && dag D u x)
                   (fun x => Nat.eqb x v && edge_ok D u x))
          by (intros x; now rewrite dag_visited).
        destruct (Nat.eqb_spec v u) as [->|Hne]; cbn [andb].
        -- rewrite modify_same, Hn. reflexivity.
        -- rewrite modify_other, Hn by assumption.
           destruct (nd v); reflexivity.
      * rewrite Ha. unfold dag_out. do 2 f_equal. apply filter_ext.
        intros x. rewrite dag_visited by assumption. unfold everyone.
        now rewrite andb_true_r.
    + cbn [fst snd]. split; [|reflexivity].
      intros v. rewrite andb_false_r. simpl. now destruct (nd v).
  - cbn [fst snd]. split; [|reflexivity].
    intros v. rewrite andb_false_r. simpl. now destruct (nd v).
Qed.

Lemma dag_in_ext g D Q Q' l v :
  (forall u, In u l -> Q u = Q' u) -> dag_in g D Q l v = dag_in g D Q' l v.
Proof.
  intros H. unfold dag_in. f_equal. apply map_ext_in.
  intros u Hu. now rewrite (H u Hu).
Qed.

Lemma out_sum_ext g D Q Q' l :
  (forall u, In u l -> Q u = Q' u) -> out_sum g D Q l = out_sum g D Q' l.
Proof.
  intros H. unfold out_sum. f_equal. apply map_ext_in.
  intros u Hu. now rewrite (H u Hu).
Qed.

Lemma out_sum_cons g D Q a l :
  out_sum g D Q (a :: l) =
  ((if Q a then dag_out g D everyone a else 0) + out_sum g D Q l)%nat.
Proof. reflexivity. Qed.

(** A whole propagation pass of the shortest-path counter, described from
    the state in which the pass starts. *)
Lemma NumShortestPaths_pass g D : forall l (nd : NodeMap) acc,
  NoDup l -> (forall v, current_length (nd v) = D v) ->
  (forall v, exists ta,
     fst (do_all l (NumShortestPaths_op infinity g) (nd, acc)) v =
     set_propogation_flag
       (if mem v l && pusher D nd v then false else propogation_flag (nd v))
       (set_trim
          (incr_n (dag_in g D (pusher D nd) l v) (trim (nd v)))
          (set_to_add ta (nd v)))) /\
  snd (do_all l (NumShortestPaths_op infinity g) (nd, acc)) =
  incr_n (out_sum g D (pusher D nd) l) acc.
Proof.
  induction l as [|a l IH]; intros nd acc Hnd Hcl.
  - split; [|reflexivity]. intros v. exists (to_add (nd v)).
    simpl. now destruct (nd v).
  - inversion Hnd as [|? ? Ha Hl]; subst. rewrite do_all_cons.
    destruct (NumShortestPaths_op_spec g D a nd acc Hcl) as [Hn1 Ha1].
    destruct (NumShortestPaths_op infinity g a (nd, acc)) as [nd1 acc1].
    cbn [fst snd] in Hn1, Ha1.
    assert (Hcl1 : forall x, current_length (nd1 x) = D x).
    { intros x. rewrite Hn1. apply Hcl. }
    assert (Hp1 : forall u, In u l -> pusher D nd1 u = pusher D nd u).
    { intros u Hu. unfold pusher. rewrite Hn1. simpl.
      destruct (Nat.eqb_spec u a) as [->|Hne]; [contradiction | reflexivity]. }
    destruct (IH nd1 acc1 Hl Hcl1) as [Hn Hacc]. split.
    + intros v. destruct (Hn v) as (ta & Hv). exists ta.
      rewrite Hv, Hn1, mem_cons, dag_in_cons, incr_n_add.
      rewrite (dag_in_ext g D _ _ l v Hp1). simpl.
      destruct (Nat.eqb_spec v a) as [->|Hne]; cbn [orb andb].
      * rewrite (mem_false a l Ha). cbn [andb].
        now destruct (pusher D nd a).
      * destruct (mem v l) eqn:Em; cbn [andb]; [|reflexivity].
        apply mem_In in Em. now rewrite (Hp1 v Em).
    + rewrite Hacc, Ha1, out_sum_cons, incr_n_add.
      now rewrite (out_sum_ext g D _ _ l Hp1).
Qed.

Lemma NumShortestPathsChanges_op_Ok g v (nd : NodeMap) :
  NumShortestPathsChanges_pre (nd v) ->
  exists nd',
    NumShortestPathsChanges_op g v nd = Ok nd' /\
    nd' v = NumShortestPathsChanges_node (nd v) /\
    forall u, u <> v -> nd' u = nd u.
Proof.
  intros Hpre. unfold NumShortestPathsChanges_op, NumShortestPathsChanges_node.
  unfold NumShortestPathsChanges_pre in Hpre.
  destruct (Z.gtb_spec (trim (nd v)) 0) as [Ht|Ht].
  - destruct Hpre as [Hle Hflag]; [lia|].
    destruct (Z.leb_spec (trim (nd v)) (num_predecessors (nd v))); [|lia].
    cbn [assert bind]. rewrite !modify_same. simpl.
    destruct (Z.eqb_spec (wrap32 (num_predecessors (nd v) - trim (nd v))) 0)
      as [E0|E0].
    + rewrite (Hflag E0). simpl. rewrite ?modify_same. simpl.
      destruct (to_add (nd v) >? 0); eexists; (split; [reflexivity|]);
        (split; [now rewrite ?modify_same
                |intros u Hu; now rewrite ?modify_other by assumption]).
    + simpl. rewrite ?modify_same. simpl.
      destruct (to_add (nd v) >? 0); eexists; (split; [reflexivity|]);
        (split; [now rewrite ?modify_same
                |intros u Hu; now rewrite ?modify_other by assumption]).
  - cbn [bind].
    destruct (to_add (nd v) >? 0); eexists; (split; [reflexivity|]);
      (split; [now rewrite ?modify_same
              |intros u Hu; now rewrite ?modify_other by assumption]).
Qed.

(* ------------------------------------------------------------------ *)
(** ** Counting DAG edges *)

Lemma filter_length_mono {A} (f f' : A -> bool) l :
  (forall y, In y l -> f y = true -> f' y = true) ->
  (List.length (filter f l) <= List.length (filter f' l))%nat.
Proof.
  induction l as [|z l IH]; intros H; simpl; [lia|].
  assert (Hl : forall y, In y l -> f y = true -> f' y = true)
    by (intros y Hy; apply H; now right).
  specialize (IH Hl). destruct (f z) eqn:E.
  - rewrite (H z (or_introl eq_refl) E). simpl. lia.
  - destruct (f' z); simpl; lia.
Qed.

Lemma filter_length_pos {A} (f : A -> bool) l :
  (0 < List.length (filter f l))%nat <-> exists x, In x l /\ f x = true.
Proof.
  split.
  - intros H. destruct (filter f l) as [|x r] eqn:E; [simpl in H; lia|].
    exists x. apply filter_In. rewrite E. now left.
  - intros (x & Hx & Hf).
    assert (Hin : In x (filter f l)) by (apply filter_In; now split).
    destruct (filter f l); [contradiction | simpl; lia].
Qed.

Lemma dag_to_le_out g D u v :
  (dag_to g D u v <= dag_out g D everyone u)%nat.
Proof.
  unfold dag_to, dag_out. apply filter_length_mono.
  intros y _ Hy. apply andb_prop in Hy as [_ Hy]. unfold everyone.
  now rewrite Hy.
Qed.

Lemma dag_out_le_edges g D Q u :
  (dag_out g D Q u <= List.length (edge_dsts g u))%nat.
Proof. apply filter_length_le. Qed.

Lemma dag_to_pos g D u v :
  (0 < dag_to g D u v)%nat <-> In v (edge_dsts g u) /\ dag D u v = true.
Proof.
  unfold dag_to. rewrite filter_length_pos. split.
  - intros (x & Hx & Hf). apply andb_prop in Hf as [E Hd].
    apply Nat.eqb_eq in E. subst. now split.
  - intros [Hin Hd]. exists v. split; [assumption|].
    now rewrite Nat.eqb_refl, Hd.
Qed.

Lemma dag_out_pos g D u :
  (0 < dag_out g D everyone u)%nat <->
  exists x, In x (edge_dsts g u) /\ dag D u x = true.
Proof.
  unfold dag_out. rewrite filter_length_pos. unfold everyone. split.
  - intros (x & Hx & Hf). rewrite andb_true_r in Hf. now exists x.
  - intros (x & Hx & Hf). exists x. now rewrite andb_true_r.
Qed.

Lemma dag_in_mono g D Q Q' l v :
  (forall u, In u l -> Q u = true -> Q' u = true) ->
  (dag_in g D Q l v <= dag_in g D Q' l v)%nat.
Proof.
  induction l as [|a l IH]; intros H; [unfold dag_in, out_sum; simpl; lia|].
  rewrite !dag_in_cons.
  assert (Hl : forall u, In u l -> Q u = true -> Q' u = true)
    by (intros u Hu; apply H; now right).
  specialize (IH Hl). destruct (Q a) eqn:E.
  - rewrite (H a (or_introl eq_refl) E). lia.
  - destruct (Q' a); lia.
Qed.

Lemma dag_in_le_edges g D Q l v : (dag_in g D Q l v <= edges_of g l)%nat.
Proof.
  induction l as [|a l IH]; [unfold dag_in, out_sum, edges_of; simpl; lia|].
  rewrite dag_in_cons. unfold edges_of in *. simpl.
  pose proof (dag_to_le_out g D a v).
  pose proof (dag_out_le_edges g D everyone a).
  destruct (Q a); lia.
Qed.

Lemma out_sum_le_edges g D Q l : (out_sum g D Q l <= edges_of g l)%nat.
Proof.
  induction l as [|a l IH]; [unfold dag_in, out_sum, edges_of; simpl; lia|].
  rewrite out_sum_cons. unfold edges_of in *. simpl.
  pose proof (dag_out_le_edges g D everyone a).
  destruct (Q a); lia.
Qed.

Lemma dag_in_split g D Q Q1 Q2 l v :
  (forall u, In u l -> (0 < dag_to g D u v)%nat ->
     Q u = xorb (Q1 u) (Q2 u) /\ (Q1 u && Q2 u = false)) ->
  dag_in g D Q l v = (dag_in g D Q1 l v + dag_in g D Q2 l v)%nat.
Proof.
  induction l as [|a l IH]; intros H; [reflexivity|].
  rewrite !dag_in_cons.
  rewrite IH by (intros u Hu; apply H; now right).
  destruct (Nat.eq_dec (dag_to g D a v) 0) as [E|E].
  - rewrite E. destruct (Q a), (Q1 a), (Q2 a); lia.
  - destruct (H a (or_introl eq_refl)) as [Hx Hn]; [lia|].
    destruct (Q a), (Q1 a), (Q2 a); simpl in *; try discriminate; lia.
Qed.

Lemma dag_in_pos g D Q l v :
  (0 < dag_in g D Q l v)%nat ->
  exists u, In u l /\ Q u = true /\ (0 < dag_to g D u v)%nat.
Proof.
  induction l as [|a l IH]; intros H; [unfold dag_in, out_sum in H; simpl in H; lia|].
  rewrite dag_in_cons in H.
  destruct (Q a) eqn:E.
  - destruct (Nat.eq_dec (dag_to g D a v) 0) as [E0|E0].
    + destruct IH as (u & Hu & Hq & Hp); [lia|].
      exists u. split; [now right | now split].
    + exists a. split; [now left|]. split; [assumption | lia].
  - destruct IH as (u & Hu & Hq & Hp); [lia|].
    exists u. split; [now right | now split].
Qed.

Lemma dag_in_pos_intro g D Q l u v :
  In u l -> Q u = true -> (0 < dag_to g D u v)%nat ->
  (0 < dag_in g D Q l v)%nat.
Proof.
  induction l as [|a l IH]; intros Hin Hq Hp; [contradiction|].
  rewrite dag_in_cons. destruct Hin as [->|Hin].
  - rewrite Hq. lia.
  - specialize (IH Hin Hq Hp). lia.
Qed.

Lemma dag_in_zero g D Q l v :
  (forall u, In u l -> Q u = true -> dag_to g D u v = 0%nat) ->
  dag_in g D Q l v = 0%nat.
Proof.
  intros H. destruct (Nat.eq_dec (dag_in g D Q l v) 0) as [E|E]; [exact E|].
  destruct (dag_in_pos g D Q l v) as (u & Hu & Hq & Hp); [lia|].
  rewrite (H u Hu Hq) in Hp. lia.
Qed.

Lemma out_sum_pos g D Q l :
  (0 < out_sum g D Q l)%nat ->
  exists u, In u l /\ Q u = true /\ (0 < dag_out g D everyone u)%nat.
Proof.
  induction l as [|a l IH]; intros H; [unfold dag_in, out_sum in H; simpl in H; lia|].
  rewrite out_sum_cons in H.
  destruct (Q a) eqn:E.
  - destruct (Nat.eq_dec (dag_out g D everyone a) 0) as [E0|E0].
    + destruct IH as (u & Hu & Hq & Hp); [lia|].
      exists u. split; [now right | now split].
    + exists a. split; [now left|]. split; [assumption | lia].
  - destruct IH as (u & Hu & Hq & Hp); [lia|].
    exists u. split; [now right | now split].
Qed.

Lemma out_sum_zero g D Q l u :
  out_sum g D Q l = 0%nat -> In u l -> Q u = true ->
  dag_out g D everyone u = 0%nat.
Proof.
  induction l as [|a l IH]; intros H Hin Hq; [contradiction|].
  rewrite out_sum_cons in H. destruct Hin as [->|Hin].
  - rewrite Hq in H. lia.
  - apply IH; try assumption. destruct (Q a); lia.
Qed.

(** Under [dist_ok], a DAG edge joins a visited node to a visited node one
    step further. *)
Lemma dag_spec g D u v :
  dist_ok g D -> (u < numNodes g)%nat -> dag D u v = true ->
  visited D u = true /\ D v = D u + 1 /\ visited D v = true.
Proof.
  intros Hd Hu H. unfold dag in H. apply andb_prop in H as [Hv He].
  pose proof (dist_range g D Hd u Hu) as Hr.
  pose proof (dist_bound g D Hd u Hu Hv) as Hb.
  unfold edge_ok in He. apply Z.eqb_eq in He.
  assert (Hinfv : infinity = 1073741823) by reflexivity.
  rewrite wrap32_small in He by lia.
  split; [assumption|]. split; [lia|].
  unfold visited. apply negb_true_iff, Z.eqb_neq. lia.
Qed.

(* ------------------------------------------------------------------ *)
(** ** One round of the shortest-path counter *)

Lemma NumShortestPathsChanges_node_ctl d :
  0 <= trim d <= num_predecessors d -> num_predecessors d < 2 ^ 32 ->
  trim (NumShortestPathsChanges_node d) = 0 /\
  num_predecessors (NumShortestPathsChanges_node d)
  = num_predecessors d - trim d /\
  num_successors (NumShortestPathsChanges_node d) = num_successors d /\
  current_length (NumShortestPathsChanges_node d) = current_length d /\
  propogation_flag (NumShortestPathsChanges_node d)
  = (if (0 <? trim d) && (num_predecessors d - trim d =? 0) then true
     else propogation_flag d).
Proof.
  intros Ht Hp. unfold NumShortestPathsChanges_node.
  destruct (Z.gtb_spec (trim d) 0) as [H0|H0];
    destruct (Z.ltb_spec 0 (trim d)); try lia; cbn [andb].
  - rewrite wrap32_small by lia. simpl.
    destruct (num_predecessors d - trim d =? 0); simpl;
      destruct (to_add d >? 0); simpl; repeat split; try lia; reflexivity.
  - assert (trim d = 0) by lia.
    destruct (to_add d >? 0); simpl; repeat split; try lia; reflexivity.
Qed.

Lemma pusher_unpushed D nd u : pusher D nd u = true -> unpushed nd u = true.
Proof.
  unfold pusher, unpushed. intros H.
  apply andb_prop in H as [_ H]. apply andb_prop in H as [H _].
  now rewrite H.
Qed.

Lemma num_edges_bound g Q D v :
  wf_graph g -> Z.of_nat (dag_in g D Q (all_nodes g) v) < 2 ^ 32.
Proof.
  intros Hwf. pose proof (wf_num_edges g Hwf).
  pose proof (dag_in_le_edges g D Q (all_nodes g) v).
  unfold num_edges in *. lia.
Qed.

Lemma pusher_spec g D nd u :
  NSP_inv g D nd -> (u < numNodes g)%nat ->
  (0 < dag_out g D everyone u)%nat -> visited D u = true ->
  pusher D nd u = propogation_flag (nd u).
Proof.
  intros Hinv Hu Hout Hv. unfold pusher. rewrite Hv. cbn [andb].
  rewrite (nsp_succ g D nd Hinv u Hu).
  destruct (Z.gtb_spec (Z.of_nat (dag_out g D everyone u)) 0); [|lia].
  now rewrite andb_true_r.
Qed.

Lemma NSP_trim_le_pred g D nd v :
  NSP_inv g D nd -> (v < numNodes g)%nat ->
  Z.of_nat (dag_in g D (pusher D nd) (all_nodes g) v)
  <= num_predecessors (nd v).
Proof.
  intros Hinv Hv. rewrite (nsp_pred g D nd Hinv v Hv).
  apply inj_le, dag_in_mono. intros u _. apply pusher_unpushed.
Qed.

(** Under the invariant a round completes: no assertion of the Changes
    pass fires, the accumulator is the number of DAG edges that leave the
    pushers, and the control fields change as [NSP_next] says. *)
Lemma NSP_round_fields g D (nd : NodeMap) :
  wf_graph g -> NSP_inv g D nd ->
  exists nd2,
    do_all_res (all_nodes g) (NumShortestPathsChanges_op g)
      (fst (do_all (all_nodes g) (NumShortestPaths_op infinity g) (nd, 0)))
    = Ok nd2 /\
    snd (do_all (all_nodes g) (NumShortestPaths_op infinity g) (nd, 0))
    = Z.of_nat (out_sum g D (pusher D nd) (all_nodes g)) /\
    NSP_next g D nd nd2.
Proof.
  intros Hwf Hinv.
  destruct (NumShortestPaths_pass g D (all_nodes g) nd 0
              (seq_NoDup _ _) (nsp_dist g D nd Hinv)) as [Hn1 Hacc].
  set (nd1 := fst (do_all (all_nodes g) (NumShortestPaths_op infinity g)
                     (nd, 0))) in *.
  set (t := fun v => dag_in g D (pusher D nd) (all_nodes g) v).
  assert (Ht : forall v, (v < numNodes g)%nat ->
            Z.of_nat (t v) <= num_predecessors (nd v)).
  { intros v Hv. now apply NSP_trim_le_pred. }
  assert (Hpb : forall v, (v < numNodes g)%nat ->
            num_predecessors (nd v) < 2 ^ 32).
  { intros v Hv. rewrite (nsp_pred g D nd Hinv v Hv).
    now apply num_edges_bound. }
  assert (H1 : forall v, (v < numNodes g)%nat ->
            trim (nd1 v) = Z.of_nat (t v) /\
            num_predecessors (nd1 v) = num_predecessors (nd v) /\
            num_successors (nd1 v) = num_successors (nd v) /\
            propogation_flag (nd1 v)
            = propogation_flag (nd v) && negb (pusher D nd v)).
  { intros v Hv. destruct (Hn1 v) as (ta & E). rewrite E. simpl.
    rewrite (nsp_trim g D nd Hinv v Hv), mem_all_nodes.
    destruct (Nat.ltb_spec v (numNodes g)); [|lia]. cbn [andb].
    split; [|split; [reflexivity|split; [reflexivity|]]].
    - apply incr_n_small; [lia|]. specialize (Ht v Hv).
      specialize (Hpb v Hv). fold (t v). lia.
    - destruct (pusher D nd v); cbn [negb];
        [now rewrite andb_false_r | now rewrite andb_true_r]. }
  assert (Hcl1 : forall v, current_length (nd1 v) = D v).
  { intros v. destruct (Hn1 v) as (ta & E). rewrite E. simpl.
    apply (nsp_dist g D nd Hinv). }
  destruct (do_all_res_local (NumShortestPathsChanges_op g)
              (fun _ => NumShortestPathsChanges_node)
              (fun _ => NumShortestPathsChanges_pre)
              (NumShortestPathsChanges_op_Ok g)
              (all_nodes g) nd1 (seq_NoDup _ _)) as (nd2 & E2 & H2).
  { intros v Hv. apply in_all_nodes in Hv.
    destruct (H1 v Hv) as (Htr & Hpr & _ & Hfl).
    unfold NumShortestPathsChanges_pre. rewrite Htr, Hpr, Hfl.
    intros Hpos. split; [now apply Ht|]. intros _.
    destruct (propogation_flag (nd v)) eqn:Ef; [|reflexivity].
    destruct (nsp_flag g D nd Hinv v Hv Ef) as [Hp0 _].
    specialize (Ht v Hv). lia. }
  exists nd2. split; [exact E2|]. split.
  { rewrite Hacc. apply incr_n_small; [lia|].
    pose proof (wf_num_edges g Hwf).
    pose proof (out_sum_le_edges g D (pusher D nd) (all_nodes g)).
    unfold num_edges in *. lia. }
  split.
  - intros v. rewrite H2. destruct (mem v (all_nodes g)); [|apply Hcl1].
    unfold NumShortestPathsChanges_node.
    destruct (trim (nd1 v) >? 0); simpl;
      [destruct (_ =? 0); simpl|]; destruct (_ >? 0); simpl; apply Hcl1.
  - intros v Hv. cbv zeta. rewrite H2, mem_all_nodes.
    destruct (Nat.ltb_spec v (numNodes g)); [|lia].
    destruct (H1 v Hv) as (Htr & Hpr & Hsu & Hfl).
    destruct (NumShortestPathsChanges_node_ctl (nd1 v))
      as (Ha & Hb & Hc & _ & He).
    { rewrite Htr, Hpr. specialize (Ht v Hv). lia. }
    { rewrite Hpr. now apply Hpb. }
    rewrite Ha, Hb, Hc, He, Htr, Hpr, Hsu, Hfl. fold (t v).
    repeat split.
Qed.

Lemma pusher_false_succ D nd u :
  num_successors (nd u) = 0 -> pusher D nd u = false.
Proof.
  intros H. unfold pusher. rewrite H. simpl.
  now rewrite !andb_false_r.
Qed.

(** The invariant is kept by a round. *)
Lemma NSP_next_inv g D nd nd2 :
  wf_graph g -> dist_ok g D -> NSP_inv g D nd -> NSP_next g D nd nd2 ->
  NSP_inv g D nd2.
Proof.
  intros Hwf Hd Hinv [Hcl2 Hnext].
  set (t := fun v => Z.of_nat (dag_in g D (pusher D nd) (all_nodes g) v)).
  assert (Ht : forall v, (v < numNodes g)%nat ->
            0 <= t v <= num_predecessors (nd v)).
  { intros v Hv. split; [unfold t; lia | now apply NSP_trim_le_pred]. }
  constructor.
  - exact Hcl2.
  - intros v Hv. apply (Hnext v Hv).
  - intros v Hv. destruct (Hnext v Hv) as (_ & _ & Hp2 & _).
    rewrite Hp2, (nsp_pred g D nd Hinv v Hv).
    rewrite (dag_in_split g D (unpushed nd) (pusher D nd) (unpushed nd2)).
    + lia.
    + intros u Hu Hpos. apply in_all_nodes in Hu.
      apply dag_to_pos in Hpos as Hdag. destruct Hdag as [Hin Hdag].
      destruct (dag_spec g D u v Hd Hu Hdag) as (Hvu & _ & _).
      assert (Hout : (0 < dag_out g D everyone u)%nat).
      { pose proof (dag_to_le_out g D u v). lia. }
      rewrite (pusher_spec g D nd u Hinv Hu Hout Hvu).
      destruct (Hnext u Hu) as (_ & _ & Hpu & Hfu).
      rewrite (pusher_spec g D nd u Hinv Hu Hout Hvu) in Hfu.
      fold (t u) in Hpu, Hfu. specialize (Ht u Hu).
      unfold unpushed. rewrite Hpu, Hfu.
      destruct (propogation_flag (nd u)) eqn:Ef.
      * destruct (nsp_flag g D nd Hinv u Hu Ef) as [Hp0 _].
        assert (E0 : t u = 0) by lia. rewrite E0, Hp0. simpl. now split.
      * cbn [andb negb orb xorb].
        destruct (Z.ltb_spec 0 (t u)), (Z.eqb_spec (num_predecessors (nd u) - t u) 0),
          (Z.ltb_spec 0 (num_predecessors (nd u))),
          (Z.ltb_spec 0 (num_predecessors (nd u) - t u));
          cbn [andb orb]; split; try reflexivity; lia.
  - intros u Hu. destruct (Hnext u Hu) as (_ & Hs2 & _).
    rewrite Hs2. apply (nsp_succ g D nd Hinv u Hu).
  - intros v Hv Hf2. destruct (Hnext v Hv) as (_ & _ & Hp2 & Hfl).
    fold (t v) in Hp2, Hfl. specialize (Ht v Hv). rewrite Hfl in Hf2.
    destruct (Z.ltb_spec 0 (t v)) as [Hpos|Hz]; cbn [andb] in Hf2.
    + destruct (Z.eqb_spec (num_predecessors (nd v) - t v) 0) as [E|E].
      * split; [lia|].
        destruct (dag_in_pos g D (pusher D nd) (all_nodes g) v)
          as (u & Hu & _ & Hto); [unfold t in Hpos; lia|].
        apply in_all_nodes in Hu. apply dag_to_pos in Hto as [_ Hdag].
        apply (dag_spec g D u v Hd Hu Hdag).
      * apply andb_prop in Hf2 as [Hf _].
        destruct (nsp_flag g D nd Hinv v Hv Hf) as [Hp0 Hvis]. lia.
    + apply andb_prop in Hf2 as [Hf _].
      destruct (nsp_flag g D nd Hinv v Hv Hf) as [Hp0 Hvis].
      split; [lia | assumption].
  - intros v Hv Hvis Hs2 Hp2'.
    destruct (Hnext v Hv) as (_ & Hs & Hp2 & Hfl).
    fold (t v) in Hp2, Hfl. specialize (Ht v Hv). rewrite Hfl.
    rewrite Hs in Hs2. rewrite (pusher_false_succ D nd v Hs2).
    destruct (Z.ltb_spec 0 (t v)) as [Hpos|Hz]; cbn [andb negb].
    + destruct (Z.eqb_spec (num_predecessors (nd v) - t v) 0); [reflexivity|].
      lia.
    + rewrite andb_true_r.
      apply (nsp_ready g D nd Hinv v Hv Hvis Hs2). lia.
Qed.

Lemma NumShortestPaths_round_eq g w :
  NumShortestPaths_round g w =
  (sync sync_NumShortestPaths_to_add
     (sync sync_NumShortestPaths_trim
        (with_nodes w
           (fst (do_all (all_nodes g) (NumShortestPaths_op infinity g)
                   (nodes w, 0))))),
   snd (do_all (all_nodes g) (NumShortestPaths_op infinity g) (nodes w, 0))).
Proof.
  unfold NumShortestPaths_round.
  now destruct (do_all (all_nodes g) (NumShortestPaths_op infinity g)
                  (nodes w, 0)).
Qed.

(** A round in which some node pushed lowers the sum of the predecessor
    counts. *)
Lemma NSP_next_decreases g D nd nd2 :
  wf_graph g -> NSP_inv g D nd -> NSP_next g D nd nd2 ->
  (0 < out_sum g D (pusher D nd) (all_nodes g))%nat ->
  total_predecessors g nd2 < total_predecessors g nd.
Proof.
  intros Hwf Hinv [_ Hnext] Hpos.
  destruct (out_sum_pos g D _ _ Hpos) as (u & Hu & Hp & Hout).
  apply in_all_nodes in Hu.
  apply dag_out_pos in Hout as (x & Hx & Hdag).
  assert (Hxn : (x < numNodes g)%nat) by (eapply wf_edges; eassumption).
  unfold total_predecessors. apply Zsum_lt with (x := x).
  - intros v Hv. apply in_all_nodes in Hv.
    destruct (Hnext v Hv) as (_ & _ & Hp2 & _). lia.
  - now apply in_all_nodes.
  - destruct (Hnext x Hxn) as (_ & _ & Hp2 & _).
    assert ((0 < dag_in g D (pusher D nd) (all_nodes g) x)%nat).
    { apply dag_in_pos_intro with (u := u); try assumption.
      - now apply in_all_nodes.
      - apply dag_to_pos. now split. }
    lia.
Qed.

Lemma total_predecessors_nonneg g D nd :
  NSP_inv g D nd -> 0 <= total_predecessors g nd.
Proof.
  intros Hinv. apply Zsum_nonneg. intros v Hv. apply in_all_nodes in Hv.
  rewrite (nsp_pred g D nd Hinv v Hv). lia.
Qed.

(** When no node can push, every node has pushed or has nothing to push. *)
Lemma NSP_quiescent g D nd :
  wf_graph g -> dist_ok g D -> NSP_inv g D nd ->
  (forall u, (u < numNodes g)%nat -> pusher D nd u = false) ->
  NSP_post g D nd.
Proof.
  intros Hwf Hd Hinv Hquiet.
  assert (Hclaim : forall (k : nat) u, (u < numNodes g)%nat ->
            Z.to_nat (D u) = k -> unpushed nd u = true ->
            (0 < dag_out g D everyone u)%nat -> visited D u = true -> False).
  { induction k as [k IH] using lt_wf_ind. intros u Hu Hk Hun Hout Hvis.
    pose proof (pusher_spec g D nd u Hinv Hu Hout Hvis) as Hps.
    rewrite (Hquiet u Hu) in Hps. unfold unpushed in Hun.
    rewrite <- Hps in Hun. cbn [orb] in Hun. apply Z.ltb_lt in Hun.
    rewrite (nsp_pred g D nd Hinv u Hu) in Hun.
    destruct (dag_in_pos g D (unpushed nd) (all_nodes g) u)
      as (u' & Hu' & Hun' & Hto); [lia|].
    apply in_all_nodes in Hu'.
    apply dag_to_pos in Hto as Hdag. destruct Hdag as [_ Hdag].
    destruct (dag_spec g D u' u Hd Hu' Hdag) as (Hvis' & HD & _).
    pose proof (dist_range g D Hd u' Hu').
    apply (IH (Z.to_nat (D u'))) with (u := u'); try assumption;
      try reflexivity.
    - lia.
    - pose proof (dag_to_le_out g D u' u). lia. }
  assert (Hpred : forall v, (v < numNodes g)%nat ->
            num_predecessors (nd v) = 0).
  { intros v Hv. rewrite (nsp_pred g D nd Hinv v Hv).
    rewrite dag_in_zero; [reflexivity|].
    intros u Hu Hun. apply in_all_nodes in Hu.
    destruct (Nat.eq_dec (dag_to g D u v) 0) as [E|E]; [exact E|].
    exfalso.
    assert (Hto : (0 < dag_to g D u v)%nat) by lia.
    apply dag_to_pos in Hto as Hdag. destruct Hdag as [_ Hdag].
    destruct (dag_spec g D u v Hd Hu Hdag) as (Hvis & _ & _).
    apply (Hclaim (Z.to_nat (D u)) u); try assumption; try reflexivity.
    pose proof (dag_to_le_out g D u v). lia. }
  constructor.
  - apply Hinv.
  - intros v Hv. split; [apply (nsp_trim g D nd Hinv v Hv) | now apply Hpred].
  - apply Hinv.
  - intros v Hv. split.
    + intros Hf. destruct (nsp_flag g D nd Hinv v Hv Hf) as [_ Hvis].
      split; [assumption|].
      pose proof (Hquiet v Hv) as Hq. unfold pusher in Hq.
      rewrite Hvis, Hf in Hq. cbn [andb] in Hq.
      rewrite (nsp_succ g D nd Hinv v Hv) in *.
      destruct (Z.gtb_spec (Z.of_nat (dag_out g D everyone v)) 0);
        [discriminate | lia].
    + intros [Hvis Hs].
      apply (nsp_ready g D nd Hinv v Hv Hvis Hs). now apply Hpred.
Qed.

Lemma NSP_no_pusher g D nd :
  NSP_inv g D nd -> out_sum g D (pusher D nd) (all_nodes g) = 0%nat ->
  forall u, (u < numNodes g)%nat -> pusher D nd u = false.
Proof.
  intros Hinv Hz u Hu. destruct (pusher D nd u) eqn:Ep; [|reflexivity].
  pose proof (out_sum_zero g D _ _ u Hz (proj2 (in_all_nodes g u) Hu) Ep)
    as Ho.
  unfold pusher in Ep. apply andb_prop in Ep as [_ Ep].
  apply andb_prop in Ep as [_ Hs].
  rewrite (nsp_succ g D nd Hinv u Hu) in Hs. apply Z.gtb_lt in Hs. lia.
Qed.

(** A round in which no node pushed leaves no node able to push. *)
Lemma NSP_next_quiet g D nd nd2 :
  NSP_inv g D nd -> NSP_next g D nd nd2 ->
  out_sum g D (pusher D nd) (all_nodes g) = 0%nat ->
  forall u, (u < numNodes g)%nat -> pusher D nd2 u = false.
Proof.
  intros Hinv [_ Hnext] Hz u Hu.
  pose proof (NSP_no_pusher g D nd Hinv Hz) as Hq.
  assert (Ht : dag_in g D (pusher D nd) (all_nodes g) u = 0%nat).
  { apply dag_in_zero. intros u' Hu' Hp'. apply in_all_nodes in Hu'.
    rewrite (Hq u' Hu') in Hp'. discriminate. }
  destruct (Hnext u Hu) as (_ & Hs & _ & Hf).
  rewrite Ht in Hf. cbn [Z.of_nat Z.ltb Z.compare andb] in Hf.
  rewrite (Hq u Hu) in Hf. cbn [negb] in Hf. rewrite andb_true_r in Hf.
  pose proof (Hq u Hu) as Hqu. unfold pusher in *.
  now rewrite Hs, Hf.
Qed.

(** The loop of the shortest-path counter terminates without a failed
    assertion and ends in [NSP_post]. *)
Lemma NSP_loop_total g D : wf_graph g -> dist_ok g D -> forall (m : nat) w,
  NSP_inv g D (nodes w) -> total_predecessors g (nodes w) <= Z.of_nat m ->
  exists fuel w',
    NumShortestPaths_loop fuel g w = Ok w' /\ NSP_post g D (nodes w').
Proof.
  intros Hwf Hd. induction m as [|m IH]; intros w Hinv Hm;
    destruct (NSP_round_fields g D (nodes w) Hwf Hinv)
      as (nd2 & E2 & Hacc & Hnext);
    pose proof (NSP_next_inv g D _ _ Hwf Hd Hinv Hnext) as Hinv2;
    pose proof (total_predecessors_nonneg g D nd2 Hinv2) as Hnn;
    destruct (Nat.eq_dec (out_sum g D (pusher D (nodes w)) (all_nodes g)) 0)
      as [Hz|Hnz].
  1, 3:
    exists 1%nat; eexists; cbn [NumShortestPaths_loop];
    rewrite NumShortestPaths_round_eq; unfold NumShortestPathsChanges_go;
    cbn [nodes sync with_nodes]; rewrite E2; cbn [bind];
    rewrite Hacc, Hz; cbn [Z.of_nat Z.eqb]; split; [reflexivity|];
    cbn [nodes sync with_nodes];
    apply NSP_quiescent; try assumption;
    now apply (NSP_next_quiet g D (nodes w) nd2).
  - pose proof (NSP_next_decreases g D _ _ Hwf Hinv Hnext ltac:(lia)). lia.
  - pose proof (NSP_next_decreases g D _ _ Hwf Hinv Hnext ltac:(lia)) as Hdec.
    destruct (IH (with_nodes
                    (sync sync_NumShortestPaths_to_add
                       (sync sync_NumShortestPaths_trim
                          (with_nodes w
                             (fst (do_all (all_nodes g)
                                     (NumShortestPaths_op infinity g)
                                     (nodes w, 0)))))) nd2))
      as (fuel & w' & Hrun & Hpost).
    { exact Hinv2. }
    { cbn [nodes with_nodes]. lia. }
    exists (S fuel), w'. split; [|exact Hpost].
    cbn [NumShortestPaths_loop].
    rewrite NumShortestPaths_round_eq. unfold NumShortestPathsChanges_go.
    cbn [nodes sync with_nodes]. rewrite E2. cbn [bind].
    rewrite Hacc.
    destruct (Z.eqb_spec (Z.of_nat (out_sum g D (pusher D (nodes w))
                                      (all_nodes g))) 0); [lia|].
    exact Hrun.
Qed.

(* ------------------------------------------------------------------ *)
(** ** From the breadth-first phase to the shortest-path counter *)

Lemma BFS_post_dist_ok g s nd : BFS_post g s nd -> dist_ok g (dist_of nd).
Proof.
  intros Hb. constructor.
  - apply Hb.
  - intros v Hv Hvis. apply (bfs_bound g s nd Hb v Hv).
    unfold visited, dist_of in Hvis.
    now apply negb_true_iff, Z.eqb_neq in Hvis.
Qed.

Lemma dag_intro g D u v :
  dist_ok g D -> (u < numNodes g)%nat -> D u <> infinity -> D u + 1 = D v ->
  dag D u v = true.
Proof.
  intros Hd Hu Hfin HD. unfold dag, visited, edge_ok.
  apply andb_true_intro. split.
  - now apply negb_true_iff, Z.eqb_neq.
  - apply Z.eqb_eq. pose proof (dist_range g D Hd u Hu).
    assert (Hinfv : infinity = 1073741823) by reflexivity.
    rewrite wrap32_small; lia.
Qed.

Lemma dag_in_same g D Q Q' l v :
  (forall u, In u l -> (0 < dag_to g D u v)%nat -> Q u = Q' u) ->
  dag_in g D Q l v = dag_in g D Q' l v.
Proof.
  induction l as [|a l IH]; intros H; [reflexivity|].
  rewrite !dag_in_cons. rewrite IH by (intros u Hu; apply H; now right).
  destruct (Nat.eq_dec (dag_to g D a v) 0) as [E|E].
  - rewrite E. destruct (Q a), (Q' a); reflexivity.
  - rewrite (H a (or_introl eq_refl)) by lia. reflexivity.
Qed.

Lemma PredAndSucc_establishes g s w :
  wf_graph g -> DAG_start g s (nodes w) ->
  NSP_inv g (dist_of (nodes w)) (nodes (PredAndSucc_go g w)).
Proof.
  intros Hwf [Hb Hctl].
  set (D := dist_of (nodes w)).
  pose proof (BFS_post_dist_ok g s _ Hb) as Hd. fold D in Hd.
  assert (Hnd : forall v,
            nodes (PredAndSucc_go g w) v =
            set_num_predecessors
              (incr_n (dag_in g D everyone (all_nodes g) v)
                 (num_predecessors (nodes w v)))
              (set_num_successors
                 (if mem v (all_nodes g)
                  then incr_n (dag_out g D everyone v)
                         (num_successors (nodes w v))
                  else num_successors (nodes w v))
                 (nodes w v))).
  { intros v. unfold PredAndSucc_go. cbn [nodes sync with_nodes].
    apply PredAndSucc_pass; [apply seq_NoDup | reflexivity]. }
  assert (Hpred : forall v, (v < numNodes g)%nat ->
            num_predecessors (nodes (PredAndSucc_go g w) v)
            = Z.of_nat (dag_in g D everyone (all_nodes g) v)).
  { intros v Hv. rewrite Hnd. simpl.
    destruct (Hctl v Hv) as (-> & _). apply incr_n_small; [lia|].
    pose proof (num_edges_bound g everyone D v Hwf). lia. }
  assert (Hsucc : forall v, (v < numNodes g)%nat ->
            num_successors (nodes (PredAndSucc_go g w) v)
            = Z.of_nat (dag_out g D everyone v)).
  { intros v Hv. rewrite Hnd. simpl. rewrite mem_all_nodes.
    destruct (Nat.ltb_spec v (numNodes g)); [|lia].
    destruct (Hctl v Hv) as (_ & -> & _). apply incr_n_small; [lia|].
    pose proof (wf_num_edges g Hwf).
    pose proof (dag_to_le_out g D v v).
    pose proof (dag_in_le_edges g D everyone (all_nodes g) v).
    assert ((dag_out g D everyone v <= edges_of g (all_nodes g))%nat).
    { clear - Hv. unfold edges_of.
      assert (Hin : In v (all_nodes g)) by now apply in_all_nodes.
      induction (all_nodes g) as [|a l IH]; [contradiction|].
      simpl. destruct Hin as [->|Hin].
      - pose proof (dag_out_le_edges g D everyone v). lia.
      - specialize (IH Hin). lia. }
    unfold num_edges in *. lia. }
  assert (Hflag : forall v, (v < numNodes g)%nat ->
            propogation_flag (nodes (PredAndSucc_go g w) v)
            = (getGID g v =? s)).
  { intros v Hv. rewrite Hnd. simpl. apply (Hctl v Hv). }
  assert (Hsrc0 : forall v, (v < numNodes g)%nat -> getGID g v = s ->
            dag_in g D everyone (all_nodes g) v = 0%nat).
  { intros v Hv Hs. apply dag_in_zero. intros u Hu _.
    apply in_all_nodes in Hu.
    destruct (Nat.eq_dec (dag_to g D u v) 0) as [E|E]; [exact E|].
    exfalso. assert (Hto : (0 < dag_to g D u v)%nat) by lia.
    apply dag_to_pos in Hto as [_ Hdag].
    destruct (dag_spec g D u v Hd Hu Hdag) as (_ & HD & _).
    pose proof (bfs_source g s _ Hb v Hv Hs) as H0.
    pose proof (dist_range g D Hd u Hu). unfold D, dist_of in *. lia. }
  assert (Hpos : forall v, (v < numNodes g)%nat -> getGID g v <> s ->
            visited D v = true ->
            (0 < dag_in g D everyone (all_nodes g) v)%nat).
  { intros v Hv Hs Hvis. unfold visited, D, dist_of in Hvis.
    apply negb_true_iff, Z.eqb_neq in Hvis.
    destruct (bfs_pred g s _ Hb v Hv Hvis Hs) as (u & Hu & Hin & HD).
    apply dag_in_pos_intro with (u := u).
    - now apply in_all_nodes.
    - reflexivity.
    - apply dag_to_pos. split; [assumption|].
      apply (dag_intro g D u v Hd Hu); [|exact HD].
      pose proof (bfs_range g s _ Hb v Hv). unfold D, dist_of. lia. }
  constructor.
  - intros v. rewrite Hnd. reflexivity.
  - intros v Hv. rewrite Hnd. simpl. apply (Hctl v Hv).
  - intros v Hv. rewrite (Hpred v Hv). f_equal.
    apply dag_in_same. intros u Hu Hto. apply in_all_nodes in Hu.
    unfold everyone, unpushed. rewrite (Hflag u Hu), (Hpred u Hu).
    destruct (Z.eqb_spec (getGID g u) s) as [Hs|Hs]; [reflexivity|].
    cbn [orb]. symmetry. apply Z.ltb_lt.
    apply dag_to_pos in Hto as [_ Hdag].
    destruct (dag_spec g D u v Hd Hu Hdag) as (Hvis & _ & _).
    pose proof (Hpos u Hu Hs Hvis). lia.
  - exact Hsucc.
  - intros v Hv Hf. rewrite (Hflag v Hv) in Hf. apply Z.eqb_eq in Hf.
    rewrite (Hpred v Hv), (Hsrc0 v Hv Hf). split; [reflexivity|].
    unfold visited, D, dist_of. rewrite (bfs_source g s _ Hb v Hv Hf).
    reflexivity.
  - intros v Hv Hvis _ Hp0. rewrite (Hflag v Hv).
    destruct (Z.eqb_spec (getGID g v) s) as [Hs|Hs]; [reflexivity|].
    rewrite (Hpred v Hv) in Hp0. pose proof (Hpos v Hv Hs Hvis). lia.
Qed.

(* ------------------------------------------------------------------ *)
(** ** The operators of the dependency propagation *)

Lemma DependencyPropogation_edge_eq D u (nd : NodeMap) acc a :
  (forall v, current_length (nd v) = D v) ->
  DependencyPropogation_edge u (nd, acc) a =
  if propogation_flag (nd a) && edge_ok D u a then
    (modify
       (modify nd u (fun d => set_trim (atomicAdd (trim d) 1) d))
       u (fun d =>
            set_to_add_float
              (F32.add (to_add_float d)
                 (dependency_delta
                    (num_shortest_paths
                       (modify nd u
                          (fun d => set_trim (atomicAdd (trim d) 1) d) u))
                    (num_shortest_paths
                       (modify nd u
                          (fun d => set_trim (atomicAdd (trim d) 1) d) a))
                    (dependency
                       (modify nd u
                          (fun d => set_trim (atomicAdd (trim d) 1) d) a))))
              d),
     wrap32 (acc + 1))
  else (nd, acc).
Proof.
  intros Hcl. unfold DependencyPropogation_edge, edge_ok. rewrite !Hcl.
  destruct (propogation_flag (nd a)); [|reflexivity].
  now destruct (wrap32 (D u + 1) =? D a).
Qed.

Lemma DependencyPropogation_edge_fold D F u : forall l (nd : NodeMap) acc,
  (forall v, current_length (nd v) = D v) ->
  (forall v, propogation_flag (nd v) = F v) ->
  (forall v, exists tf,
     fst (fold_left (DependencyPropogation_edge u) l (nd, acc)) v =
     if Nat.eqb v u then
       set_to_add_float tf
         (set_trim
            (incr_n (List.length (filter (fun x => F x && edge_ok D u x) l))
               (trim (nd v)))
            (nd v))
     else nd v) /\
  snd (fold_left (DependencyPropogation_edge u) l (nd, acc)) =
  incr_n (List.length (filter (fun x => F x && edge_ok D u x) l)) acc.
Proof.
  induction l as [|a l IH]; intros nd acc Hcl Hfl.
  - split; [|reflexivity]. intros v. exists (to_add_float (nd v)).
    simpl. destruct (Nat.eqb v u); now destruct (nd v).
  - cbn [fold_left]. rewrite (DependencyPropogation_edge_eq D) by assumption.
    cbn [filter]. rewrite Hfl.
    destruct (F a && edge_ok D u a) eqn:Ea.
    + set (nd1 := modify (modify nd u _) u _).
      assert (Hcl1 : forall x, current_length (nd1 x) = D x).
      { intros x. rewrite <- Hcl. unfold nd1. upd_cases; reflexivity. }
      assert (Hfl1 : forall x, propogation_flag (nd1 x) = F x).
      { intros x. rewrite <- Hfl. unfold nd1. upd_cases; reflexivity. }
      destruct (IH nd1 (wrap32 (acc + 1)) Hcl1 Hfl1) as [Hn Ha]. split.
      * intros v. destruct (Hn v) as (tf & Hv). exists tf.
        etransitivity; [apply Hv|]. cbn [List.length].
        rewrite incr_n_S_r. unfold nd1, atomicAdd.
        destruct (Nat.eqb_spec v u) as [->|Hne].
        -- rewrite !modify_same. reflexivity.
        -- now rewrite !modify_other.
      * etransitivity; [exact Ha|]. cbn [List.length].
        now rewrite incr_n_S_r.
    + apply (IH nd acc Hcl Hfl).
Qed.

Lemma DependencyPropogation_op_spec g D s u (nd : NodeMap) acc :
  (forall v, current_length (nd v) = D v) ->
  (forall v, exists tf,
     fst (DependencyPropogation_op infinity s g u (nd, acc)) v =
     if Nat.eqb v u then
       set_to_add_float tf
         (set_trim
            (incr_n (scan_count g D s nd u) (trim (nd v)))
            (set_num_successors
               (if resets g D s nd u then 0 else num_successors (nd v))
               (nd v)))
     else nd v) /\
  snd (DependencyPropogation_op infinity s g u (nd, acc)) =
  incr_n (scan_count g D s nd u) acc.
Proof.
  intros Hcl.
  unfold DependencyPropogation_op, scan_count, scanner, resets.
  rewrite Hcl. change (negb (D u =? infinity)) with (visited D u).
  destruct (visited D u) eqn:Ev; cbn [andb].
  - destruct (num_successors (nd u) >? 0); cbn [andb].
    + destruct (getGID g u =? s); cbn [negb].
      * cbn [fst snd]. split; [|reflexivity]. intros v.
        exists (to_add_float (nd v)).
        destruct (Nat.eqb_spec v u) as [->|Hne].
        -- rewrite modify_same. simpl. now destruct (nd u).
        -- now rewrite modify_other.
      * destruct (DependencyPropogation_edge_fold D (flagged nd) u
                    (edge_dsts g u) nd acc Hcl (fun v => eq_refl))
          as [Hn Ha].
        assert (E : List.length
                      (filter (fun x => flagged nd x && edge_ok D u x)
                         (edge_dsts g u))
                    = dag_out g D (flagged nd) u).
        { unfold dag_out. f_equal. apply filter_ext. intros x.
          rewrite dag_visited by assumption. apply andb_comm. }
        rewrite E in Hn, Ha. split; [|exact Ha].
        intros v. destruct (Hn v) as (tf & Hv). exists tf. rewrite Hv.
        destruct (Nat.eqb v u); [|reflexivity]. now destruct (nd v).
    + cbn [fst snd]. split; [|reflexivity]. intros v.
      exists (to_add_float (nd v)).
      destruct (Nat.eqb v u); [|reflexivity]. simpl. now destruct (nd v).
  - cbn [fst snd]. split; [|reflexivity]. intros v.
    exists (to_add_float (nd v)).
    destruct (Nat.eqb v u); [|reflexivity]. simpl. now destruct (nd v).
Qed.

Lemma dag_out_ext g D Q Q' u :
  (forall x, In x (edge_dsts g u) -> Q x = Q' x) ->
  dag_out g D Q u = dag_out g D Q' u.
Proof.
  intros H. unfold dag_out.
  induction (edge_dsts g u) as [|a l IH]; [reflexivity|].
  simpl. rewrite (H a (or_introl eq_refl)).
  specialize (IH (fun x Hx => H x (or_intror Hx))).
  destruct (dag D u a && Q' a); simpl; now rewrite IH.
Qed.

Lemma scan_sum_cons g D s nd a l :
  scan_sum g D s nd (a :: l)
  = (scan_count g D s nd a + scan_sum g D s nd l)%nat.
Proof. reflexivity. Qed.

(** A whole propagation pass of the dependency phase, described from the
    state in which the pass starts. *)
Lemma DependencyPropogation_pass g D s : forall l (nd : NodeMap) acc,
  NoDup l -> (forall v, current_length (nd v) = D v) ->
  (forall v, exists tf,
     fst (do_all l (DependencyPropogation_op infinity s g) (nd, acc)) v =
     if mem v l then
       set_to_add_float tf
         (set_trim
            (incr_n (scan_count g D s nd v) (trim (nd v)))
            (set_num_successors
               (if resets g D s nd v then 0 else num_successors (nd v))
               (nd v)))
     else nd v) /\
  snd (do_all l (DependencyPropogation_op infinity s g) (nd, acc)) =
  incr_n (scan_sum g D s nd l) acc.
Proof.
  induction l as [|a l IH]; intros nd acc Hnd Hcl.
  - split; [|reflexivity]. intros v. now exists (to_add_float (nd v)).
  - inversion Hnd as [|? ? Ha Hl]; subst. rewrite do_all_cons.
    destruct (DependencyPropogation_op_spec g D s a nd acc Hcl) as [Hn1 Ha1].
    destruct (DependencyPropogation_op infinity s g a (nd, acc))
      as [nd1 acc1].
    cbn [fst snd] in Hn1, Ha1.
    assert (Hcl1 : forall x, current_length (nd1 x) = D x).
    { intros x. destruct (Hn1 x) as (tf & E). rewrite E.
      destruct (Nat.eqb x a); apply Hcl. }
    assert (Hfl1 : forall x, flagged nd1 x = flagged nd x).
    { intros x. unfold flagged. destruct (Hn1 x) as (tf & E). rewrite E.
      now destruct (Nat.eqb x a). }
    assert (Hsame : forall x, x <> a -> nd1 x = nd x).
    { intros x Hx. destruct (Hn1 x) as (tf & E). rewrite E.
      destruct (Nat.eqb_spec x a); [contradiction | reflexivity]. }
    assert (Hsc : forall x, In x l ->
              scan_count g D s nd1 x = scan_count g D s nd x).
    { intros x Hx. assert (Hne : x <> a) by (intros ->; contradiction).
      unfold scan_count, scanner. rewrite (Hsame x Hne).
      now rewrite (dag_out_ext g D (flagged nd1) (flagged nd) x
                     (fun y _ => Hfl1 y)). }
    destruct (IH nd1 acc1 Hl Hcl1) as [Hn Hacc]. split.
    + intros v. destruct (Hn v) as (tf & Hv).
      rewrite mem_cons. destruct (Nat.eqb_spec v a) as [->|Hne]; cbn [orb].
      * rewrite (mem_false a l Ha) in Hv.
        destruct (Hn1 a) as (tf1 & E1). rewrite Nat.eqb_refl in E1.
        exists tf1. now rewrite Hv, E1.
      * exists tf. rewrite Hv. destruct (mem v l) eqn:Em; [|now apply Hsame].
        apply mem_In in Em. rewrite (Hsc v Em). unfold resets.
        now rewrite (Hsame v Hne).
    + rewrite Hacc, Ha1, scan_sum_cons, incr_n_add. f_equal.
      unfold scan_sum. f_equal. apply map_ext_in. exact Hsc.
Qed.

Lemma DependencyPropChanges_op_Ok g v (nd : NodeMap) :
  DependencyPropChanges_pre (nd v) ->
  exists nd',
    DependencyPropChanges_op infinity g v nd = Ok nd' /\
    nd' v = DependencyPropChanges_node (nd v) /\
    forall u, u <> v -> nd' u = nd u.
Proof.
  intros Hpre. unfold DependencyPropChanges_op, DependencyPropChanges_node.
  unfold DependencyPropChanges_pre in Hpre.
  destruct (Z.eqb_spec (current_length (nd v)) infinity) as [Hi|Hi];
    cbn [negb].
  { exists nd. repeat split. }
  specialize (Hpre Hi).
  set (nd1 := if f32_gt_zero (to_add_float (nd v)) then _ else nd).
  set (d1 := if f32_gt_zero (to_add_float (nd v)) then _ else nd v).
  assert (H1 : nd1 v = d1 /\ forall u, u <> v -> nd1 u = nd u).
  { unfold nd1, d1. destruct (f32_gt_zero (to_add_float (nd v))).
    - split; [now rewrite !modify_same|].
      intros u Hu. now rewrite !modify_other.
    - split; [reflexivity | intros; reflexivity]. }
  destruct H1 as [E1 Ho1]. rewrite E1.
  assert (Hs1 : num_successors d1 = num_successors (nd v) /\
                trim d1 = trim (nd v) /\
                propogation_flag d1 = propogation_flag (nd v)).
  { unfold d1. now destruct (f32_gt_zero (to_add_float (nd v))). }
  destruct Hs1 as (Hs1 & Ht1 & Hf1). rewrite Hs1, Ht1, Hf1 in *.
  destruct ((num_successors (nd v) =? 0) && propogation_flag (nd v)) eqn:Eb.
  - rewrite Hpre. cbn [Z.eqb assert bind].
    eexists. split; [reflexivity|]. split.
    + now rewrite !modify_same, E1.
    + intros u Hu. rewrite !modify_other by assumption. now apply Ho1.
  - destruct (Z.gtb_spec (trim (nd v)) 0) as [Ht|Ht].
    + destruct Hpre as [Hle Hflag]; [lia|].
      destruct (Z.leb_spec (trim (nd v)) (num_successors (nd v))); [|lia].
      cbn [assert bind]. rewrite !modify_same, E1. simpl.
      rewrite Hs1, Ht1, Hf1.
      destruct (Z.eqb_spec (wrap32 (num_successors (nd v) - trim (nd v))) 0)
        as [E0|E0].
      * rewrite (Hflag E0). cbn [negb assert bind].
        eexists. split; [reflexivity|]. split.
        -- now rewrite !modify_same, E1, Hs1, Ht1.
        -- intros u Hu. rewrite !modify_other by assumption. now apply Ho1.
      * eexists. split; [reflexivity|]. split.
        -- now rewrite !modify_same, E1, Hs1, Ht1.
        -- intros u Hu. rewrite !modify_other by assumption. now apply Ho1.
    + exists nd1. split; [reflexivity|]. split; [exact E1 | exact Ho1].
Qed.

(* ------------------------------------------------------------------ *)
(** ** One round of the dependency propagation *)

Lemma DependencyPropChanges_node_ctl d :
  0 <= trim d <= num_successors d -> num_successors d < 2 ^ 32 ->
  (propogation_flag d = true ->
   num_successors d = 0 /\ current_length d <> infinity) ->
  (current_length d = infinity -> trim d = 0) ->
  trim (DependencyPropChanges_node d) = 0 /\
  num_predecessors (DependencyPropChanges_node d) = num_predecessors d /\
  current_length (DependencyPropChanges_node d) = current_length d /\
  num_successors (DependencyPropChanges_node d)
  = num_successors d - trim d /\
  propogation_flag (DependencyPropChanges_node d)
  = negb (propogation_flag d)
    && ((0 <? trim d) && (num_successors d - trim d =? 0)).
Proof.
  intros Ht Hs Hf Hi. unfold DependencyPropChanges_node.
  destruct (Z.eqb_spec (current_length d) infinity) as [E|E]; cbn [negb].
  - specialize (Hi E). rewrite Hi.
    destruct (propogation_flag d) eqn:Ef.
    + destruct (Hf eq_refl) as [_ Hc]. contradiction.
    + repeat split; try lia; try reflexivity.
  - set (d1 := if f32_gt_zero (to_add_float d) then _ else d).
    assert (H1 : num_successors d1 = num_successors d /\
                 trim d1 = trim d /\
                 propogation_flag d1 = propogation_flag d /\
                 num_predecessors d1 = num_predecessors d /\
                 current_length d1 = current_length d).
    { unfold d1. now destruct (f32_gt_zero (to_add_float d)). }
    destruct H1 as (Hs1 & Ht1 & Hf1 & Hp1 & Hc1).
    rewrite Hs1, Ht1, Hf1.
    destruct (propogation_flag d) eqn:Ef.
    + destruct (Hf eq_refl) as [Hs0 _].
      rewrite Hs0. cbn [Z.eqb andb negb]. simpl.
      repeat split; try lia; reflexivity.
    + rewrite andb_false_r. cbn [negb andb].
      destruct (Z.gtb_spec (trim d) 0) as [Hpos|Hz];
        destruct (Z.ltb_spec 0 (trim d)); try lia; cbn [andb].
      * simpl. rewrite wrap32_small by lia.
        destruct (num_successors d - trim d =? 0); simpl;
          rewrite ?Hf1; repeat split; try lia; reflexivity.
      * rewrite ?Hf1. repeat split; try lia; reflexivity.
Qed.

Lemma scan_count_le_succ g D s nd u :
  Dep_inv g D s nd -> (u < numNodes g)%nat ->
  0 <= Z.of_nat (scan_count g D s nd u)
    <= (if resets g D s nd u then 0 else num_successors (nd u)).
Proof.
  intros Hinv Hu. split; [lia|]. unfold scan_count, scanner, resets.
  destruct (visited D u); cbn [andb];
    [|destruct (Z.eqb_spec (getGID g u) s) as [Hs|Hs];
      [apply (dep_src g D s nd Hinv u Hu Hs)
      |rewrite (dep_succ g D s nd Hinv u Hu Hs); lia]].
  destruct (Z.eqb_spec (getGID g u) s) as [Hs|Hs]; cbn [negb].
  - rewrite !andb_false_r. rewrite andb_true_r.
    destruct (dep_src g D s nd Hinv u Hu Hs) as [H0 _].
    destruct (num_successors (nd u) >? 0); lia.
  - rewrite !andb_true_r, andb_false_r.
    rewrite (dep_succ g D s nd Hinv u Hu Hs).
    destruct (Z.of_nat (dag_out g D (pending nd) u) >? 0); [|lia].
    apply inj_le. unfold dag_out. apply filter_length_mono.
    intros x _ Hx. apply andb_prop in Hx as [Hd Hf].
    unfold flagged in Hf. unfold pending. now rewrite Hd, Hf.
Qed.

Lemma scan_sum_le_edges g D s nd l : (scan_sum g D s nd l <= edges_of g l)%nat.
Proof.
  induction l as [|a l IH]; [unfold scan_sum, edges_of; simpl; lia|].
  rewrite scan_sum_cons. unfold edges_of in *. simpl.
  pose proof (dag_out_le_edges g D (flagged nd) a).
  unfold scan_count. destruct (scanner g D s nd a); lia.
Qed.

Lemma edges_of_member g v l :
  In v l -> (List.length (edge_dsts g v) <= edges_of g l)%nat.
Proof.
  unfold edges_of. induction l as [|a l IH]; intros Hin; [contradiction|].
  simpl. destruct Hin as [->|Hin]; [lia|]. specialize (IH Hin). lia.
Qed.

Lemma Dep_succ_range g D s nd v :
  wf_graph g -> Dep_inv g D s nd -> (v < numNodes g)%nat ->
  0 <= num_successors (nd v) < 2 ^ 32.
Proof.
  intros Hwf Hinv Hv. pose proof (wf_num_edges g Hwf) as Hne.
  destruct (Z.eq_dec (getGID g v) s) as [Hs|Hs].
  - apply (dep_src g D s nd Hinv v Hv Hs).
  - rewrite (dep_succ g D s nd Hinv v Hv Hs).
    pose proof (dag_out_le_edges g D (pending nd) v).
    pose proof (edges_of_member g v (all_nodes g)
                  (proj2 (in_all_nodes g v) Hv)).
    unfold num_edges in Hne. lia.
Qed.

Lemma scan_count_visited g D s nd v :
  (0 < scan_count g D s nd v)%nat ->
  scanner g D s nd v = true /\ visited D v = true.
Proof.
  unfold scan_count. destruct (scanner g D s nd v) eqn:E; [|lia].
  intros _. split; [reflexivity|]. unfold scanner in E.
  now apply andb_prop in E as [E _].
Qed.

(** Under the invariant a round completes: no assertion of the Changes
    pass fires, the accumulator is the number of flagged DAG successors
    found, and the control fields change as [Dep_next] says. *)
Lemma Dep_round_fields g D s (nd : NodeMap) :
  wf_graph g -> Dep_inv g D s nd ->
  exists nd2,
    do_all_res (all_nodes g) (DependencyPropChanges_op infinity g)
      (fst (do_all (all_nodes g) (DependencyPropogation_op infinity s g)
              (nd, 0)))
    = Ok nd2 /\
    snd (do_all (all_nodes g) (DependencyPropogation_op infinity s g) (nd, 0))
    = Z.of_nat (scan_sum g D s nd (all_nodes g)) /\
    Dep_next g D s nd nd2.
Proof.
  intros Hwf Hinv.
  destruct (DependencyPropogation_pass g D s (all_nodes g) nd 0
              (seq_NoDup _ _) (dep_dist g D s nd Hinv)) as [Hn1 Hacc].
  set (nd1 := fst (do_all (all_nodes g)
                     (DependencyPropogation_op infinity s g) (nd, 0))) in *.
  set (k := fun v => Z.of_nat (scan_count g D s nd v)).
  set (s1 := fun v => if resets g D s nd v then 0 else num_successors (nd v)).
  assert (Hk : forall v, (v < numNodes g)%nat -> 0 <= k v <= s1 v).
  { intros v Hv. now apply scan_count_le_succ. }
  assert (Hs1 : forall v, (v < numNodes g)%nat ->
            0 <= s1 v <= num_successors (nd v) /\
            num_successors (nd v) < 2 ^ 32).
  { intros v Hv. pose proof (Dep_succ_range g D s nd v Hwf Hinv Hv).
    unfold s1. destruct (resets g D s nd v); lia. }
  assert (Hflag0 : forall v, (v < numNodes g)%nat ->
            propogation_flag (nd v) = true -> s1 v = 0 /\ k v = 0).
  { intros v Hv Hf. destruct (dep_flag g D s nd Hinv v Hv Hf) as [H0 _].
    specialize (Hk v Hv). destruct (Hs1 v Hv). lia. }
  assert (H1 : forall v, (v < numNodes g)%nat ->
            current_length (nd1 v) = D v /\
            trim (nd1 v) = k v /\
            num_predecessors (nd1 v) = num_predecessors (nd v) /\
            num_successors (nd1 v) = s1 v /\
            propogation_flag (nd1 v) = propogation_flag (nd v)).
  { intros v Hv. destruct (Hn1 v) as (tf & E). rewrite E, mem_all_nodes.
    destruct (Nat.ltb_spec v (numNodes g)); [|lia]. simpl.
    destruct (dep_zero g D s nd Hinv v Hv) as [Ht0 _]. rewrite Ht0.
    split; [apply (dep_dist g D s nd Hinv)|].
    split; [|repeat split].
    apply incr_n_small; [lia|]. specialize (Hk v Hv).
    destruct (Hs1 v Hv). fold (k v). lia. }
  assert (Hcl1 : forall v, current_length (nd1 v) = D v).
  { intros v. destruct (Hn1 v) as (tf & E). rewrite E.
    destruct (mem v (all_nodes g)); apply (dep_dist g D s nd Hinv). }
  assert (Hvis : forall v, (v < numNodes g)%nat ->
            D v = infinity -> k v = 0).
  { intros v Hv Hi. unfold k.
    destruct (Nat.eq_dec (scan_count g D s nd v) 0) as [E|E]; [lia|].
    destruct (scan_count_visited g D s nd v) as [_ Hvv]; [lia|].
    unfold visited in Hvv. rewrite Hi, Z.eqb_refl in Hvv. discriminate. }
  destruct (do_all_res_local (DependencyPropChanges_op infinity g)
              (fun _ => DependencyPropChanges_node)
              (fun _ => DependencyPropChanges_pre)
              (DependencyPropChanges_op_Ok g)
              (all_nodes g) nd1 (seq_NoDup _ _)) as (nd2 & E2 & H2).
  { intros v Hv. apply in_all_nodes in Hv.
    destruct (H1 v Hv) as (Hc & Htr & _ & Hsu & Hfl).
    unfold DependencyPropChanges_pre. rewrite Htr, Hsu, Hfl.
    intros _. specialize (Hk v Hv). destruct (Hs1 v Hv) as [Hs1a Hs1b].
    destruct (propogation_flag (nd v)) eqn:Ef.
    - destruct (Hflag0 v Hv Ef) as [-> ->]. reflexivity.
    - rewrite andb_false_r. intros Hpos. split; [lia | reflexivity]. }
  exists nd2. split; [exact E2|]. split.
  { rewrite Hacc. apply incr_n_small; [lia|].
    pose proof (wf_num_edges g Hwf).
    pose proof (scan_sum_le_edges g D s nd (all_nodes g)).
    unfold num_edges in *. lia. }
  split.
  - intros v. rewrite H2, mem_all_nodes.
    destruct (Nat.ltb_spec v (numNodes g)) as [Hv|Hv]; [|apply Hcl1].
    destruct (H1 v Hv) as (Hc & Htr & _ & Hsu & Hfl).
    destruct (DependencyPropChanges_node_ctl (nd1 v)) as (_ & _ & Hcc & _).
    + rewrite Htr, Hsu. apply (Hk v Hv).
    + rewrite Hsu. destruct (Hs1 v Hv). lia.
    + rewrite Hfl, Hsu, Hc. intros Hf. destruct (Hflag0 v Hv Hf).
      split; [assumption|]. destruct (dep_flag g D s nd Hinv v Hv Hf)
        as [_ Hvv]. unfold visited in Hvv.
      now apply negb_true_iff, Z.eqb_neq in Hvv.
    + rewrite Hc, Htr. now apply Hvis.
    + now rewrite Hcc.
  - intros v Hv. cbv zeta. rewrite H2, mem_all_nodes.
    destruct (Nat.ltb_spec v (numNodes g)); [|lia].
    destruct (H1 v Hv) as (Hc & Htr & Hpr & Hsu & Hfl).
    destruct (DependencyPropChanges_node_ctl (nd1 v))
      as (Ha & Hb & _ & Hd & He).
    + rewrite Htr, Hsu. apply (Hk v Hv).
    + rewrite Hsu. destruct (Hs1 v Hv). lia.
    + rewrite Hfl, Hsu, Hc. intros Hf. destruct (Hflag0 v Hv Hf).
      split; [assumption|]. destruct (dep_flag g D s nd Hinv v Hv Hf)
        as [_ Hvv]. unfold visited in Hvv.
      now apply negb_true_iff, Z.eqb_neq in Hvv.
    + rewrite Hc, Htr. now apply Hvis.
    + rewrite Ha, Hb, Hd, He, Htr, Hpr, Hsu, Hfl. repeat split.
Qed.

Lemma dag_out_split g D Q Q1 Q2 u :
  (forall x, In x (edge_dsts g u) -> dag D u x = true ->
     Q x = xorb (Q1 x) (Q2 x) /\ (Q1 x && Q2 x = false)) ->
  dag_out g D Q u = (dag_out g D Q1 u + dag_out g D Q2 u)%nat.
Proof.
  unfold dag_out. induction (edge_dsts g u) as [|a l IH]; intros H;
    [reflexivity|].
  specialize (IH (fun x Hx => H x (or_intror Hx))). simpl.
  destruct (dag D u a) eqn:Ed; cbn [andb]; [|exact IH].
  destruct (H a (or_introl eq_refl) Ed) as [Hx Hn].
  destruct (Q a), (Q1 a), (Q2 a); simpl in *; try discriminate; lia.
Qed.

Lemma dag_out_same g D Q Q' u :
  (forall x, In x (edge_dsts g u) -> dag D u x = true -> Q x = Q' x) ->
  dag_out g D Q u = dag_out g D Q' u.
Proof.
  unfold dag_out. induction (edge_dsts g u) as [|a l IH]; intros H;
    [reflexivity|].
  specialize (IH (fun x Hx => H x (or_intror Hx))). simpl.
  destruct (dag D u a) eqn:Ed; cbn [andb]; [|exact IH].
  rewrite (H a (or_introl eq_refl) Ed).
  destruct (Q' a); simpl; now rewrite IH.
Qed.

Lemma dag_out_mono g D Q Q' u :
  (forall x, Q x = true -> Q' x = true) ->
  (dag_out g D Q u <= dag_out g D Q' u)%nat.
Proof.
  intros H. unfold dag_out. apply filter_length_mono.
  intros x _ Hx. apply andb_prop in Hx as [Hd Hq].
  now rewrite Hd, (H x Hq).
Qed.

Lemma dag_out_unvisited g D Q u : visited D u = false -> dag_out g D Q u = 0%nat.
Proof.
  intros Hv. unfold dag_out. rewrite filter_none; [reflexivity|].
  intros x _. now rewrite dag_unvisited.
Qed.

Lemma dag_out_Q_pos g D Q u :
  (0 < dag_out g D Q u)%nat <->
  exists x, In x (edge_dsts g u) /\ dag D u x = true /\ Q x = true.
Proof.
  unfold dag_out. rewrite filter_length_pos. split.
  - intros (x & Hx & Hf). apply andb_prop in Hf as [Hd Hq]. now exists x.
  - intros (x & Hx & Hd & Hq). exists x. now rewrite Hd, Hq.
Qed.

Lemma flagged_pending nd x : flagged nd x = true -> pending nd x = true.
Proof. unfold flagged, pending. now intros ->. Qed.

(** The invariant is kept by a round. *)
Lemma Dep_next_inv g D s nd nd2 :
  wf_graph g -> dist_ok g D -> Dep_inv g D s nd -> Dep_next g D s nd nd2 ->
  Dep_inv g D s nd2.
Proof.
  intros Hwf Hd Hinv [Hcl2 Hnext].
  set (k := fun v => Z.of_nat (scan_count g D s nd v)).
  set (s1 := fun v => if resets g D s nd v then 0 else num_successors (nd v)).
  assert (Hk : forall v, (v < numNodes g)%nat -> 0 <= k v <= s1 v).
  { intros v Hv. now apply scan_count_le_succ. }
  assert (Hns : forall v, (v < numNodes g)%nat -> getGID g v <> s ->
            s1 v = num_successors (nd v)).
  { intros v Hv Hs. unfold s1, resets.
    destruct (Z.eqb_spec (getGID g v) s); [contradiction|].
    now rewrite !andb_false_r. }
  assert (Hpend : forall x, (x < numNodes g)%nat -> getGID g x <> s ->
            pending nd x = xorb (flagged nd x) (pending nd2 x) /\
            flagged nd x && pending nd2 x = false).
  { intros x Hx Hs. destruct (Hnext x Hx) as (_ & _ & Hs2 & Hf2).
    fold (k x) in Hs2, Hf2. fold (s1 x) in Hs2, Hf2.
    rewrite (Hns x Hx Hs) in *. specialize (Hk x Hx).
    rewrite (Hns x Hx Hs) in Hk.
    unfold pending, flagged. rewrite Hs2, Hf2.
    destruct (propogation_flag (nd x)) eqn:Ef.
    - destruct (dep_flag g D s nd Hinv x Hx Ef) as [H0 _].
      assert (Ek : k x = 0) by lia. rewrite Ek, H0. simpl. now split.
    - cbn [negb andb orb xorb].
      destruct (Z.ltb_spec 0 (k x)),
        (Z.eqb_spec (num_successors (nd x) - k x) 0),
        (Z.ltb_spec 0 (num_successors (nd x))),
        (Z.ltb_spec 0 (num_successors (nd x) - k x));
        cbn [andb orb]; split; try reflexivity; lia. }
  constructor.
  - exact Hcl2.
  - intros v Hv. destruct (Hnext v Hv) as (Ht & Hp & _).
    split; [exact Ht|]. rewrite Hp. apply (dep_zero g D s nd Hinv v Hv).
  - intros u Hu Hs. destruct (Hnext u Hu) as (_ & _ & Hs2 & _).
    fold (k u) in Hs2. fold (s1 u) in Hs2. rewrite Hs2, (Hns u Hu Hs).
    assert (Hsplit : dag_out g D (pending nd) u
                     = (dag_out g D (flagged nd) u
                        + dag_out g D (pending nd2) u)%nat).
    { apply dag_out_split. intros x Hin Hdag.
      assert (Hx : (x < numNodes g)%nat) by (eapply wf_edges; eassumption).
      apply Hpend; [assumption|]. intros Hsx.
      destruct (dag_spec g D u x Hd Hu Hdag) as (_ & HD & _).
      destruct (dep_src g D s nd Hinv x Hx Hsx) as [_ H0].
      pose proof (dist_range g D Hd u Hu). lia. }
    rewrite (dep_succ g D s nd Hinv u Hu Hs), Hsplit.
    unfold k, scan_count. destruct (scanner g D s nd u) eqn:Esc; [lia|].
    assert (E0 : dag_out g D (flagged nd) u = 0%nat).
    { unfold scanner in Esc. destruct (visited D u) eqn:Ev;
        [|now apply dag_out_unvisited].
      cbn [andb] in Esc.
      destruct (Z.eqb_spec (getGID g u) s); [contradiction|].
      cbn [negb] in Esc. rewrite andb_true_r in Esc.
      rewrite (dep_succ g D s nd Hinv u Hu Hs) in Esc.
      rewrite Z.gtb_ltb in Esc. apply Z.ltb_ge in Esc.
      pose proof (dag_out_mono g D (flagged nd) (pending nd) u
                    (flagged_pending nd)). lia. }
    lia.
  - intros u Hu Hs. destruct (Hnext u Hu) as (_ & _ & Hs2 & _).
    fold (k u) in Hs2. fold (s1 u) in Hs2.
    destruct (dep_src g D s nd Hinv u Hu Hs) as [Hr H0].
    split; [|exact H0]. specialize (Hk u Hu).
    assert (s1 u <= num_successors (nd u)).
    { unfold s1. destruct (resets g D s nd u); lia. }
    lia.
  - intros v Hv Hf2. destruct (Hnext v Hv) as (_ & _ & Hs2 & Hfl).
    fold (k v) in Hs2, Hfl. fold (s1 v) in Hs2, Hfl. rewrite Hfl in Hf2.
    apply andb_prop in Hf2 as [_ Hf2]. apply andb_prop in Hf2 as [Hpos Hz].
    apply Z.ltb_lt in Hpos. apply Z.eqb_eq in Hz. split; [lia|].
    apply (scan_count_visited g D s nd v). unfold k in Hpos. lia.
Qed.

Lemma DependencyPropogation_round_eq g s w :
  DependencyPropogation_round g s w =
  (sync sync_DependencyPropogation_to_add_float
     (sync sync_DependencyPropogation_trim
        (with_nodes w
           (fst (do_all (all_nodes g)
                   (DependencyPropogation_op infinity s g) (nodes w, 0))))),
   snd (do_all (all_nodes g) (DependencyPropogation_op infinity s g)
          (nodes w, 0))).
Proof.
  unfold DependencyPropogation_round.
  now destruct (do_all (all_nodes g) (DependencyPropogation_op infinity s g)
                  (nodes w, 0)).
Qed.

Lemma scan_sum_pos g D s nd l :
  (0 < scan_sum g D s nd l)%nat ->
  exists u, In u l /\ (0 < scan_count g D s nd u)%nat.
Proof.
  induction l as [|a l IH]; intros H; [unfold scan_sum in H; simpl in H; lia|].
  rewrite scan_sum_cons in H.
  destruct (Nat.eq_dec (scan_count g D s nd a) 0) as [E|E].
  - destruct IH as (u & Hu & Hp); [lia|]. exists u. split; [now right|exact Hp].
  - exists a. split; [now left | lia].
Qed.

Lemma scan_sum_zero g D s nd l u :
  scan_sum g D s nd l = 0%nat -> In u l -> scan_count g D s nd u = 0%nat.
Proof.
  induction l as [|a l IH]; intros H Hin; [contradiction|].
  rewrite scan_sum_cons in H. destruct Hin as [->|Hin]; [lia|].
  apply IH; [lia | assumption].
Qed.

(** A round in which some node found a flagged successor lowers the sum of
    the successor counts. *)
Lemma Dep_next_decreases g D s nd nd2 :
  wf_graph g -> Dep_inv g D s nd -> Dep_next g D s nd nd2 ->
  (0 < scan_sum g D s nd (all_nodes g))%nat ->
  total_successors g nd2 < total_successors g nd.
Proof.
  intros Hwf Hinv [_ Hnext] Hpos.
  destruct (scan_sum_pos g D s nd _ Hpos) as (u & Hu & Hp).
  assert (Hle : forall v, (v < numNodes g)%nat ->
            num_successors (nd2 v)
            <= num_successors (nd v) - Z.of_nat (scan_count g D s nd v)).
  { intros v Hv. destruct (Hnext v Hv) as (_ & _ & Hs2 & _). rewrite Hs2.
    pose proof (Dep_succ_range g D s nd v Hwf Hinv Hv).
    destruct (resets g D s nd v); lia. }
  unfold total_successors. apply Zsum_lt with (x := u).
  - intros v Hv. apply in_all_nodes in Hv. specialize (Hle v Hv). lia.
  - exact Hu.
  - apply in_all_nodes in Hu. specialize (Hle u Hu). lia.
Qed.

Lemma total_successors_nonneg g D s nd :
  wf_graph g -> Dep_inv g D s nd -> 0 <= total_successors g nd.
Proof.
  intros Hwf Hinv. apply Zsum_nonneg. intros v Hv. apply in_all_nodes in Hv.
  pose proof (Dep_succ_range g D s nd v Hwf Hinv Hv). lia.
Qed.

(** When no node finds a flagged successor, every dependency has been
    consumed: the round ends with all control fields clear. *)
Lemma Dep_next_quiet g D s nd nd2 :
  wf_graph g -> dist_ok g D -> Dep_inv g D s nd -> Dep_next g D s nd nd2 ->
  scan_sum g D s nd (all_nodes g) = 0%nat ->
  Iter_start g nd2.
Proof.
  intros Hwf Hd Hinv [_ Hnext] Hz.
  assert (Hk0 : forall v, (v < numNodes g)%nat ->
            scan_count g D s nd v = 0%nat).
  { intros v Hv. apply (scan_sum_zero g D s nd (all_nodes g) v Hz).
    now apply in_all_nodes. }
  assert (Hclaim : forall (m : nat) u, (u < numNodes g)%nat ->
            Z.to_nat (infinity - D u) = m -> getGID g u <> s ->
            num_successors (nd u) = 0).
  { induction m as [m IH] using lt_wf_ind. intros u Hu Hm Hs.
    pose proof (dep_succ g D s nd Hinv u Hu Hs) as Hsu.
    destruct (Nat.eq_dec (dag_out g D (pending nd) u) 0) as [E|E];
      [rewrite Hsu, E; reflexivity|].
    exfalso.
    destruct (proj1 (dag_out_Q_pos g D (pending nd) u)) as (x & Hin & Hdag & Hp);
      [lia|].
    assert (Hx : (x < numNodes g)%nat) by (eapply wf_edges; eassumption).
    destruct (dag_spec g D u x Hd Hu Hdag) as (Hvu & HD & Hvx).
    assert (Hsc : scanner g D s nd u = true).
    { unfold scanner. rewrite Hvu, Hsu. cbn [andb].
      destruct (Z.eqb_spec (getGID g u) s); [contradiction|]. cbn [negb].
      rewrite andb_true_r. apply Z.gtb_lt. lia. }
    pose proof (Hk0 u Hu) as Hk. unfold scan_count in Hk. rewrite Hsc in Hk.
    assert (Hfx : propogation_flag (nd x) = false).
    { destruct (propogation_flag (nd x)) eqn:Ef; [|reflexivity].
      exfalso.
      assert ((0 < dag_out g D (flagged nd) u)%nat); [|lia].
      apply dag_out_Q_pos. exists x. now repeat split. }
    unfold pending in Hp. rewrite Hfx in Hp. cbn [orb] in Hp.
    apply Z.ltb_lt in Hp.
    assert (Hsx : getGID g x <> s).
    { intros Hsx. destruct (dep_src g D s nd Hinv x Hx Hsx) as [_ H0].
      pose proof (dist_range g D Hd u Hu). lia. }
    pose proof (dist_range g D Hd x Hx).
    pose proof (dist_range g D Hd u Hu).
    rewrite (IH (Z.to_nat (infinity - D x))) with (u := x) in Hp;
      try assumption; try reflexivity; lia. }
  intros v Hv. destruct (Hnext v Hv) as (Ht & Hp & Hs2 & Hf2).
  rewrite (Hk0 v Hv) in Hs2, Hf2.
  destruct (dep_zero g D s nd Hinv v Hv) as [_ Hp0].
  split; [now rewrite Hp|]. split; [|split; [exact Ht|]].
  - rewrite Hs2. cbn [Z.of_nat]. rewrite Z.sub_0_r. unfold resets.
    destruct (Z.eqb_spec (getGID g v) s) as [Hs|Hs].
    + destruct (dep_src g D s nd Hinv v Hv Hs) as [Hr H0].
      unfold visited. rewrite H0. change (0 =? infinity) with false.
      cbn [negb andb]. rewrite andb_true_r.
      destruct (Z.gtb_spec (num_successors (nd v)) 0); lia.
    + rewrite !andb_false_r.
      now apply (Hclaim (Z.to_nat (infinity - D v)) v).
  - rewrite Hf2. cbn [Z.of_nat Z.ltb Z.compare andb].
    now rewrite andb_false_r.
Qed.

(** The loop of the dependency propagation terminates without a failed
    assertion and ends with all control fields clear. *)
Lemma Dep_loop_total g D s :
  wf_graph g -> dist_ok g D -> forall (m : nat) w,
  Dep_inv g D s (nodes w) -> total_successors g (nodes w) <= Z.of_nat m ->
  exists fuel w',
    DependencyPropogation_loop fuel g s w = Ok w' /\ Iter_start g (nodes w').
Proof.
  intros Hwf Hd. induction m as [|m IH]; intros w Hinv Hm;
    destruct (Dep_round_fields g D s (nodes w) Hwf Hinv)
      as (nd2 & E2 & Hacc & Hnext);
    pose proof (Dep_next_inv g D s _ _ Hwf Hd Hinv Hnext) as Hinv2;
    pose proof (total_successors_nonneg g D s nd2 Hwf Hinv2) as Hnn;
    destruct (Nat.eq_dec (scan_sum g D s (nodes w) (all_nodes g)) 0)
      as [Hz|Hnz].
  1, 3:
    exists 1%nat; eexists; cbn [DependencyPropogation_loop];
    rewrite DependencyPropogation_round_eq;
    unfold DependencyPropChanges_go;
    cbn [nodes sync with_nodes]; rewrite E2; cbn [bind];
    rewrite Hacc, Hz; cbn [Z.of_nat Z.eqb]; split; [reflexivity|];
    cbn [nodes sync with_nodes];
    now apply (Dep_next_quiet g D s (nodes w) nd2).
  - pose proof (Dep_next_decreases g D s _ _ Hwf Hinv Hnext ltac:(lia)). lia.
  - pose proof (Dep_next_decreases g D s _ _ Hwf Hinv Hnext ltac:(lia))
      as Hdec.
    set (w1 := sync sync_DependencyPropogation_to_add_float
                 (sync sync_DependencyPropogation_trim
                    (with_nodes w
                       (fst (do_all (all_nodes g)
                               (DependencyPropogation_op infinity s g)
                               (nodes w, 0)))))).
    destruct (IH (sync sync_DependencyPropogation_dep
                    (sync sync_DependencyPropChanges_prop_flag
                       (with_nodes w1 nd2))))
      as (fuel & w' & Hrun & Hpost).
    { exact Hinv2. }
    { cbn [nodes with_nodes sync]. lia. }
    exists (S fuel), w'. split; [|exact Hpost].
    cbn [DependencyPropogation_loop].
    rewrite DependencyPropogation_round_eq. unfold DependencyPropChanges_go.
    cbn [nodes sync with_nodes]. rewrite E2. cbn [bind].
    rewrite Hacc.
    destruct (Z.eqb_spec (Z.of_nat (scan_sum g D s (nodes w) (all_nodes g)))
                0); [lia|].
    exact Hrun.
Qed.

(** The state in which the shortest-path counter ends is a state in which
    the dependency propagation can start. *)
Lemma NSP_post_Dep_inv g D s nd :
  wf_graph g -> dist_ok g D ->
  (forall u, (u < numNodes g)%nat -> getGID g u = s -> D u = 0) ->
  NSP_post g D nd -> Dep_inv g D s nd.
Proof.
  intros Hwf Hd Hsrc Hpost. constructor.
  - apply Hpost.
  - apply Hpost.
  - intros u Hu Hs. rewrite (nspp_succ g D nd Hpost u Hu). f_equal.
    apply dag_out_same. intros x Hin Hdag.
    assert (Hx : (x < numNodes g)%nat) by (eapply wf_edges; eassumption).
    destruct (dag_spec g D u x Hd Hu Hdag) as (_ & _ & Hvx).
    unfold everyone, pending. symmetry.
    destruct (Z.ltb_spec 0 (num_successors (nd x))) as [Hp|Hp];
      [apply orb_true_r|].
    rewrite orb_false_r. apply (nspp_flag g D nd Hpost x Hx).
    split; [assumption|]. rewrite (nspp_succ g D nd Hpost x Hx) in *. lia.
  - intros u Hu Hs. split; [|now apply Hsrc].
    rewrite (nspp_succ g D nd Hpost u Hu).
    pose proof (wf_num_edges g Hwf) as Hne.
    pose proof (dag_out_le_edges g D everyone u).
    pose proof (edges_of_member g u (all_nodes g)
                  (proj2 (in_all_nodes g u) Hu)).
    unfold num_edges in Hne. lia.
  - intros v Hv Hf. destruct (proj1 (nspp_flag g D nd Hpost v Hv) Hf).
    now split.
Qed.

(* ------------------------------------------------------------------ *)
(** ** Fuel: a settled run does not depend on it *)

Lemma settled_bind {A B} (r : Res A) (k : A -> Res B) :
  settled (bind r k) -> settled r.
Proof. unfold settled. destruct r; simpl; congruence. Qed.

Lemma SSSP_loop_settled fuel g : forall w k,
  settled (SSSP_loop fuel g w) ->
  SSSP_loop (fuel + k) g w = SSSP_loop fuel g w.
Proof.
  induction fuel as [|fuel IH]; intros w k H; [now contradiction H|].
  simpl in *. destruct (SSSP_round g w) as [w1 acc].
  destruct (acc =? 0); [reflexivity | now apply IH].
Qed.

Lemma NumShortestPaths_loop_settled fuel g : forall w k,
  settled (NumShortestPaths_loop fuel g w) ->
  NumShortestPaths_loop (fuel + k) g w = NumShortestPaths_loop fuel g w.
Proof.
  induction fuel as [|fuel IH]; intros w k H; [now contradiction H|].
  simpl in *. destruct (NumShortestPaths_round g w) as [w1 acc].
  destruct (NumShortestPathsChanges_go g w1) as [w2| |]; simpl in *;
    try reflexivity.
  destruct (acc =? 0); [reflexivity | now apply IH].
Qed.

Lemma DependencyPropogation_loop_settled fuel g i : forall w k,
  settled (DependencyPropogation_loop fuel g i w) ->
  DependencyPropogation_loop (fuel + k) g i w
  = DependencyPropogation_loop fuel g i w.
Proof.
  induction fuel as [|fuel IH]; intros w k H; [now contradiction H|].
  simpl in *. destruct (DependencyPropogation_round g i w) as [w1 acc].
  destruct (DependencyPropChanges_go g w1) as [w2| |]; simpl in *;
    try reflexivity.
  destruct (acc =? 0); [reflexivity | now apply IH].
Qed.

Lemma BC_iteration_settled fuel g i w k :
  settled (BC_iteration fuel g i w) ->
  BC_iteration (fuel + k) g i w = BC_iteration fuel g i w.
Proof.
  unfold BC_iteration, BC_phases, BC_upto_NumShortestPaths, BC_upto_SSSP,
    SSSP_go, NumShortestPaths_go, DependencyPropogation_go.
  intros H.
  destruct (InitializeIteration_go g i w) as [w1| |]; simpl in *;
    try reflexivity.
  assert (H2 : settled (SSSP_loop fuel g (FirstIterationSSSP_go g i w1))).
  { unfold settled in *. intros E. rewrite E in H. now apply H. }
  rewrite (SSSP_loop_settled _ _ _ k H2).
  destruct (SSSP_loop fuel g (FirstIterationSSSP_go g i w1)) as [w2| |];
    simpl in *; try reflexivity.
  assert (H4 : settled (NumShortestPaths_loop fuel g (PredAndSucc_go g w2))).
  { unfold settled in *. intros E. rewrite E in H. now apply H. }
  rewrite (NumShortestPaths_loop_settled _ _ _ k H4).
  destruct (NumShortestPaths_loop fuel g (PredAndSucc_go g w2)) as [w4| |];
    simpl in *; try reflexivity.
  assert (H5 : settled (DependencyPropogation_loop fuel g i w4)).
  { unfold settled in *. intros E. rewrite E in H. now apply H. }
  now rewrite (DependencyPropogation_loop_settled _ _ _ _ k H5).
Qed.

Lemma BC_sources_settled fuel g k : forall srcs w,
  settled (BC_sources fuel g srcs w) ->
  BC_sources (fuel + k) g srcs w = BC_sources fuel g srcs w.
Proof.
  induction srcs as [|i rest IH]; intros w H; [reflexivity|].
  simpl in *. pose proof (settled_bind _ _ H) as H1.
  rewrite (BC_iteration_settled _ _ _ _ k H1).
  destruct (BC_iteration fuel g i w) as [w'| |]; simpl in *;
    try reflexivity.
  now apply IH.
Qed.

Lemma settled_Ok {A} (r : Res A) a : r = Ok a -> settled r.
Proof. intros ->. discriminate. Qed.

(** Two settled runs of an iteration with different fuel agree. *)
Lemma BC_iteration_agree f1 f2 g i w :
  settled (BC_iteration f1 g i w) -> settled (BC_iteration f2 g i w) ->
  BC_iteration f1 g i w = BC_iteration f2 g i w.
Proof.
  intros H1 H2.
  rewrite <- (BC_iteration_settled f1 g i w f2 H1).
  rewrite <- (BC_iteration_settled f2 g i w f1 H2).
  now rewrite Nat.add_comm.
Qed.

Lemma BC_sources_agree f1 f2 g srcs w :
  settled (BC_sources f1 g srcs w) -> settled (BC_sources f2 g srcs w) ->
  BC_sources f1 g srcs w = BC_sources f2 g srcs w.
Proof.
  intros H1 H2.
  rewrite <- (BC_sources_settled f1 g f2 srcs w H1).
  rewrite <- (BC_sources_settled f2 g f1 srcs w H2).
  now rewrite Nat.add_comm.
Qed.

(* ------------------------------------------------------------------ *)
(** ** A source iteration, phase after phase *)

Lemma ctl_inv d d' :
  ctl d = ctl d' ->
  num_successors d = num_successors d' /\
  num_predecessors d = num_predecessors d' /\
  trim d = trim d' /\ propogation_flag d = propogation_flag d'.
Proof. unfold ctl. intros H. injection H. auto. Qed.

(** From an iteration start, InitializeIteration, FirstIterationSSSP and
    the SSSP rounds run to completion and leave the breadth-first
    distances, with only the source flagged. *)
Lemma BC_upto_SSSP_total g i w :
  wf_graph g -> Iter_start g (nodes w) ->
  exists fuel w2,
    BC_upto_SSSP fuel g i w = Ok w2 /\ DAG_start g i (nodes w2).
Proof.
  intros Hwf Hst.
  destruct (InitializeIteration_go_Ok g i w) as (w1 & E1 & N1).
  { intros v Hv _. now apply Hst. }
  destruct (FirstIterationSSSP_go_inv g i w1 Hwf) as [Hinv Hctl].
  { intros v Hv. rewrite N1. apply Nat.ltb_lt in Hv. rewrite Hv.
    unfold InitializeIteration_node.
    destruct (getGID g v =? i); simpl; split; reflexivity. }
  destruct (SSSP_loop_total g i Hwf
              (Z.to_nat (total_length g
                           (nodes (FirstIterationSSSP_go g i w1))))
              _ Hinv) as (fuel & w2 & E2 & Hinv2 & Hdone & Hctl2).
  { rewrite Z2Nat.id; [lia | now apply (total_length_nonneg g i)]. }
  exists fuel, w2. split.
  - unfold BC_upto_SSSP. rewrite E1. simpl. exact E2.
  - split; [now apply SSSP_fixed_point|].
    intros v Hv.
    destruct (ctl_inv _ _ (Hctl2 v)) as (Hs & Hp & Ht & Hf).
    destruct (ctl_inv _ _ (Hctl v)) as (Hs' & Hp' & Ht' & Hf').
    rewrite Hs, Hp, Ht, Hf, Hs', Hp', Ht', Hf', N1.
    pose proof Hv as Hv'. apply Nat.ltb_lt in Hv'. rewrite Hv'.
    destruct (Hst v Hv) as (Hp0 & Hs0 & Ht0 & Hf0).
    unfold InitializeIteration_node.
    destruct (getGID g v =? i); simpl; auto.
Qed.

Lemma BC_upto_SSSP_post g i w fuel w2 :
  wf_graph g -> Iter_start g (nodes w) ->
  BC_upto_SSSP fuel g i w = Ok w2 -> DAG_start g i (nodes w2).
Proof.
  intros Hwf Hst E.
  destruct (BC_upto_SSSP_total g i w Hwf Hst) as (f0 & w0 & E0 & H0).
  apply (BC_upto_SSSP_mono _ _ _ _ _ f0) in E.
  apply (BC_upto_SSSP_mono _ _ _ _ _ fuel) in E0.
  rewrite Nat.add_comm in E0. rewrite E0 in E. now injection E as <-.
Qed.

Lemma DAG_start_source g s nd u :
  DAG_start g s nd -> (u < numNodes g)%nat -> getGID g u = s ->
  dist_of nd u = 0.
Proof. intros [Hb _] Hu Hs. now apply (bfs_source g s nd Hb). Qed.

Lemma BC_op_spec v (nd : NodeMap) :
  BC_op v nd v =
    set_dependency F32.zero
      (set_betweeness_centrality
         (F32.add (betweeness_centrality (nd v)) (dependency (nd v)))
         (nd v)) /\
  forall u, u <> v -> BC_op v nd u = nd u.
Proof.
  unfold BC_op. split.
  - now rewrite !modify_same.
  - intros u Hu. now rewrite !modify_other by congruence.
Qed.

Lemma BC_pass_Iter_start g nd :
  Iter_start g nd -> Iter_start g (do_all (all_nodes g) BC_op nd).
Proof.
  intros H v Hv.
  rewrite (do_all_local BC_op
             (fun _ d =>
                set_dependency F32.zero
                  (set_betweeness_centrality
                     (F32.add (betweeness_centrality d) (dependency d)) d))
             BC_op_spec) by apply seq_NoDup.
  destruct (mem v (all_nodes g)); simpl; now apply H.
Qed.

(** From an iteration start, a whole source iteration runs to completion
    and leaves an iteration start. *)
Lemma BC_iteration_total g i w :
  wf_graph g -> Iter_start g (nodes w) ->
  exists fuel w',
    BC_iteration fuel g i w = Ok w' /\ Iter_start g (nodes w').
Proof.
  intros Hwf Hst.
  destruct (BC_upto_SSSP_total g i w Hwf Hst) as (f1 & w2 & E1 & Hdag).
  pose proof (PredAndSucc_establishes g i w2 Hwf Hdag) as Hnsp.
  pose proof (BFS_post_dist_ok g i _ (ds_bfs g i _ Hdag)) as Hdist.
  destruct (NSP_loop_total g _ Hwf Hdist
              (Z.to_nat (total_predecessors g (nodes (PredAndSucc_go g w2))))
              _ Hnsp) as (f2 & w4 & E2 & Hpost).
  { rewrite Z2Nat.id; [lia|].
    now apply (total_predecessors_nonneg g (dist_of (nodes w2))). }
  assert (Hdep : Dep_inv g (dist_of (nodes w2)) i (nodes w4)).
  { apply NSP_post_Dep_inv; auto.
    intros u Hu Hs. now apply (DAG_start_source g i). }
  destruct (Dep_loop_total g _ i Hwf Hdist
              (Z.to_nat (total_successors g (nodes w4))) _ Hdep)
    as (f3 & w5 & E3 & Hend).
  { rewrite Z2Nat.id; [lia|].
    now apply (total_successors_nonneg g (dist_of (nodes w2)) i). }
  exists (f1 + (f2 + f3))%nat.
  exists (with_nodes w5 (do_all (all_nodes g) BC_op (nodes w5))).
  split.
  - unfold BC_iteration, BC_phases, BC_upto_NumShortestPaths.
    rewrite (BC_upto_SSSP_mono _ _ _ _ _ (f2 + f3) E1). simpl.
    unfold NumShortestPaths_go.
    replace (f1 + (f2 + f3))%nat with (f2 + (f1 + f3))%nat by lia.
    rewrite (NumShortestPaths_loop_mono _ _ _ _ E2 (f1 + f3)%nat). simpl.
    unfold DependencyPropogation_go.
    replace (f2 + (f1 + f3))%nat with (f3 + (f1 + f2))%nat by lia.
    rewrite (DependencyPropogation_loop_mono _ _ _ _ _ E3 (f1 + f2)%nat).
    reflexivity.
  - simpl. now apply BC_pass_Iter_start.
Qed.

Lemma InitializeGraph_op_spec v (nd : NodeMap) :
  InitializeGraph_op v nd v =
    set_propogation_flag false
      (set_dependency F32.zero
        (set_to_add_float F32.zero
          (set_to_add 0
            (set_trim 0
              (set_num_predecessors 0
                (set_num_successors 0
                  (set_num_shortest_paths 0
                    (set_betweeness_centrality F32.zero (nd v))))))))) /\
  forall u, u <> v -> InitializeGraph_op v nd u = nd u.
Proof.
  unfold InitializeGraph_op. split.
  - now rewrite modify_same.
  - intros u Hu. now rewrite modify_other by congruence.
Qed.

Lemma fold_sync_nodes cs : forall w,
  nodes (fold_left (fun w c => sync c w) cs w) = nodes w.
Proof. induction cs as [|c cs IH]; intros w; simpl; [|rewrite IH]; auto. Qed.

(** InitializeGraph leaves an iteration start, whatever the memory held. *)
Lemma InitializeGraph_Iter_start g w0 :
  Iter_start g (nodes (InitializeGraph_go g w0)).
Proof.
  intros v Hv. unfold InitializeGraph_go. rewrite fold_sync_nodes. simpl.
  rewrite (do_all_local InitializeGraph_op
             (fun _ d =>
                set_propogation_flag false
                  (set_dependency F32.zero
                    (set_to_add_float F32.zero
                      (set_to_add 0
                        (set_trim 0
                          (set_num_predecessors 0
                            (set_num_successors 0
                              (set_num_shortest_paths 0
                                (set_betweeness_centrality F32.zero
                                   d)))))))))
             InitializeGraph_op_spec) by apply seq_NoDup.
  rewrite mem_all_nodes. apply Nat.ltb_lt in Hv. rewrite Hv.
  simpl. auto.
Qed.

(** Every state from which an iteration starts in a run has its control
    fields clear. *)
Lemma iteration_start_inv g w :
  wf_graph g -> iteration_start g w -> Iter_start g (nodes w).
Proof.
  intros Hwf H. induction H as [w0 | w i fuel w' _ IH E].
  - apply InitializeGraph_Iter_start.
  - destruct (BC_iteration_total g i w Hwf IH) as (f0 & w0 & E0 & H0).
    pose proof (BC_iteration_agree fuel f0 g i w
                  (settled_Ok _ _ E) (settled_Ok _ _ E0)) as Ha.
    rewrite E, E0 in Ha. now injection Ha as ->.
Qed.

(** An iteration from an iteration start trips no assertion, whatever the
    fuel. *)
Lemma BC_iteration_no_assert g i w fuel msg :
  wf_graph g -> Iter_start g (nodes w) ->
  BC_iteration fuel g i w <> AssertFail msg.
Proof.
  intros Hwf Hst E.
  destruct (BC_iteration_total g i w Hwf Hst) as (f0 & w0 & E0 & _).
  assert (Hs : settled (BC_iteration fuel g i w))
    by (rewrite E; discriminate).
  pose proof (BC_iteration_agree fuel f0 g i w Hs (settled_Ok _ _ E0)) as Ha.
  rewrite E, E0 in Ha. discriminate.
Qed.

Lemma BC_sources_total g : forall srcs w,
  wf_graph g -> Iter_start g (nodes w) ->
  exists fuel w',
    BC_sources fuel g srcs w = Ok w' /\ Iter_start g (nodes w').
Proof.
  induction srcs as [|i rest IH]; intros w Hwf Hst.
  - exists 0%nat, w. split; [reflexivity | assumption].
  - destruct (BC_iteration_total g i w Hwf Hst) as (f1 & w1 & E1 & H1).
    destruct (IH w1 Hwf H1) as (f2 & w2 & E2 & H2).
    exists (f1 + f2)%nat, w2. split; [|assumption].
    simpl.
    rewrite (BC_iteration_settled f1 g i w f2 (settled_Ok _ _ E1)), E1.
    simpl. rewrite Nat.add_comm.
    now rewrite (BC_sources_settled f2 g f1 rest w1 (settled_Ok _ _ E2)).
Qed.

Lemma BC_sources_no_assert g srcs w fuel msg :
  wf_graph g -> Iter_start g (nodes w) ->
  BC_sources fuel g srcs w <> AssertFail msg.
Proof.
  intros Hwf Hst E.
  destruct (BC_sources_total g srcs w Hwf Hst) as (f0 & w0 & E0 & _).
  assert (Hs : settled (BC_sources fuel g srcs w))
    by (rewrite E; discriminate).
  pose proof (BC_sources_agree fuel f0 g srcs w Hs (settled_Ok _ _ E0)) as Ha.
  rewrite E, E0 in Ha. discriminate.
Qed.

(** The whole program, on any well-formed graph, any options and any
    initial memory: it completes, and no assertion fails. *)
Lemma main_run_total g o w0 :
  wf_graph g ->
  (exists fuel w', main_run fuel o g w0 = Ok w') /\
  (forall fuel msg, main_run fuel o g w0 <> AssertFail msg).
Proof.
  intros Hwf. unfold main_run, BC_go. split.
  - destruct (BC_sources_total g (sources o g) (InitializeGraph_go g w0) Hwf
                (InitializeGraph_Iter_start g w0)) as (f & w' & E & _).
    now exists f, w'.
  - intros fuel msg. apply BC_sources_no_assert; auto.
    apply InitializeGraph_Iter_start.
Qed.

(* ------------------------------------------------------------------ *)
(** ** The rounds of the two counting loops *)

Lemma NumShortestPaths_loop_unfold fuel g w :
  NumShortestPaths_loop (S fuel) g w =
  (r <- NumShortestPaths_body g w ;;
   if snd r =? 0 then
     Ok (sync sync_NumShortestPaths_prop_flag
           (sync sync_NumShortestPaths_num_paths (fst r)))
   else NumShortestPaths_loop fuel g (fst r)).
Proof.
  cbn [NumShortestPaths_loop]. unfold NumShortestPaths_body.
  destruct (NumShortestPaths_round g w) as [w1 acc].
  destruct (NumShortestPathsChanges_go g w1); reflexivity.
Qed.

Lemma DependencyPropogation_loop_unfold fuel g s w :
  DependencyPropogation_loop (S fuel) g s w =
  (r <- DependencyPropogation_body g s w ;;
   if snd r =? 0 then Ok (fst r)
   else DependencyPropogation_loop fuel g s
          (sync sync_DependencyPropogation_dep (fst r))).
Proof.
  cbn [DependencyPropogation_loop]. unfold DependencyPropogation_body.
  destruct (DependencyPropogation_round g s w) as [w1 acc].
  destruct (DependencyPropChanges_go g w1); reflexivity.
Qed.

Lemma NumShortestPaths_body_spec g D w :
  wf_graph g -> NSP_inv g D (nodes w) ->
  exists w2,
    NumShortestPaths_body g w
    = Ok (w2, Z.of_nat (out_sum g D (pusher D (nodes w)) (all_nodes g))) /\
    NSP_next g D (nodes w) (nodes w2).
Proof.
  intros Hwf Hinv.
  destruct (NSP_round_fields g D (nodes w) Hwf Hinv)
    as (nd2 & E2 & Hacc & Hnext).
  unfold NumShortestPaths_body. rewrite NumShortestPaths_round_eq.
  unfold NumShortestPathsChanges_go. cbn [nodes sync with_nodes].
  rewrite E2. cbn [bind]. rewrite Hacc.
  eexists. split; [reflexivity | exact Hnext].
Qed.

Lemma DependencyPropogation_body_spec g D s w :
  wf_graph g -> Dep_inv g D s (nodes w) ->
  exists w2,
    DependencyPropogation_body g s w
    = Ok (w2, Z.of_nat (scan_sum g D s (nodes w) (all_nodes g))) /\
    Dep_next g D s (nodes w) (nodes w2).
Proof.
  intros Hwf Hinv.
  destruct (Dep_round_fields g D s (nodes w) Hwf Hinv)
    as (nd2 & E2 & Hacc & Hnext).
  unfold DependencyPropogation_body. rewrite DependencyPropogation_round_eq.
  unfold DependencyPropChanges_go. cbn [nodes sync with_nodes].
  rewrite E2. cbn [bind]. rewrite Hacc.
  eexists. split; [reflexivity | exact Hnext].
Qed.

(** Every round of the shortest-path counter starts in a state that
    satisfies the invariant. *)
Lemma NumShortestPaths_rounds_inv g D :
  wf_graph g -> dist_ok g D -> forall k w,
  NSP_inv g D (nodes w) ->
  exists wk, NumShortestPaths_rounds k g w = Ok wk /\ NSP_inv g D (nodes wk).
Proof.
  intros Hwf Hd. induction k as [|k IH]; intros w Hinv.
  - exists w. split; [reflexivity | assumption].
  - destruct (NumShortestPaths_body_spec g D w Hwf Hinv) as (w2 & E & Hn).
    destruct (IH w2 (NSP_next_inv g D _ _ Hwf Hd Hinv Hn)) as (wk & Ek & Hk).
    exists wk. split; [|assumption].
    cbn [NumShortestPaths_rounds]. rewrite E. exact Ek.
Qed.

Lemma DependencyPropogation_rounds_inv g D s :
  wf_graph g -> dist_ok g D -> forall k w,
  Dep_inv g D s (nodes w) ->
  exists wk,
    DependencyPropogation_rounds k g s w = Ok wk /\
    Dep_inv g D s (nodes wk).
Proof.
  intros Hwf Hd. induction k as [|k IH]; intros w Hinv.
  - exists w. split; [reflexivity | assumption].
  - destruct (DependencyPropogation_body_spec g D s w Hwf Hinv)
      as (w2 & E & Hn).
    destruct (IH (sync sync_DependencyPropogation_dep w2)) as (wk & Ek & Hk).
    { cbn [nodes sync]. exact (Dep_next_inv g D s _ _ Hwf Hd Hinv Hn). }
    exists wk. split; [|assumption].
    cbn [DependencyPropogation_rounds]. rewrite E. exact Ek.
Qed.


(** The control fields between the propagation pass and the Changes pass
    of a round of the shortest-path counter. *)
Lemma NSP_pass_fields g D (nd : NodeMap) v :
  wf_graph g -> NSP_inv g D nd -> (v < numNodes g)%nat ->
  let nd1 := fst (do_all (all_nodes g) (NumShortestPaths_op infinity g)
                    (nd, 0)) in
  trim (nd1 v) = Z.of_nat (dag_in g D (pusher D nd) (all_nodes g) v) /\
  num_predecessors (nd1 v) = num_predecessors (nd v) /\
  num_successors (nd1 v) = num_successors (nd v) /\
  propogation_flag (nd1 v) = propogation_flag (nd v) && negb (pusher D nd v).
Proof.
  intros Hwf Hinv Hv nd1.
  destruct (NumShortestPaths_pass g D (all_nodes g) nd 0
              (seq_NoDup _ _) (nsp_dist g D nd Hinv)) as [Hn1 _].
  destruct (Hn1 v) as (ta & E). unfold nd1. rewrite E. simpl.
  rewrite (nsp_trim g D nd Hinv v Hv), mem_all_nodes.
  destruct (Nat.ltb_spec v (numNodes g)); [|lia]. cbn [andb].
  split; [|split; [reflexivity|split; [reflexivity|]]].
  - apply incr_n_small; [lia|].
    pose proof (num_edges_bound g (pusher D nd) D v Hwf). lia.
  - destruct (pusher D nd v); cbn [negb];
      [now rewrite andb_false_r | now rewrite andb_true_r].
Qed.

(** The control fields between the propagation pass and the Changes pass
    of a round of the dependency propagation. *)
Lemma Dep_pass_fields g D s (nd : NodeMap) v :
  wf_graph g -> Dep_inv g D s nd -> (v < numNodes g)%nat ->
  let nd1 := fst (do_all (all_nodes g)
                    (DependencyPropogation_op infinity s g) (nd, 0)) in
  trim (nd1 v) = Z.of_nat (scan_count g D s nd v) /\
  num_successors (nd1 v)
  = (if resets g D s nd v then 0 else num_successors (nd v)) /\
  propogation_flag (nd1 v) = propogation_flag (nd v).
Proof.
  intros Hwf Hinv Hv nd1.
  destruct (DependencyPropogation_pass g D s (all_nodes g) nd 0
              (seq_NoDup _ _) (dep_dist g D s nd Hinv)) as [Hn1 _].
  destruct (Hn1 v) as (tf & E). unfold nd1. rewrite E, mem_all_nodes.
  destruct (Nat.ltb_spec v (numNodes g)); [|lia]. simpl.
  destruct (dep_zero g D s nd Hinv v Hv) as [Ht0 _]. rewrite Ht0.
  split; [|split; reflexivity].
  apply incr_n_small; [lia|].
  pose proof (scan_count_le_succ g D s nd v Hinv Hv).
  pose proof (Dep_succ_range g D s nd v Hwf Hinv Hv).
  destruct (resets g D s nd v); lia.
Qed.




(** From an iteration start, the phases up to the shortest-path counter
    leave a state in which the dependency propagation can start. *)
Lemma BC_upto_NumShortestPaths_post g i w fuel w4 :
  wf_graph g -> Iter_start g (nodes w) ->
  BC_upto_NumShortestPaths fuel g i w = Ok w4 ->
  exists D, dist_ok g D /\ Dep_inv g D i (nodes w4).
Proof.
  intros Hwf Hst E. unfold BC_upto_NumShortestPaths in E.
  apply bind_Ok_inv in E as (w2 & E1 & E2).
  pose proof (BC_upto_SSSP_post g i w fuel w2 Hwf Hst E1) as Hdag.
  pose proof (PredAndSucc_establishes g i w2 Hwf Hdag) as Hnsp.
  pose proof (BFS_post_dist_ok g i _ (ds_bfs g i _ Hdag)) as Hdist.
  destruct (NSP_loop_total g _ Hwf Hdist
              (Z.to_nat (total_predecessors g (nodes (PredAndSucc_go g w2))))
              _ Hnsp) as (f2 & w4' & E2' & Hpost).
  { rewrite Z2Nat.id; [lia|].
    now apply (total_predecessors_nonneg g (dist_of (nodes w2))). }
  unfold NumShortestPaths_go in E2.
  apply (NumShortestPaths_loop_mono _ _ _ _) with (k := f2) in E2.
  apply (NumShortestPaths_loop_mono _ _ _ _) with (k := fuel) in E2'.
  rewrite Nat.add_comm in E2'. rewrite E2' in E2. injection E2 as <-.
  exists (dist_of (nodes w2)). split; [assumption|].
  apply NSP_post_Dep_inv; auto.
  intros u Hu Hs. now apply (DAG_start_source g i).
Qed.

(* ------------------------------------------------------------------ *)
(** ** A failed assertion ends the pass and the loop *)

Lemma do_all_res_abort (op : GNode -> NodeMap -> Res NodeMap)
  (bad : NodeData -> Prop) :
  (forall v nd, bad (nd v) -> exists msg, op v nd = AssertFail msg) ->
  (forall v nd, (exists msg, op v nd = AssertFail msg) \/
                (exists nd', op v nd = Ok nd' /\
                             forall u, u <> v -> nd' u = nd u)) ->
  forall l nd v, In v l -> bad (nd v) ->
  exists msg, do_all_res l op nd = AssertFail msg.
Proof.
  intros Hbad Hloc. induction l as [|x l IH]; intros nd v Hin Hv;
    [contradiction|].
  cbn [do_all_res].
  destruct (Nat.eq_dec x v) as [->|Hne].
  - destruct (Hbad v nd Hv) as (msg & E). exists msg. now rewrite E.
  - destruct Hin as [->|Hin]; [contradiction|].
    destruct (Hloc x nd) as [(msg & E)|(nd' & E & Ho)].
    + exists msg. now rewrite E.
    + rewrite E. cbn [bind]. apply (IH nd' v Hin).
      rewrite Ho by congruence. exact Hv.
Qed.

Lemma NumShortestPathsChanges_op_local g v (nd : NodeMap) :
  (exists msg, NumShortestPathsChanges_op g v nd = AssertFail msg) \/
  (exists nd', NumShortestPathsChanges_op g v nd = Ok nd' /\
               forall u, u <> v -> nd' u = nd u).
Proof.
  unfold NumShortestPathsChanges_op, assert.
  repeat (match goal with
          | |- context [if ?b then _ else _] => destruct b
          end; cbn [bind]);
    try (left; eexists; reflexivity);
    right; eexists; (split; [reflexivity|]); intros u Hu;
    now rewrite ?modify_other by congruence.
Qed.

Lemma DependencyPropChanges_op_local g v (nd : NodeMap) :
  (exists msg, DependencyPropChanges_op infinity g v nd = AssertFail msg) \/
  (exists nd', DependencyPropChanges_op infinity g v nd = Ok nd' /\
               forall u, u <> v -> nd' u = nd u).
Proof.
  unfold DependencyPropChanges_op, assert.
  repeat (match goal with
          | |- context [if ?b then _ else _] => destruct b
          end; cbn [bind]);
    try (left; eexists; reflexivity);
    right; eexists; (split; [reflexivity|]); intros u Hu;
    now rewrite ?modify_other by congruence.
Qed.

Lemma NumShortestPathsChanges_op_fails g v (nd : NodeMap) :
  trim (nd v) > 0 -> trim (nd v) > num_predecessors (nd v) ->
  NumShortestPathsChanges_op g v nd
  = AssertFail "src_data.trim <= src_data.num_predecessors".
Proof.
  intros Hpos Hgt. unfold NumShortestPathsChanges_op, assert.
  destruct (Z.gtb_spec (trim (nd v)) 0); [|lia].
  destruct (Z.leb_spec (trim (nd v)) (num_predecessors (nd v))); [lia|].
  reflexivity.
Qed.

Lemma DependencyPropChanges_op_fails g v (nd : NodeMap) :
  current_length (nd v) <> infinity ->
  trim (nd v) > 0 -> trim (nd v) > num_successors (nd v) ->
  DependencyPropChanges_op infinity g v nd
  = (if (num_successors (nd v) =? 0) && propogation_flag (nd v)
     then AssertFail "src_data.trim == 0"
     else AssertFail "src_data.trim <= src_data.num_successors").
Proof.
  intros Hcl Hpos Hgt. unfold DependencyPropChanges_op, assert.
  destruct (Z.eqb_spec (current_length (nd v)) infinity); [contradiction|].
  cbn [negb].
  destruct (f32_gt_zero (to_add_float (nd v)));
    rewrite ?modify_same; simpl;
    destruct ((num_successors (nd v) =? 0) && propogation_flag (nd v));
    destruct (Z.eqb_spec (trim (nd v)) 0); try lia;
    destruct (Z.gtb_spec (trim (nd v)) 0); try lia;
    destruct (Z.leb_spec (trim (nd v)) (num_successors (nd v))); try lia;
    reflexivity.
Qed.

Lemma NumShortestPaths_loop_abort g w fuel v :
  (v < numNodes g)%nat ->
  trim (nodes (fst (NumShortestPaths_round g w)) v) > 0 ->
  trim (nodes (fst (NumShortestPaths_round g w)) v)
  > num_predecessors (nodes (fst (NumShortestPaths_round g w)) v) ->
  exists msg, NumShortestPaths_loop (S fuel) g w = AssertFail msg.
Proof.
  intros Hv Hpos Hgt. cbn [NumShortestPaths_loop].
  destruct (NumShortestPaths_round g w) as [w1 acc]. cbn [fst] in *.
  unfold NumShortestPathsChanges_go.
  destruct (do_all_res_abort (NumShortestPathsChanges_op g)
              (fun d => trim d > 0 /\ trim d > num_predecessors d))
    with (l := all_nodes g) (nd := nodes w1) (v := v) as (msg & E).
  - intros u nd [H1 H2]. eexists.
    now apply NumShortestPathsChanges_op_fails.
  - apply NumShortestPathsChanges_op_local.
  - now apply in_all_nodes.
  - now split.
  - exists msg. now rewrite E.
Qed.

Lemma DependencyPropogation_loop_abort g s w fuel v :
  (v < numNodes g)%nat ->
  current_length (nodes (fst (DependencyPropogation_round g s w)) v)
  <> infinity ->
  trim (nodes (fst (DependencyPropogation_round g s w)) v) > 0 ->
  trim (nodes (fst (DependencyPropogation_round g s w)) v)
  > num_successors (nodes (fst (DependencyPropogation_round g s w)) v) ->
  exists msg, DependencyPropogation_loop (S fuel) g s w = AssertFail msg.
Proof.
  intros Hv Hcl Hpos Hgt. cbn [DependencyPropogation_loop].
  destruct (DependencyPropogation_round g s w) as [w1 acc]. cbn [fst] in *.
  unfold DependencyPropChanges_go.
  destruct (do_all_res_abort (DependencyPropChanges_op infinity g)
              (fun d => current_length d <> infinity /\
                        trim d > 0 /\ trim d > num_successors d))
    with (l := all_nodes g) (nd := nodes w1) (v := v) as (msg & E).
  - intros u nd (H0 & H1 & H2).
    rewrite (DependencyPropChanges_op_fails g u nd H0 H1 H2).
    destruct (_ && _); eexists; reflexivity.
  - apply DependencyPropChanges_op_local.
  - now apply in_all_nodes.
  - now repeat split.
  - exists msg. now rewrite E.
Qed.

(** In every round of the shortest-path counter of an iteration, the
    Changes pass finds [trim <= num_predecessors] at every local node. *)
Lemma NumShortestPaths_rounds_trim g i w fuel w2 k wk v :
  wf_graph g -> Iter_start g (nodes w) ->
  BC_upto_SSSP fuel g i w = Ok w2 ->
  NumShortestPaths_rounds k g (PredAndSucc_go g w2) = Ok wk ->
  (v < numNodes g)%nat ->
  0 <= trim (nodes (fst (NumShortestPaths_round g wk)) v)
    <= num_predecessors (nodes (fst (NumShortestPaths_round g wk)) v).
Proof.
  intros Hwf Hst E1 Ek Hv.
  pose proof (BC_upto_SSSP_post g i w fuel w2 Hwf Hst E1) as Hdag.
  pose proof (PredAndSucc_establishes g i w2 Hwf Hdag) as Hnsp.
  pose proof (BFS_post_dist_ok g i _ (ds_bfs g i _ Hdag)) as Hdist.
  destruct (NumShortestPaths_rounds_inv g _ Hwf Hdist k _ Hnsp)
    as (wk' & Ek' & Hk).
  rewrite Ek' in Ek. injection Ek as ->.
  rewrite NumShortestPaths_round_eq. cbn [fst nodes sync with_nodes].
  destruct (NSP_pass_fields g _ (nodes wk) v Hwf Hk Hv) as (Ht & Hp & _).
  rewrite Ht, Hp.
  pose proof (NSP_trim_le_pred g _ (nodes wk) v Hk Hv). lia.
Qed.

(** In every round of the dependency propagation of an iteration, the
    Changes pass finds [trim <= num_successors] at every local node. *)
Lemma DependencyPropogation_rounds_trim g i w fuel w4 k wk v :
  wf_graph g -> Iter_start g (nodes w) ->
  BC_upto_NumShortestPaths fuel g i w = Ok w4 ->
  DependencyPropogation_rounds k g i w4 = Ok wk ->
  (v < numNodes g)%nat ->
  0 <= trim (nodes (fst (DependencyPropogation_round g i wk)) v)
    <= num_successors (nodes (fst (DependencyPropogation_round g i wk)) v).
Proof.
  intros Hwf Hst E1 Ek Hv.
  destruct (BC_upto_NumShortestPaths_post g i w fuel w4 Hwf Hst E1)
    as (D & Hdist & Hdep).
  destruct (DependencyPropogation_rounds_inv g D i Hwf Hdist k _ Hdep)
    as (wk' & Ek' & Hk).
  rewrite Ek' in Ek. injection Ek as ->.
  rewrite DependencyPropogation_round_eq. cbn [fst nodes sync with_nodes].
  destruct (Dep_pass_fields g D i (nodes wk) v Hwf Hk Hv) as (Ht & Hs & _).
  rewrite Ht, Hs.
  exact (scan_count_le_succ g D i (nodes wk) v Hk Hv).
Qed.

(* ------------------------------------------------------------------ *)
(** ** Concrete graphs *)

Lemma one_host_wf n es vcut :
  check_one_host n es = true -> wf_graph (one_host n es vcut).
Proof.
  unfold check_one_host. intros H.
  apply andb_true_iff in H as [H H3]. apply andb_true_iff in H as [H1 H2].
  apply Z.ltb_lt in H2, H3. rewrite forallb_forall in H1.
  split; simpl.
  - intros u v Hu Hin.
    assert (Hs : In u (seq 0 n)) by (apply in_seq; lia).
    specialize (H1 u Hs). rewrite forallb_forall in H1.
    now apply Nat.ltb_lt, H1.
  - intros u Hu. split; [|apply Nat2Z.id].
    apply andb_true_iff. split; [apply Z.leb_le | apply Z.ltb_lt]; lia.
  - intros s Hs. apply andb_true_iff in Hs as [Ha Hb].
    apply Z.leb_le in Ha. apply Z.ltb_lt in Hb. split; lia.
  - exact H2.
  - exact H3.
Qed.

Lemma diamond_wf : wf_graph diamond_graph.
Proof. apply one_host_wf. reflexivity. Qed.

(* ------------------------------------------------------------------ *)
(** ** The pending trim never exceeds the count it is taken from *)

(** C8. One host, serial schedule, assertions enabled.  On every
    well-formed graph, in an iteration that starts from any state a run
    can be in when an iteration starts, and for any source:
    the iteration completes and no assertion fails, whatever the fuel;
    in every round of the shortest-path counter the Changes pass finds
    trim <= num_predecessors at every local node, and in every round of the
    dependency propagation it finds trim <= num_successors, so neither
    subtraction underflows.  The whole program completes without a failed
    assertion from any initial memory.
    A violation is fatal: from any state, if a local node (visited, in the
    dependency phase) enters the Changes pass with a pending trim above its
    count, the round loop ends in a failed assertion, and the failed
    assertion of either loop is the result of the run over the sources:
    the remaining phases and sources are not run. *)
Theorem C8_trim_invariants :
  (forall g w i, wf_graph g -> iteration_start g w ->
     (exists fuel w', BC_iteration fuel g i w = Ok w') /\
     (forall fuel msg, BC_iteration fuel g i w <> AssertFail msg) /\
     (forall fuel w2 k wk v,
        BC_upto_SSSP fuel g i w = Ok w2 ->
        NumShortestPaths_rounds k g (PredAndSucc_go g w2) = Ok wk ->
        (v < numNodes g)%nat ->
        0 <= trim (nodes (fst (NumShortestPaths_round g wk)) v)
          <= num_predecessors
               (nodes (fst (NumShortestPaths_round g wk)) v)) /\
     (forall fuel w4 k wk v,
        BC_upto_NumShortestPaths fuel g i w = Ok w4 ->
        DependencyPropogation_rounds k g i w4 = Ok wk ->
        (v < numNodes g)%nat ->
        0 <= trim (nodes (fst (DependencyPropogation_round g i wk)) v)
          <= num_successors
               (nodes (fst (DependencyPropogation_round g i wk)) v))) /\
  (forall g o w0, wf_graph g ->
     (exists fuel w', main_run fuel o g w0 = Ok w') /\
     (forall fuel msg, main_run fuel o g w0 <> AssertFail msg)) /\
  (forall g w fuel v,
     (v < numNodes g)%nat ->
     trim (nodes (fst (NumShortestPaths_round g w)) v) > 0 ->
     trim (nodes (fst (NumShortestPaths_round g w)) v)
     > num_predecessors (nodes (fst (NumShortestPaths_round g w)) v) ->
     exists msg, NumShortestPaths_loop (S fuel) g w = AssertFail msg) /\
  (forall g s w fuel v,
     (v < numNodes g)%nat ->
     current_length (nodes (fst (DependencyPropogation_round g s w)) v)
     <> infinity ->
     trim (nodes (fst (DependencyPropogation_round g s w)) v) > 0 ->
     trim (nodes (fst (DependencyPropogation_round g s w)) v)
     > num_successors (nodes (fst (DependencyPropogation_round g s w)) v) ->
     exists msg, DependencyPropogation_loop (S fuel) g s w = AssertFail msg) /\
  (forall fuel g i rest w w2 msg,
     BC_upto_SSSP fuel g i w = Ok w2 ->
     NumShortestPaths_loop fuel g (PredAndSucc_go g w2) = AssertFail msg ->
     BC_sources fuel g (i :: rest) w = AssertFail msg) /\
  (forall fuel g i rest w w4 msg,
     BC_upto_NumShortestPaths fuel g i w = Ok w4 ->
     DependencyPropogation_loop fuel g i w4 = AssertFail msg ->
     BC_sources fuel g (i :: rest) w = AssertFail msg).
Proof.
  split; [|split; [|split; [|split; [|split]]]].
  - intros g w i Hwf Hit.
    pose proof (iteration_start_inv g w Hwf Hit) as Hst.
    split; [|split; [|split]].
    + destruct (BC_iteration_total g i w Hwf Hst) as (f & w' & E & _).
      now exists f, w'.
    + intros fuel msg. now apply BC_iteration_no_assert.
    + intros fuel w2 k wk v E1 Ek Hv.
      now apply (NumShortestPaths_rounds_trim g i w fuel w2 k wk v).
    + intros fuel w4 k wk v E1 Ek Hv.
      now apply (DependencyPropogation_rounds_trim g i w fuel w4 k wk v).
  - intros g o w0 Hwf. now apply main_run_total.
  - intros g w fuel v. apply NumShortestPaths_loop_abort.
  - intros g s w fuel v. apply DependencyPropogation_loop_abort.
  - intros fuel g i rest w w2 msg E1 E2.
    cbn [BC_sources].
    unfold BC_iteration, BC_phases, BC_upto_NumShortestPaths,
      NumShortestPaths_go.
    rewrite E1. cbn [bind]. rewrite E2. reflexivity.
  - intros fuel g i rest w w4 msg E1 E2.
    cbn [BC_sources].
    unfold BC_iteration, BC_phases, DependencyPropogation_go.
    rewrite E1. cbn [bind]. rewrite E2. reflexivity.
Qed.

Lemma C8_trim_invariants_witness :
  ((exists fuel w', BC_iteration fuel diamond_graph 0 diamond_start = Ok w') /\
   (forall fuel msg,
      BC_iteration fuel diamond_graph 0 diamond_start <> AssertFail msg) /\
   0 <= trim (nodes (fst (NumShortestPaths_round diamond_graph
                            (diamond_NumShortestPaths_round 1))) 3%nat)
     <= num_predecessors
          (nodes (fst (NumShortestPaths_round diamond_graph
                         (diamond_NumShortestPaths_round 1))) 3%nat) /\
   0 <= trim (nodes (fst (DependencyPropogation_round diamond_graph 0
                            (diamond_DependencyPropogation_round 1))) 0%nat)
     <= num_successors
          (nodes (fst (DependencyPropogation_round diamond_graph 0
                         (diamond_DependencyPropogation_round 1))) 0%nat)) /\
  ((exists fuel w',
      main_run fuel all_sources diamond_graph fresh_world = Ok w') /\
   (forall fuel msg,
      main_run fuel all_sources diamond_graph fresh_world
      <> AssertFail msg)) /\
  (exists msg,
     NumShortestPaths_loop 1 diamond_graph overdrawn_world
     = AssertFail msg) /\
  (exists msg,
     DependencyPropogation_loop 1 diamond_graph 0 overdrawn_world
     = AssertFail msg).
Proof.
  destruct C8_trim_invariants as (Hrun & Hmain & Hnsp & Hdep & _ & _).
  split; [|split; [|split]].
  - destruct (Hrun diamond_graph diamond_start 0 diamond_wf
                (start_first diamond_graph fresh_world))
      as (H1 & H2 & H3 & H4).
    split; [exact H1|]. split; [exact H2|]. split.
    + apply (H3 3%nat diamond_after_SSSP 1%nat).
      * apply final_Ok. vm_compute. exact I.
      * apply final_Ok. vm_compute. exact I.
      * simpl. lia.
    + apply (H4 3%nat diamond_after_NumShortestPaths 1%nat).
      * apply final_Ok. vm_compute. exact I.
      * apply final_Ok. vm_compute. exact I.
      * simpl. lia.
  - exact (Hmain diamond_graph all_sources fresh_world diamond_wf).
  - apply (Hnsp diamond_graph overdrawn_world 0%nat 0%nat).
    + simpl. lia.
    + vm_compute. reflexivity.
    + vm_compute. reflexivity.
  - apply (Hdep diamond_graph 0 overdrawn_world 0%nat 0%nat).
    + simpl. lia.
    + vm_compute. discriminate.
    + vm_compute. reflexivity.
    + vm_compute. reflexivity.
Defined.

(* ------------------------------------------------------------------ *)
(** ** A node pushes its path count once *)



(* ------------------------------------------------------------------ *)
(** ** The breadth-first phase computes distances *)

(** The breadth-first phase of an iteration ends in a state in which the
    invariant holds and every local node has recorded its distance. *)
Lemma BC_upto_SSSP_fixed g i w fuel w2 :
  wf_graph g -> Iter_start g (nodes w) ->
  BC_upto_SSSP fuel g i w = Ok w2 ->
  SSSP_inv g i (nodes w2) /\ SSSP_done g (nodes w2).
Proof.
  intros Hwf Hst E.
  destruct (InitializeIteration_go_Ok g i w) as (w1 & E1 & N1).
  { intros v Hv _. now apply Hst. }
  destruct (FirstIterationSSSP_go_inv g i w1 Hwf) as [Hinv Hctl].
  { intros v Hv. rewrite N1. apply Nat.ltb_lt in Hv. rewrite Hv.
    unfold InitializeIteration_node.
    destruct (getGID g v =? i); simpl; split; reflexivity. }
  destruct (SSSP_loop_total g i Hwf
              (Z.to_nat (total_length g
                           (nodes (FirstIterationSSSP_go g i w1))))
              _ Hinv) as (f0 & w0 & E2 & Hinv2 & Hdone & _).
  { rewrite Z2Nat.id; [lia | now apply (total_length_nonneg g i)]. }
  unfold BC_upto_SSSP in E. rewrite E1 in E. cbn [bind] in E.
  unfold SSSP_go in E.
  apply (SSSP_loop_mono _ _ _ _) with (k := f0) in E.
  apply (SSSP_loop_mono _ _ _ _) with (k := fuel) in E2.
  rewrite Nat.add_comm in E2. rewrite E2 in E. injection E as <-.
  now split.
Qed.

Lemma walk_local g k u v :
  wf_graph g -> (u < numNodes g)%nat -> walk g k u v -> (v < numNodes g)%nat.
Proof.
  intros Hwf Hu H. induction H as [u|k u x v _ IH Hin]; [assumption|].
  exact (wf_edges g Hwf x v (IH Hu) Hin).
Qed.

Lemma relaxed_walk g s nd k u v :
  wf_graph g -> SSSP_inv g s nd -> SSSP_done g nd ->
  (u < numNodes g)%nat -> walk g k u v ->
  current_length (nd v) <= current_length (nd u) + Z.of_nat k.
Proof.
  intros Hwf Hinv Hdone Hu H.
  induction H as [u|k u x v Hw IH Hin]; [lia|].
  specialize (IH Hu).
  pose proof (walk_local g k u x Hwf Hu Hw) as Hx.
  pose proof (sssp_relaxed g s nd Hinv x Hx (Hdone x Hx) v Hin). lia.
Qed.

Lemma gid_injective g u v :
  wf_graph g -> (u < numNodes g)%nat -> (v < numNodes g)%nat ->
  getGID g u = getGID g v -> u = v.
Proof.
  intros Hwf Hu Hv E.
  destruct (wf_gid g Hwf u Hu) as [_ <-].
  destruct (wf_gid g Hwf v Hv) as [_ <-]. now rewrite E.
Qed.

(** Every visited node is at the end of a walk from the source of as many
    edges as its distance. *)
Lemma BFS_post_walk g s nd :
  wf_graph g -> BFS_post g s nd -> forall (d : nat) v,
  (v < numNodes g)%nat -> current_length (nd v) = Z.of_nat d ->
  current_length (nd v) <> infinity ->
  exists src, (src < numNodes g)%nat /\ getGID g src = s /\ walk g d src v.
Proof.
  intros Hwf Hb. induction d as [|d IH]; intros v Hv Hd Hfin.
  - destruct (Z.eq_dec (getGID g v) s) as [Hs|Hs].
    + exists v. split; [assumption|]. split; [assumption | constructor].
    + destruct (bfs_pred g s nd Hb v Hv Hfin Hs) as (u & Hu & _ & HD).
      pose proof (bfs_range g s nd Hb u Hu). lia.
  - destruct (Z.eq_dec (getGID g v) s) as [Hs|Hs].
    + pose proof (bfs_source g s nd Hb v Hv Hs). lia.
    + destruct (bfs_pred g s nd Hb v Hv Hfin Hs) as (u & Hu & Hin & HD).
      pose proof (bfs_range g s nd Hb v Hv).
      destruct (IH u Hu) as (src & Hsrc & Hg & Hw); [lia | lia |].
      exists src. split; [assumption|]. split; [assumption|].
      now apply walk_step with (x := u).
Qed.

(** X1. One host, serial schedule.  On every well-formed graph, when the
    breadth-first phase (InitializeIteration, FirstIterationSSSP, the SSSP
    rounds) of an iteration for the source with global id [i] has ended,
    current_length of a local node [v] is its distance from the source:
    it is at most the number of edges of every walk from the source to
    [v], a node at the end of such a walk is not at [infinity], and a node
    that is not at [infinity] is at the end of a walk from the source of
    exactly current_length edges.  So an unreachable node is left at
    [infinity]. *)
Theorem X1_SSSP_distances : forall g w i fuel w2 v,
  wf_graph g -> iteration_start g w ->
  BC_upto_SSSP fuel g i w = Ok w2 -> (v < numNodes g)%nat ->
  0 <= current_length (nodes w2 v) <= infinity /\
  (forall src k, (src < numNodes g)%nat -> getGID g src = i ->
     walk g k src v ->
     current_length (nodes w2 v) <= Z.of_nat k /\
     current_length (nodes w2 v) <> infinity) /\
  (current_length (nodes w2 v) <> infinity ->
   exists src, (src < numNodes g)%nat /\ getGID g src = i /\
     walk g (Z.to_nat (current_length (nodes w2 v))) src v).
Proof.
  intros g w i fuel w2 v Hwf Hit E Hv.
  pose proof (iteration_start_inv g w Hwf Hit) as Hst.
  destruct (BC_upto_SSSP_fixed g i w fuel w2 Hwf Hst E) as [Hinv Hdone].
  pose proof (SSSP_fixed_point g i _ Hwf Hinv Hdone) as Hb.
  split; [exact (bfs_range g i _ Hb v Hv)|]. split.
  - intros src k Hsrc Hg Hw.
    pose proof (relaxed_walk g i _ k src v Hwf Hinv Hdone Hsrc Hw) as Hle.
    rewrite (bfs_source g i _ Hb src Hsrc Hg) in Hle.
    split; [lia|].
    clear Hle. induction Hw as [u|k u x y Hw IH Hin].
    + rewrite (bfs_source g i _ Hb u Hsrc Hg). discriminate.
    + pose proof (walk_local g k u x Hwf Hsrc Hw) as Hx.
      specialize (IH Hx Hsrc Hg).
      pose proof (bfs_bound g i _ Hb x Hx IH).
      pose proof (sssp_relaxed g i _ Hinv x Hx (Hdone x Hx) y Hin). lia.
  - intros Hfin.
    apply (BFS_post_walk g i _ Hwf Hb); [assumption | | assumption].
    pose proof (bfs_range g i _ Hb v Hv). lia.
Qed.

Lemma X1_SSSP_distances_witness :
  0 <= current_length (nodes diamond_after_SSSP 3%nat) <= infinity /\
  current_length (nodes diamond_after_SSSP 3%nat) <= 2 /\
  exists src, (src < 5)%nat /\ Z.of_nat src = 0 /\
    walk diamond_graph
      (Z.to_nat (current_length (nodes diamond_after_SSSP 3%nat))) src 3%nat.
Proof.
  destruct (X1_SSSP_distances diamond_graph diamond_start 0 3%nat
              diamond_after_SSSP 3%nat) as (H1 & H2 & H3).
  - exact diamond_wf.
  - apply start_first.
  - apply final_Ok. vm_compute. exact I.
  - simpl. lia.
  - split; [exact H1|]. split.
    + apply (H2 0%nat 2%nat).
      * simpl. lia.
      * reflexivity.
      * apply walk_step with (x := 1%nat);
          [apply walk_step with (x := 0%nat); [apply walk_nil|]|];
          simpl; auto.
    + apply H3. vm_compute. discriminate.
Defined.

(* ------------------------------------------------------------------ *)
(** ** PredAndSucc counts the edges of the shortest-path DAG *)

(** X2. One host, serial schedule.  On every well-formed graph, after
    PredAndSucc in an iteration for any source, num_successors of a local
    node is the number of its outgoing edges that lie on a shortest path
    and num_predecessors is the number of such edges that enter it from
    local nodes; neither count wraps around, and current_length is
    unchanged.  An edge u -> x lies on a shortest path (the test of the
    operator holds for it) exactly when [u] is visited and x is one step
    further from the source than [u], so the wrap-around of the
    [uint32_t] sum in the test plays no role. *)
Theorem X2_PredAndSucc_counts : forall g w i fuel w2 v,
  wf_graph g -> iteration_start g w ->
  BC_upto_SSSP fuel g i w = Ok w2 -> (v < numNodes g)%nat ->
  let D := dist_of (nodes w2) in
  num_successors (nodes (PredAndSucc_go g w2) v)
  = Z.of_nat (dag_out g D everyone v) /\
  num_predecessors (nodes (PredAndSucc_go g w2) v)
  = Z.of_nat (dag_in g D everyone (all_nodes g) v) /\
  current_length (nodes (PredAndSucc_go g w2) v) = D v /\
  forall x, In x (edge_dsts g v) ->
    (dag D v x = true <-> D v <> infinity /\ D x = D v + 1).
Proof.
  intros g w i fuel w2 v Hwf Hit E Hv D.
  pose proof (iteration_start_inv g w Hwf Hit) as Hst.
  pose proof (BC_upto_SSSP_post g i w fuel w2 Hwf Hst E) as Hdag.
  pose proof (PredAndSucc_establishes g i w2 Hwf Hdag) as Hnsp.
  pose proof (BFS_post_dist_ok g i _ (ds_bfs g i _ Hdag)) as Hd.
  fold D in Hnsp, Hd.
  split; [exact (nsp_succ g D _ Hnsp v Hv)|]. split; [|split].
  - unfold PredAndSucc_go. cbn [nodes sync with_nodes].
    rewrite (PredAndSucc_pass g D (all_nodes g) (nodes w2)
               (seq_NoDup _ _) (fun _ => eq_refl)).
    simpl. destruct (ds_ctl g i _ Hdag v Hv) as (-> & _).
    apply incr_n_small; [lia|].
    pose proof (num_edges_bound g everyone D v Hwf). lia.
  - exact (nsp_dist g D _ Hnsp v).
  - intros x Hx. split.
    + intros H. destruct (dag_spec g D v x Hd Hv H) as (Hvis & HD & _).
      split; [|exact HD]. unfold visited in Hvis.
      now apply negb_true_iff, Z.eqb_neq in Hvis.
    + intros [Hfin HD]. apply (dag_intro g D v x Hd Hv Hfin). lia.
Qed.

Lemma X2_PredAndSucc_counts_witness :
  num_successors (nodes (PredAndSucc_go diamond_graph diamond_after_SSSP) 0%nat)
  = Z.of_nat (dag_out diamond_graph (dist_of (nodes diamond_after_SSSP))
                everyone 0%nat) /\
  num_predecessors
    (nodes (PredAndSucc_go diamond_graph diamond_after_SSSP) 3%nat)
  = Z.of_nat (dag_in diamond_graph (dist_of (nodes diamond_after_SSSP))
                everyone (all_nodes diamond_graph) 3%nat).
Proof.
  assert (E : BC_upto_SSSP 3 diamond_graph 0 diamond_start
              = Ok diamond_after_SSSP).
  { apply final_Ok. vm_compute. exact I. }
  assert (H0 : (0 < numNodes diamond_graph)%nat) by (simpl; lia).
  assert (H3 : (3 < numNodes diamond_graph)%nat) by (simpl; lia).
  pose proof (X2_PredAndSucc_counts diamond_graph diamond_start 0 3%nat
                diamond_after_SSSP 0%nat diamond_wf
                (start_first diamond_graph fresh_world) E H0) as Ha.
  pose proof (X2_PredAndSucc_counts diamond_graph diamond_start 0 3%nat
                diamond_after_SSSP 3%nat diamond_wf
                (start_first diamond_graph fresh_world) E H3) as Hb.
  cbv zeta in Ha, Hb.
  split; [exact (proj1 Ha) | exact (proj1 (proj2 Hb))].
Defined.

(* ------------------------------------------------------------------ *)
(** ** What an iteration leaves behind *)

Lemma iteration_start_dependency g w v :
  iteration_start g w -> (v < numNodes g)%nat ->
  dependency (nodes w v) = F32.zero.
Proof.
  intros H Hv. destruct H as [w0 | w i fuel w' _ E].
  - unfold InitializeGraph_go. rewrite fold_sync_nodes. simpl.
    rewrite (do_all_local InitializeGraph_op
               (fun _ d =>
                  set_propogation_flag false
                    (set_dependency F32.zero
                      (set_to_add_float F32.zero
                        (set_to_add 0
                          (set_trim 0
                            (set_num_predecessors 0
                              (set_num_successors 0
                                (set_num_shortest_paths 0
                                  (set_betweeness_centrality F32.zero
                                     d)))))))))
               InitializeGraph_op_spec) by apply seq_NoDup.
    rewrite mem_all_nodes. apply Nat.ltb_lt in Hv. now rewrite Hv.
  - unfold BC_iteration in E. apply bind_Ok_inv in E as (w5 & _ & E).
    injection E as <-. simpl.
    rewrite (do_all_local BC_op
               (fun _ d =>
                  set_dependency F32.zero
                    (set_betweeness_centrality
                       (F32.add (betweeness_centrality d) (dependency d)) d))
               BC_op_spec) by apply seq_NoDup.
    rewrite mem_all_nodes. apply Nat.ltb_lt in Hv. now rewrite Hv.
Qed.

(** X3. One host, serial schedule.  On every well-formed graph, in every
    state in which a run starts an iteration (after InitializeGraph or
    after any number of completed iterations, for any sources), every
    local node has num_predecessors = 0, num_successors = 0, trim = 0, a
    clear propogation_flag and dependency = +0.  So InitializeIteration
    completes for every source, the assertion in its operator holds, and
    the two assertions on num_predecessors and num_successors that are
    commented out in it would hold as well. *)
Theorem X3_iteration_start_clear : forall g w v,
  wf_graph g -> iteration_start g w -> (v < numNodes g)%nat ->
  (num_predecessors (nodes w v) = 0 /\ num_successors (nodes w v) = 0 /\
   trim (nodes w v) = 0 /\ propogation_flag (nodes w v) = false /\
   dependency (nodes w v) = F32.zero) /\
  forall i, exists w1,
    InitializeIteration_go g i w = Ok w1 /\
    nodes w1 v = InitializeIteration_node g i v (nodes w v) /\
    num_predecessors (nodes w1 v) = 0 /\ num_successors (nodes w1 v) = 0.
Proof.
  intros g w v Hwf Hit Hv.
  pose proof (iteration_start_inv g w Hwf Hit) as Hst.
  destruct (Hst v Hv) as (Hp & Hs & Ht & Hf).
  split.
  - repeat (split; [assumption|]).
    now apply (iteration_start_dependency g).
  - intros i.
    destruct (InitializeIteration_go_Ok g i w) as (w1 & E1 & N1).
    { intros u Hu _. now apply Hst. }
    exists w1. split; [exact E1|].
    assert (N : nodes w1 v = InitializeIteration_node g i v (nodes w v)).
    { rewrite N1. apply Nat.ltb_lt in Hv. now rewrite Hv. }
    split; [exact N|]. rewrite N. unfold InitializeIteration_node.
    destruct (getGID g v =? i); simpl; auto.
Qed.

Lemma X3_iteration_start_clear_witness :
  (num_predecessors (nodes (final fresh_world
     (BC_iteration 3 diamond_graph 0 diamond_start)) 3%nat) = 0 /\
   num_successors (nodes (final fresh_world
     (BC_iteration 3 diamond_graph 0 diamond_start)) 3%nat) = 0 /\
   trim (nodes (final fresh_world
     (BC_iteration 3 diamond_graph 0 diamond_start)) 3%nat) = 0 /\
   propogation_flag (nodes (final fresh_world
     (BC_iteration 3 diamond_graph 0 diamond_start)) 3%nat) = false /\
   dependency (nodes (final fresh_world
     (BC_iteration 3 diamond_graph 0 diamond_start)) 3%nat) = F32.zero).
Proof.
  assert (E : BC_iteration 3 diamond_graph 0 diamond_start
              = Ok (final fresh_world
                      (BC_iteration 3 diamond_graph 0 diamond_start))).
  { apply final_Ok. vm_compute. exact I. }
  assert (H3 : (3 < numNodes diamond_graph)%nat) by (simpl; lia).
  exact (proj1 (X3_iteration_start_clear diamond_graph _ 3%nat diamond_wf
                  (start_next diamond_graph diamond_start 0 3%nat _
                     (start_first diamond_graph fresh_world) E) H3)).
Defined.

Lemma BC_upto_NumShortestPaths_NSP_post g i w fuel w2 w4 :
  wf_graph g -> Iter_start g (nodes w) ->
  BC_upto_SSSP fuel g i w = Ok w2 ->
  BC_upto_NumShortestPaths fuel g i w = Ok w4 ->
  NSP_post g (dist_of (nodes w2)) (nodes w4).
Proof.
  intros Hwf Hst E1 E. unfold BC_upto_NumShortestPaths in E.
  rewrite E1 in E. cbn [bind] in E.
  pose proof (BC_upto_SSSP_post g i w fuel w2 Hwf Hst E1) as Hdag.
  pose proof (PredAndSucc_establishes g i w2 Hwf Hdag) as Hnsp.
  pose proof (BFS_post_dist_ok g i _ (ds_bfs g i _ Hdag)) as Hdist.
  destruct (NSP_loop_total g _ Hwf Hdist
              (Z.to_nat (total_predecessors g (nodes (PredAndSucc_go g w2))))
              _ Hnsp) as (f2 & w4' & E2' & Hpost).
  { rewrite Z2Nat.id; [lia|].
    now apply (total_predecessors_nonneg g (dist_of (nodes w2))). }
  unfold NumShortestPaths_go in E.
  apply (NumShortestPaths_loop_mono _ _ _ _) with (k := f2) in E.
  apply (NumShortestPaths_loop_mono _ _ _ _) with (k := fuel) in E2'.
  rewrite Nat.add_comm in E2'. rewrite E2' in E. now injection E as <-.
Qed.

(** X4. One host, serial schedule.  On every well-formed graph, when the
    loop of NumShortestPaths has ended in an iteration for any source,
    every local node has consumed all its predecessors
    (num_predecessors = 0, trim = 0), it still has the distance of the
    breadth-first phase and num_successors equal to its number of outgoing
    shortest-path edges, and the flagged nodes are exactly the visited
    nodes without such an edge: the leaves of the shortest-path DAG, from
    which the dependency propagation starts. *)
Theorem X4_NumShortestPaths_end : forall g w i fuel w2 w4 v,
  wf_graph g -> iteration_start g w ->
  BC_upto_SSSP fuel g i w = Ok w2 ->
  BC_upto_NumShortestPaths fuel g i w = Ok w4 ->
  (v < numNodes g)%nat ->
  num_predecessors (nodes w4 v) = 0 /\ trim (nodes w4 v) = 0 /\
  current_length (nodes w4 v) = current_length (nodes w2 v) /\
  num_successors (nodes w4 v)
  = Z.of_nat (dag_out g (dist_of (nodes w2)) everyone v) /\
  (propogation_flag (nodes w4 v) = true <->
   current_length (nodes w4 v) <> infinity /\
   num_successors (nodes w4 v) = 0).
Proof.
  intros g w i fuel w2 w4 v Hwf Hit E1 E4 Hv.
  pose proof (iteration_start_inv g w Hwf Hit) as Hst.
  pose proof (BC_upto_NumShortestPaths_NSP_post g i w fuel w2 w4
                Hwf Hst E1 E4) as Hp.
  destruct (nspp_zero g _ _ Hp v Hv) as [Ht Hpr].
  split; [exact Hpr|]. split; [exact Ht|].
  split; [exact (nspp_dist g _ _ Hp v)|].
  split; [exact (nspp_succ g _ _ Hp v Hv)|].
  rewrite (nspp_flag g _ _ Hp v Hv), (nspp_dist g _ _ Hp v).
  unfold visited, dist_of. rewrite negb_true_iff, Z.eqb_neq. reflexivity.
Qed.

Lemma X4_NumShortestPaths_end_witness :
  num_predecessors (nodes diamond_after_NumShortestPaths 3%nat) = 0 /\
  trim (nodes diamond_after_NumShortestPaths 3%nat) = 0 /\
  current_length (nodes diamond_after_NumShortestPaths 3%nat)
  = current_length (nodes diamond_after_SSSP 3%nat) /\
  num_successors (nodes diamond_after_NumShortestPaths 3%nat)
  = Z.of_nat (dag_out diamond_graph (dist_of (nodes diamond_after_SSSP))
                everyone 3%nat) /\
  (propogation_flag (nodes diamond_after_NumShortestPaths 3%nat) = true <->
   current_length (nodes diamond_after_NumShortestPaths 3%nat) <> infinity /\
   num_successors (nodes diamond_after_NumShortestPaths 3%nat) = 0).
Proof.
  assert (E1 : BC_upto_SSSP 3 diamond_graph 0 diamond_start
               = Ok diamond_after_SSSP).
  { apply final_Ok. vm_compute. exact I. }
  assert (E4 : BC_upto_NumShortestPaths 3 diamond_graph 0 diamond_start
               = Ok diamond_after_NumShortestPaths).
  { apply final_Ok. vm_compute. exact I. }
  assert (H3 : (3 < numNodes diamond_graph)%nat) by (simpl; lia).
  exact (X4_NumShortestPaths_end diamond_graph diamond_start 0 3%nat
           diamond_after_SSSP diamond_after_NumShortestPaths 3%nat
           diamond_wf (start_first diamond_graph fresh_world) E1 E4 H3).
Defined.

(* ------------------------------------------------------------------ *)
(** ** The breadth-first phase touches only the two lengths *)

Lemma without_lengths_current x d :
  without_lengths (set_current_length x d) = without_lengths d.
Proof. now destruct d. Qed.

Lemma without_lengths_old x d :
  without_lengths (set_old_length x d) = without_lengths d.
Proof. now destruct d. Qed.

Lemma modify_frame (p : NodeData -> NodeData) nd u f :
  (forall d, p (f d) = p d) ->
  forall v, p (modify nd u f v) = p (nd v).
Proof.
  intros H v. unfold modify, upd.
  destruct (Nat.eqb_spec v u) as [->|_]; [apply H | reflexivity].
Qed.

Lemma SSSP_relax_frame src s dst v :
  without_lengths (fst (SSSP_relax src s dst) v)
  = without_lengths (fst s v).
Proof.
  destruct s as [nd acc]. unfold SSSP_relax, atomicMin.
  destruct (_ >? _); cbn [fst]; apply modify_frame;
    intros d; apply without_lengths_current.
Qed.

Lemma SSSP_op_frame g src s v :
  without_lengths (fst (SSSP_op g src s) v) = without_lengths (fst s v).
Proof.
  destruct s as [nd acc]. unfold SSSP_op.
  assert (Hfold : forall l s,
            without_lengths (fst (fold_left (SSSP_relax src) l s) v)
            = without_lengths (fst s v)).
  { induction l as [|x l IH]; intros s; [reflexivity|].
    cbn [fold_left]. rewrite IH. apply SSSP_relax_frame. }
  destruct (_ >? _); [|reflexivity].
  rewrite Hfold. cbn [fst]. apply modify_frame.
  intros d. apply without_lengths_old.
Qed.

Lemma SSSP_loop_frame fuel g : forall w w',
  SSSP_loop fuel g w = Ok w' ->
  forall v, without_lengths (nodes w' v) = without_lengths (nodes w v).
Proof.
  assert (Hpass : forall l s v,
            without_lengths (fst (do_all l (SSSP_op g) s) v)
            = without_lengths (fst s v)).
  { induction l as [|x l IH]; intros s v; [reflexivity|].
    rewrite do_all_cons, IH. apply SSSP_op_frame. }
  induction fuel as [|fuel IH]; intros w w' E v; [discriminate|].
  cbn [SSSP_loop] in E. unfold SSSP_round in E.
  pose proof (Hpass (all_nodes g) (nodes w, 0) v) as Hp.
  destruct (do_all (all_nodes g) (SSSP_op g) (nodes w, 0)) as [nd acc].
  cbn [fst] in Hp. destruct (acc =? 0).
  - injection E as <-. unfold SSSP_final_sync.
    destruct (is_vertex_cut g); exact Hp.
  - rewrite (IH _ _ E v). exact Hp.
Qed.

Lemma FirstIterationSSSP_go_frame g s w v :
  without_lengths (nodes (FirstIterationSSSP_go g s w) v)
  = without_lengths (nodes w v).
Proof.
  unfold FirstIterationSSSP_go. cbn [nodes sync with_nodes].
  assert (Hop : forall src nd,
            without_lengths (FirstIterationSSSP_op g src nd v)
            = without_lengths (nd v)).
  { intros src nd. unfold FirstIterationSSSP_op.
    revert nd. induction (edge_dsts g src) as [|x l IH]; intros nd;
      [reflexivity|].
    cbn [fold_left]. rewrite IH. unfold FirstIterationSSSP_relax.
    apply modify_frame. intros d. apply without_lengths_current. }
  destruct (isLocal g s); [|reflexivity].
  unfold do_all. cbn [fold_left]. apply Hop.
Qed.

(** The breadth-first phase of an iteration leaves every field of every
    node as InitializeIteration set it, the two lengths apart. *)
Lemma BC_upto_SSSP_frame g i w fuel w2 :
  Iter_start g (nodes w) ->
  BC_upto_SSSP fuel g i w = Ok w2 ->
  forall v, without_lengths (nodes w2 v)
            = without_lengths
                (if (v <? numNodes g)%nat
                 then InitializeIteration_node g i v (nodes w v)
                 else nodes w v).
Proof.
  intros Hst E v.
  destruct (InitializeIteration_go_Ok g i w) as (w1 & E1 & N1).
  { intros u Hu _. now apply Hst. }
  unfold BC_upto_SSSP in E. rewrite E1 in E. cbn [bind] in E.
  unfold SSSP_go in E.
  rewrite (SSSP_loop_frame _ _ _ _ E v), FirstIterationSSSP_go_frame.
  now rewrite N1.
Qed.

(* ------------------------------------------------------------------ *)
(** ** The path counts in the shortest-path counter *)

Lemma Zsum_ext f f' l :
  (forall v, In v l -> f v = f' v) -> Zsum f l = Zsum f' l.
Proof.
  induction l as [|x l IH]; intros H; [reflexivity|].
  simpl. rewrite (H x (or_introl eq_refl)), IH; [reflexivity|].
  intros v Hv. apply H. now right.
Qed.

Lemma Zsum_add f f' l :
  Zsum (fun v => f v + f' v) l = Zsum f l + Zsum f' l.
Proof. induction l as [|x l IH]; simpl; lia. Qed.

Lemma Zsum_zero f l : (forall v, In v l -> f v = 0) -> Zsum f l = 0.
Proof.
  induction l as [|x l IH]; intros H; [reflexivity|].
  simpl. rewrite (H x (or_introl eq_refl)), IH; [reflexivity|].
  intros v Hv. apply H. now right.
Qed.

Lemma wrap32_add_r a b : wrap32 (a + wrap32 b) = wrap32 (a + b).
Proof. unfold wrap32. now rewrite Zplus_mod_idemp_r. Qed.

Lemma add_n_eq k p : forall a,
  0 <= a < 2 ^ 32 -> add_n k p a = wrap32 (a + Z.of_nat k * p).
Proof.
  induction k as [|k IH]; intros a Ha.
  - unfold add_n. simpl. rewrite Z.add_0_r. symmetry.
    now apply wrap32_small.
  - rewrite add_n_S_r, IH by apply wrap32_range.
    rewrite wrap32_add_l. f_equal. lia.
Qed.

Lemma pushed_paths_cons g D Q F a l v :
  pushed_paths g D Q F (a :: l) v =
  (if Q a then Z.of_nat (dag_to g D a v) * F a else 0)
  + pushed_paths g D Q F l v.
Proof. reflexivity. Qed.

Lemma pushed_paths_ext g D Q Q' F F' l v :
  (forall u, In u l -> Q u = Q' u) ->
  (forall u, In u l -> Q u = true -> F u = F' u) ->
  pushed_paths g D Q F l v = pushed_paths g D Q' F' l v.
Proof.
  intros HQ HF. unfold pushed_paths. apply Zsum_ext. intros u Hu.
  rewrite <- (HQ u Hu). destruct (Q u) eqn:E; [|reflexivity].
  now rewrite (HF u Hu E).
Qed.

Lemma pushed_paths_none g D Q F l v :
  dag_in g D Q l v = 0%nat -> pushed_paths g D Q F l v = 0.
Proof.
  induction l as [|a l IH]; [reflexivity|].
  rewrite dag_in_cons, pushed_paths_cons. intros H.
  rewrite IH by lia. destruct (Q a); [|reflexivity].
  replace (dag_to g D a v) with 0%nat by lia. reflexivity.
Qed.

(** What the propagation pass of a round leaves in to_add, and that it
    leaves the path counts alone. *)
Lemma NumShortestPaths_pass_to_add g D v : forall l (nd : NodeMap) acc,
  NoDup l -> (forall x, current_length (nd x) = D x) ->
  0 <= to_add (nd v) < 2 ^ 32 ->
  to_add (fst (do_all l (NumShortestPaths_op infinity g) (nd, acc)) v)
  = wrap32 (to_add (nd v)
            + pushed_paths g D (pusher D nd) (paths_of nd) l v) /\
  num_shortest_paths
    (fst (do_all l (NumShortestPaths_op infinity g) (nd, acc)) v)
  = num_shortest_paths (nd v).
Proof.
  induction l as [|a l IH]; intros nd acc Hnd Hcl Hta.
  - simpl. split; [|reflexivity].
    unfold pushed_paths. simpl. rewrite Z.add_0_r. symmetry.
    now apply wrap32_small.
  - inversion Hnd as [|? ? Ha Hl]; subst. rewrite do_all_cons.
    destruct (NumShortestPaths_op_spec g D a nd acc Hcl) as [Hn1 _].
    destruct (NumShortestPaths_op infinity g a (nd, acc)) as [nd1 acc1].
    cbn [fst] in Hn1.
    assert (Hcl1 : forall x, current_length (nd1 x) = D x).
    { intros x. rewrite Hn1. apply Hcl. }
    assert (Hp1 : forall u, In u l -> pusher D nd1 u = pusher D nd u).
    { intros u Hu. unfold pusher. rewrite Hn1. simpl.
      destruct (Nat.eqb_spec u a) as [->|Hne]; [contradiction | reflexivity]. }
    assert (Hns1 : forall x, paths_of nd1 x = paths_of nd x).
    { intros x. unfold paths_of. now rewrite Hn1. }
    assert (Hta1 : to_add (nd1 v)
                   = wrap32 (to_add (nd v)
                             + (if pusher D nd a
                                then Z.of_nat (dag_to g D a v) * paths_of nd a
                                else 0))).
    { rewrite Hn1. simpl. rewrite add_n_eq by apply Hta.
      unfold paths_of. destruct (pusher D nd a); f_equal. }
    destruct (IH nd1 acc1 Hl Hcl1) as [Ht Hn].
    { rewrite Hta1. apply wrap32_range. }
    split.
    + rewrite Ht, Hta1, wrap32_add_l, pushed_paths_cons.
      rewrite (pushed_paths_ext g D _ (pusher D nd) _ (paths_of nd) l v Hp1)
        by (intros u _ _; apply Hns1).
      f_equal. lia.
    + rewrite Hn. apply Hns1.
Qed.

Lemma NumShortestPathsChanges_node_paths d :
  num_shortest_paths (NumShortestPathsChanges_node d)
  = (if to_add d >? 0 then wrap32 (num_shortest_paths d + to_add d)
     else num_shortest_paths d) /\
  to_add (NumShortestPathsChanges_node d)
  = (if to_add d >? 0 then 0 else to_add d).
Proof.
  unfold NumShortestPathsChanges_node.
  destruct (trim d >? 0); simpl; [destruct (_ =? 0); simpl|];
    destruct (to_add d >? 0); simpl; split; reflexivity.
Qed.

(** A Changes pass that completes has applied the node function of its
    operator to every node of its range, and to nothing else. *)
Lemma do_all_res_exact (op : GNode -> NodeMap -> Res NodeMap)
  (f : GNode -> NodeData -> NodeData) (pre : GNode -> NodeData -> Prop) :
  (forall v nd, pre v (nd v) ->
     exists nd', op v nd = Ok nd' /\ nd' v = f v (nd v) /\
                 forall u, u <> v -> nd' u = nd u) ->
  (forall v nd nd', op v nd = Ok nd' -> pre v (nd v)) ->
  forall l nd nd', NoDup l -> do_all_res l op nd = Ok nd' ->
  forall v, nd' v = if mem v l then f v (nd v) else nd v.
Proof.
  intros Hop Hpre. induction l as [|x l IH]; intros nd nd' Hnd E v.
  - injection E as <-. reflexivity.
  - inversion Hnd as [|? ? Hx Hl]; subst.
    cbn [do_all_res] in E. apply bind_Ok_inv in E as (nd1 & E1 & E).
    destruct (Hop x nd (Hpre x nd nd1 E1)) as (nd1' & E1' & Hx1 & Ho1).
    rewrite E1 in E1'. injection E1' as <-.
    rewrite (IH nd1 nd' Hl E v), mem_cons.
    destruct (Nat.eqb_spec v x) as [->|Hne]; simpl.
    + now rewrite (mem_false x l Hx).
    + now rewrite Ho1.
Qed.

Lemma NumShortestPathsChanges_op_pre g v (nd nd' : NodeMap) :
  NumShortestPathsChanges_op g v nd = Ok nd' ->
  NumShortestPathsChanges_pre (nd v).
Proof.
  unfold NumShortestPathsChanges_op, NumShortestPathsChanges_pre, assert.
  intros E Hpos.
  destruct (Z.gtb_spec (trim (nd v)) 0); [|lia].
  destruct (Z.leb_spec (trim (nd v)) (num_predecessors (nd v)));
    [|discriminate].
  split; [assumption|]. intros E0.
  cbn [bind] in E. rewrite !modify_same in E. simpl in E.
  rewrite E0 in E. cbn [Z.eqb] in E.
  destruct (propogation_flag (nd v)); [discriminate | reflexivity].
Qed.

Lemma DependencyPropChanges_op_pre g v (nd nd' : NodeMap) :
  DependencyPropChanges_op infinity g v nd = Ok nd' ->
  DependencyPropChanges_pre (nd v).
Proof.
  unfold DependencyPropChanges_op, DependencyPropChanges_pre, assert.
  intros E Hi.
  destruct (Z.eqb_spec (current_length (nd v)) infinity); [contradiction|].
  cbn [negb] in E.
  set (nd1 := if f32_gt_zero (to_add_float (nd v)) then _ else nd) in E.
  assert (Hs1 : num_successors (nd1 v) = num_successors (nd v) /\
                trim (nd1 v) = trim (nd v) /\
                propogation_flag (nd1 v) = propogation_flag (nd v)).
  { unfold nd1. destruct (f32_gt_zero (to_add_float (nd v)));
      rewrite ?modify_same; simpl; auto. }
  destruct Hs1 as (Hs1 & Ht1 & Hf1). rewrite Hs1, Ht1, Hf1 in E.
  destruct ((num_successors (nd v) =? 0) && propogation_flag (nd v)).
  - destruct (Z.eqb_spec (trim (nd v)) 0); [assumption | discriminate].
  - intros Hpos. destruct (Z.gtb_spec (trim (nd v)) 0); [|lia].
    destruct (Z.leb_spec (trim (nd v)) (num_successors (nd v)));
      [|discriminate].
    split; [assumption|]. intros E0.
    cbn [bind] in E. repeat rewrite modify_same in E. simpl in E.
    rewrite Hs1, Ht1, E0 in E. cbn [Z.eqb] in E.
    repeat rewrite modify_same in E. simpl in E. rewrite Hf1 in E.
    destruct (propogation_flag (nd v)); [discriminate | reflexivity].
Qed.

Lemma NumShortestPathsChanges_go_exact g w w' :
  NumShortestPathsChanges_go g w = Ok w' ->
  forall v, nodes w' v =
            if (v <? numNodes g)%nat
            then NumShortestPathsChanges_node (nodes w v) else nodes w v.
Proof.
  unfold NumShortestPathsChanges_go. intros E v.
  apply bind_Ok_inv in E as (nd & E & E'). injection E' as <-.
  cbn [nodes with_nodes]. rewrite <- mem_all_nodes.
  exact (do_all_res_exact (NumShortestPathsChanges_op g)
           (fun _ => NumShortestPathsChanges_node)
           (fun _ => NumShortestPathsChanges_pre)
           (NumShortestPathsChanges_op_Ok g)
           (NumShortestPathsChanges_op_pre g)
           (all_nodes g) (nodes w) nd (seq_NoDup _ _) E v).
Qed.

Lemma DependencyPropChanges_go_exact g w w' :
  DependencyPropChanges_go g w = Ok w' ->
  forall v, nodes w' v =
            if (v <? numNodes g)%nat
            then DependencyPropChanges_node (nodes w v) else nodes w v.
Proof.
  unfold DependencyPropChanges_go. intros E v.
  apply bind_Ok_inv in E as (nd & E & E'). injection E' as <-.
  cbn [nodes sync with_nodes]. rewrite <- mem_all_nodes.
  exact (do_all_res_exact (DependencyPropChanges_op infinity g)
           (fun _ => DependencyPropChanges_node)
           (fun _ => DependencyPropChanges_pre)
           (DependencyPropChanges_op_Ok g)
           (DependencyPropChanges_op_pre g)
           (all_nodes g) (nodes w) nd (seq_NoDup _ _) E v).
Qed.

Lemma pushed_next g D nd nd2 u :
  NSP_inv g D nd -> NSP_next g D nd nd2 -> (u < numNodes g)%nat ->
  pushed nd2 u = pushed nd u || pusher D nd u.
Proof.
  intros Hinv [_ Hn] Hu.
  destruct (Hn u Hu) as (_ & _ & Hp & Hf). cbv zeta in *.
  pose proof (NSP_trim_le_pred g D nd u Hinv Hu) as Ht.
  pose proof (nsp_pred g D nd Hinv u Hu) as Hpn.
  unfold pushed, unpushed. rewrite Hp, Hf.
  set (t := Z.of_nat (dag_in g D (pusher D nd) (all_nodes g) u)) in *.
  assert (Ht0 : 0 <= t) by (unfold t; lia).
  destruct (propogation_flag (nd u)) eqn:Ef.
  - destruct (nsp_flag g D nd Hinv u Hu Ef) as [Hp0 _].
    replace t with 0 by lia. rewrite Hp0. cbn.
    now destruct (pusher D nd u).
  - assert (Hpu : pusher D nd u = false).
    { unfold pusher. rewrite Ef. cbn. apply andb_false_r. }
    rewrite Hpu. cbn [andb negb orb].
    destruct (Z.ltb_spec 0 t); destruct (Z.eqb_spec (num_predecessors (nd u) - t) 0);
      cbn [andb orb negb];
      destruct (Z.ltb_spec 0 (num_predecessors (nd u)));
      destruct (Z.ltb_spec 0 (num_predecessors (nd u) - t));
      try reflexivity; lia.
Qed.

(** One round of the shortest-path counter keeps the invariant on the
    path counts. *)
Lemma Paths_next g D N0 w w2 acc :
  wf_graph g -> dist_ok g D ->
  NSP_inv g D (nodes w) -> Paths_inv g D N0 (nodes w) ->
  NumShortestPaths_body g w = Ok (w2, acc) ->
  NSP_inv g D (nodes w2) /\ Paths_inv g D N0 (nodes w2).
Proof.
  intros Hwf Hd Hinv Hpi E.
  destruct (NumShortestPaths_body_spec g D w Hwf Hinv) as (w2' & E' & Hn).
  rewrite E in E'. injection E' as Hw _. subst w2'.
  split; [exact (NSP_next_inv g D _ _ Hwf Hd Hinv Hn)|].
  unfold NumShortestPaths_body in E.
  rewrite NumShortestPaths_round_eq in E.
  apply bind_Ok_inv in E as (w2' & E & E'). injection E' as Hw _.
  subst w2'.
  pose proof (NumShortestPathsChanges_go_exact g _ _ E) as Hex.
  cbn [nodes sync with_nodes] in Hex.
  set (nd := nodes w) in *.
  set (nd1 := fst (do_all (all_nodes g) (NumShortestPaths_op infinity g)
                     (nd, 0))) in *.
  set (PP := fun v => pushed_paths g D (pusher D nd) (paths_of nd)
                        (all_nodes g) v).
  assert (H1 : forall v, (v < numNodes g)%nat ->
            to_add (nd1 v) = wrap32 (PP v) /\
            num_shortest_paths (nd1 v) = num_shortest_paths (nd v)).
  { intros v Hv.
    destruct (NumShortestPaths_pass_to_add g D v (all_nodes g) nd 0
                (seq_NoDup _ _) (nsp_dist g D nd Hinv)) as [Ha Hb].
    { rewrite (pi_to_add g D N0 nd Hpi v Hv). lia. }
    rewrite (pi_to_add g D N0 nd Hpi v Hv), Z.add_0_l in Ha.
    now split. }
  assert (H2 : forall v, (v < numNodes g)%nat ->
            to_add (nodes w2 v) = 0 /\
            num_shortest_paths (nodes w2 v)
            = wrap32 (num_shortest_paths (nd v) + PP v)).
  { intros v Hv. rewrite Hex. apply Nat.ltb_lt in Hv as Hv'. rewrite Hv'.
    destruct (NumShortestPathsChanges_node_paths (nd1 v)) as [-> ->].
    destruct (H1 v Hv) as [-> ->].
    pose proof (wrap32_range (PP v)).
    destruct (Z.gtb_spec (wrap32 (PP v)) 0).
    - split; [reflexivity|]. apply wrap32_add_r.
    - split; [lia|].
      rewrite <- wrap32_add_r. replace (wrap32 (PP v)) with 0 by lia.
      rewrite Z.add_0_r. symmetry. apply wrap32_small.
      apply (pi_range g D N0 nd Hpi v Hv). }
  assert (Hkeep : forall u, (u < numNodes g)%nat ->
            pushed nd u || pusher D nd u = true ->
            num_shortest_paths (nodes w2 u) = num_shortest_paths (nd u)).
  { intros u Hu Hb. destruct (H2 u Hu) as [_ ->].
    assert (Hp0 : num_predecessors (nd u) = 0).
    { apply orb_true_iff in Hb as [Hb|Hb].
      - unfold pushed, unpushed in Hb.
        apply negb_true_iff, orb_false_iff in Hb as [_ Hb].
        apply Z.ltb_ge in Hb.
        pose proof (nsp_pred g D nd Hinv u Hu). lia.
      - unfold pusher in Hb. apply andb_true_iff in Hb as [_ Hb].
        apply andb_true_iff in Hb as [Hb _].
        now destruct (nsp_flag g D nd Hinv u Hu Hb). }
    pose proof (NSP_trim_le_pred g D nd u Hinv Hu) as Ht.
    unfold PP. rewrite pushed_paths_none by lia.
    rewrite Z.add_0_r. apply wrap32_small.
    apply (pi_range g D N0 nd Hpi u Hu). }
  constructor.
  - intros v Hv. apply (H2 v Hv).
  - intros v Hv. destruct (H2 v Hv) as [_ ->]. apply wrap32_range.
  - intros v Hv. destruct (H2 v Hv) as [_ ->].
    rewrite (pi_paths g D N0 nd Hpi v Hv), wrap32_add_l.
    f_equal. rewrite <- Z.add_assoc. f_equal.
    unfold PP, pushed_paths. rewrite <- Zsum_add. apply Zsum_ext.
    intros u Hu. apply in_all_nodes in Hu.
    rewrite (pushed_next g D nd (nodes w2) u Hinv Hn Hu).
    unfold paths_of at 3.
    destruct (pushed nd u) eqn:Ed; cbn [orb].
    + rewrite (Hkeep u Hu) by (rewrite Ed; reflexivity).
      assert (Hpu : pusher D nd u = false).
      { unfold pushed, unpushed in Ed.
        apply negb_true_iff, orb_false_iff in Ed as [Ef _].
        unfold pusher. rewrite Ef. cbn. apply andb_false_r. }
      rewrite Hpu. unfold paths_of. lia.
    + destruct (pusher D nd u) eqn:Ep; [|reflexivity].
      rewrite (Hkeep u Hu) by (rewrite Ed, Ep; reflexivity).
      unfold paths_of. lia.
Qed.

Lemma NumShortestPaths_loop_paths g D N0 :
  wf_graph g -> dist_ok g D -> forall fuel w w',
  NSP_inv g D (nodes w) -> Paths_inv g D N0 (nodes w) ->
  NumShortestPaths_loop fuel g w = Ok w' ->
  Paths_inv g D N0 (nodes w').
Proof.
  intros Hwf Hd. induction fuel as [|fuel IH]; intros w w' Hinv Hpi E;
    [discriminate|].
  rewrite NumShortestPaths_loop_unfold in E.
  apply bind_Ok_inv in E as ([w2 acc] & Eb & E). cbn [fst snd] in E.
  destruct (Paths_next g D N0 w w2 acc Hwf Hd Hinv Hpi Eb) as [Hinv2 Hpi2].
  destruct (acc =? 0).
  - injection E as <-. exact Hpi2.
  - exact (IH w2 w' Hinv2 Hpi2 E).
Qed.

(** After PredAndSucc every visited node is still to push. *)
Lemma PredAndSucc_unpushed g s w u :
  wf_graph g -> DAG_start g s (nodes w) -> (u < numNodes g)%nat ->
  visited (dist_of (nodes w)) u = true ->
  unpushed (nodes (PredAndSucc_go g w)) u = true.
Proof.
  intros Hwf Hdag Hu Hvis. pose proof Hdag as [Hb Hctl].
  set (D := dist_of (nodes w)) in *.
  pose proof (BFS_post_dist_ok g s _ Hb) as Hd. fold D in Hd.
  assert (Hnd : nodes (PredAndSucc_go g w) u =
            set_num_predecessors
              (incr_n (dag_in g D everyone (all_nodes g) u)
                 (num_predecessors (nodes w u)))
              (set_num_successors
                 (if mem u (all_nodes g)
                  then incr_n (dag_out g D everyone u)
                         (num_successors (nodes w u))
                  else num_successors (nodes w u))
                 (nodes w u))).
  { unfold PredAndSucc_go. cbn [nodes sync with_nodes].
    apply PredAndSucc_pass; [apply seq_NoDup | reflexivity]. }
  unfold unpushed. rewrite Hnd. simpl.
  destruct (Hctl u Hu) as (Hp0 & _ & _ & Hf). rewrite Hf, Hp0.
  destruct (Z.eqb_spec (getGID g u) s) as [Hs|Hs]; [reflexivity|].
  cbn [orb]. apply Z.ltb_lt.
  rewrite incr_n_small;
    [|lia|pose proof (num_edges_bound g everyone D u Hwf); lia].
  unfold visited, D, dist_of in Hvis.
  apply negb_true_iff, Z.eqb_neq in Hvis.
  destruct (bfs_pred g s _ Hb u Hu Hvis Hs) as (x & Hx & Hin & HD).
  assert (0 < dag_in g D everyone (all_nodes g) u)%nat; [|lia].
  apply dag_in_pos_intro with (u := x).
  - now apply in_all_nodes.
  - reflexivity.
  - apply dag_to_pos. split; [assumption|].
    apply (dag_intro g D x u Hd Hx); [|exact HD].
    pose proof (bfs_range g s _ Hb u Hu). unfold D, dist_of. lia.
Qed.

Lemma PredAndSucc_go_nodes g w v :
  nodes (PredAndSucc_go g w) v =
  set_num_predecessors
    (incr_n (dag_in g (dist_of (nodes w)) everyone (all_nodes g) v)
       (num_predecessors (nodes w v)))
    (set_num_successors
       (if mem v (all_nodes g)
        then incr_n (dag_out g (dist_of (nodes w)) everyone v)
               (num_successors (nodes w v))
        else num_successors (nodes w v))
       (nodes w v)).
Proof.
  unfold PredAndSucc_go. cbn [nodes sync with_nodes].
  apply PredAndSucc_pass; [apply seq_NoDup | reflexivity].
Qed.

(** The shortest-path counter starts with the invariant on the path
    counts, for the counts that InitializeIteration left. *)
Lemma PredAndSucc_Paths_inv g s w :
  wf_graph g -> DAG_start g s (nodes w) ->
  (forall v, (v < numNodes g)%nat -> paths_clear (nodes w v)) ->
  Paths_inv g (dist_of (nodes w)) (paths_of (nodes w))
    (nodes (PredAndSucc_go g w)).
Proof.
  intros Hwf Hdag Hclear.
  pose proof (BFS_post_dist_ok g s _ (ds_bfs g s _ Hdag)) as Hd.
  constructor.
  - intros v Hv. rewrite PredAndSucc_go_nodes. simpl. apply (Hclear v Hv).
  - intros v Hv. rewrite PredAndSucc_go_nodes. simpl. apply (Hclear v Hv).
  - intros v Hv. unfold pushed_paths. rewrite Zsum_zero.
    + rewrite Z.add_0_r, PredAndSucc_go_nodes. simpl. symmetry.
      apply wrap32_small. apply (Hclear v Hv).
    + intros u Hu. apply in_all_nodes in Hu.
      destruct (pushed (nodes (PredAndSucc_go g w)) u) eqn:Ep;
        [|reflexivity].
      destruct (Nat.eq_dec (dag_to g (dist_of (nodes w)) u v) 0) as [->|Hne];
        [reflexivity|].
      exfalso. assert (Hto : (0 < dag_to g (dist_of (nodes w)) u v)%nat)
        by lia.
      apply dag_to_pos in Hto as [_ Hto].
      destruct (dag_spec g _ u v Hd Hu Hto) as (Hvis & _).
      pose proof (PredAndSucc_unpushed g s w u Hwf Hdag Hu Hvis) as Hun.
      unfold pushed in Ep. rewrite Hun in Ep. discriminate.
Qed.

Lemma paths_clear_without_lengths d d' :
  without_lengths d = without_lengths d' -> paths_clear d -> paths_clear d'.
Proof.
  unfold paths_clear. intros E.
  assert (Ht : to_add d = to_add d')
    by (change (to_add (without_lengths d) = to_add (without_lengths d'));
        now rewrite E).
  assert (Hn : num_shortest_paths d = num_shortest_paths d')
    by (change (num_shortest_paths (without_lengths d)
                = num_shortest_paths (without_lengths d')); now rewrite E).
  now rewrite Ht, Hn.
Qed.

(** The path counts when the shortest-path counter has ended. *)
Lemma BC_upto_NumShortestPaths_Paths_inv g i w fuel w2 w4 :
  wf_graph g -> Iter_start g (nodes w) ->
  (forall v, (v < numNodes g)%nat -> paths_clear (nodes w v)) ->
  BC_upto_SSSP fuel g i w = Ok w2 ->
  BC_upto_NumShortestPaths fuel g i w = Ok w4 ->
  Paths_inv g (dist_of (nodes w2)) (paths_of (nodes w2)) (nodes w4) /\
  forall v, (v < numNodes g)%nat ->
    paths_of (nodes w2) v
    = (if getGID g v =? i then 1 else num_shortest_paths (nodes w v)).
Proof.
  intros Hwf Hst Hclear E1 E.
  pose proof (BC_upto_SSSP_post g i w fuel w2 Hwf Hst E1) as Hdag.
  pose proof (PredAndSucc_establishes g i w2 Hwf Hdag) as Hnsp.
  pose proof (BFS_post_dist_ok g i _ (ds_bfs g i _ Hdag)) as Hdist.
  pose proof (BC_upto_SSSP_frame g i w fuel w2 Hst E1) as Hfr.
  assert (Hn2 : forall v, (v < numNodes g)%nat ->
            paths_of (nodes w2) v
            = (if getGID g v =? i then 1
               else num_shortest_paths (nodes w v)) /\
            to_add (nodes w2 v) = to_add (nodes w v)).
  { intros v Hv. specialize (Hfr v). apply Nat.ltb_lt in Hv.
    rewrite Hv in Hfr. unfold paths_of.
    change (num_shortest_paths (without_lengths (nodes w2 v))
            = (if getGID g v =? i then 1
               else num_shortest_paths (nodes w v)) /\
            to_add (without_lengths (nodes w2 v)) = to_add (nodes w v)).
    rewrite Hfr. unfold InitializeIteration_node.
    destruct (getGID g v =? i); simpl; split; reflexivity. }
  split; [|intros v Hv; apply (Hn2 v Hv)].
  unfold BC_upto_NumShortestPaths in E. rewrite E1 in E. cbn [bind] in E.
  unfold NumShortestPaths_go in E.
  apply (NumShortestPaths_loop_paths g _ _ Hwf Hdist fuel _ w4 Hnsp);
    [|exact E].
  apply (PredAndSucc_Paths_inv g i w2 Hwf Hdag).
  intros v Hv. destruct (Hn2 v Hv) as [Hn Ht]. unfold paths_of in Hn.
  destruct (Hclear v Hv) as [Hc1 Hc2].
  split; [now rewrite Ht|]. rewrite Hn.
  destruct (getGID g v =? i); lia.
Qed.

Lemma DependencyPropChanges_node_paths d :
  to_add (DependencyPropChanges_node d) = to_add d /\
  num_shortest_paths (DependencyPropChanges_node d)
  = (if negb (current_length d =? infinity)
        && ((num_successors d =? 0) && propogation_flag d)
     then 0 else num_shortest_paths d).
Proof.
  unfold DependencyPropChanges_node.
  destruct (negb (current_length d =? infinity)); cbn [andb];
    [|split; reflexivity].
  destruct (f32_gt_zero (to_add_float d)); simpl;
    destruct ((num_successors d =? 0) && propogation_flag d); simpl;
    try (split; reflexivity);
    destruct (trim d >? 0); simpl; try (split; reflexivity);
    destruct (_ =? 0); simpl; split; reflexivity.
Qed.

(** The fields of a node that one round of the dependency propagation
    leaves alone or resets: to_add is unchanged, and num_shortest_paths
    is unchanged unless the node is visited and starts the round flagged
    without successors, in which case it is reset to 0. *)
Lemma DependencyPropogation_body_paths g s w w2 acc v :
  DependencyPropogation_body g s w = Ok (w2, acc) ->
  (v < numNodes g)%nat ->
  to_add (nodes w2 v) = to_add (nodes w v) /\
  num_shortest_paths (nodes w2 v)
  = (if negb (current_length (nodes w v) =? infinity)
        && ((if resets g (dist_of (nodes w)) s (nodes w) v then 0
             else num_successors (nodes w v)) =? 0)
        && propogation_flag (nodes w v)
     then 0 else num_shortest_paths (nodes w v)).
Proof.
  intros E Hv. unfold DependencyPropogation_body in E.
  rewrite DependencyPropogation_round_eq in E.
  apply bind_Ok_inv in E as (w2' & E & E'). injection E' as Hw _.
  subst w2'.
  rewrite (DependencyPropChanges_go_exact g _ _ E v).
  apply Nat.ltb_lt in Hv as Hv'. rewrite Hv'.
  cbn [nodes sync with_nodes].
  destruct (DependencyPropogation_pass g (dist_of (nodes w)) s
              (all_nodes g) (nodes w) 0 (seq_NoDup _ _) (fun _ => eq_refl))
    as [Hn1 _].
  destruct (Hn1 v) as (tf & En). rewrite mem_all_nodes, Hv' in En.
  destruct (DependencyPropChanges_node_paths
              (fst (do_all (all_nodes g)
                      (DependencyPropogation_op infinity s g)
                      (nodes w, 0)) v)) as [-> ->].
  rewrite En. simpl. rewrite andb_assoc. split; reflexivity.
Qed.

Lemma DependencyPropogation_loop_clear g s : forall fuel w w',
  DependencyPropogation_loop fuel g s w = Ok w' ->
  (forall v, (v < numNodes g)%nat -> paths_clear (nodes w v)) ->
  forall v, (v < numNodes g)%nat -> paths_clear (nodes w' v).
Proof.
  induction fuel as [|fuel IH]; intros w w' E Hc; [discriminate|].
  rewrite DependencyPropogation_loop_unfold in E.
  apply bind_Ok_inv in E as ([w2 acc] & Eb & E). cbn [fst snd] in E.
  assert (Hc2 : forall v, (v < numNodes g)%nat -> paths_clear (nodes w2 v)).
  { intros v Hv.
    destruct (DependencyPropogation_body_paths g s w w2 acc v Eb Hv)
      as [Ht Hn].
    destruct (Hc v Hv) as [Hc1 Hc2]. unfold paths_clear.
    rewrite Ht, Hn. split; [assumption|].
    destruct (_ && _); lia. }
  destruct (acc =? 0).
  - injection E as <-. exact Hc2.
  - apply (IH _ _ E). exact Hc2.
Qed.

(** Whenever a run starts an iteration, nothing is pending in to_add and
    the path counts are in range. *)
Lemma iteration_start_paths_clear g w :
  wf_graph g -> iteration_start g w ->
  forall v, (v < numNodes g)%nat -> paths_clear (nodes w v).
Proof.
  intros Hwf H. induction H as [w0 | w i fuel w' Hit IH E]; intros v Hv.
  - unfold InitializeGraph_go. rewrite fold_sync_nodes. simpl.
    rewrite (do_all_local InitializeGraph_op
               (fun _ d =>
                  set_propogation_flag false
                    (set_dependency F32.zero
                      (set_to_add_float F32.zero
                        (set_to_add 0
                          (set_trim 0
                            (set_num_predecessors 0
                              (set_num_successors 0
                                (set_num_shortest_paths 0
                                  (set_betweeness_centrality F32.zero
                                     d)))))))))
               InitializeGraph_op_spec) by apply seq_NoDup.
    rewrite mem_all_nodes. apply Nat.ltb_lt in Hv. rewrite Hv.
    split; simpl; lia.
  - pose proof (iteration_start_inv g w Hwf Hit) as Hst.
    unfold BC_iteration in E. apply bind_Ok_inv in E as (w5 & E & E').
    injection E' as <-. unfold BC_phases in E.
    apply bind_Ok_inv in E as (w4 & E4 & E5).
    pose proof E4 as E4'. unfold BC_upto_NumShortestPaths in E4'.
    apply bind_Ok_inv in E4' as (w2 & E2 & _).
    destruct (BC_upto_NumShortestPaths_Paths_inv g i w fuel w2 w4
                Hwf Hst IH E2 E4) as [Hpi _].
    assert (Hc5 : paths_clear (nodes w5 v)).
    { apply (DependencyPropogation_loop_clear g i fuel w4 w5 E5); [|exact Hv].
      intros u Hu. split.
      - apply (pi_to_add _ _ _ _ Hpi u Hu).
      - apply (pi_range _ _ _ _ Hpi u Hu). }
    cbn [nodes with_nodes].
    rewrite (do_all_local BC_op
               (fun _ d =>
                  set_dependency F32.zero
                    (set_betweeness_centrality
                       (F32.add (betweeness_centrality d) (dependency d)) d))
               BC_op_spec) by apply seq_NoDup.
    destruct (mem v (all_nodes g)); exact Hc5.
Qed.

Lemma NSP_post_pushed_paths g D nd F v :
  NSP_post g D nd ->
  pushed_paths g D (pushed nd) F (all_nodes g) v
  = pushed_paths g D everyone F (all_nodes g) v.
Proof.
  intros Hp. unfold pushed_paths. apply Zsum_ext. intros u Hu.
  apply in_all_nodes in Hu. unfold everyone.
  destruct (pushed nd u) eqn:Ep; [reflexivity|].
  unfold pushed, unpushed in Ep. apply negb_false_iff in Ep.
  destruct (nspp_zero g D nd Hp u Hu) as [_ Hp0].
  rewrite Hp0 in Ep. cbn in Ep. rewrite orb_false_r in Ep.
  apply (nspp_flag g D nd Hp u Hu) in Ep as [_ Hs0].
  rewrite (nspp_succ g D nd Hp u Hu) in Hs0.
  pose proof (dag_to_le_out g D u v).
  replace (dag_to g D u v) with 0%nat by lia. reflexivity.
Qed.

(** X5. One host, serial schedule.  On every well-formed graph, when the
    loop of NumShortestPaths has ended in an iteration for the source with
    global id [i], nothing is pending in to_add, and num_shortest_paths of
    every local node [v] is, modulo 2^32, the count the node had after
    InitializeIteration (1 at the source, otherwise the count it had when
    the iteration started: the operators never reset it) plus the final
    counts of its predecessors in the shortest-path DAG, one per DAG
    edge [u -> v]. *)
Theorem X5_num_shortest_paths_recurrence : forall g w i fuel w2 w4 v,
  wf_graph g -> iteration_start g w ->
  BC_upto_SSSP fuel g i w = Ok w2 ->
  BC_upto_NumShortestPaths fuel g i w = Ok w4 ->
  (v < numNodes g)%nat ->
  to_add (nodes w4 v) = 0 /\
  num_shortest_paths (nodes w4 v)
  = wrap32
      ((if getGID g v =? i then 1 else num_shortest_paths (nodes w v))
       + Zsum (fun u => Z.of_nat (dag_to g (dist_of (nodes w2)) u v)
                        * num_shortest_paths (nodes w4 u))
           (all_nodes g)).
Proof.
  intros g w i fuel w2 w4 v Hwf Hit E2 E4 Hv.
  pose proof (iteration_start_inv g w Hwf Hit) as Hst.
  destruct (BC_upto_NumShortestPaths_Paths_inv g i w fuel w2 w4 Hwf Hst
              (iteration_start_paths_clear g w Hwf Hit) E2 E4) as [Hpi HN0].
  pose proof (BC_upto_NumShortestPaths_NSP_post g i w fuel w2 w4
                Hwf Hst E2 E4) as Hpost.
  split; [exact (pi_to_add _ _ _ _ Hpi v Hv)|].
  rewrite (pi_paths _ _ _ _ Hpi v Hv), (HN0 v Hv).
  now rewrite (NSP_post_pushed_paths g _ _ _ v Hpost).
Qed.

Lemma X5_num_shortest_paths_recurrence_witness :
  to_add (nodes diamond_after_NumShortestPaths 3%nat) = 0 /\
  num_shortest_paths (nodes diamond_after_NumShortestPaths 3%nat)
  = wrap32
      ((if getGID diamond_graph 3%nat =? 0 then 1
        else num_shortest_paths (nodes diamond_start 3%nat))
       + Zsum (fun u =>
                 Z.of_nat (dag_to diamond_graph
                             (dist_of (nodes diamond_after_SSSP)) u 3%nat)
                 * num_shortest_paths
                     (nodes diamond_after_NumShortestPaths u))
           (all_nodes diamond_graph)).
Proof.
  assert (E1 : BC_upto_SSSP 3 diamond_graph 0 diamond_start
               = Ok diamond_after_SSSP).
  { apply final_Ok. vm_compute. exact I. }
  assert (E4 : BC_upto_NumShortestPaths 3 diamond_graph 0 diamond_start
               = Ok diamond_after_NumShortestPaths).
  { apply final_Ok. vm_compute. exact I. }
  assert (H3 : (3 < numNodes diamond_graph)%nat) by (simpl; lia).
  exact (X5_num_shortest_paths_recurrence diamond_graph diamond_start 0
           3%nat diamond_after_SSSP diamond_after_NumShortestPaths 3%nat
           diamond_wf (start_first diamond_graph fresh_world) E1 E4 H3).
Defined.

(* ------------------------------------------------------------------ *)
(** ** The path counts are the numbers of shortest paths *)

Lemma Zsum_nonzero f l :
  Zsum f l <> 0 -> exists x, In x l /\ f x <> 0.
Proof.
  induction l as [|a l IH]; simpl; intros H; [contradiction|].
  destruct (Z.eq_dec (f a) 0) as [E|E].
  - destruct IH as (x & Hx & Hfx); [lia|]. exists x. split; auto.
  - exists a. split; auto.
Qed.

Lemma wrap32_Zsum f f' l :
  (forall u, In u l -> wrap32 (f u) = wrap32 (f' u)) ->
  wrap32 (Zsum f l) = wrap32 (Zsum f' l).
Proof.
  induction l as [|a l IH]; intros H; [reflexivity|].
  simpl. rewrite <- wrap32_add_l, <- wrap32_add_r.
  rewrite (H a (or_introl eq_refl)), IH by (intros u Hu; apply H; now right).
  now rewrite wrap32_add_l, wrap32_add_r.
Qed.

Lemma wrap32_mul_r a b : wrap32 (a * wrap32 b) = wrap32 (a * b).
Proof. unfold wrap32. now rewrite Zmult_mod_idemp_r. Qed.

(** A walk counted by [count_walks] is a walk. *)
Lemma count_walks_walk g : forall k s v,
  count_walks g k s v <> 0 -> walk g k s v.
Proof.
  induction k as [|k IH]; intros s v H.
  - simpl in H. destruct (Nat.eqb_spec s v) as [->|_];
      [constructor | contradiction].
  - simpl in H. apply Zsum_nonzero in H as (x & _ & Hx).
    apply walk_step with (x := x).
    + apply IH. intros E. rewrite E in Hx. lia.
    + unfold edge_count in Hx.
      apply (count_occ_In Nat.eq_dec).
      destruct (count_occ Nat.eq_dec (edge_dsts g x) v); [|lia].
      rewrite Z.mul_0_r in Hx. contradiction.
Qed.

Lemma dag_to_edge_count g D u v :
  dag_to g D u v = if dag D u v then edge_count g u v else 0%nat.
Proof.
  unfold dag_to, edge_count.
  induction (edge_dsts g u) as [|x l IH]; [now destruct (dag D u v)|].
  simpl. destruct (Nat.eqb_spec x v) as [->|Hne].
  - destruct (Nat.eq_dec v v) as [_|]; [|contradiction].
    destruct (dag D u v); simpl; [now rewrite IH | exact IH].
  - destruct (Nat.eq_dec x v) as [|_]; [contradiction|]. exact IH.
Qed.

Lemma walk_visited g s nd k src v :
  wf_graph g -> SSSP_inv g s nd -> SSSP_done g nd -> BFS_post g s nd ->
  (src < numNodes g)%nat -> getGID g src = s -> walk g k src v ->
  current_length (nd v) <= Z.of_nat k /\ current_length (nd v) <> infinity.
Proof.
  intros Hwf Hinv Hdone Hb Hsrc Hg Hw.
  pose proof (relaxed_walk g s nd k src v Hwf Hinv Hdone Hsrc Hw) as Hle.
  rewrite (bfs_source g s nd Hb src Hsrc Hg) in Hle.
  split; [lia|]. clear Hle.
  induction Hw as [u|k u x y Hw IH Hin].
  - rewrite (bfs_source g s nd Hb u Hsrc Hg). discriminate.
  - pose proof (walk_local g k u x Hwf Hsrc Hw) as Hx.
    specialize (IH Hsrc Hg).
    pose proof (bfs_bound g s nd Hb x Hx IH).
    pose proof (sssp_relaxed g s nd Hinv x Hx (Hdone x Hx) y Hin). lia.
Qed.

(** Counts that satisfy the recurrence of the shortest-path counter, with
    1 at the source and 0 elsewhere to start with, are the numbers of
    shortest walks from the source, modulo 2^32. *)
Lemma recurrence_count_walks g s (nd2 : NodeMap) (N0 F : GNode -> Z) src :
  wf_graph g -> SSSP_inv g s nd2 -> SSSP_done g nd2 -> BFS_post g s nd2 ->
  (src < numNodes g)%nat -> getGID g src = s ->
  (forall v, (v < numNodes g)%nat ->
     F v = wrap32 (N0 v + Zsum (fun u => Z.of_nat (dag_to g (dist_of nd2) u v)
                                         * F u) (all_nodes g))) ->
  N0 src = 1 ->
  (forall v, (v < numNodes g)%nat -> v <> src -> N0 v = 0) ->
  forall (d : nat) v, (v < numNodes g)%nat ->
    current_length (nd2 v) = Z.of_nat d ->
    current_length (nd2 v) <> infinity ->
    F v = wrap32 (count_walks g d src v).
Proof.
  intros Hwf Hinv Hdone Hb Hsrc Hg Hrec Hs1 Hs0.
  pose proof (BFS_post_dist_ok g s nd2 Hb) as Hd.
  set (D := dist_of nd2) in *.
  induction d as [|d IH]; intros v Hv Hcl Hfin.
  - assert (v = src) as ->.
    { destruct (Z.eq_dec (getGID g v) s) as [E|E].
      - apply (gid_injective g v src Hwf Hv Hsrc). congruence.
      - destruct (bfs_pred g s nd2 Hb v Hv Hfin E) as (u & Hu & _ & HD).
        pose proof (bfs_range g s nd2 Hb u Hu). lia. }
    rewrite (Hrec src Hsrc), Hs1, Zsum_zero.
    + simpl. now rewrite Nat.eqb_refl.
    + intros u Hu. apply in_all_nodes in Hu.
      rewrite dag_to_edge_count. destruct (dag D u src) eqn:Ed;
        [|reflexivity].
      destruct (dag_spec g D u src Hd Hu Ed) as (_ & HD & _).
      pose proof (dist_range g D Hd u Hu). unfold D, dist_of in *. lia.
  - assert (Hne : v <> src).
    { intros ->. pose proof (bfs_source g s nd2 Hb src Hsrc Hg). lia. }
    rewrite (Hrec v Hv), (Hs0 v Hv Hne), Z.add_0_l.
    cbn [count_walks]. apply wrap32_Zsum. intros u Hu.
    apply in_all_nodes in Hu. rewrite dag_to_edge_count.
    destruct (dag D u v) eqn:Ed.
    + destruct (dag_spec g D u v Hd Hu Ed) as (Hvis & HD & _).
      unfold visited in Hvis. apply negb_true_iff, Z.eqb_neq in Hvis.
      rewrite (IH u Hu); [| unfold D, dist_of in *; lia | exact Hvis].
      rewrite wrap32_mul_r. f_equal. apply Z.mul_comm.
    + rewrite Z.mul_0_l.
      destruct (Z.eq_dec (count_walks g d src u) 0) as [->|Hcw];
        [reflexivity|].
      destruct (edge_count g u v) eqn:Ec;
        [now rewrite Z.mul_0_r|].
      exfalso.
      assert (Hin : In v (edge_dsts g u)).
      { apply (count_occ_In Nat.eq_dec). unfold edge_count in Ec. lia. }
      apply count_walks_walk in Hcw.
      destruct (walk_visited g s nd2 d src u Hwf Hinv Hdone Hb Hsrc Hg Hcw)
        as [Hle Hvis].
      pose proof (sssp_relaxed g s nd2 Hinv u Hu (Hdone u Hu) v Hin).
      pose proof (bfs_range g s nd2 Hb u Hu).
      assert (Hdag : dag D u v = true).
      { apply (dag_intro g D u v Hd Hu); unfold D, dist_of; [exact Hvis|lia]. }
      rewrite Hdag in Ed. discriminate.
Qed.

(** X6. One host, serial schedule.  On every well-formed graph, in an
    iteration that starts with num_shortest_paths = 0 at every local node
    other than the source (as the first iteration of a run does), when
    the loop of NumShortestPaths has ended num_shortest_paths of every
    visited local node is the number of shortest walks from the source
    to it (walks with as many edges as its distance, parallel edges
    counted apart), modulo 2^32. *)
Theorem X6_num_shortest_paths_count : forall g w i fuel w2 w4 src v,
  wf_graph g -> iteration_start g w ->
  (forall u, (u < numNodes g)%nat -> getGID g u <> i ->
             num_shortest_paths (nodes w u) = 0) ->
  BC_upto_SSSP fuel g i w = Ok w2 ->
  BC_upto_NumShortestPaths fuel g i w = Ok w4 ->
  (src < numNodes g)%nat -> getGID g src = i ->
  (v < numNodes g)%nat -> current_length (nodes w2 v) <> infinity ->
  num_shortest_paths (nodes w4 v)
  = wrap32 (count_walks g (Z.to_nat (current_length (nodes w2 v))) src v).
Proof.
  intros g w i fuel w2 w4 src v Hwf Hit Hclean E2 E4 Hsrc Hg Hv Hfin.
  pose proof (iteration_start_inv g w Hwf Hit) as Hst.
  destruct (BC_upto_SSSP_fixed g i w fuel w2 Hwf Hst E2) as [Hinv Hdone].
  pose proof (SSSP_fixed_point g i _ Hwf Hinv Hdone) as Hb.
  destruct (BC_upto_NumShortestPaths_Paths_inv g i w fuel w2 w4 Hwf Hst
              (iteration_start_paths_clear g w Hwf Hit) E2 E4) as [Hpi HN0].
  pose proof (BC_upto_NumShortestPaths_NSP_post g i w fuel w2 w4
                Hwf Hst E2 E4) as Hpost.
  apply (recurrence_count_walks g i (nodes w2) (paths_of (nodes w2))
           (paths_of (nodes w4)) src Hwf Hinv Hdone Hb Hsrc Hg).
  - intros x Hx. unfold paths_of at 1.
    rewrite (pi_paths _ _ _ _ Hpi x Hx).
    now rewrite (NSP_post_pushed_paths g _ _ _ x Hpost).
  - rewrite (HN0 src Hsrc), Hg, Z.eqb_refl. reflexivity.
  - intros x Hx Hne. rewrite (HN0 x Hx).
    destruct (Z.eqb_spec (getGID g x) i) as [E|E].
    + exfalso. apply Hne. apply (gid_injective g x src Hwf Hx Hsrc).
      congruence.
    + now apply Hclean.
  - exact Hv.
  - pose proof (bfs_range g i _ Hb v Hv). lia.
  - exact Hfin.
Qed.

Lemma X6_num_shortest_paths_count_witness :
  num_shortest_paths (nodes diamond_after_NumShortestPaths 3%nat)
  = wrap32
      (count_walks diamond_graph
         (Z.to_nat (current_length (nodes diamond_after_SSSP 3%nat)))
         0%nat 3%nat).
Proof.
  assert (E1 : BC_upto_SSSP 3 diamond_graph 0 diamond_start
               = Ok diamond_after_SSSP).
  { apply final_Ok. vm_compute. exact I. }
  assert (E4 : BC_upto_NumShortestPaths 3 diamond_graph 0 diamond_start
               = Ok diamond_after_NumShortestPaths).
  { apply final_Ok. vm_compute. exact I. }
  assert (H0 : (0 < numNodes diamond_graph)%nat) by (simpl; lia).
  assert (H3 : (3 < numNodes diamond_graph)%nat) by (simpl; lia).
  assert (Hclean : forall u, (u < numNodes diamond_graph)%nat ->
            getGID diamond_graph u <> 0 ->
            num_shortest_paths (nodes diamond_start u) = 0).
  { intros u Hu _. simpl in Hu.
    do 5 (destruct u as [|u]; [vm_compute; reflexivity|]). lia. }
  assert (Hfin : current_length (nodes diamond_after_SSSP 3%nat)
                 <> infinity).
  { vm_compute. discriminate. }
  exact (X6_num_shortest_paths_count diamond_graph diamond_start 0 3%nat
           diamond_after_SSSP diamond_after_NumShortestPaths 0%nat 3%nat
           diamond_wf (start_first diamond_graph fresh_world) Hclean
           E1 E4 H0 eq_refl H3 Hfin).
Defined.

(* ------------------------------------------------------------------ *)
(** ** The path counts an iteration leaves behind *)

(** One round of the dependency propagation resets the path count of the
    nodes that start the round flagged, and of no other node. *)
Lemma Dep_body_paths g D s w w2 acc v :
  wf_graph g -> Dep_inv g D s (nodes w) ->
  DependencyPropogation_body g s w = Ok (w2, acc) ->
  (v < numNodes g)%nat ->
  Dep_next g D s (nodes w) (nodes w2) /\
  num_shortest_paths (nodes w2 v)
  = (if propogation_flag (nodes w v) then 0
     else num_shortest_paths (nodes w v)).
Proof.
  intros Hwf Hinv E Hv.
  destruct (DependencyPropogation_body_spec g D s w Hwf Hinv)
    as (w2' & E' & Hn).
  rewrite E in E'. injection E' as Hw _. subst w2'.
  split; [exact Hn|].
  destruct (DependencyPropogation_body_paths g s w w2 acc v E Hv) as [_ ->].
  destruct (propogation_flag (nodes w v)) eqn:Ef.
  - destruct (dep_flag g D s _ Hinv v Hv Ef) as [Hs0 Hvis].
    unfold visited in Hvis. rewrite <- (dep_dist g D s _ Hinv v) in Hvis.
    rewrite Hvis, Hs0. cbn [andb].
    now destruct (resets g (dist_of (nodes w)) s (nodes w) v).
  - now rewrite andb_false_r.
Qed.

Lemma Dep_loop_paths g D s :
  wf_graph g -> dist_ok g D -> forall fuel w w',
  Dep_inv g D s (nodes w) ->
  DependencyPropogation_loop fuel g s w = Ok w' ->
  forall v, (v < numNodes g)%nat ->
    (visited D v = false ->
     num_shortest_paths (nodes w' v) = num_shortest_paths (nodes w v)) /\
    (getGID g v = s ->
     num_shortest_paths (nodes w' v)
     = (if propogation_flag (nodes w v) then 0
        else num_shortest_paths (nodes w v))) /\
    (visited D v = true -> getGID g v <> s ->
     pending (nodes w) v = true \/ num_shortest_paths (nodes w v) = 0 ->
     pending (nodes w') v = true \/ num_shortest_paths (nodes w' v) = 0).
Proof.
  intros Hwf Hd. induction fuel as [|fuel IH]; intros w w' Hinv E v Hv;
    [discriminate|].
  rewrite DependencyPropogation_loop_unfold in E.
  apply bind_Ok_inv in E as ([w2 acc] & Eb & E). cbn [fst snd] in E.
  destruct (Dep_body_paths g D s w w2 acc v Hwf Hinv Eb Hv) as [Hn Hnsp].
  pose proof (Dep_next_inv g D s _ _ Hwf Hd Hinv Hn) as Hinv2.
  destruct Hn as [_ Hn]. destruct (Hn v Hv) as (_ & _ & Hs2 & Hf2).
  cbv zeta in Hs2, Hf2.
  pose proof (scan_count_le_succ g D s (nodes w) v Hinv Hv) as Hk.
  assert (Ha : visited D v = false ->
            num_shortest_paths (nodes w2 v)
            = num_shortest_paths (nodes w v)).
  { intros Hvis. rewrite Hnsp.
    destruct (propogation_flag (nodes w v)) eqn:Ef; [|reflexivity].
    destruct (dep_flag g D s _ Hinv v Hv Ef) as [_ Hvv]. congruence. }
  assert (Hc : getGID g v = s ->
            propogation_flag (nodes w2 v) = false).
  { intros Hs.
    assert (Hk0 : scan_count g D s (nodes w) v = 0%nat).
    { unfold scan_count, scanner. rewrite Hs, Z.eqb_refl. cbn [negb].
      now rewrite !andb_false_r. }
    rewrite Hf2, Hk0. change (0 <? Z.of_nat 0) with false.
    cbn [andb]. apply andb_false_r. }
  assert (Hb : visited D v = true -> getGID g v <> s ->
            pending (nodes w) v = true \/ num_shortest_paths (nodes w v) = 0 ->
            pending (nodes w2) v = true \/
            num_shortest_paths (nodes w2 v) = 0).
  { intros Hvis Hs [Hp|H0].
    - destruct (propogation_flag (nodes w v)) eqn:Ef.
      + right. now rewrite Hnsp.
      + left. unfold pending in *. rewrite Ef in Hp. cbn [orb] in Hp.
        apply Z.ltb_lt in Hp. rewrite Hs2, Hf2.
        assert (Hr : resets g D s (nodes w) v = false).
        { unfold resets. apply Z.eqb_neq in Hs. rewrite Hs.
          now rewrite !andb_false_r. }
        rewrite Hr in *. cbn [negb andb].
        destruct (Z.ltb_spec 0 (num_successors (nodes w v)
                                - Z.of_nat (scan_count g D s (nodes w) v)));
          [apply orb_true_r|].
        destruct (Z.ltb_spec 0 (Z.of_nat (scan_count g D s (nodes w) v)));
          [|lia].
        destruct (Z.eqb_spec (num_successors (nodes w v)
                              - Z.of_nat (scan_count g D s (nodes w) v)) 0);
          [reflexivity | lia].
    - right. rewrite Hnsp, H0. now destruct (propogation_flag (nodes w v)). }
  destruct (acc =? 0).
  - injection E as <-. split; [exact Ha|]. split; [|exact Hb].
    intros _. exact Hnsp.
  - destruct (IH (sync sync_DependencyPropogation_dep w2) w' Hinv2 E v Hv)
      as (IHa & IHc & IHb).
    cbn [nodes sync] in IHa, IHc, IHb.
    split; [|split].
    + intros Hvis. rewrite (IHa Hvis). now apply Ha.
    + intros Hs. rewrite (IHc Hs), (Hc Hs). exact Hnsp.
    + intros Hvis Hs Hp. apply (IHb Hvis Hs). now apply Hb.
Qed.

Lemma Dep_loop_post g D s fuel w w' :
  wf_graph g -> dist_ok g D -> Dep_inv g D s (nodes w) ->
  DependencyPropogation_loop fuel g s w = Ok w' -> Iter_start g (nodes w').
Proof.
  intros Hwf Hd Hinv E.
  destruct (Dep_loop_total g D s Hwf Hd
              (Z.to_nat (total_successors g (nodes w))) w Hinv)
    as (f0 & w0 & E0 & H0).
  { rewrite Z2Nat.id; [lia|].
    now apply (total_successors_nonneg g D s). }
  apply (DependencyPropogation_loop_mono _ _ _ _ _) with (k := f0) in E.
  apply (DependencyPropogation_loop_mono _ _ _ _ _) with (k := fuel) in E0.
  rewrite Nat.add_comm in E0. rewrite E0 in E. now injection E as <-.
Qed.

Lemma dag_to_no_target g D u v :
  dist_ok g D -> (u < numNodes g)%nat -> D v = infinity \/ D v = 0 ->
  dag_to g D u v = 0%nat.
Proof.
  intros Hd Hu Hv. rewrite dag_to_edge_count.
  destruct (dag D u v) eqn:Ed; [|reflexivity].
  destruct (dag_spec g D u v Hd Hu Ed) as (_ & HD & Hvis).
  unfold visited in Hvis. apply negb_true_iff, Z.eqb_neq in Hvis.
  pose proof (dist_range g D Hd u Hu). lia.
Qed.

(** X7. One host, serial schedule.  On every well-formed graph, what a
    completed iteration for the source with global id [i] leaves in
    num_shortest_paths of a local node: a node the breadth-first phase did
    not reach keeps the count it had when the iteration started; a
    visited node other than the source ends at 0; the source ends at 1 if
    it has an outgoing shortest-path edge and at 0 otherwise.  So the
    count is not cleared everywhere: a source with a successor carries 1
    into the next iteration. *)
Theorem X7_num_shortest_paths_after_iteration :
  forall g w i fuel w2 w' v,
  wf_graph g -> iteration_start g w ->
  BC_upto_SSSP fuel g i w = Ok w2 ->
  BC_iteration fuel g i w = Ok w' ->
  (v < numNodes g)%nat ->
  num_shortest_paths (nodes w' v)
  = (if current_length (nodes w2 v) =? infinity
     then num_shortest_paths (nodes w v)
     else if (getGID g v =? i)
             && (0 <? Z.of_nat (dag_out g (dist_of (nodes w2)) everyone v))
          then 1 else 0).
Proof.
  intros g w i fuel w2 w' v Hwf Hit E2 E Hv.
  pose proof (iteration_start_inv g w Hwf Hit) as Hst.
  unfold BC_iteration in E. apply bind_Ok_inv in E as (w5 & E & E').
  injection E' as <-. unfold BC_phases in E.
  apply bind_Ok_inv in E as (w4 & E4 & E5).
  unfold DependencyPropogation_go in E5.
  pose proof (BC_upto_SSSP_post g i w fuel w2 Hwf Hst E2) as Hdag.
  pose proof (ds_bfs g i _ Hdag) as Hb.
  pose proof (BFS_post_dist_ok g i _ Hb) as Hd.
  set (D := dist_of (nodes w2)) in *.
  pose proof (BC_upto_NumShortestPaths_NSP_post g i w fuel w2 w4
                Hwf Hst E2 E4) as Hpost. fold D in Hpost.
  destruct (BC_upto_NumShortestPaths_Paths_inv g i w fuel w2 w4 Hwf Hst
              (iteration_start_paths_clear g w Hwf Hit) E2 E4) as [Hpi HN0].
  fold D in Hpi.
  assert (Hdep : Dep_inv g D i (nodes w4)).
  { apply NSP_post_Dep_inv; auto.
    intros u Hu Hs. now apply (DAG_start_source g i). }
  destruct (Dep_loop_paths g D i Hwf Hd fuel w4 w5 Hdep E5 v Hv)
    as (Ha & Hc & Hb').
  pose proof (Dep_loop_post g D i fuel w4 w5 Hwf Hd Hdep E5) as Hend.
  cbn [nodes with_nodes].
  rewrite (do_all_local BC_op
             (fun _ d =>
                set_dependency F32.zero
                  (set_betweeness_centrality
                     (F32.add (betweeness_centrality d) (dependency d)) d))
             BC_op_spec) by apply seq_NoDup.
  assert (H5 : num_shortest_paths
                 (if mem v (all_nodes g)
                  then set_dependency F32.zero
                         (set_betweeness_centrality
                            (F32.add (betweeness_centrality (nodes w5 v))
                               (dependency (nodes w5 v))) (nodes w5 v))
                  else nodes w5 v)
               = num_shortest_paths (nodes w5 v))
    by now destruct (mem v (all_nodes g)).
  rewrite H5. clear H5.
  assert (H4 : D v = infinity \/ D v = 0 ->
            num_shortest_paths (nodes w4 v) = paths_of (nodes w2) v).
  { intros HD. rewrite (pi_paths _ _ _ _ Hpi v Hv).
    unfold pushed_paths. rewrite Zsum_zero.
    - rewrite Z.add_0_r. apply wrap32_small. rewrite (HN0 v Hv).
      destruct (iteration_start_paths_clear g w Hwf Hit v Hv) as [_ Hr].
      destruct (getGID g v =? i); lia.
    - intros u Hu. apply in_all_nodes in Hu.
      rewrite (dag_to_no_target g D u v Hd Hu HD).
      now destruct (pushed (nodes w4) u). }
  change (current_length (nodes w2 v)) with (D v).
  destruct (Z.eqb_spec (D v) infinity) as [Hinf|Hfin].
  - rewrite Ha by (unfold visited; rewrite Hinf; reflexivity).
    rewrite (H4 (or_introl Hinf)), (HN0 v Hv).
    destruct (Z.eqb_spec (getGID g v) i) as [Hs|Hs]; [|reflexivity].
    pose proof (bfs_source g i _ Hb v Hv Hs) as H0.
    unfold D, dist_of in Hinf. rewrite H0 in Hinf. discriminate.
  - assert (Hvis : visited D v = true).
    { unfold visited. now apply negb_true_iff, Z.eqb_neq. }
    destruct (Z.eqb_spec (getGID g v) i) as [Hs|Hs]; cbn [andb].
    + rewrite (Hc Hs).
      pose proof (nspp_succ g D _ Hpost v Hv) as Hsu.
      pose proof (nspp_flag g D _ Hpost v Hv) as Hfl.
      destruct (Z.ltb_spec 0 (Z.of_nat (dag_out g D everyone v))).
      * destruct (propogation_flag (nodes w4 v)) eqn:Ef.
        -- destruct (proj1 Hfl eq_refl) as [_ H0]. lia.
        -- rewrite H4; [|right; exact (bfs_source g i _ Hb v Hv Hs)].
           rewrite (HN0 v Hv). apply Z.eqb_eq in Hs. now rewrite Hs.
      * rewrite (proj2 Hfl); [reflexivity|]. split; [exact Hvis | lia].
    + destruct Hb' as [Hp|H0]; [exact Hvis | exact Hs | | |exact H0].
      * pose proof (nspp_succ g D _ Hpost v Hv) as Hsu.
        pose proof (nspp_flag g D _ Hpost v Hv) as Hfl.
        unfold pending.
        destruct (Z.ltb_spec 0 (num_successors (nodes w4 v)));
          [left; apply orb_true_r|].
        left. rewrite (proj2 Hfl); [reflexivity|].
        split; [exact Hvis | lia].
      * unfold pending in Hp. destruct (Hend v Hv) as (_ & Hs0 & _ & Hf0).
        rewrite Hf0, Hs0 in Hp. discriminate.
Qed.

Lemma cycle_wf : wf_graph cycle_graph.
Proof. apply one_host_wf. reflexivity. Qed.

Lemma X7_num_shortest_paths_after_iteration_witness :
  num_shortest_paths (nodes cycle_after_iteration 0%nat)
  = (if current_length (nodes cycle_after_SSSP 0%nat) =? infinity
     then num_shortest_paths (nodes cycle_start 0%nat)
     else if (getGID cycle_graph 0%nat =? 0)
             && (0 <? Z.of_nat (dag_out cycle_graph
                                  (dist_of (nodes cycle_after_SSSP))
                                  everyone 0%nat))
          then 1 else 0).
Proof.
  assert (E2 : BC_upto_SSSP 4 cycle_graph 0 cycle_start
               = Ok cycle_after_SSSP).
  { apply final_Ok. vm_compute. exact I. }
  assert (E : BC_iteration 4 cycle_graph 0 cycle_start
              = Ok cycle_after_iteration).
  { apply final_Ok. vm_compute. exact I. }
  assert (H0 : (0 < numNodes cycle_graph)%nat) by (simpl; lia).
  exact (X7_num_shortest_paths_after_iteration cycle_graph cycle_start 0
           4%nat cycle_after_SSSP cycle_after_iteration 0%nat
           cycle_wf (start_first cycle_graph fresh_world) E2 E H0).
Defined.

(* ------------------------------------------------------------------ *)
(** ** Only BC's operator writes the centrality *)

Lemma NumShortestPathsChanges_node_bc d :
  betweeness_centrality (NumShortestPathsChanges_node d)
  = betweeness_centrality d /\
  dependency (NumShortestPathsChanges_node d) = dependency d.
Proof.
  unfold NumShortestPathsChanges_node.
  destruct (trim d >? 0); simpl; [destruct (_ =? 0); simpl|];
    destruct (_ >? 0); simpl; split; reflexivity.
Qed.

Lemma DependencyPropChanges_node_bc d :
  betweeness_centrality (DependencyPropChanges_node d)
  = betweeness_centrality d.
Proof.
  unfold DependencyPropChanges_node.
  destruct (negb (current_length d =? infinity)); [|reflexivity].
  destruct (f32_gt_zero (to_add_float d)); simpl;
    destruct (_ && _); simpl; try reflexivity;
    destruct (trim d >? 0); simpl; try reflexivity;
    destruct (_ =? 0); reflexivity.
Qed.

Lemma NumShortestPaths_loop_bc g : forall fuel w w',
  NumShortestPaths_loop fuel g w = Ok w' ->
  forall v, betweeness_centrality (nodes w' v)
            = betweeness_centrality (nodes w v) /\
            dependency (nodes w' v) = dependency (nodes w v).
Proof.
  induction fuel as [|fuel IH]; intros w w' E v; [discriminate|].
  rewrite NumShortestPaths_loop_unfold in E.
  apply bind_Ok_inv in E as ([w2 acc] & Eb & E). cbn [fst snd] in E.
  assert (H2 : betweeness_centrality (nodes w2 v)
               = betweeness_centrality (nodes w v) /\
               dependency (nodes w2 v) = dependency (nodes w v)).
  { unfold NumShortestPaths_body in Eb.
    rewrite NumShortestPaths_round_eq in Eb.
    apply bind_Ok_inv in Eb as (w2' & Eb & E'). injection E' as Hw _.
    subst w2'. rewrite (NumShortestPathsChanges_go_exact g _ _ Eb v).
    cbn [nodes sync with_nodes].
    destruct (NumShortestPaths_pass g (dist_of (nodes w)) (all_nodes g)
                (nodes w) 0 (seq_NoDup _ _) (fun _ => eq_refl)) as [Hn1 _].
    destruct (Hn1 v) as (ta & En).
    destruct (v <? numNodes g)%nat.
    - destruct (NumShortestPathsChanges_node_bc
                  (fst (do_all (all_nodes g)
                          (NumShortestPaths_op infinity g) (nodes w, 0)) v))
        as [-> ->].
      rewrite En. split; reflexivity.
    - rewrite En. split; reflexivity. }
  destruct (acc =? 0).
  - injection E as <-. exact H2.
  - destruct (IH _ _ E v) as [-> ->]. exact H2.
Qed.

Lemma DependencyPropogation_loop_bc g s : forall fuel w w',
  DependencyPropogation_loop fuel g s w = Ok w' ->
  forall v, betweeness_centrality (nodes w' v)
            = betweeness_centrality (nodes w v).
Proof.
  induction fuel as [|fuel IH]; intros w w' E v; [discriminate|].
  rewrite DependencyPropogation_loop_unfold in E.
  apply bind_Ok_inv in E as ([w2 acc] & Eb & E). cbn [fst snd] in E.
  assert (H2 : betweeness_centrality (nodes w2 v)
               = betweeness_centrality (nodes w v)).
  { unfold DependencyPropogation_body in Eb.
    rewrite DependencyPropogation_round_eq in Eb.
    apply bind_Ok_inv in Eb as (w2' & Eb & E'). injection E' as Hw _.
    subst w2'. rewrite (DependencyPropChanges_go_exact g _ _ Eb v).
    cbn [nodes sync with_nodes].
    destruct (DependencyPropogation_pass g (dist_of (nodes w)) s
                (all_nodes g) (nodes w) 0 (seq_NoDup _ _) (fun _ => eq_refl))
      as [Hn1 _].
    destruct (Hn1 v) as (tf & En).
    destruct (v <? numNodes g)%nat.
    - rewrite DependencyPropChanges_node_bc, En.
      now destruct (mem v (all_nodes g)).
    - rewrite En. now destruct (mem v (all_nodes g)). }
  destruct (acc =? 0).
  - injection E as <-. exact H2.
  - rewrite (IH _ _ E v). exact H2.
Qed.

Lemma DependencyPropogation_loop_unvisited g s : forall fuel w w',
  DependencyPropogation_loop fuel g s w = Ok w' ->
  forall v, current_length (nodes w v) = infinity ->
    current_length (nodes w' v) = infinity /\
    dependency (nodes w' v) = dependency (nodes w v).
Proof.
  induction fuel as [|fuel IH]; intros w w' E v Hinf; [discriminate|].
  rewrite DependencyPropogation_loop_unfold in E.
  apply bind_Ok_inv in E as ([w2 acc] & Eb & E). cbn [fst snd] in E.
  assert (H2 : current_length (nodes w2 v) = infinity /\
               dependency (nodes w2 v) = dependency (nodes w v)).
  { unfold DependencyPropogation_body in Eb.
    rewrite DependencyPropogation_round_eq in Eb.
    apply bind_Ok_inv in Eb as (w2' & Eb & E'). injection E' as Hw _.
    subst w2'. rewrite (DependencyPropChanges_go_exact g _ _ Eb v).
    cbn [nodes sync with_nodes].
    destruct (DependencyPropogation_pass g (dist_of (nodes w)) s
                (all_nodes g) (nodes w) 0 (seq_NoDup _ _) (fun _ => eq_refl))
      as [Hn1 _].
    destruct (Hn1 v) as (tf & En).
    set (d1 := fst (do_all (all_nodes g)
                      (DependencyPropogation_op infinity s g)
                      (nodes w, 0)) v) in *.
    assert (H1 : current_length d1 = infinity /\
                 dependency d1 = dependency (nodes w v)).
    { rewrite En. destruct (mem v (all_nodes g)); simpl; auto. }
    destruct H1 as [Hc1 Hd1].
    assert (Hn : DependencyPropChanges_node d1 = d1).
    { unfold DependencyPropChanges_node. now rewrite Hc1. }
    destruct (v <? numNodes g)%nat; [rewrite Hn|]; now split. }
  destruct H2 as [Hc2 Hd2]. destruct (acc =? 0).
  - injection E as <-. now split.
  - destruct (IH _ _ E v) as [Hc Hd]; [exact Hc2|].
    cbn [nodes sync] in Hd. rewrite Hd. now split.
Qed.

(** X8. One host, serial schedule.  In a completed iteration from any
    state in which a run starts an iteration, no phase writes
    betweeness_centrality before BC's operator runs, and that operator
    adds to the centrality of every local node the dependency the phases
    left at it (a [float] addition) and resets the dependency to +0.
    The dependency is still +0 when the shortest-path counter has ended,
    and at a node the breadth-first phase did not reach it is +0 when
    BC's operator runs.  Nodes outside the local range are not touched by
    BC's operator. *)
Theorem X8_centrality_accumulates : forall g w i fuel w4 w5 w',
  wf_graph g -> iteration_start g w ->
  BC_upto_NumShortestPaths fuel g i w = Ok w4 ->
  BC_phases fuel g i w = Ok w5 ->
  BC_iteration fuel g i w = Ok w' ->
  forall v,
    betweeness_centrality (nodes w5 v) = betweeness_centrality (nodes w v) /\
    ((v < numNodes g)%nat ->
     dependency (nodes w4 v) = F32.zero /\
     (current_length (nodes w4 v) = infinity ->
      dependency (nodes w5 v) = F32.zero)) /\
    nodes w' v
    = (if (v <? numNodes g)%nat
       then set_dependency F32.zero
              (set_betweeness_centrality
                 (F32.add (betweeness_centrality (nodes w v))
                    (dependency (nodes w5 v))) (nodes w5 v))
       else nodes w5 v).
Proof.
  intros g w i fuel w4 w5 w' Hwf Hit E4 E5 E v.
  pose proof (iteration_start_inv g w Hwf Hit) as Hst.
  unfold BC_iteration in E. rewrite E5 in E. cbn [bind] in E.
  injection E as <-.
  unfold BC_phases in E5. rewrite E4 in E5. cbn [bind] in E5.
  unfold DependencyPropogation_go in E5.
  unfold BC_upto_NumShortestPaths in E4.
  apply bind_Ok_inv in E4 as (w2 & E2 & E4).
  unfold NumShortestPaths_go in E4.
  pose proof (BC_upto_SSSP_frame g i w fuel w2 Hst E2 v) as Hfr.
  assert (H2 : betweeness_centrality (nodes w2 v)
               = betweeness_centrality (nodes w v) /\
               ((v < numNodes g)%nat ->
                dependency (nodes w2 v) = dependency (nodes w v))).
  { change (betweeness_centrality (without_lengths (nodes w2 v))
            = betweeness_centrality (nodes w v) /\
            ((v < numNodes g)%nat ->
             dependency (without_lengths (nodes w2 v))
             = dependency (nodes w v))).
    rewrite Hfr. destruct (v <? numNodes g)%nat; [|split; reflexivity].
    unfold InitializeIteration_node.
    destruct (getGID g v =? i); simpl; split; reflexivity. }
  destruct (NumShortestPaths_loop_bc g fuel _ w4 E4 v) as [Hb4 Hd4].
  rewrite PredAndSucc_go_nodes in Hb4, Hd4. simpl in Hb4, Hd4.
  assert (Hb5 : betweeness_centrality (nodes w5 v)
                = betweeness_centrality (nodes w v)).
  { rewrite (DependencyPropogation_loop_bc g i fuel w4 w5 E5 v), Hb4.
    apply H2. }
  split; [exact Hb5|]. split.
  - intros Hv.
    assert (Hz : dependency (nodes w4 v) = F32.zero).
    { rewrite Hd4, (proj2 H2 Hv). now apply (iteration_start_dependency g). }
    split; [exact Hz|]. intros Hinf.
    destruct (DependencyPropogation_loop_unvisited g i fuel w4 w5 E5 v Hinf)
      as [_ ->]. exact Hz.
  - cbn [nodes with_nodes].
    rewrite (do_all_local BC_op
               (fun _ d =>
                  set_dependency F32.zero
                    (set_betweeness_centrality
                       (F32.add (betweeness_centrality d) (dependency d)) d))
               BC_op_spec) by apply seq_NoDup.
    rewrite mem_all_nodes, Hb5. reflexivity.
Qed.

Lemma X8_centrality_accumulates_witness :
  betweeness_centrality
    (nodes (final fresh_world (BC_phases 3 diamond_graph 0 diamond_start))
       4%nat)
  = betweeness_centrality (nodes diamond_start 4%nat) /\
  dependency (nodes diamond_after_NumShortestPaths 4%nat) = F32.zero /\
  dependency
    (nodes (final fresh_world (BC_phases 3 diamond_graph 0 diamond_start))
       4%nat) = F32.zero /\
  nodes (final fresh_world (BC_iteration 3 diamond_graph 0 diamond_start))
    4%nat
  = (if (4 <? numNodes diamond_graph)%nat
     then set_dependency F32.zero
            (set_betweeness_centrality
               (F32.add (betweeness_centrality (nodes diamond_start 4%nat))
                  (dependency
                     (nodes (final fresh_world
                               (BC_phases 3 diamond_graph 0 diamond_start))
                        4%nat)))
               (nodes (final fresh_world
                         (BC_phases 3 diamond_graph 0 diamond_start)) 4%nat))
     else nodes (final fresh_world
                   (BC_phases 3 diamond_graph 0 diamond_start)) 4%nat).
Proof.
  assert (E4 : BC_upto_NumShortestPaths 3 diamond_graph 0 diamond_start
               = Ok diamond_after_NumShortestPaths).
  { apply final_Ok. vm_compute. exact I. }
  assert (E5 : BC_phases 3 diamond_graph 0 diamond_start
               = Ok (final fresh_world
                       (BC_phases 3 diamond_graph 0 diamond_start))).
  { apply final_Ok. vm_compute. exact I. }
  assert (E : BC_iteration 3 diamond_graph 0 diamond_start
              = Ok (final fresh_world
                      (BC_iteration 3 diamond_graph 0 diamond_start))).
  { apply final_Ok. vm_compute. exact I. }
  assert (H4 : (4 < numNodes diamond_graph)%nat) by (simpl; lia).
  assert (Hinf : current_length (nodes diamond_after_NumShortestPaths 4%nat)
                 = infinity) by (vm_compute; reflexivity).
  pose proof (X8_centrality_accumulates diamond_graph diamond_start 0 3%nat
                diamond_after_NumShortestPaths _ _
                diamond_wf (start_first diamond_graph fresh_world) E4 E5 E
                4%nat) as (Ha & Hb & Hc).
  destruct (Hb H4) as [Hb1 Hb2].
  split; [exact Ha|]. split; [exact Hb1|]. split; [exact (Hb2 Hinf)|].
  exact Hc.
Defined.

(* ------------------------------------------------------------------ *)
(** ** The sources BC::go iterates over *)



(* ------------------------------------------------------------------ *)
(** ** The operators read and write local nodes only *)

Lemma fold_edges_congr g (step : NodeMap * Z -> GNode -> NodeMap * Z) :
  (forall s s' dst, (dst < numNodes g)%nat -> pair_eq g s s' ->
     pair_eq g (step s dst) (step s' dst)) ->
  forall l, (forall x, In x l -> (x < numNodes g)%nat) ->
  forall s s', pair_eq g s s' ->
    pair_eq g (fold_left step l s) (fold_left step l s').
Proof.
  intros Hstep. induction l as [|x l IH]; intros Hl s s' Hs; [exact Hs|].
  cbn [fold_left]. apply IH; [intros y Hy; apply Hl; now right|].
  apply Hstep; [apply Hl; now left | exact Hs].
Qed.

Lemma fold_edges_congr_nd g (step : NodeMap -> GNode -> NodeMap) :
  (forall nd nd' dst, (dst < numNodes g)%nat -> local_eq g nd nd' ->
     local_eq g (step nd dst) (step nd' dst)) ->
  forall l, (forall x, In x l -> (x < numNodes g)%nat) ->
  forall nd nd', local_eq g nd nd' ->
    local_eq g (fold_left step l nd) (fold_left step l nd').
Proof.
  intros Hstep. induction l as [|x l IH]; intros Hl s s' Hs; [exact Hs|].
  cbn [fold_left]. apply IH; [intros y Hy; apply Hl; now right|].
  apply Hstep; [apply Hl; now left | exact Hs].
Qed.

Lemma do_all_congr g (op : GNode -> NodeMap * Z -> NodeMap * Z) :
  (forall u s s', (u < numNodes g)%nat -> pair_eq g s s' ->
     pair_eq g (op u s) (op u s')) ->
  forall l, (forall x, In x l -> (x < numNodes g)%nat) ->
  forall s s', pair_eq g s s' ->
    pair_eq g (do_all l op s) (do_all l op s').
Proof.
  intros Hop. induction l as [|x l IH]; intros Hl s s' Hs; [exact Hs|].
  rewrite !do_all_cons. apply IH; [intros y Hy; apply Hl; now right|].
  apply Hop; [apply Hl; now left | exact Hs].
Qed.

Lemma do_all_congr_nd g (op : GNode -> NodeMap -> NodeMap) :
  (forall u nd nd', (u < numNodes g)%nat -> local_eq g nd nd' ->
     local_eq g (op u nd) (op u nd')) ->
  forall l, (forall x, In x l -> (x < numNodes g)%nat) ->
  forall nd nd', local_eq g nd nd' ->
    local_eq g (do_all l op nd) (do_all l op nd').
Proof.
  intros Hop. induction l as [|x l IH]; intros Hl s s' Hs; [exact Hs|].
  rewrite !do_all_cons. apply IH; [intros y Hy; apply Hl; now right|].
  apply Hop; [apply Hl; now left | exact Hs].
Qed.

Lemma modify_local_eq g nd nd' u f :
  local_eq g nd nd' -> (u < numNodes g)%nat ->
  local_eq g (modify nd u f) (modify nd' u f).
Proof.
  intros H Hu v Hv. unfold modify, upd. rewrite (H u Hu).
  destruct (Nat.eqb v u); [reflexivity | now apply H].
Qed.

Lemma all_nodes_local g x : In x (all_nodes g) -> (x < numNodes g)%nat.
Proof. apply in_all_nodes. Qed.

Ltac local_cases Hnd :=
  repeat match goal with
         | |- context [if ?b then _ else _] => destruct b
         end;
  try (split; [|reflexivity]); cbn [fst snd];
  intros ?v ?Hv; cbn beta;
  repeat match goal with
         | |- context [Nat.eqb ?a ?b] => destruct (Nat.eqb a b)
         end;
  try reflexivity; now apply Hnd.

Lemma FirstIterationSSSP_relax_congr g src nd nd' dst :
  (src < numNodes g)%nat -> (dst < numNodes g)%nat ->
  local_eq g nd nd' ->
  local_eq g (FirstIterationSSSP_relax src nd dst)
    (FirstIterationSSSP_relax src nd' dst).
Proof.
  intros Hsrc Hdst Hnd. unfold FirstIterationSSSP_relax.
  rewrite <- (Hnd src Hsrc). now apply modify_local_eq.
Qed.

Lemma SSSP_relax_congr g src s s' dst :
  (src < numNodes g)%nat -> (dst < numNodes g)%nat ->
  pair_eq g s s' ->
  pair_eq g (SSSP_relax src s dst) (SSSP_relax src s' dst).
Proof.
  intros Hsrc Hdst Hs. destruct s as [nd acc], s' as [nd' acc'].
  destruct Hs as [Hnd Hacc]. cbn [fst snd] in *. subst acc'.
  unfold SSSP_relax, atomicMin, modify, upd. cbv beta zeta.
  rewrite <- (Hnd src Hsrc), <- (Hnd dst Hdst).
  local_cases Hnd.
Qed.

Lemma PredAndSucc_edge_congr g src nd nd' dst :
  (src < numNodes g)%nat -> (dst < numNodes g)%nat ->
  local_eq g nd nd' ->
  local_eq g (PredAndSucc_edge src nd dst) (PredAndSucc_edge src nd' dst).
Proof.
  intros Hsrc Hdst Hnd.
  unfold PredAndSucc_edge, atomicAdd, modify, upd. cbv beta zeta.
  rewrite <- (Hnd src Hsrc), <- (Hnd dst Hdst).
  local_cases Hnd.
Qed.

Lemma NumShortestPaths_edge_congr g src s s' dst :
  (src < numNodes g)%nat -> (dst < numNodes g)%nat ->
  pair_eq g s s' ->
  pair_eq g (NumShortestPaths_edge src s dst)
    (NumShortestPaths_edge src s' dst).
Proof.
  intros Hsrc Hdst Hs. destruct s as [nd acc], s' as [nd' acc'].
  destruct Hs as [Hnd Hacc]. cbn [fst snd] in *. subst acc'.
  unfold NumShortestPaths_edge, atomicAdd, modify, upd. cbv beta zeta.
  rewrite <- (Hnd src Hsrc), <- (Hnd dst Hdst).
  local_cases Hnd.
Qed.

Lemma DependencyPropogation_edge_congr g src s s' dst :
  (src < numNodes g)%nat -> (dst < numNodes g)%nat ->
  pair_eq g s s' ->
  pair_eq g (DependencyPropogation_edge src s dst)
    (DependencyPropogation_edge src s' dst).
Proof.
  intros Hsrc Hdst Hs. destruct s as [nd acc], s' as [nd' acc'].
  destruct Hs as [Hnd Hacc]. cbn [fst snd] in *. subst acc'.
  unfold DependencyPropogation_edge, atomicAdd, modify, upd.
  cbv beta zeta.
  rewrite <- (Hnd src Hsrc), <- (Hnd dst Hdst).
  local_cases Hnd.
Qed.

Lemma SSSP_op_congr g u s s' :
  wf_graph g -> (u < numNodes g)%nat -> pair_eq g s s' ->
  pair_eq g (SSSP_op g u s) (SSSP_op g u s').
Proof.
  intros Hwf Hu Hs. destruct s as [nd acc], s' as [nd' acc'].
  destruct Hs as [Hnd Hacc]. cbn [fst snd] in *. subst acc'.
  unfold SSSP_op. rewrite <- (Hnd u Hu).
  destruct (_ >? _); [|now split].
  apply fold_edges_congr.
  - intros s s' dst Hdst. now apply SSSP_relax_congr.
  - intros x Hx. exact (wf_edges g Hwf u x Hu Hx).
  - split; [|reflexivity]. cbn [fst]. now apply modify_local_eq.
Qed.

Lemma FirstIterationSSSP_op_congr g u nd nd' :
  wf_graph g -> (u < numNodes g)%nat -> local_eq g nd nd' ->
  local_eq g (FirstIterationSSSP_op g u nd) (FirstIterationSSSP_op g u nd').
Proof.
  intros Hwf Hu Hnd. unfold FirstIterationSSSP_op.
  apply fold_edges_congr_nd; [| |exact Hnd].
  - intros a a' dst Hdst. now apply FirstIterationSSSP_relax_congr.
  - intros x Hx. exact (wf_edges g Hwf u x Hu Hx).
Qed.

Lemma PredAndSucc_op_congr g u nd nd' :
  wf_graph g -> (u < numNodes g)%nat -> local_eq g nd nd' ->
  local_eq g (PredAndSucc_op infinity g u nd) (PredAndSucc_op infinity g u nd').
Proof.
  intros Hwf Hu Hnd. unfold PredAndSucc_op. rewrite <- (Hnd u Hu).
  destruct (negb _); [|exact Hnd].
  apply fold_edges_congr_nd; [| |exact Hnd].
  - intros a a' dst Hdst. now apply PredAndSucc_edge_congr.
  - intros x Hx. exact (wf_edges g Hwf u x Hu Hx).
Qed.

Lemma NumShortestPaths_op_congr g u s s' :
  wf_graph g -> (u < numNodes g)%nat -> pair_eq g s s' ->
  pair_eq g (NumShortestPaths_op infinity g u s)
    (NumShortestPaths_op infinity g u s').
Proof.
  intros Hwf Hu Hs. destruct s as [nd acc], s' as [nd' acc'].
  destruct Hs as [Hnd Hacc]. cbn [fst snd] in *. subst acc'.
  unfold NumShortestPaths_op. rewrite <- (Hnd u Hu).
  destruct (negb _); [|now split].
  destruct (_ && _); [|now split].
  assert (Hf : pair_eq g
                 (fold_left (NumShortestPaths_edge u) (edge_dsts g u)
                    (nd, acc))
                 (fold_left (NumShortestPaths_edge u) (edge_dsts g u)
                    (nd', acc))).
  { apply fold_edges_congr.
    - intros s s' dst Hdst. now apply NumShortestPaths_edge_congr.
    - intros x Hx. exact (wf_edges g Hwf u x Hu Hx).
    - now split. }
  destruct (fold_left (NumShortestPaths_edge u) (edge_dsts g u) (nd, acc))
    as [nd1 acc1].
  destruct (fold_left (NumShortestPaths_edge u) (edge_dsts g u) (nd', acc))
    as [nd1' acc1'].
  destruct Hf as [Hf1 Hf2]. cbn [fst snd] in *. subst acc1'.
  split; [|reflexivity]. cbn [fst]. now apply modify_local_eq.
Qed.

Lemma DependencyPropogation_op_congr g i u s s' :
  wf_graph g -> (u < numNodes g)%nat -> pair_eq g s s' ->
  pair_eq g (DependencyPropogation_op infinity i g u s)
    (DependencyPropogation_op infinity i g u s').
Proof.
  intros Hwf Hu Hs. destruct s as [nd acc], s' as [nd' acc'].
  destruct Hs as [Hnd Hacc]. cbn [fst snd] in *. subst acc'.
  unfold DependencyPropogation_op. rewrite <- (Hnd u Hu).
  destruct (negb (current_length _ =? _)); [|now split].
  destruct (_ >? _); [|now split].
  destruct (negb (getGID g u =? i)).
  - apply fold_edges_congr.
    + intros s s' dst Hdst. now apply DependencyPropogation_edge_congr.
    + intros x Hx. exact (wf_edges g Hwf u x Hu Hx).
    + now split.
  - split; [|reflexivity]. cbn [fst]. now apply modify_local_eq.
Qed.

Lemma SSSP_loop_congr g : wf_graph g -> forall fuel w w' a a',
  local_eq g (nodes w) (nodes w') ->
  SSSP_loop fuel g w = Ok a -> SSSP_loop fuel g w' = Ok a' ->
  local_eq g (nodes a) (nodes a').
Proof.
  intros Hwf. induction fuel as [|fuel IH]; intros w w' a a' Hw E E';
    [discriminate|].
  cbn [SSSP_loop] in E, E'. unfold SSSP_round in E, E'.
  pose proof (do_all_congr g (SSSP_op g)
                (fun u s s' Hu => SSSP_op_congr g u s s' Hwf Hu)
                (all_nodes g) (all_nodes_local g)
                (nodes w, 0) (nodes w', 0) (conj Hw eq_refl)) as Hp.
  destruct (do_all (all_nodes g) (SSSP_op g) (nodes w, 0)) as [nd acc].
  destruct (do_all (all_nodes g) (SSSP_op g) (nodes w', 0)) as [nd' acc'].
  destruct Hp as [Hp1 Hp2]. cbn [fst snd] in Hp1, Hp2. subst acc'.
  destruct (acc =? 0).
  - injection E as <-. injection E' as <-. unfold SSSP_final_sync.
    destruct (is_vertex_cut g); exact Hp1.
  - apply (IH _ _ a a') with (2 := E) (3 := E'). exact Hp1.
Qed.

Lemma NumShortestPaths_loop_congr g : wf_graph g -> forall fuel w w' a a',
  local_eq g (nodes w) (nodes w') ->
  NumShortestPaths_loop fuel g w = Ok a ->
  NumShortestPaths_loop fuel g w' = Ok a' ->
  local_eq g (nodes a) (nodes a').
Proof.
  intros Hwf. induction fuel as [|fuel IH]; intros w w' a a' Hw E E';
    [discriminate|].
  cbn [NumShortestPaths_loop] in E, E'.
  rewrite NumShortestPaths_round_eq in E, E'.
  pose proof (do_all_congr g (NumShortestPaths_op infinity g)
                (fun u s s' Hu => NumShortestPaths_op_congr g u s s' Hwf Hu)
                (all_nodes g) (all_nodes_local g)
                (nodes w, 0) (nodes w', 0) (conj Hw eq_refl)) as [Hp1 Hp2].
  apply bind_Ok_inv in E as (w2 & Ec & E).
  apply bind_Ok_inv in E' as (w2' & Ec' & E').
  pose proof (NumShortestPathsChanges_go_exact g _ _ Ec) as Hx.
  pose proof (NumShortestPathsChanges_go_exact g _ _ Ec') as Hx'.
  cbn [nodes sync with_nodes] in Hx, Hx'.
  assert (H2 : local_eq g (nodes w2) (nodes w2')).
  { intros v Hv. rewrite Hx, Hx', (Hp1 v Hv). reflexivity. }
  rewrite <- Hp2 in E'.
  destruct (_ =? 0).
  - injection E as <-. injection E' as <-. exact H2.
  - apply (IH _ _ a a') with (2 := E) (3 := E'). exact H2.
Qed.

Lemma DependencyPropogation_loop_congr g i :
  wf_graph g -> forall fuel w w' a a',
  local_eq g (nodes w) (nodes w') ->
  DependencyPropogation_loop fuel g i w = Ok a ->
  DependencyPropogation_loop fuel g i w' = Ok a' ->
  local_eq g (nodes a) (nodes a').
Proof.
  intros Hwf. induction fuel as [|fuel IH]; intros w w' a a' Hw E E';
    [discriminate|].
  cbn [DependencyPropogation_loop] in E, E'.
  rewrite DependencyPropogation_round_eq in E, E'.
  pose proof (do_all_congr g (DependencyPropogation_op infinity i g)
                (fun u s s' Hu =>
                   DependencyPropogation_op_congr g i u s s' Hwf Hu)
                (all_nodes g) (all_nodes_local g)
                (nodes w, 0) (nodes w', 0) (conj Hw eq_refl)) as [Hp1 Hp2].
  apply bind_Ok_inv in E as (w2 & Ec & E).
  apply bind_Ok_inv in E' as (w2' & Ec' & E').
  pose proof (DependencyPropChanges_go_exact g _ _ Ec) as Hx.
  pose proof (DependencyPropChanges_go_exact g _ _ Ec') as Hx'.
  cbn [nodes sync with_nodes] in Hx, Hx'.
  assert (H2 : local_eq g (nodes w2) (nodes w2')).
  { intros v Hv. rewrite Hx, Hx', (Hp1 v Hv). reflexivity. }
  rewrite <- Hp2 in E'.
  destruct (_ =? 0).
  - injection E as <-. injection E' as <-. exact H2.
  - apply (IH _ _ a a') with (2 := E) (3 := E'). exact H2.
Qed.

Lemma InitializeIteration_node_lengths g i v d d' :
  without_lengths d = without_lengths d' ->
  InitializeIteration_node g i v d = InitializeIteration_node g i v d'.
Proof.
  unfold InitializeIteration_node, without_lengths.
  destruct d, d'. simpl. intros E. injection E as -> -> -> -> -> -> -> -> ->.
  reflexivity.
Qed.

Lemma BC_iteration_Iter_start g i w fuel w' :
  wf_graph g -> Iter_start g (nodes w) ->
  BC_iteration fuel g i w = Ok w' -> Iter_start g (nodes w').
Proof.
  intros Hwf Hst E.
  destruct (BC_iteration_total g i w Hwf Hst) as (f0 & w0 & E0 & H0).
  pose proof (BC_iteration_agree fuel f0 g i w
                (settled_Ok _ _ E) (settled_Ok _ _ E0)) as Ha.
  rewrite E, E0 in Ha. now injection Ha as ->.
Qed.

(** Two iterations for the same source from states that agree on the
    local nodes up to the two lengths end in states that agree on the
    local nodes. *)
Lemma BC_iteration_congr g i fuel w w' a a' :
  wf_graph g -> Iter_start g (nodes w) -> Iter_start g (nodes w') ->
  local_eq_but_lengths g (nodes w) (nodes w') ->
  BC_iteration fuel g i w = Ok a -> BC_iteration fuel g i w' = Ok a' ->
  local_eq g (nodes a) (nodes a').
Proof.
  intros Hwf Hst Hst' Hw E E'.
  destruct (InitializeIteration_go_Ok g i w) as (w1 & E1 & N1).
  { intros v Hv _. now apply Hst. }
  destruct (InitializeIteration_go_Ok g i w') as (w1' & E1' & N1').
  { intros v Hv _. now apply Hst'. }
  assert (H1 : local_eq g (nodes w1) (nodes w1')).
  { intros v Hv. rewrite N1, N1'. apply Nat.ltb_lt in Hv as Hv'.
    rewrite Hv'. apply InitializeIteration_node_lengths. now apply Hw. }
  unfold BC_iteration, BC_phases, BC_upto_NumShortestPaths, BC_upto_SSSP
    in E, E'.
  rewrite E1 in E. rewrite E1' in E'. cbn [bind] in E, E'.
  apply bind_Ok_inv in E as (w5 & E & Ea). injection Ea as <-.
  apply bind_Ok_inv in E' as (w5' & E' & Ea'). injection Ea' as <-.
  apply bind_Ok_inv in E as (w4 & E & E5).
  apply bind_Ok_inv in E' as (w4' & E' & E5').
  apply bind_Ok_inv in E as (w2 & E2 & E4).
  apply bind_Ok_inv in E' as (w2' & E2' & E4').
  unfold SSSP_go in E2, E2'. unfold NumShortestPaths_go in E4, E4'.
  unfold DependencyPropogation_go in E5, E5'.
  assert (HF : local_eq g (nodes (FirstIterationSSSP_go g i w1))
                 (nodes (FirstIterationSSSP_go g i w1'))).
  { unfold FirstIterationSSSP_go. cbn [nodes sync with_nodes].
    apply do_all_congr_nd; [| |exact H1].
    - intros u nd nd' Hu. now apply FirstIterationSSSP_op_congr.
    - intros x Hx. destruct (isLocal g i) eqn:El; [|contradiction].
      destruct Hx as [<-|[]]. now apply (wf_lid g Hwf i). }
  pose proof (SSSP_loop_congr g Hwf fuel _ _ w2 w2' HF E2 E2') as H2.
  assert (H3 : local_eq g (nodes (PredAndSucc_go g w2))
                 (nodes (PredAndSucc_go g w2'))).
  { unfold PredAndSucc_go. cbn [nodes sync with_nodes].
    apply do_all_congr_nd; [| |exact H2].
    - intros u nd nd' Hu. now apply PredAndSucc_op_congr.
    - apply all_nodes_local. }
  pose proof (NumShortestPaths_loop_congr g Hwf fuel _ _ w4 w4' H3 E4 E4')
    as H4.
  pose proof (DependencyPropogation_loop_congr g i Hwf fuel _ _ w5 w5'
                H4 E5 E5') as H5.
  cbn [nodes with_nodes]. intros v Hv.
  rewrite !(do_all_local BC_op
              (fun _ d =>
                 set_dependency F32.zero
                   (set_betweeness_centrality
                      (F32.add (betweeness_centrality d) (dependency d)) d))
              BC_op_spec) by apply seq_NoDup.
  now rewrite (H5 v Hv).
Qed.

Lemma local_eq_weaken g nd nd' :
  local_eq g nd nd' -> local_eq_but_lengths g nd nd'.
Proof. intros H v Hv. now rewrite (H v Hv). Qed.

Lemma BC_sources_congr g fuel : wf_graph g -> forall srcs w w' a a',
  Iter_start g (nodes w) -> Iter_start g (nodes w') ->
  local_eq_but_lengths g (nodes w) (nodes w') ->
  BC_sources fuel g srcs w = Ok a -> BC_sources fuel g srcs w' = Ok a' ->
  local_eq_but_lengths g (nodes a) (nodes a') /\
  (srcs <> [] -> local_eq g (nodes a) (nodes a')).
Proof.
  intros Hwf. induction srcs as [|i rest IH]; intros w w' a a' Hst Hst' Hw E E'.
  - injection E as <-. injection E' as <-. split; [exact Hw|].
    intros H. now contradiction H.
  - cbn [BC_sources] in E, E'.
    apply bind_Ok_inv in E as (w1 & E1 & E).
    apply bind_Ok_inv in E' as (w1' & E1' & E').
    pose proof (BC_iteration_congr g i fuel w w' w1 w1' Hwf Hst Hst' Hw
                  E1 E1') as H1.
    pose proof (BC_iteration_Iter_start g i w fuel w1 Hwf Hst E1) as Hs1.
    pose proof (BC_iteration_Iter_start g i w' fuel w1' Hwf Hst' E1') as Hs1'.
    destruct (IH w1 w1' a a' Hs1 Hs1' (local_eq_weaken g _ _ H1) E E')
      as [Ha Hb].
    split; [exact Ha|]. intros _.
    destruct rest as [|j rest]; [|apply Hb; discriminate].
    injection E as <-. injection E' as <-. exact H1.
Qed.

(* ------------------------------------------------------------------ *)
(** ** The runs of main *)

Lemma InitializeGraph_go_nodes g w v :
  nodes (InitializeGraph_go g w) v =
  if (v <? numNodes g)%nat
  then mkNodeData (current_length (nodes w v)) (old_length (nodes w v))
         0 0 0 0 0 F32.zero F32.zero F32.zero false
  else nodes w v.
Proof.
  unfold InitializeGraph_go. rewrite fold_sync_nodes. simpl.
  rewrite (do_all_local InitializeGraph_op
             (fun _ d =>
                set_propogation_flag false
                  (set_dependency F32.zero
                    (set_to_add_float F32.zero
                      (set_to_add 0
                        (set_trim 0
                          (set_num_predecessors 0
                            (set_num_successors 0
                              (set_num_shortest_paths 0
                                (set_betweeness_centrality F32.zero
                                   d)))))))))
             InitializeGraph_op_spec) by apply seq_NoDup.
  rewrite mem_all_nodes. destruct (v <? numNodes g)%nat; [|reflexivity].
  now destruct (nodes w v).
Qed.

Lemma InitializeGraph_but_lengths g w w' :
  local_eq_but_lengths g (nodes (InitializeGraph_go g w))
    (nodes (InitializeGraph_go g w')).
Proof.
  intros v Hv. rewrite !InitializeGraph_go_nodes.
  apply Nat.ltb_lt in Hv. now rewrite Hv.
Qed.

Lemma main_runs_one fuel o g w :
  main_runs fuel o g 1 w = BC_go fuel o g w.
Proof. cbn [main_runs]. now destruct (BC_go fuel o g w). Qed.

Lemma main_runs_more fuel o g r w :
  main_runs fuel o g (S (S r)) w =
  (w1 <- BC_go fuel o g w ;;
   main_runs fuel o g (S r) (InitializeGraph_go g w1)).
Proof. reflexivity. Qed.

Lemma main_runs_settled fuel o g k : forall runs w,
  settled (main_runs fuel o g runs w) ->
  main_runs (fuel + k) o g runs w = main_runs fuel o g runs w.
Proof.
  induction runs as [|r IH]; intros w H; [reflexivity|].
  cbn [main_runs] in *. unfold BC_go in *.
  pose proof (settled_bind _ _ H) as H1.
  rewrite (BC_sources_settled fuel g k _ w H1).
  destruct (BC_sources fuel g (sources o g) w) as [w1| |]; cbn [bind] in *;
    try reflexivity.
  destruct r as [|r']; [reflexivity|]. now apply IH.
Qed.

Lemma main_runs_total g o : wf_graph g -> forall runs w,
  Iter_start g (nodes w) ->
  exists fuel w', main_runs fuel o g runs w = Ok w'.
Proof.
  intros Hwf. induction runs as [|r IH]; intros w Hst.
  - exists 0%nat, w. reflexivity.
  - destruct (BC_sources_total g (sources o g) w Hwf Hst)
      as (f1 & w1 & E1 & _).
    destruct r as [|r'].
    + exists f1, w1. rewrite main_runs_one. unfold BC_go. exact E1.
    + destruct (IH (InitializeGraph_go g w1)
                  (InitializeGraph_Iter_start g w1)) as (f2 & w2 & E2).
      exists (f1 + f2)%nat, w2. rewrite main_runs_more. unfold BC_go.
      rewrite (BC_sources_settled f1 g f2 _ w (settled_Ok _ _ E1)), E1.
      cbn [bind]. rewrite Nat.add_comm.
      now rewrite (main_runs_settled f2 o g f1 _ _ (settled_Ok _ _ E2)).
Qed.

Lemma local_eq_but_lengths_trans g a b c :
  local_eq_but_lengths g a b -> local_eq_but_lengths g b c ->
  local_eq_but_lengths g a c.
Proof. intros H1 H2 v Hv. now rewrite (H1 v Hv), (H2 v Hv). Qed.

Lemma local_eq_trans g a b c :
  local_eq g a b -> local_eq g b c -> local_eq g a c.
Proof. intros H1 H2 v Hv. now rewrite (H1 v Hv), (H2 v Hv). Qed.

Lemma main_runs_first fuel o g r w a :
  main_runs fuel o g (S r) w = Ok a ->
  exists a2, BC_go fuel o g w = Ok a2.
Proof.
  destruct r as [|r].
  - rewrite main_runs_one. intros E. now exists a.
  - rewrite main_runs_more. intros E.
    apply bind_Ok_inv in E as (a2 & E2 & _). now exists a2.
Qed.

(** The last of any number of runs ends as a single run does. *)
Lemma main_runs_same g o fuel : wf_graph g -> forall r w0 a a1,
  main_runs fuel o g (S r) (InitializeGraph_go g w0) = Ok a ->
  BC_go fuel o g (InitializeGraph_go g w0) = Ok a1 ->
  local_eq_but_lengths g (nodes a) (nodes a1) /\
  (sources o g <> [] -> local_eq g (nodes a) (nodes a1)).
Proof.
  intros Hwf. induction r as [|r IH]; intros w0 a a1 E E1.
  - rewrite main_runs_one, E1 in E. injection E as <-.
    split; intros; intros v Hv; reflexivity.
  - rewrite main_runs_more, E1 in E. cbn [bind] in E.
    destruct (main_runs_first fuel o g r _ a E) as (a2 & E2).
    destruct (IH a1 a a2 E E2) as [Ha Hb].
    unfold BC_go in E1, E2.
    destruct (BC_sources_congr g fuel Hwf (sources o g) _ _ a2 a1
                (InitializeGraph_Iter_start g a1)
                (InitializeGraph_Iter_start g w0)
                (InitializeGraph_but_lengths g a1 w0) E2 E1) as [Hc Hd].
    split.
    + exact (local_eq_but_lengths_trans g _ _ _ Ha Hc).
    + intros Hne. exact (local_eq_trans g _ _ _ (Hb Hne) (Hd Hne)).
Qed.

(** X11. One host, serial schedule.  [main] on a well-formed graph, for
    any options, any number of runs and any initial memory: it completes
    and no assertion fails; with numRuns <= 0 it only initialises the
    graph; and with numRuns >= 1 the state it ends in agrees at every
    local node, on every field other than the two lengths, with the
    state a single run ends in - and on the two lengths as well when
    there is at least one source.  So every run computes the same
    centralities, although InitializeGraph between two runs does not
    reset current_length and old_length. *)
Theorem X11_main_runs : forall g o numRuns w0,
  wf_graph g ->
  (exists fuel w', main fuel o g numRuns w0 = Ok w') /\
  (forall fuel msg, main fuel o g numRuns w0 <> AssertFail msg) /\
  (numRuns <= 0 ->
   forall fuel, main fuel o g numRuns w0 = Ok (InitializeGraph_go g w0)) /\
  (1 <= numRuns ->
   forall fuel w' w1,
     main fuel o g numRuns w0 = Ok w' -> main_run fuel o g w0 = Ok w1 ->
     forall v, (v < numNodes g)%nat ->
       without_lengths (nodes w' v) = without_lengths (nodes w1 v) /\
       (sources o g <> [] -> nodes w' v = nodes w1 v)).
Proof.
  intros g o numRuns w0 Hwf. unfold main.
  destruct (main_runs_total g o Hwf (Z.to_nat numRuns)
              (InitializeGraph_go g w0) (InitializeGraph_Iter_start g w0))
    as (f0 & a0 & E0).
  split; [now exists f0, a0|]. split; [|split].
  - intros fuel msg E.
    assert (Hs : settled (main_runs fuel o g (Z.to_nat numRuns)
                            (InitializeGraph_go g w0)))
      by (rewrite E; discriminate).
    pose proof (main_runs_settled fuel o g f0 _ _ Hs) as H1.
    pose proof (main_runs_settled f0 o g fuel _ _ (settled_Ok _ _ E0)) as H2.
    rewrite Nat.add_comm in H2. rewrite H2, E0, E in H1. discriminate.
  - intros Hle fuel. replace (Z.to_nat numRuns) with 0%nat by lia.
    reflexivity.
  - intros Hge fuel w' w1 E E1 v Hv.
    destruct (Z.to_nat numRuns) as [|r] eqn:Er; [lia|].
    unfold main_run in E1.
    destruct (main_runs_same g o fuel Hwf r w0 w' w1 E E1) as [Ha Hb].
    split; [now apply Ha|]. intros Hne. now apply Hb.
Qed.

Lemma X11_main_runs_witness :
  without_lengths
    (nodes (final fresh_world
              (main 3 all_sources diamond_graph 2 fresh_world)) 3%nat)
  = without_lengths
      (nodes (final fresh_world
                (main_run 3 all_sources diamond_graph fresh_world)) 3%nat) /\
  nodes (final fresh_world
           (main 3 all_sources diamond_graph 2 fresh_world)) 3%nat
  = nodes (final fresh_world
             (main_run 3 all_sources diamond_graph fresh_world)) 3%nat.
Proof.
  assert (E : main 3 all_sources diamond_graph 2 fresh_world
              = Ok (final fresh_world
                      (main 3 all_sources diamond_graph 2 fresh_world))).
  { apply final_Ok. vm_compute. exact I. }
  assert (E1 : main_run 3 all_sources diamond_graph fresh_world
               = Ok (final fresh_world
                       (main_run 3 all_sources diamond_graph fresh_world))).
  { apply final_Ok. vm_compute. exact I. }
  assert (H12 : 1 <= 2) by lia.
  assert (H3 : (3 < numNodes diamond_graph)%nat) by (simpl; lia).
  assert (Hne : sources all_sources diamond_graph <> [])
    by (vm_compute; discriminate).
  pose proof (proj2 (proj2 (proj2 (X11_main_runs diamond_graph all_sources 2
                                     fresh_world diamond_wf)))
                H12 3%nat _ _ E E1 3%nat H3) as [Ha Hb].
  split; [exact Ha | exact (Hb Hne)].
Defined.

(* ------------------------------------------------------------------ *)
(** ** The operators with their bitsets compute the same node data *)

Lemma fold_left_fst {S T} (step : S * T -> GNode -> S * T)
  (step0 : S -> GNode -> S) :
  (forall s x, fst (step s x) = step0 (fst s) x) ->
  forall l s, fst (fold_left step l s) = fold_left step0 l (fst s).
Proof.
  intros H. induction l as [|x l IH]; intros s; [reflexivity|].
  cbn [fold_left]. now rewrite IH, H.
Qed.

Lemma FirstIterationSSSP_op_bits_data g src s :
  fst (FirstIterationSSSP_op_bits g src s)
  = FirstIterationSSSP_op g src (fst s).
Proof.
  unfold FirstIterationSSSP_op_bits, FirstIterationSSSP_op.
  apply fold_left_fst. now intros [nd bs] x.
Qed.

Lemma SSSP_op_bits_data g src s :
  fst (SSSP_op_bits g src s) = SSSP_op g src (fst s).
Proof.
  destruct s as [[nd acc] bs]. unfold SSSP_op_bits, SSSP_op. cbn [fst].
  destruct (_ >? _); [|reflexivity].
  rewrite (fold_left_fst (SSSP_relax_bits src) (SSSP_relax src));
    [reflexivity|].
  intros [[a c] b] x. unfold SSSP_relax_bits, SSSP_relax, atomicMin.
  cbn [fst]. now destruct (_ >? _).
Qed.

Lemma PredAndSucc_op_bits_data g src s :
  fst (PredAndSucc_op_bits infinity g src s)
  = PredAndSucc_op infinity g src (fst s).
Proof.
  unfold PredAndSucc_op_bits, PredAndSucc_op.
  destruct (negb _); [|reflexivity].
  apply fold_left_fst. intros [nd bs] x.
  unfold PredAndSucc_edge_bits, PredAndSucc_edge. cbn [fst].
  now destruct (_ =? _).
Qed.

Lemma NumShortestPaths_op_bits_data g src s :
  fst (NumShortestPaths_op_bits infinity g src s)
  = NumShortestPaths_op infinity g src (fst s).
Proof.
  destruct s as [[nd acc] bs].
  unfold NumShortestPaths_op_bits, NumShortestPaths_op. cbn [fst].
  destruct (negb _); [|reflexivity].
  destruct (_ && _); [|reflexivity].
  assert (H : fst (fold_left (NumShortestPaths_edge_bits src)
                     (edge_dsts g src) (nd, acc, bs))
              = fold_left (NumShortestPaths_edge src) (edge_dsts g src)
                  (nd, acc)).
  { apply (fold_left_fst (NumShortestPaths_edge_bits src)
             (NumShortestPaths_edge src)).
    intros [[a c] b] x.
    unfold NumShortestPaths_edge_bits, NumShortestPaths_edge. cbn [fst].
    now destruct (_ =? _). }
  rewrite <- H.
  now destruct (fold_left (NumShortestPaths_edge_bits src) (edge_dsts g src)
                  (nd, acc, bs)) as [[nd1 acc1] bs1].
Qed.

Lemma DependencyPropogation_op_bits_data g i src s :
  fst (DependencyPropogation_op_bits infinity i g src s)
  = DependencyPropogation_op infinity i g src (fst s).
Proof.
  destruct s as [[nd acc] bs].
  unfold DependencyPropogation_op_bits, DependencyPropogation_op. cbn [fst].
  destruct (negb (current_length _ =? _)); [|reflexivity].
  destruct (_ >? _); [|reflexivity].
  destruct (negb (getGID g src =? i)); [|reflexivity].
  apply fold_left_fst. intros [[a c] b] x.
  unfold DependencyPropogation_edge_bits, DependencyPropogation_edge.
  cbn [fst]. destruct (propogation_flag (a x)); [|reflexivity].
  now destruct (_ =? _).
Qed.

Lemma NumShortestPathsChanges_op_bits_data g src s :
  res_map fst (NumShortestPathsChanges_op_bits g src s)
  = NumShortestPathsChanges_op g src (fst s).
Proof.
  destruct s as [nd bs].
  unfold NumShortestPathsChanges_op_bits, NumShortestPathsChanges_op, assert.
  cbn [fst].
  repeat (match goal with
          | |- context [if ?b then _ else _] => destruct b
          end; cbn [bind res_map fst]);
    reflexivity.
Qed.

Lemma DependencyPropChanges_op_bits_data g src s :
  res_map fst (DependencyPropChanges_op_bits infinity g src s)
  = DependencyPropChanges_op infinity g src (fst s).
Proof.
  destruct s as [nd bs].
  unfold DependencyPropChanges_op_bits, DependencyPropChanges_op, assert.
  cbn [fst].
  destruct (negb _); [|reflexivity].
  destruct (f32_gt_zero (to_add_float (nd src)));
    repeat (match goal with
            | |- context [if ?b then _ else _] => destruct b
            end; cbn [bind res_map fst]);
    reflexivity.
Qed.

Lemma do_all_fst {S T} (op : GNode -> S * T -> S * T)
  (op0 : GNode -> S -> S) :
  (forall u s, fst (op u s) = op0 u (fst s)) ->
  forall l s, fst (do_all l op s) = do_all l op0 (fst s).
Proof.
  intros H. unfold do_all.
  apply (fold_left_fst (fun s n => op n s) (fun s n => op0 n s)).
  intros s x. apply H.
Qed.

Lemma do_all_res_fst {S T} (op : GNode -> S * T -> Res (S * T))
  (op0 : GNode -> S -> Res S) :
  (forall u s, res_map fst (op u s) = op0 u (fst s)) ->
  forall l s, res_map fst (do_all_res l op s) = do_all_res l op0 (fst s).
Proof.
  intros H. induction l as [|x l IH]; intros s; [reflexivity|].
  cbn [do_all_res]. rewrite <- H.
  destruct (op x s) as [s1| |]; cbn [bind res_map]; [apply IH | | ];
    reflexivity.
Qed.

(* ------------------------------------------------------------------ *)
(** ** What the operators mark in the bitsets *)

Lemma marks_changes_refl {X} (p : NodeData -> X) b nd bs :
  marks_changes p b nd bs nd bs.
Proof. split; [intros v H; now contradiction H | auto]. Qed.

Lemma marks_changes_trans {X} (p : NodeData -> X) b
  (dec : forall x y : X, {x = y} + {x <> y}) nd bs nd1 bs1 nd2 bs2 :
  marks_changes p b nd bs nd1 bs1 -> marks_changes p b nd1 bs1 nd2 bs2 ->
  marks_changes p b nd bs nd2 bs2.
Proof.
  intros [H1 M1] [H2 M2]. split; [|auto].
  intros v Hv. destruct (dec (p (nd1 v)) (p (nd v))) as [E|E].
  - apply H2. congruence.
  - apply M2, H1. exact E.
Qed.

Lemma fold_marks {S X} (nodes_of : S -> NodeMap) (bits_of : S -> Bitsets)
  (p : NodeData -> X) b (dec : forall x y : X, {x = y} + {x <> y})
  (step : S -> GNode -> S) :
  (forall s x, marks_changes p b (nodes_of s) (bits_of s)
                 (nodes_of (step s x)) (bits_of (step s x))) ->
  forall l s, marks_changes p b (nodes_of s) (bits_of s)
                (nodes_of (fold_left step l s))
                (bits_of (fold_left step l s)).
Proof.
  intros H. induction l as [|x l IH]; intros s;
    [apply marks_changes_refl|].
  cbn [fold_left].
  exact (marks_changes_trans p b dec _ _ _ _ _ _ (H s x) (IH (step s x))).
Qed.

Lemma do_all_res_marks {X} (p : NodeData -> X) b
  (dec : forall x y : X, {x = y} + {x <> y})
  (op : GNode -> NodeMap * Bitsets -> Res (NodeMap * Bitsets)) :
  (forall u s s', op u s = Ok s' ->
     marks_changes p b (fst s) (snd s) (fst s') (snd s')) ->
  forall l s s', do_all_res l op s = Ok s' ->
    marks_changes p b (fst s) (snd s) (fst s') (snd s').
Proof.
  intros H. induction l as [|x l IH]; intros s s' E.
  - injection E as <-. apply marks_changes_refl.
  - cbn [do_all_res] in E. apply bind_Ok_inv in E as (s1 & E1 & E).
    exact (marks_changes_trans p b dec _ _ _ _ _ _ (H x s s1 E1)
             (IH s1 s' E)).
Qed.

Lemma spec_float_eq_dec (x y : spec_float) : {x = y} + {x <> y}.
Proof.
  decide equality; try apply Bool.bool_dec; try apply Z.eq_dec;
    apply Pos.eq_dec.
Qed.

Ltac marks_step :=
  unfold marks_changes, mark_to_add, mark_to_add_float,
    mark_num_shortest_paths, mark_num_successors, mark_num_predecessors,
    mark_trim, mark_current_length, mark_propogation_flag, mark_dependency,
    modify, upd, bitset_set;
  cbn -[Z.add Z.sub Z.min wrap32 F32.add dependency_delta Nat.eqb];
  split; intros v;
  repeat (match goal with
          | |- context [Nat.eqb ?a ?b] => destruct (Nat.eqb_spec a b)
          end; subst;
          cbn -[Z.add Z.sub Z.min wrap32 F32.add dependency_delta Nat.eqb]);
  try congruence; auto.

Lemma FirstIterationSSSP_relax_bits_marks src s dst :
  marks_changes current_length bitset_current_length (fst s) (snd s)
    (fst (FirstIterationSSSP_relax_bits src s dst))
    (snd (FirstIterationSSSP_relax_bits src s dst)).
Proof.
  destruct s as [nd bs]. unfold FirstIterationSSSP_relax_bits.
  marks_step.
Qed.

Lemma SSSP_relax_bits_marks src s dst :
  marks_changes current_length bitset_current_length
    (fst (fst s)) (snd s)
    (fst (fst (SSSP_relax_bits src s dst)))
    (snd (SSSP_relax_bits src s dst)).
Proof.
  destruct s as [[nd acc] bs]. unfold SSSP_relax_bits, atomicMin.
  destruct (Z.gtb_spec (current_length (nd dst))
              (wrap32 (1 + current_length (nd src)))); marks_step.
  intros Hne. exfalso. apply Hne. apply Z.min_l. lia.
Qed.

Lemma PredAndSucc_edge_bits_marks src s dst :
  marks_changes num_successors bitset_num_successors (fst s) (snd s)
    (fst (PredAndSucc_edge_bits src s dst))
    (snd (PredAndSucc_edge_bits src s dst)) /\
  marks_changes num_predecessors bitset_num_predecessors (fst s) (snd s)
    (fst (PredAndSucc_edge_bits src s dst))
    (snd (PredAndSucc_edge_bits src s dst)).
Proof.
  destruct s as [nd bs]. unfold PredAndSucc_edge_bits.
  destruct (_ =? _); split; marks_step.
Qed.

Lemma NumShortestPaths_edge_bits_marks src s dst :
  marks_changes to_add bitset_to_add (fst (fst s)) (snd s)
    (fst (fst (NumShortestPaths_edge_bits src s dst)))
    (snd (NumShortestPaths_edge_bits src s dst)) /\
  marks_changes trim bitset_trim (fst (fst s)) (snd s)
    (fst (fst (NumShortestPaths_edge_bits src s dst)))
    (snd (NumShortestPaths_edge_bits src s dst)).
Proof.
  destruct s as [[nd acc] bs]. unfold NumShortestPaths_edge_bits.
  destruct (_ =? _); split; marks_step.
Qed.

Lemma DependencyPropogation_edge_bits_marks src s dst :
  marks_changes trim bitset_trim (fst (fst s)) (snd s)
    (fst (fst (DependencyPropogation_edge_bits src s dst)))
    (snd (DependencyPropogation_edge_bits src s dst)) /\
  marks_changes to_add_float bitset_to_add_float (fst (fst s)) (snd s)
    (fst (fst (DependencyPropogation_edge_bits src s dst)))
    (snd (DependencyPropogation_edge_bits src s dst)).
Proof.
  destruct s as [[nd acc] bs]. unfold DependencyPropogation_edge_bits.
  destruct (propogation_flag (nd dst)); [|split; marks_step].
  destruct (_ =? _); split; marks_step.
Qed.

Lemma marks_lowered_refl nd bs : marks_lowered nd bs nd bs.
Proof. split; [intros v; lia | auto]. Qed.

Lemma marks_lowered_trans nd bs nd1 bs1 nd2 bs2 :
  marks_lowered nd bs nd1 bs1 -> marks_lowered nd1 bs1 nd2 bs2 ->
  marks_lowered nd bs nd2 bs2.
Proof.
  intros [L1 M1] [L2 M2]. split.
  - intros v. specialize (L1 v). specialize (L2 v). lia.
  - intros v Hv. specialize (L1 v). specialize (L2 v).
    destruct (M2 v Hv) as [H|H]; [|right; lia].
    destruct (M1 v H) as [H'|H']; [now left | right; lia].
Qed.

Lemma SSSP_relax_bits_lowered src s dst :
  marks_lowered (fst (fst s)) (snd s)
    (fst (fst (SSSP_relax_bits src s dst)))
    (snd (SSSP_relax_bits src s dst)).
Proof.
  destruct s as [[nd acc] bs]. unfold SSSP_relax_bits, atomicMin.
  destruct (Z.gtb_spec (current_length (nd dst))
              (wrap32 (1 + current_length (nd src))));
    unfold marks_lowered, mark_current_length, modify, upd, bitset_set;
    cbn -[Z.add Z.min wrap32 Nat.eqb]; split; intros v;
    destruct (Nat.eqb_spec v dst); subst;
    cbn -[Z.add Z.min wrap32 Nat.eqb]; try lia; auto.
Qed.

Lemma SSSP_op_bits_marks g src s :
  marks_changes current_length bitset_current_length (fst (fst s)) (snd s)
    (fst (fst (SSSP_op_bits g src s))) (snd (SSSP_op_bits g src s)) /\
  marks_lowered (fst (fst s)) (snd s)
    (fst (fst (SSSP_op_bits g src s))) (snd (SSSP_op_bits g src s)).
Proof.
  destruct s as [[nd acc] bs]. unfold SSSP_op_bits.
  destruct (_ >? _);
    [|split; [apply marks_changes_refl | apply marks_lowered_refl]].
  set (nd1 := modify nd src (fun d => set_old_length (current_length d) d)).
  assert (H1 : forall v, current_length (nd1 v) = current_length (nd v)).
  { intros v. unfold nd1, modify, upd.
    destruct (Nat.eqb_spec v src) as [->|_]; reflexivity. }
  split.
  - apply (marks_changes_trans current_length bitset_current_length
             Z.eq_dec nd bs nd1 bs).
    + split; [intros v Hv; now rewrite H1 in Hv | auto].
    + apply (fold_marks (fun s => fst (fst s)) snd current_length
               bitset_current_length Z.eq_dec (SSSP_relax_bits src)
               (SSSP_relax_bits_marks src) (edge_dsts g src) (nd1, acc, bs)).
  - apply (marks_lowered_trans nd bs nd1 bs).
    + split; [intros v; rewrite H1; lia | auto].
    + assert (Hf : forall l s,
                marks_lowered (fst (fst s)) (snd s)
                  (fst (fst (fold_left (SSSP_relax_bits src) l s)))
                  (snd (fold_left (SSSP_relax_bits src) l s))).
      { induction l as [|x l IH]; intros s; [apply marks_lowered_refl|].
        cbn [fold_left].
        exact (marks_lowered_trans _ _ _ _ _ _
                 (SSSP_relax_bits_lowered src s x)
                 (IH (SSSP_relax_bits src s x))). }
      exact (Hf (edge_dsts g src) (nd1, acc, bs)).
Qed.

Lemma FirstIterationSSSP_op_bits_marks g src s :
  marks_changes current_length bitset_current_length (fst s) (snd s)
    (fst (FirstIterationSSSP_op_bits g src s))
    (snd (FirstIterationSSSP_op_bits g src s)) /\
  forall v, bitset_current_length (snd (FirstIterationSSSP_op_bits g src s)) v
            = bitset_current_length (snd s) v || mem v (edge_dsts g src).
Proof.
  unfold FirstIterationSSSP_op_bits. split.
  - apply (fold_marks fst snd current_length bitset_current_length Z.eq_dec
             (FirstIterationSSSP_relax_bits src)
             (FirstIterationSSSP_relax_bits_marks src)).
  - intros v. revert s. induction (edge_dsts g src) as [|x l IH]; intros s.
    + simpl. now rewrite orb_false_r.
    + cbn [fold_left]. rewrite IH, mem_cons. destruct s as [nd bs].
      unfold FirstIterationSSSP_relax_bits, mark_current_length, bitset_set.
      cbn [snd bitset_current_length].
      destruct (Nat.eqb v x); cbn [orb];
        [now rewrite orb_true_r | reflexivity].
Qed.

Lemma PredAndSucc_op_bits_marks g src s :
  marks_changes num_successors bitset_num_successors (fst s) (snd s)
    (fst (PredAndSucc_op_bits infinity g src s))
    (snd (PredAndSucc_op_bits infinity g src s)) /\
  marks_changes num_predecessors bitset_num_predecessors (fst s) (snd s)
    (fst (PredAndSucc_op_bits infinity g src s))
    (snd (PredAndSucc_op_bits infinity g src s)).
Proof.
  unfold PredAndSucc_op_bits.
  destruct (negb _); [|split; apply marks_changes_refl].
  split.
  - apply (fold_marks fst snd num_successors bitset_num_successors Z.eq_dec
             (PredAndSucc_edge_bits src)
             (fun s x => proj1 (PredAndSucc_edge_bits_marks src s x))).
  - apply (fold_marks fst snd num_predecessors bitset_num_predecessors
             Z.eq_dec (PredAndSucc_edge_bits src)
             (fun s x => proj2 (PredAndSucc_edge_bits_marks src s x))).
Qed.

Lemma NumShortestPaths_op_bits_marks g src s :
  marks_changes to_add bitset_to_add (fst (fst s)) (snd s)
    (fst (fst (NumShortestPaths_op_bits infinity g src s)))
    (snd (NumShortestPaths_op_bits infinity g src s)) /\
  marks_changes trim bitset_trim (fst (fst s)) (snd s)
    (fst (fst (NumShortestPaths_op_bits infinity g src s)))
    (snd (NumShortestPaths_op_bits infinity g src s)).
Proof.
  destruct s as [[nd acc] bs]. unfold NumShortestPaths_op_bits.
  destruct (negb _); [|split; apply marks_changes_refl].
  destruct (_ && _); [|split; apply marks_changes_refl].
  pose proof (fold_marks (fun s => fst (fst s)) snd to_add bitset_to_add
                Z.eq_dec (NumShortestPaths_edge_bits src)
                (fun s x => proj1 (NumShortestPaths_edge_bits_marks src s x))
                (edge_dsts g src) (nd, acc, bs)) as Ha.
  pose proof (fold_marks (fun s => fst (fst s)) snd trim bitset_trim
                Z.eq_dec (NumShortestPaths_edge_bits src)
                (fun s x => proj2 (NumShortestPaths_edge_bits_marks src s x))
                (edge_dsts g src) (nd, acc, bs)) as Hb.
  destruct (fold_left (NumShortestPaths_edge_bits src) (edge_dsts g src)
              (nd, acc, bs)) as [[nd1 acc1] bs1].
  cbn [fst snd] in *.
  split.
  - apply (marks_changes_trans to_add bitset_to_add Z.eq_dec
             _ _ _ _ _ _ Ha). marks_step.
  - apply (marks_changes_trans trim bitset_trim Z.eq_dec
             _ _ _ _ _ _ Hb). marks_step.
Qed.

Lemma DependencyPropogation_op_bits_marks g i src s :
  marks_changes trim bitset_trim (fst (fst s)) (snd s)
    (fst (fst (DependencyPropogation_op_bits infinity i g src s)))
    (snd (DependencyPropogation_op_bits infinity i g src s)) /\
  marks_changes to_add_float bitset_to_add_float (fst (fst s)) (snd s)
    (fst (fst (DependencyPropogation_op_bits infinity i g src s)))
    (snd (DependencyPropogation_op_bits infinity i g src s)).
Proof.
  destruct s as [[nd acc] bs]. unfold DependencyPropogation_op_bits.
  destruct (negb (current_length _ =? _));
    [|split; apply marks_changes_refl].
  destruct (_ >? _); [|split; apply marks_changes_refl].
  destruct (negb (getGID g src =? i)).
  - split.
    + apply (fold_marks (fun s => fst (fst s)) snd trim bitset_trim
               Z.eq_dec (DependencyPropogation_edge_bits src)
               (fun s x =>
                  proj1 (DependencyPropogation_edge_bits_marks src s x))).
    + apply (fold_marks (fun s => fst (fst s)) snd to_add_float
               bitset_to_add_float spec_float_eq_dec
               (DependencyPropogation_edge_bits src)
               (fun s x =>
                  proj2 (DependencyPropogation_edge_bits_marks src s x))).
  - split; marks_step.
Qed.

Lemma fold_lowered {S} (nodes_of : S -> NodeMap) (bits_of : S -> Bitsets)
  (step : S -> GNode -> S) :
  (forall s x, marks_lowered (nodes_of s) (bits_of s)
                 (nodes_of (step s x)) (bits_of (step s x))) ->
  forall l s, marks_lowered (nodes_of s) (bits_of s)
                (nodes_of (fold_left step l s))
                (bits_of (fold_left step l s)).
Proof.
  intros H. induction l as [|x l IH]; intros s;
    [apply marks_lowered_refl|].
  cbn [fold_left].
  exact (marks_lowered_trans _ _ _ _ _ _ (H s x) (IH (step s x))).
Qed.

(** X12. The bitset of current_length in the breadth-first phase.  The
    operators with their bitsets compute the same node data and
    accumulator as without.  In a pass of SSSP's operator over all nodes,
    from any state and any bitset: every node whose current_length has
    changed is marked, no mark is lost, no current_length grows, and
    every newly marked node has a strictly lower current_length.
    FirstIterationSSSP's operator at a node marks every destination of
    its edges, whether or not its current_length changed, and marks
    nothing else. *)
Theorem X12_current_length_bitset : forall g,
  (forall nd acc bs,
     fst (do_all (all_nodes g) (SSSP_op_bits g) (nd, acc, bs))
     = do_all (all_nodes g) (SSSP_op g) (nd, acc) /\
     (forall v,
        current_length
          (fst (fst (do_all (all_nodes g) (SSSP_op_bits g) (nd, acc, bs))) v)
        <> current_length (nd v) ->
        bitset_current_length
          (snd (do_all (all_nodes g) (SSSP_op_bits g) (nd, acc, bs))) v
        = true) /\
     (forall v,
        bitset_current_length bs v = true ->
        bitset_current_length
          (snd (do_all (all_nodes g) (SSSP_op_bits g) (nd, acc, bs))) v
        = true) /\
     (forall v,
        current_length
          (fst (fst (do_all (all_nodes g) (SSSP_op_bits g) (nd, acc, bs))) v)
        <= current_length (nd v)) /\
     (forall v,
        bitset_current_length
          (snd (do_all (all_nodes g) (SSSP_op_bits g) (nd, acc, bs))) v
        = true ->
        bitset_current_length bs v = true \/
        current_length
          (fst (fst (do_all (all_nodes g) (SSSP_op_bits g) (nd, acc, bs))) v)
        < current_length (nd v))) /\
  (forall src nd bs,
     fst (FirstIterationSSSP_op_bits g src (nd, bs))
     = FirstIterationSSSP_op g src nd /\
     (forall v,
        current_length (fst (FirstIterationSSSP_op_bits g src (nd, bs)) v)
        <> current_length (nd v) ->
        bitset_current_length
          (snd (FirstIterationSSSP_op_bits g src (nd, bs))) v = true) /\
     (forall v,
        bitset_current_length
          (snd (FirstIterationSSSP_op_bits g src (nd, bs))) v
        = bitset_current_length bs v || mem v (edge_dsts g src))).
Proof.
  intros g. split.
  - intros nd acc bs.
    pose proof (fold_marks (fun s => fst (fst s)) snd current_length
                  bitset_current_length Z.eq_dec
                  (fun s n => SSSP_op_bits g n s)
                  (fun s x => proj1 (SSSP_op_bits_marks g x s))
                  (all_nodes g) (nd, acc, bs)) as [Hc Hm].
    pose proof (fold_lowered (fun s => fst (fst s)) snd
                  (fun s n => SSSP_op_bits g n s)
                  (fun s x => proj2 (SSSP_op_bits_marks g x s))
                  (all_nodes g) (nd, acc, bs)) as [Hl Hn].
    split; [|split; [exact Hc|split; [exact Hm|split; [exact Hl|exact Hn]]]].
    apply (do_all_fst (SSSP_op_bits g) (SSSP_op g) (SSSP_op_bits_data g)).
  - intros src nd bs.
    destruct (FirstIterationSSSP_op_bits_marks g src (nd, bs))
      as [[Hc _] Hb].
    split; [apply FirstIterationSSSP_op_bits_data|].
    split; [exact Hc | exact Hb].
Qed.

Lemma X12_current_length_bitset_witness :
  bitset_current_length
    (snd (do_all (all_nodes diamond_graph) (SSSP_op_bits diamond_graph)
            (nodes diamond_after_FirstIterationSSSP, 0, no_bits))) 3%nat
  = true /\
  (bitset_current_length no_bits 3%nat = true \/
   current_length
     (fst (fst (do_all (all_nodes diamond_graph) (SSSP_op_bits diamond_graph)
                  (nodes diamond_after_FirstIterationSSSP, 0, no_bits)))
        3%nat)
   < current_length (nodes diamond_after_FirstIterationSSSP 3%nat)) /\
  bitset_current_length
    (snd (FirstIterationSSSP_op_bits diamond_graph 0%nat
            (nodes diamond_after_InitializeIteration, no_bits))) 1%nat
  = true.
Proof.
  destruct (X12_current_length_bitset diamond_graph) as [Hs Hf].
  destruct (Hs (nodes diamond_after_FirstIterationSSSP) 0 no_bits)
    as (_ & Hc & _ & _ & Hn).
  destruct (Hf 0%nat (nodes diamond_after_InitializeIteration) no_bits)
    as (_ & Hfc & _).
  assert (H3 : bitset_current_length
                 (snd (do_all (all_nodes diamond_graph)
                         (SSSP_op_bits diamond_graph)
                         (nodes diamond_after_FirstIterationSSSP, 0,
                          no_bits))) 3%nat = true).
  { apply Hc. vm_compute. discriminate. }
  split; [exact H3|]. split; [exact (Hn 3%nat H3)|].
  apply Hfc. vm_compute. discriminate.
Defined.

(** X13. The bitsets of the counting passes.  The operators with their
    bitsets compute the same node data and accumulator as without, and
    in a pass over all nodes, from any state and any bitsets, every node
    whose field has changed is marked in the bitset of that field and no
    mark is lost: num_successors and num_predecessors in PredAndSucc,
    to_add and trim in NumShortestPaths, trim and to_add_float in
    DependencyPropogation. *)
Theorem X13_counting_bitsets : forall g,
  (forall nd bs,
     fst (do_all (all_nodes g) (PredAndSucc_op_bits infinity g) (nd, bs))
     = do_all (all_nodes g) (PredAndSucc_op infinity g) nd /\
     marks_changes num_successors bitset_num_successors nd bs
       (fst (do_all (all_nodes g) (PredAndSucc_op_bits infinity g) (nd, bs)))
       (snd (do_all (all_nodes g) (PredAndSucc_op_bits infinity g) (nd, bs)))
     /\
     marks_changes num_predecessors bitset_num_predecessors nd bs
       (fst (do_all (all_nodes g) (PredAndSucc_op_bits infinity g) (nd, bs)))
       (snd (do_all (all_nodes g) (PredAndSucc_op_bits infinity g)
               (nd, bs)))) /\
  (forall nd acc bs,
     fst (do_all (all_nodes g) (NumShortestPaths_op_bits infinity g)
            (nd, acc, bs))
     = do_all (all_nodes g) (NumShortestPaths_op infinity g) (nd, acc) /\
     marks_changes to_add bitset_to_add nd bs
       (fst (fst (do_all (all_nodes g) (NumShortestPaths_op_bits infinity g)
                    (nd, acc, bs))))
       (snd (do_all (all_nodes g) (NumShortestPaths_op_bits infinity g)
               (nd, acc, bs))) /\
     marks_changes trim bitset_trim nd bs
       (fst (fst (do_all (all_nodes g) (NumShortestPaths_op_bits infinity g)
                    (nd, acc, bs))))
       (snd (do_all (all_nodes g) (NumShortestPaths_op_bits infinity g)
               (nd, acc, bs)))) /\
  (forall i nd acc bs,
     fst (do_all (all_nodes g) (DependencyPropogation_op_bits infinity i g)
            (nd, acc, bs))
     = do_all (all_nodes g) (DependencyPropogation_op infinity i g)
         (nd, acc) /\
     marks_changes trim bitset_trim nd bs
       (fst (fst (do_all (all_nodes g)
                    (DependencyPropogation_op_bits infinity i g)
                    (nd, acc, bs))))
       (snd (do_all (all_nodes g)
               (DependencyPropogation_op_bits infinity i g) (nd, acc, bs)))
     /\
     marks_changes to_add_float bitset_to_add_float nd bs
       (fst (fst (do_all (all_nodes g)
                    (DependencyPropogation_op_bits infinity i g)
                    (nd, acc, bs))))
       (snd (do_all (all_nodes g)
               (DependencyPropogation_op_bits infinity i g) (nd, acc, bs)))).
Proof.
  intros g. split; [|split].
  - intros nd bs. split; [|split].
    + apply (do_all_fst (PredAndSucc_op_bits infinity g)
               (PredAndSucc_op infinity g) (PredAndSucc_op_bits_data g)).
    + apply (fold_marks fst snd num_successors bitset_num_successors
               Z.eq_dec (fun s n => PredAndSucc_op_bits infinity g n s)
               (fun s x => proj1 (PredAndSucc_op_bits_marks g x s))
               (all_nodes g) (nd, bs)).
    + apply (fold_marks fst snd num_predecessors bitset_num_predecessors
               Z.eq_dec (fun s n => PredAndSucc_op_bits infinity g n s)
               (fun s x => proj2 (PredAndSucc_op_bits_marks g x s))
               (all_nodes g) (nd, bs)).
  - intros nd acc bs. split; [|split].
    + apply (do_all_fst (NumShortestPaths_op_bits infinity g)
               (NumShortestPaths_op infinity g)
               (NumShortestPaths_op_bits_data g)).
    + apply (fold_marks (fun s => fst (fst s)) snd to_add bitset_to_add
               Z.eq_dec (fun s n => NumShortestPaths_op_bits infinity g n s)
               (fun s x => proj1 (NumShortestPaths_op_bits_marks g x s))
               (all_nodes g) (nd, acc, bs)).
    + apply (fold_marks (fun s => fst (fst s)) snd trim bitset_trim
               Z.eq_dec (fun s n => NumShortestPaths_op_bits infinity g n s)
               (fun s x => proj2 (NumShortestPaths_op_bits_marks g x s))
               (all_nodes g) (nd, acc, bs)).
  - intros i nd acc bs. split; [|split].
    + apply (do_all_fst (DependencyPropogation_op_bits infinity i g)
               (DependencyPropogation_op infinity i g)
               (DependencyPropogation_op_bits_data g i)).
    + apply (fold_marks (fun s => fst (fst s)) snd trim bitset_trim
               Z.eq_dec
               (fun s n => DependencyPropogation_op_bits infinity i g n s)
               (fun s x => proj1 (DependencyPropogation_op_bits_marks g i x s))
               (all_nodes g) (nd, acc, bs)).
    + apply (fold_marks (fun s => fst (fst s)) snd to_add_float
               bitset_to_add_float spec_float_eq_dec
               (fun s n => DependencyPropogation_op_bits infinity i g n s)
               (fun s x => proj2 (DependencyPropogation_op_bits_marks g i x s))
               (all_nodes g) (nd, acc, bs)).
Qed.

Lemma X13_counting_bitsets_witness :
  bitset_num_successors
    (snd (do_all (all_nodes diamond_graph)
            (PredAndSucc_op_bits infinity diamond_graph)
            (nodes diamond_after_SSSP, no_bits))) 0%nat = true /\
  bitset_num_predecessors
    (snd (do_all (all_nodes diamond_graph)
            (PredAndSucc_op_bits infinity diamond_graph)
            (nodes diamond_after_SSSP, no_bits))) 3%nat = true.
Proof.
  destruct (X13_counting_bitsets diamond_graph) as (Hp & _ & _).
  destruct (Hp (nodes diamond_after_SSSP) no_bits)
    as (_ & [Hs _] & [Hq _]).
  split; [apply Hs | apply Hq]; vm_compute; discriminate.
Defined.

(* ------------------------------------------------------------------ *)
(** ** The bitsets of the two passes that apply the pending updates *)

Lemma do_all_res_marks_exactly (b : Bitsets -> Bitset)
  (c : NodeData -> NodeData -> bool)
  (op : GNode -> NodeMap * Bitsets -> Res (NodeMap * Bitsets)) :
  (forall u nd bs nd' bs', op u (nd, bs) = Ok (nd', bs') ->
     (forall v, v <> u -> nd' v = nd v) /\
     (forall v, b bs' v = b bs v || (Nat.eqb v u && c (nd u) (nd' u)))) ->
  forall l, NoDup l -> forall nd bs nd' bs',
    do_all_res l op (nd, bs) = Ok (nd', bs') ->
    (forall v, ~ In v l -> nd' v = nd v) /\
    (forall v, b bs' v = b bs v || (mem v l && c (nd v) (nd' v))).
Proof.
  intros Hop. induction l as [|x l IH]; intros Hnd nd bs nd' bs' E.
  - injection E as <- <-. split; [reflexivity|].
    intros v. cbn. now rewrite orb_false_r.
  - inversion Hnd as [|? ? Hx Hl]; subst.
    cbn [do_all_res] in E. apply bind_Ok_inv in E as ([nd1 bs1] & E1 & E).
    destruct (Hop x nd bs nd1 bs1 E1) as [Ho Hb].
    destruct (IH Hl nd1 bs1 nd' bs' E) as [Ho' Hb'].
    split.
    + intros v Hv. rewrite Ho' by (intros Hin; apply Hv; now right).
      apply Ho. intros ->. apply Hv. now left.
    + intros v. rewrite Hb', Hb, mem_cons.
      destruct (Nat.eqb_spec v x) as [->|Hne]; cbn [andb orb].
      * rewrite (mem_false x l Hx). cbn [andb].
        rewrite orb_false_r. now rewrite (Ho' x Hx).
      * rewrite orb_false_r. now rewrite (Ho v Hne).
Qed.

Lemma do_all_res_keeps (b : Bitsets -> Bitset)
  (op : GNode -> NodeMap * Bitsets -> Res (NodeMap * Bitsets)) :
  (forall u s s', op u s = Ok s' -> forall v, b (snd s') v = b (snd s) v) ->
  forall l s s', do_all_res l op s = Ok s' ->
  forall v, b (snd s') v = b (snd s) v.
Proof.
  intros Hop. induction l as [|x l IH]; intros s s' E v.
  - now injection E as <-.
  - cbn [do_all_res] in E. apply bind_Ok_inv in E as (s1 & E1 & E).
    rewrite (IH s1 s' E v). exact (Hop x s s1 E1 v).
Qed.

Lemma NumShortestPathsChanges_op_bits_exact g u nd bs nd' bs' :
  NumShortestPathsChanges_op_bits g u (nd, bs) = Ok (nd', bs') ->
  (forall v, v <> u -> nd' v = nd v) /\
  (forall v, bitset_num_shortest_paths bs' v
             = bitset_num_shortest_paths bs v
               || (Nat.eqb v u && (to_add (nd u) >? 0))) /\
  (forall v, bitset_propogation_flag bs' v
             = bitset_propogation_flag bs v
               || (Nat.eqb v u &&
                   (negb (propogation_flag (nd u)) &&
                    propogation_flag (nd' u) &&
                    (num_successors (nd u) =? 0)))).
Proof.
  unfold NumShortestPathsChanges_op_bits, assert. intros E.
  cbv zeta in E. repeat rewrite modify_same in E.
  cbn [num_predecessors trim propogation_flag num_successors to_add
       set_num_predecessors set_trim set_propogation_flag] in E.
  destruct (trim (nd u) >? 0);
    [destruct (trim (nd u) <=? num_predecessors (nd u));
       [|discriminate];
     cbn [bind] in E;
     destruct (wrap32 (num_predecessors (nd u) - trim (nd u)) =? 0);
       [destruct (propogation_flag (nd u)) eqn:Ef; [discriminate|];
        cbn [bind negb] in E;
        destruct (num_successors (nd u) =? 0)|]|];
    cbn [bind] in E; repeat rewrite modify_same in E;
    cbn [to_add set_num_predecessors set_trim set_propogation_flag] in E;
    destruct (to_add (nd u) >? 0);
    injection E as <- <-;
    (split; [intros v Hv; now rewrite ?modify_other by congruence|]);
    repeat rewrite modify_same;
    unfold mark_num_shortest_paths, mark_propogation_flag, bitset_set;
    cbn [bitset_num_shortest_paths bitset_propogation_flag propogation_flag
         set_num_predecessors set_trim set_propogation_flag
         set_num_shortest_paths set_to_add negb andb];
    rewrite ?Ef; cbn [negb andb];
    split; intros v; destruct (Nat.eqb v u); cbn [andb orb];
    rewrite ?orb_false_r, ?orb_true_r, ?andb_false_r; try reflexivity.
  all: destruct (propogation_flag (nd u)); cbn [negb andb];
    now rewrite orb_false_r.
Qed.


Lemma DependencyPropChanges_op_bits_exact g u nd bs nd' bs' :
  DependencyPropChanges_op_bits infinity g u (nd, bs) = Ok (nd', bs') ->
  (forall v, v <> u -> nd' v = nd v) /\
  (forall v, bitset_dependency bs' v
             = bitset_dependency bs v
               || (Nat.eqb v u &&
                   (negb (current_length (nd u) =? infinity) &&
                    f32_gt_zero (to_add_float (nd u))))) /\
  (forall v, bitset_propogation_flag bs' v
             = bitset_propogation_flag bs v
               || (Nat.eqb v u &&
                   xorb (propogation_flag (nd u))
                     (propogation_flag (nd' u)))).
Proof.
  unfold DependencyPropChanges_op_bits, assert. intros E.
  destruct (current_length (nd u) =? infinity); cbn [negb] in E.
  - injection E as <- <-. split; [reflexivity|].
    split; intros v; rewrite ?xorb_nilpotent, ?andb_false_r;
      now rewrite orb_false_r.
  - destruct (f32_gt_zero (to_add_float (nd u)));
      cbv zeta in E; repeat rewrite modify_same in E;
      cbn [num_successors propogation_flag trim set_dependency
           set_to_add_float set_num_successors set_trim] in E;
      (destruct (num_successors (nd u) =? 0);
       destruct (propogation_flag (nd u)) eqn:Ef; cbn [andb] in E;
       [destruct (trim (nd u) =? 0); [|discriminate]
       |destruct (trim (nd u) >? 0);
        [destruct (trim (nd u) <=? num_successors (nd u));
           [|discriminate];
         cbn [bind] in E;
         destruct (wrap32 (num_successors (nd u) - trim (nd u)) =? 0)|]..]);
      cbn [bind negb] in E; try discriminate;
      injection E as <- <-;
      (split; [intros v Hv; now rewrite ?modify_other by congruence|]);
      repeat rewrite modify_same;
      unfold mark_dependency, mark_propogation_flag, bitset_set;
      cbn [bitset_dependency bitset_propogation_flag propogation_flag
           set_dependency set_to_add_float set_num_successors set_trim
           set_propogation_flag set_num_shortest_paths negb andb xorb];
      rewrite ?Ef; cbn [negb andb xorb];
      split; intros v; destruct (Nat.eqb v u); cbn [andb orb];
      rewrite ?orb_false_r, ?orb_true_r, ?andb_false_r; reflexivity.
Qed.

Ltac split_ifs E :=
  repeat (match type of E with
          | context [if ?b then _ else _] => destruct b
          end; cbn [bind] in E);
  try discriminate.

Lemma NumShortestPathsChanges_op_bits_keeps g u s s' :
  NumShortestPathsChanges_op_bits g u s = Ok s' ->
  (forall v, bitset_to_add (snd s') v = bitset_to_add (snd s) v) /\
  (forall v, bitset_to_add_float (snd s') v
             = bitset_to_add_float (snd s) v) /\
  (forall v, bitset_num_successors (snd s') v
             = bitset_num_successors (snd s) v) /\
  (forall v, bitset_num_predecessors (snd s') v
             = bitset_num_predecessors (snd s) v) /\
  (forall v, bitset_trim (snd s') v = bitset_trim (snd s) v) /\
  (forall v, bitset_current_length (snd s') v
             = bitset_current_length (snd s) v) /\
  (forall v, bitset_dependency (snd s') v = bitset_dependency (snd s) v).
Proof.
  destruct s as [nd bs].
  unfold NumShortestPathsChanges_op_bits, assert. intros E.
  split_ifs E; injection E as <-; repeat split; reflexivity.
Qed.

Lemma DependencyPropChanges_op_bits_keeps g u s s' :
  DependencyPropChanges_op_bits infinity g u s = Ok s' ->
  (forall v, bitset_to_add (snd s') v = bitset_to_add (snd s) v) /\
  (forall v, bitset_to_add_float (snd s') v
             = bitset_to_add_float (snd s) v) /\
  (forall v, bitset_num_shortest_paths (snd s') v
             = bitset_num_shortest_paths (snd s) v) /\
  (forall v, bitset_num_successors (snd s') v
             = bitset_num_successors (snd s) v) /\
  (forall v, bitset_num_predecessors (snd s') v
             = bitset_num_predecessors (snd s) v) /\
  (forall v, bitset_trim (snd s') v = bitset_trim (snd s) v) /\
  (forall v, bitset_current_length (snd s') v
             = bitset_current_length (snd s) v).
Proof.
  destruct s as [nd bs].
  unfold DependencyPropChanges_op_bits, assert. intros E.
  destruct (negb _); [|injection E as <-; repeat split; reflexivity].
  destruct (f32_gt_zero (to_add_float (nd u)));
    split_ifs E; injection E as <-; repeat split; reflexivity.
Qed.

Lemma all_nodes_NoDup g : NoDup (all_nodes g).
Proof. apply seq_NoDup. Qed.

(** X14. The bitsets of a NumShortestPathsChanges pass.  With its bitsets
    the pass computes the same node data, and fails on the same
    assertion, as without.  When it completes, the nodes it adds to
    bitset_num_shortest_paths are exactly the local nodes that had
    to_add > 0, and the nodes it adds to bitset_propogation_flag are
    exactly the local nodes whose flag it raised and that have no
    successor: a flag raised at a node with successors is not marked.
    It changes no other bitset. *)
Theorem X14_NumShortestPathsChanges_bitsets g nd bs :
  res_map fst
    (do_all_res (all_nodes g) (NumShortestPathsChanges_op_bits g) (nd, bs))
  = do_all_res (all_nodes g) (NumShortestPathsChanges_op g) nd /\
  forall nd' bs',
    do_all_res (all_nodes g) (NumShortestPathsChanges_op_bits g) (nd, bs)
    = Ok (nd', bs') ->
    (forall v, bitset_num_shortest_paths bs' v
               = bitset_num_shortest_paths bs v
                 || ((v <? numNodes g)%nat && (to_add (nd v) >? 0))) /\
    (forall v, bitset_propogation_flag bs' v
               = bitset_propogation_flag bs v
                 || ((v <? numNodes g)%nat &&
                     (negb (propogation_flag (nd v)) &&
                      propogation_flag (nd' v) &&
                      (num_successors (nd v) =? 0)))) /\
    (forall v, bitset_to_add bs' v = bitset_to_add bs v) /\
    (forall v, bitset_to_add_float bs' v = bitset_to_add_float bs v) /\
    (forall v, bitset_num_successors bs' v = bitset_num_successors bs v) /\
    (forall v, bitset_num_predecessors bs' v
               = bitset_num_predecessors bs v) /\
    (forall v, bitset_trim bs' v = bitset_trim bs v) /\
    (forall v, bitset_current_length bs' v = bitset_current_length bs v) /\
    (forall v, bitset_dependency bs' v = bitset_dependency bs v).
Proof.
  split.
  - apply (do_all_res_fst (NumShortestPathsChanges_op_bits g)
             (NumShortestPathsChanges_op g)
             (NumShortestPathsChanges_op_bits_data g)).
  - intros nd' bs' E.
    pose proof (do_all_res_marks_exactly bitset_num_shortest_paths
                  (fun d _ => to_add d >? 0)
                  (NumShortestPathsChanges_op_bits g)
                  (fun u a b a' b' H =>
                     let H' := NumShortestPathsChanges_op_bits_exact
                                 g u a b a' b' H in
                     conj (proj1 H') (proj1 (proj2 H')))
                  (all_nodes g) (all_nodes_NoDup g) nd bs nd' bs' E)
      as [_ Hp].
    pose proof (do_all_res_marks_exactly bitset_propogation_flag
                  (fun d d' => negb (propogation_flag d) &&
                               propogation_flag d' &&
                               (num_successors d =? 0))
                  (NumShortestPathsChanges_op_bits g)
                  (fun u a b a' b' H =>
                     let H' := NumShortestPathsChanges_op_bits_exact
                                 g u a b a' b' H in
                     conj (proj1 H') (proj2 (proj2 H')))
                  (all_nodes g) (all_nodes_NoDup g) nd bs nd' bs' E)
      as [_ Hf].
    split; [intros v; rewrite Hp, mem_all_nodes; reflexivity|].
    split; [intros v; rewrite Hf, mem_all_nodes; reflexivity|].
    pose proof (fun b Hb => do_all_res_keeps b _ Hb _ _ _ E) as K.
    cbn [snd] in K.
    repeat split; intros v; apply K; intros u s s' Hs;
      apply (NumShortestPathsChanges_op_bits_keeps g u s s' Hs).
Qed.

Lemma X14_NumShortestPathsChanges_bitsets_witness :
  bitset_num_shortest_paths (snd diamond_NumShortestPathsChanges_bits) 3%nat
  = true /\
  bitset_propogation_flag (snd diamond_NumShortestPathsChanges_bits) 3%nat
  = true /\
  bitset_trim (snd diamond_NumShortestPathsChanges_bits) 3%nat = false.
Proof.
  assert (E : do_all_res (all_nodes diamond_graph)
                (NumShortestPathsChanges_op_bits diamond_graph)
                (diamond_before_NumShortestPathsChanges, no_bits)
              = Ok (fst diamond_NumShortestPathsChanges_bits,
                    snd diamond_NumShortestPathsChanges_bits)).
  { rewrite <- surjective_pairing. apply final_Ok. vm_compute. exact I. }
  pose proof (X14_NumShortestPathsChanges_bitsets diamond_graph
                diamond_before_NumShortestPathsChanges no_bits) as [_ H].
  destruct (H _ _ E) as (Hp & Hf & _ & _ & _ & _ & Ht & _).
  split; [rewrite Hp; vm_compute; reflexivity|].
  split; [rewrite Hf; vm_compute; reflexivity|].
  rewrite Ht. reflexivity.
Defined.

(** X15. The bitsets of a DependencyPropChanges pass.  With its bitsets
    the pass computes the same node data, and fails on the same
    assertion, as without.  When it completes, the nodes it adds to
    bitset_dependency are exactly the visited local nodes that had
    to_add_float > 0, and the nodes it adds to bitset_propogation_flag
    are exactly the local nodes whose flag it changed, raised or reset.
    It changes no other bitset: bitset_num_shortest_paths stays as it
    was, also at the nodes whose num_shortest_paths the pass resets. *)
Theorem X15_DependencyPropChanges_bitsets g nd bs :
  res_map fst
    (do_all_res (all_nodes g) (DependencyPropChanges_op_bits infinity g) (nd, bs))
  = do_all_res (all_nodes g) (DependencyPropChanges_op infinity g) nd /\
  forall nd' bs',
    do_all_res (all_nodes g) (DependencyPropChanges_op_bits infinity g) (nd, bs)
    = Ok (nd', bs') ->
    (forall v, bitset_dependency bs' v
               = bitset_dependency bs v
                 || ((v <? numNodes g)%nat &&
                     (negb (current_length (nd v) =? infinity) &&
                      f32_gt_zero (to_add_float (nd v))))) /\
    (forall v, bitset_propogation_flag bs' v
               = bitset_propogation_flag bs v
                 || ((v <? numNodes g)%nat &&
                     xorb (propogation_flag (nd v))
                       (propogation_flag (nd' v)))) /\
    (forall v, bitset_to_add bs' v = bitset_to_add bs v) /\
    (forall v, bitset_to_add_float bs' v = bitset_to_add_float bs v) /\
    (forall v, bitset_num_shortest_paths bs' v
               = bitset_num_shortest_paths bs v) /\
    (forall v, bitset_num_successors bs' v = bitset_num_successors bs v) /\
    (forall v, bitset_num_predecessors bs' v
               = bitset_num_predecessors bs v) /\
    (forall v, bitset_trim bs' v = bitset_trim bs v) /\
    (forall v, bitset_current_length bs' v = bitset_current_length bs v).
Proof.
  split.
  - apply (do_all_res_fst (DependencyPropChanges_op_bits infinity g)
             (DependencyPropChanges_op infinity g)
             (DependencyPropChanges_op_bits_data g)).
  - intros nd' bs' E.
    pose proof (do_all_res_marks_exactly bitset_dependency
                  (fun d _ => negb (current_length d =? infinity) &&
                              f32_gt_zero (to_add_float d))
                  (DependencyPropChanges_op_bits infinity g)
                  (fun u a b a' b' H =>
                     let H' := DependencyPropChanges_op_bits_exact
                                 g u a b a' b' H in
                     conj (proj1 H') (proj1 (proj2 H')))
                  (all_nodes g) (all_nodes_NoDup g) nd bs nd' bs' E)
      as [_ Hp].
    pose proof (do_all_res_marks_exactly bitset_propogation_flag
                  (fun d d' => xorb (propogation_flag d)
                                 (propogation_flag d'))
                  (DependencyPropChanges_op_bits infinity g)
                  (fun u a b a' b' H =>
                     let H' := DependencyPropChanges_op_bits_exact
                                 g u a b a' b' H in
                     conj (proj1 H') (proj2 (proj2 H')))
                  (all_nodes g) (all_nodes_NoDup g) nd bs nd' bs' E)
      as [_ Hf].
    split; [intros v; rewrite Hp, mem_all_nodes; reflexivity|].
    split; [intros v; rewrite Hf, mem_all_nodes; reflexivity|].
    pose proof (fun b Hb => do_all_res_keeps b _ Hb _ _ _ E) as K.
    cbn [snd] in K.
    repeat split; intros v; apply K; intros u s s' Hs;
      apply (DependencyPropChanges_op_bits_keeps g u s s' Hs).
Qed.


Lemma X15_DependencyPropChanges_bitsets_witness :
  bitset_dependency (snd diamond_DependencyPropChanges_bits) 1%nat = true /\
  bitset_propogation_flag (snd diamond_DependencyPropChanges_bits) 1%nat
  = true /\
  bitset_propogation_flag (snd diamond_DependencyPropChanges_bits) 3%nat
  = true /\
  bitset_num_shortest_paths (snd diamond_DependencyPropChanges_bits) 3%nat
  = false.
Proof.
  assert (E : do_all_res (all_nodes diamond_graph)
                (DependencyPropChanges_op_bits infinity diamond_graph)
                (diamond_before_DependencyPropChanges, no_bits)
              = Ok (fst diamond_DependencyPropChanges_bits,
                    snd diamond_DependencyPropChanges_bits)).
  { rewrite <- surjective_pairing. apply final_Ok. vm_compute. exact I. }
  pose proof (X15_DependencyPropChanges_bitsets diamond_graph
                diamond_before_DependencyPropChanges no_bits) as [_ H].
  destruct (H _ _ E) as (Hd & Hf & _ & _ & Hp & _).
  split; [rewrite Hd; vm_compute; reflexivity|].
  split; [rewrite Hf; vm_compute; reflexivity|].
  split; [rewrite Hf; vm_compute; reflexivity|].
  rewrite Hp. reflexivity.
Defined.
